(** * pgn-chess-tree: a shallow embedding of the chess engine and the PGN tree builder

    The development follows the TypeScript sources:
    - [Js]     the JavaScript string, array and number primitives the code relies on;
    - [Types]  chess/types.ts (colours, piece types, squares, castling masks);
    - [Move]   chess/move.ts;
    - [Piece]  chess/piece.ts;
    - [Board]  chess/board.ts;
    - [Tree]   pgn/game-node.ts, pgn/game.ts and pgn/tree-builder.ts.

    Conventions.  A JavaScript [number] that the code uses as an integer is a
    [Z]; a string is a list of 8-bit characters with ASCII case mapping (FEN,
    SAN, UCI and PGN are ASCII notations); [undefined] and [null] are kept
    apart wherever the code can tell them apart.  A method that may throw
    returns a [Res]; a method that mutates its receiver returns the receiver's
    new state as well, also when it throws.

    Objects.  A [Board] owns its [pieces] array and its move stack: every
    assignment to [pieces] in the source stores a new array ([[...x]],
    [new Array(64)]), and a [Piece] and a [Move] are immutable, so a board is
    a value.  Where boards are shared between holders ([GameNode.board()]),
    and for the nodes of a game tree, objects live in a store and are named
    by references. *)

From Stdlib Require Import ZArith String Ascii List Bool Lia.
From Stdlib Require Decimal DecimalString DecimalZ DecimalPos.
Import ListNotations.
Open Scope Z_scope.

Set Implicit Arguments.

(* ===================================================================== *)
(** ** JavaScript primitives *)
(* ===================================================================== *)

Module Js.

Definition jsstr := list ascii.

(** String literals of the source. *)
Definition lit (s : string) : jsstr := list_ascii_of_string s.
Arguments lit s%_string.

Definition code (c : ascii) : Z := Z.of_N (N_of_ascii c).
Definition chr (z : Z) : ascii := ascii_of_N (Z.to_N z).

Fixpoint str_eqb (a b : jsstr) : bool :=
  match a, b with
  | [], [] => true
  | x :: a', y :: b' => Ascii.eqb x y && str_eqb a' b'
  | _, _ => false
  end.

(** The outcome of a call: it returns a value or throws. *)
Inductive Error : Type :=
| NoPieceAt (sq : option jsstr)      (* `No piece at ${squareName(sq)}` *)
| InvalidSan (san : jsstr)
| IllegalSan (san : jsstr)           (* `Illegal move: ${san}` *)
| InvalidFen (fen : jsstr)
| InvalidPieceSymbol (c : jsstr)
| InvalidUci (uci : jsstr)
| InvalidPromotion (c : jsstr)
| NoNotation
| InvalidDropSquare
| InvalidTargetSquare
| NoLegalMoveFor (san : jsstr)
| TypeError
| RangeError.                        (* call stack exhausted *)

Inductive Res (A : Type) : Type :=
| Ret (a : A)
| Thr (e : Error).
Arguments Ret {A} a.
Arguments Thr {A} e.

Definition bind {A B} (r : Res A) (k : A -> Res B) : Res B :=
  match r with
  | Ret a => k a
  | Thr e => Thr e
  end.

Definition returned {A} (r : Res A) : bool :=
  match r with Ret _ => true | Thr _ => false end.

(** [l[i]]: [None] stands for [undefined]. *)
Definition at_ {A} (l : list A) (i : Z) : option A :=
  if i <? 0 then None else nth_error l (Z.to_nat i).

(** [l.indexOf(x)], -1 when [x] is absent. *)
Fixpoint indexOf_from {A} (eqb : A -> A -> bool) (l : list A) (x : A) (i : Z) : Z :=
  match l with
  | [] => -1
  | y :: l' => if eqb y x then i else indexOf_from eqb l' x (i + 1)
  end.
Definition indexOf {A} (eqb : A -> A -> bool) (l : list A) (x : A) : Z :=
  indexOf_from eqb l x 0.

(** String concatenation and template literals print [undefined] by name. *)
Definition show (o : option jsstr) : jsstr :=
  match o with Some s => s | None => lit "undefined" end.

Definition len {A} (l : list A) : Z := Z.of_nat (length l).

(** [s.slice(a, b)] with the relative-index rules of ECMAScript. *)
Definition rel_index (n k : Z) : Z :=
  if k <? 0 then Z.max (n + k) 0 else Z.min k n.
Definition slice {A} (s : list A) (a : Z) (b : option Z) : list A :=
  let n := len s in
  let from := rel_index n a in
  let to := match b with Some b => rel_index n b | None => n end in
  firstn (Z.to_nat (to - from)) (skipn (Z.to_nat from) s).

(** ASCII case mapping. *)
Definition toLowerChar (c : ascii) : ascii :=
  if (65 <=? code c) && (code c <=? 90) then chr (code c + 32) else c.
Definition toUpperChar (c : ascii) : ascii :=
  if (97 <=? code c) && (code c <=? 122) then chr (code c - 32) else c.
Definition toLowerCase (s : jsstr) : jsstr := map toLowerChar s.
Definition toUpperCase (s : jsstr) : jsstr := map toUpperChar s.

(** White space of [\s] and of [trim] among the 8-bit characters. *)
Definition isSpace (c : ascii) : bool :=
  let k := code c in
  ((9 <=? k) && (k <=? 13)) || (k =? 32) || (k =? 160).

Fixpoint dropWhile {A} (p : A -> bool) (l : list A) : list A :=
  match l with
  | [] => []
  | x :: l' => if p x then dropWhile p l' else l
  end.
Fixpoint takeWhile {A} (p : A -> bool) (l : list A) : list A :=
  match l with
  | [] => []
  | x :: l' => if p x then x :: takeWhile p l' else []
  end.
Definition dropWhileEnd {A} (p : A -> bool) (l : list A) : list A :=
  rev (dropWhile p (rev l)).

Definition trim (s : jsstr) : jsstr := dropWhileEnd isSpace (dropWhile isSpace s).

(** [s.split(sep)] for a one-character separator. *)
Fixpoint split_on (sep : ascii) (s : jsstr) (cur : jsstr) : list jsstr :=
  match s with
  | [] => [rev cur]
  | c :: s' =>
      if Ascii.eqb c sep then rev cur :: split_on sep s' []
      else split_on sep s' (c :: cur)
  end.
Definition split (sep : ascii) (s : jsstr) : list jsstr := split_on sep s [].

(** [s.split(/\s+/)]: the pieces between the maximal runs of white space. *)
Fixpoint split_ws_from (s : jsstr) (cur : jsstr) (inrun : bool) : list jsstr :=
  match s with
  | [] => [rev cur]
  | c :: s' =>
      if isSpace c then
        if inrun then split_ws_from s' cur true
        else rev cur :: split_ws_from s' [] true
      else split_ws_from s' (c :: cur) false
  end.
Definition split_ws (s : jsstr) : list jsstr := split_ws_from s [] false.

(** [parts.join(sep)]. *)
Fixpoint join (sep : jsstr) (parts : list jsstr) : jsstr :=
  match parts with
  | [] => []
  | [p] => p
  | p :: rest => p ++ sep ++ join sep rest
  end.

(** The decimal digits of an integer, with its sign. *)
Definition digits (z : Z) : jsstr :=
  list_ascii_of_string (DecimalString.NilZero.string_of_int (Z.to_int z)).

(** The integers of magnitude below 2^53 are Number values, and arithmetic on
    them is exact: [Number.isSafeInteger] up to the bound itself. *)
Definition SAFE_BOUND : Z := 9007199254740992.
Definition isSafe (z : Z) : bool := Z.abs z <? SAFE_BOUND.

(** The Number value nearest to the integer [v >= 0]: 53 significant bits,
    ties to even.  The overflow to [Infinity], from 2^1024 on, is not
    modelled. *)
Definition roundDouble (v : Z) : Z :=
  if v <? SAFE_BOUND then v
  else
    let e := Z.log2 v - 52 in
    let q := Z.shiftr v e in
    let r := v - Z.shiftl q e in
    let half := Z.shiftl 1 (e - 1) in
    if (r >? half) || ((r =? half) && Z.odd q) then Z.shiftl (q + 1) e
    else Z.shiftl q e.

(** Number::toString looks for the least number [k] of digits such that some
    [s] of [k] digits, followed by zeros, is read as [x]; of two such [s] it
    takes the closer one, then the even one.  [shortCandidate] gives [s] and
    the number of zeros for one [k], where [n] is the number of digits of
    [x]. *)
Definition shortCandidate (x n k : Z) : option (Z * Z) :=
  let e := n - k in
  let p := 10 ^ e in
  let lo := x / p in
  let hi := lo + 1 in
  let okLo := roundDouble (lo * p) =? x in
  let okHi := roundDouble (hi * p) =? x in
  let pick (c : Z) := if c =? 10 ^ k then Some (1, n) else Some (c, e) in
  if okLo && okHi then
    if x - lo * p <? hi * p - x then pick lo
    else if hi * p - x <? x - lo * p then pick hi
    else if Z.even lo then pick lo else pick hi
  else if okLo then pick lo
  else if okHi then pick hi
  else None.

Fixpoint shortest (x n : Z) (ks : list Z) : Z * Z :=
  match ks with
  | [] => (x, 0)
  | k :: ks' =>
      match shortCandidate x n k with
      | Some r => r
      | None => shortest x n ks'
      end
  end.

(** The text of the Number nearest to [x >= 2^53]: its shortest digits,
    followed by zeros below 10^21 and in exponent notation from there on. *)
Definition numberText (x : Z) : jsstr :=
  let x := roundDouble x in
  let n := Z.of_nat (length (digits x)) in
  let '(s, e) := shortest x n (map (fun k => 1 + Z.of_nat k) (seq 0 (Z.to_nat (Z.min n 17)))) in
  let ds := digits s in
  let point := Z.of_nat (length ds) + e in
  if point <=? 21 then ds ++ repeat "0"%char (Z.to_nat e)
  else
    match ds with
    | [] => []
    | d :: rest =>
        (d :: match rest with [] => [] | _ :: _ => "."%char :: rest end)
        ++ list_ascii_of_string "e+" ++ digits (point - 1)
    end.

(** [n.toString()] for a Number [n] whose value is the integer [z]: all the
    digits of a safe integer; beyond, the shortest digits that identify the
    Number, in exponent notation from 10^21 on (1e+21). *)
Definition toString (z : Z) : jsstr :=
  if isSafe z then digits z
  else (if z <? 0 then ["-"%char] else []) ++ numberText (Z.abs z).

(** [parseInt(s)] without a radix: leading white space, an optional sign, then
    the longest run of digits (hexadecimal after [0x]), as the nearest Number;
    [None] is [NaN]. *)
Definition isDigit (c : ascii) : bool := (48 <=? code c) && (code c <=? 57).
Definition hexVal (c : ascii) : option Z :=
  let k := code c in
  if (48 <=? k) && (k <=? 57) then Some (k - 48)
  else if (97 <=? k) && (k <=? 102) then Some (k - 87)
  else if (65 <=? k) && (k <=? 70) then Some (k - 55)
  else None.
Fixpoint hexRun (s : jsstr) (acc : option Z) : option Z :=
  match s with
  | [] => acc
  | c :: s' =>
      match hexVal c with
      | Some d => hexRun s' (Some (16 * match acc with Some a => a | None => 0 end + d))
      | None => acc
      end
  end.
Definition decRun (s : jsstr) : option Z :=
  match DecimalString.NilZero.uint_of_string (string_of_list_ascii (takeWhile isDigit s)) with
  | Some u => Some (Z.of_uint u)
  | None => None
  end.
Definition isHexPrefix (s : jsstr) : bool :=
  match s with
  | c0 :: cx :: _ => (code c0 =? 48) && ((code cx =? 120) || (code cx =? 88))
  | _ => false
  end.
Definition parseInt (s : jsstr) : option Z :=
  let s1 := dropWhile isSpace s in
  let '(sign, s2) :=
    match s1 with
    | c :: r => if code c =? 45 then (-1, r) else if code c =? 43 then (1, r) else (1, s1)
    | [] => (1, s1)
    end in
  let mag := if isHexPrefix s2 then hexRun (skipn 2 s2) None else decRun s2 in
  match mag with
  | Some m => Some (sign * roundDouble m)
  | None => None
  end.

(** 32-bit integer view used by [&], [|], [~], [>>] and [^]. *)
Definition toInt32 (z : Z) : Z := (z + 2147483648) mod 4294967296 - 2147483648.
Definition band (a b : Z) : Z := Z.land (toInt32 a) (toInt32 b).
Definition bor (a b : Z) : Z := Z.lor (toInt32 a) (toInt32 b).
Definition bnot (a : Z) : Z := Z.lnot (toInt32 a).
Definition shr (a k : Z) : Z := Z.shiftr (toInt32 a) k.
Definition bxor (a b : Z) : Z := Z.lxor (toInt32 a) (toInt32 b).

(** Integers [lo, lo+1, ..., lo+n-1], the index range of a counting loop. *)
Definition range (lo : Z) (n : nat) : list Z := map (fun k => lo + Z.of_nat k) (seq 0 n).

End Js.
Import Js.

(* ===================================================================== *)
(** ** chess/types.ts *)
(* ===================================================================== *)

Module Types.

(** Colours are booleans: white is [true]. *)
Definition Color := bool.
Definition WHITE : Color := true.
Definition BLACK : Color := false.

(** [type PieceType = 1 | 2 | 3 | 4 | 5 | 6]. *)
Inductive PieceType : Type := PAWN | KNIGHT | BISHOP | ROOK | QUEEN | KING.

Definition pt_code (t : PieceType) : Z :=
  match t with
  | PAWN => 1 | KNIGHT => 2 | BISHOP => 3 | ROOK => 4 | QUEEN => 5 | KING => 6
  end.

Definition pt_of_code (z : Z) : option PieceType :=
  match z with
  | 1 => Some PAWN | 2 => Some KNIGHT | 3 => Some BISHOP
  | 4 => Some ROOK | 5 => Some QUEEN | 6 => Some KING
  | _ => None
  end.

Definition pt_eqb (a b : PieceType) : bool := pt_code a =? pt_code b.

Definition PIECE_SYMBOLS : list (option jsstr) :=
  [None; Some (lit "p"); Some (lit "n"); Some (lit "b");
   Some (lit "r"); Some (lit "q"); Some (lit "k")].

(** Squares are numbers; the board uses 0..63 with a1 = 0 and h8 = 63. *)
Definition Square := Z.

Definition A1 : Square := 0.
Definition C1 : Square := 2.
Definition D1 : Square := 3.
Definition E1 : Square := 4.
Definition F1 : Square := 5.
Definition G1 : Square := 6.
Definition H1 : Square := 7.
Definition A8 : Square := 56.
Definition C8 : Square := 58.
Definition D8 : Square := 59.
Definition E8 : Square := 60.
Definition F8 : Square := 61.
Definition G8 : Square := 62.
Definition H8 : Square := 63.

Definition SQUARE_NAMES : list jsstr := map list_ascii_of_string
  ["a1"; "b1"; "c1"; "d1"; "e1"; "f1"; "g1"; "h1";
   "a2"; "b2"; "c2"; "d2"; "e2"; "f2"; "g2"; "h2";
   "a3"; "b3"; "c3"; "d3"; "e3"; "f3"; "g3"; "h3";
   "a4"; "b4"; "c4"; "d4"; "e4"; "f4"; "g4"; "h4";
   "a5"; "b5"; "c5"; "d5"; "e5"; "f5"; "g5"; "h5";
   "a6"; "b6"; "c6"; "d6"; "e6"; "f6"; "g6"; "h6";
   "a7"; "b7"; "c7"; "d7"; "e7"; "f7"; "g7"; "h7";
   "a8"; "b8"; "c8"; "d8"; "e8"; "f8"; "g8"; "h8"]%string.

Definition FILE_NAMES : list jsstr := map list_ascii_of_string
  ["a"; "b"; "c"; "d"; "e"; "f"; "g"; "h"]%string.

Definition squareFile (square : Square) : Z := band square 7.
Definition squareRank (square : Square) : Z := shr square 3.
Definition squareFromFileRank (file rank : Z) : Square := rank * 8 + file.

(** [SQUARE_NAMES[square]]: [undefined] outside the table. *)
Definition squareName (square : Square) : option jsstr := at_ SQUARE_NAMES square.

Definition parseSquare (name : jsstr) : option Square :=
  let idx := indexOf str_eqb SQUARE_NAMES (toLowerCase name) in
  if idx >=? 0 then Some idx else None.

(** [square ^ 56]. *)
Definition squareMirror (square : Square) : Square := bxor square 56.

(** The Chebyshev distance of two squares. *)
Definition squareDistance (sq1 sq2 : Square) : Z :=
  let file1 := squareFile sq1 in
  let rank1 := squareRank sq1 in
  let file2 := squareFile sq2 in
  let rank2 := squareRank sq2 in
  Z.max (Z.abs (file1 - file2)) (Z.abs (rank1 - rank2)).

Definition CASTLING_WHITE_KINGSIDE : Z := 1.
Definition CASTLING_WHITE_QUEENSIDE : Z := 2.
Definition CASTLING_BLACK_KINGSIDE : Z := 4.
Definition CASTLING_BLACK_QUEENSIDE : Z := 8.

Definition STARTING_FEN : jsstr :=
  lit "rnbqkbnr/pppppppp/8/8/8/8/PPPPPPPP/RNBQKBNR w KQkq - 0 1".

End Types.
Import Types.

(* ===================================================================== *)
(** ** chess/move.ts *)
(* ===================================================================== *)

Module Move.

(** The [drop] field is kept as the number the constructor received: the cast
    in [fromUci] can store -1 there. *)
Record t : Type := mk {
  fromSquare : Square;
  toSquare : Square;
  promotion : option PieceType;
  drop : option Z
}.

Definition opt_eqb {A} (eqb : A -> A -> bool) (a b : option A) : bool :=
  match a, b with
  | None, None => true
  | Some x, Some y => eqb x y
  | _, _ => false
  end.

(** [Move.null()]. *)
Definition null : t := mk 0 0 None None.

Definition isNull (m : t) : bool :=
  (fromSquare m =? 0) && (toSquare m =? 0)
  && opt_eqb pt_eqb (promotion m) None && opt_eqb Z.eqb (drop m) None.

Definition equals (m other : t) : bool :=
  (fromSquare m =? fromSquare other) && (toSquare m =? toSquare other)
  && opt_eqb pt_eqb (promotion m) (promotion other)
  && opt_eqb Z.eqb (drop m) (drop other).

(** [a + b] on two values that are strings or [undefined]; the sum of two
    [undefined] is the number [NaN], which prints as NaN. *)
Definition plus (a b : option jsstr) : jsstr :=
  match a, b with
  | None, None => lit "NaN"
  | _, _ => show a ++ show b
  end.

Definition DROP_SYMBOLS : list jsstr := map list_ascii_of_string
  [""; "P"; "N"; "B"; "R"; "Q"; "K"]%string.
Definition PROMOTION_SUFFIX : list jsstr := map list_ascii_of_string
  [""; ""; "n"; "b"; "r"; "q"]%string.

Definition uci (m : t) : jsstr :=
  match drop m with
  | Some d =>
      let pieceSymbol := at_ DROP_SYMBOLS d in
      show pieceSymbol ++ lit "@" ++ show (squareName (toSquare m))
  | None =>
      let result := plus (squareName (fromSquare m)) (squareName (toSquare m)) in
      match promotion m with
      | Some p => result ++ show (at_ PROMOTION_SUFFIX (pt_code p))
      | None => result
      end
  end.

Definition promotionMap (c : jsstr) : option PieceType :=
  if str_eqb c (lit "n") then Some KNIGHT
  else if str_eqb c (lit "b") then Some BISHOP
  else if str_eqb c (lit "r") then Some ROOK
  else if str_eqb c (lit "q") then Some QUEEN
  else None.

Definition includes (c : ascii) (s : jsstr) : bool := existsb (Ascii.eqb c) s.

Definition fromUci (uci : jsstr) : Res t :=
  if len uci <? 4 then Thr (InvalidUci uci)
  else if str_eqb uci (lit "0000") then Ret null
  else if includes "@"%char uci then
    let pieceSymbol := toUpperCase (slice uci 0 (Some 1)) in
    let toName := slice uci 2 (Some 4) in
    match parseSquare toName with
    | None => Thr (InvalidUci uci)
    | Some toSquare =>
        let pieceType := indexOf str_eqb DROP_SYMBOLS pieceSymbol in
        Ret (mk 0 toSquare None (Some pieceType))
    end
  else
    let fromName := slice uci 0 (Some 2) in
    let toName := slice uci 2 (Some 4) in
    let promotionChar :=
      if len uci >? 4 then Some (toLowerCase (slice uci 4 (Some 5))) else None in
    match parseSquare fromName, parseSquare toName with
    | Some fromSquare, Some toSquare =>
        match promotionChar with
        | None => Ret (mk fromSquare toSquare None None)
        | Some c =>
            match promotionMap c with
            | Some p => Ret (mk fromSquare toSquare (Some p) None)
            | None => Thr (InvalidPromotion c)
            end
        end
    | _, _ => Thr (InvalidUci uci)
    end.

(** Structural equality of outcomes, for checking by evaluation. *)
Definition res_eqb (a b : Res t) : bool :=
  match a, b with
  | Ret x, Ret y => equals x y
  | _, _ => false
  end.

End Move.

(* ===================================================================== *)
(** ** chess/piece.ts *)
(* ===================================================================== *)

Module Piece.

Record t : Type := mk {
  pieceType : PieceType;
  color : Color
}.

Definition equals (p other : t) : bool :=
  pt_eqb (pieceType p) (pieceType other) && Bool.eqb (color p) (color other).

Definition symbol (p : t) : jsstr :=
  let symbol := show (match at_ PIECE_SYMBOLS (pt_code (pieceType p)) with
                      | Some s => s | None => None end) in
  if Bool.eqb (color p) WHITE then toUpperCase symbol else symbol.

Definition fromSymbol (symbol : jsstr) : Res t :=
  let lower := toLowerCase symbol in
  let idx := indexOf (Move.opt_eqb str_eqb) PIECE_SYMBOLS (Some lower) in
  match pt_of_code idx with
  | None => Thr (InvalidPieceSymbol symbol)
  | Some pieceType =>
      let color := str_eqb symbol (toUpperCase symbol) in
      Ret (mk pieceType color)
  end.

(** [this.pieceType + (this.color ? 6 : 0)]. *)
Definition hash (p : t) : Z := pt_code (pieceType p) + (if color p then 6 else 0).

End Piece.

(* ===================================================================== *)
(** ** chess/board.ts *)
(* ===================================================================== *)

Module Board.

(** *** The [pieces] array *)

(** An element read from [pieces] is [undefined] (outside the array, or a
    hole), [null] (an empty square) or a piece. *)
Inductive Slot : Type :=
| Undefined
| Null
| Has (p : Piece.t).

Definition truthy (s : Slot) : bool :=
  match s with Has _ => true | _ => false end.
Definition isNull (s : Slot) : bool :=
  match s with Null => true | _ => false end.

Definition slot_eqb (a b : Slot) : bool :=
  match a, b with
  | Undefined, Undefined => true
  | Null, Null => true
  | Has p, Has q => Piece.equals p q
  | _, _ => false
  end.

(** A JavaScript array indexed by integers: the elements [0 .. length-1] and
    the properties a write at a negative index creates.  A write past the end
    extends the array and leaves holes. *)
Record PieceArray : Type := mkArr {
  items : list Slot;
  props : list (Z * Slot)
}.

Fixpoint assoc (k : Z) (l : list (Z * Slot)) : option Slot :=
  match l with
  | [] => None
  | (k', v) :: l' => if k' =? k then Some v else assoc k l'
  end.

Fixpoint set_nth (l : list Slot) (n : nat) (v : Slot) : list Slot :=
  match l, n with
  | [], O => [v]
  | [], S n' => Undefined :: set_nth [] n' v
  | _ :: l', O => v :: l'
  | x :: l', S n' => x :: set_nth l' n' v
  end.

Definition get (a : PieceArray) (i : Z) : Slot :=
  if i <? 0 then match assoc i (props a) with Some v => v | None => Undefined end
  else nth (Z.to_nat i) (items a) Undefined.

Definition set (a : PieceArray) (i : Z) (v : Slot) : PieceArray :=
  if i <? 0 then mkArr (items a) ((i, v) :: props a)
  else mkArr (set_nth (items a) (Z.to_nat i) v) (props a).

(** [[...a]] copies the elements only. *)
Definition spread (a : PieceArray) : PieceArray := mkArr (items a) [].

(** [a.fill(v)]. *)
Definition fill (a : PieceArray) (v : Slot) : PieceArray :=
  mkArr (map (fun _ => v) (items a)) (props a).

(** [new Array(64).fill(null)]. *)
Definition empty64 : PieceArray := mkArr (repeat Null 64) [].

(** *** State *)

Record BoardState : Type := mkState {
  st_turn : Color;
  st_castlingRights : Z;
  st_epSquare : option Square;
  st_halfmoveClock : Z;
  st_fullmoveNumber : Z;
  st_pieces : PieceArray
}.

Record StackEntry : Type := mkEntry {
  se_move : Move.t;
  se_capturedPiece : Slot;
  se_prevState : BoardState
}.

(** The move stack grows at its end, as [moveStack.push] does. *)
Record t : Type := mk {
  pieces : PieceArray;
  turn : Color;
  castlingRights : Z;
  epSquare : option Square;
  halfmoveClock : Z;
  fullmoveNumber : Z;
  moveStack : list StackEntry
}.

Definition with_pieces (b : t) (a : PieceArray) : t :=
  mk a (turn b) (castlingRights b) (epSquare b) (halfmoveClock b)
     (fullmoveNumber b) (moveStack b).
Definition with_stack (b : t) (s : list StackEntry) : t :=
  mk (pieces b) (turn b) (castlingRights b) (epSquare b) (halfmoveClock b)
     (fullmoveNumber b) s.

Definition pieceAt (b : t) (square : Square) : Slot := get (pieces b) square.
Definition setPieceAt (b : t) (square : Square) (piece : Slot) : t :=
  with_pieces b (set (pieces b) square piece).

(** [king(color)]: the first square, from a1 upward, that holds that king. *)
Definition isKingOf (color : Color) (s : Slot) : bool :=
  match s with
  | Has p => pt_eqb (Piece.pieceType p) KING && Bool.eqb (Piece.color p) color
  | _ => false
  end.
Definition king (b : t) (color : Color) : option Square :=
  find (fun sq => isKingOf color (pieceAt b sq)) (range 0 64).

Definition saveState (b : t) : BoardState :=
  mkState (turn b) (castlingRights b) (epSquare b) (halfmoveClock b)
          (fullmoveNumber b) (spread (pieces b)).

Definition restoreState (b : t) (state : BoardState) : t :=
  mk (spread (st_pieces state)) (st_turn state) (st_castlingRights state)
     (st_epSquare state) (st_halfmoveClock state) (st_fullmoveNumber state)
     (moveStack b).

(** *** Move making *)

Definition handleCastling (b : t) (move : Move.t) (color : Color) : t :=
  let b1 := setPieceAt b (Move.fromSquare move) Null in
  let b2 := setPieceAt b1 (Move.toSquare move) (Has (Piece.mk KING color)) in
  if squareFile (Move.toSquare move) =? 6 then
    let rookFrom := if Bool.eqb color WHITE then H1 else H8 in
    let rookTo := if Bool.eqb color WHITE then F1 else F8 in
    setPieceAt (setPieceAt b2 rookFrom Null) rookTo (Has (Piece.mk ROOK color))
  else
    let rookFrom := if Bool.eqb color WHITE then A1 else A8 in
    let rookTo := if Bool.eqb color WHITE then D1 else D8 in
    setPieceAt (setPieceAt b2 rookFrom Null) rookTo (Has (Piece.mk ROOK color)).

Definition isRook (s : Slot) : bool :=
  match s with Has p => pt_eqb (Piece.pieceType p) ROOK | _ => false end.

(** [rights &= ~mask] when [cond] holds. *)
Definition clearIf (cond : bool) (mask rights : Z) : Z :=
  if cond then band rights (bnot mask) else rights.

Definition updateStateAfterMove (b : t) (piece : Piece.t) (move : Move.t)
    (captured : Slot) : t :=
  let from := Move.fromSquare move in
  let to := Move.toSquare move in
  let isPawn := pt_eqb (Piece.pieceType piece) PAWN in
  (* the midpoint; an integer whenever both squares are on one file *)
  let ep :=
    if isPawn && (Z.abs (squareRank to - squareRank from) =? 2)
    then Some ((from + to) / 2) else None in
  let r0 := castlingRights b in
  let r1 :=
    if pt_eqb (Piece.pieceType piece) KING then
      if Bool.eqb (Piece.color piece) WHITE
      then band r0 (bnot (bor CASTLING_WHITE_KINGSIDE CASTLING_WHITE_QUEENSIDE))
      else band r0 (bnot (bor CASTLING_BLACK_KINGSIDE CASTLING_BLACK_QUEENSIDE))
    else r0 in
  let r2 :=
    if pt_eqb (Piece.pieceType piece) ROOK then
      clearIf (from =? H8) CASTLING_BLACK_KINGSIDE
        (clearIf (from =? A8) CASTLING_BLACK_QUEENSIDE
          (clearIf (from =? H1) CASTLING_WHITE_KINGSIDE
            (clearIf (from =? A1) CASTLING_WHITE_QUEENSIDE r1)))
    else r1 in
  let r3 :=
    if isRook captured then
      clearIf (to =? H8) CASTLING_BLACK_KINGSIDE
        (clearIf (to =? A8) CASTLING_BLACK_QUEENSIDE
          (clearIf (to =? H1) CASTLING_WHITE_KINGSIDE
            (clearIf (to =? A1) CASTLING_WHITE_QUEENSIDE r2)))
    else r2 in
  let hm := if isPawn || negb (isNull captured) then 0 else halfmoveClock b + 1 in
  let fm := if Bool.eqb (turn b) BLACK then fullmoveNumber b + 1 else fullmoveNumber b in
  mk (pieces b) (negb (turn b)) r3 ep hm fm (moveStack b).

Definition ep_is (b : t) (sq : Square) : bool :=
  match epSquare b with Some e => e =? sq | None => false end.

(** [push(move)]: the undo record is stored first, then the source square is
    looked at. *)
Definition push (b : t) (move : Move.t) : Res unit * t :=
  let prevState := saveState b in
  let capturedPiece := get (pieces b) (Move.toSquare move) in
  let b := with_stack b (moveStack b ++ [mkEntry move capturedPiece prevState]) in
  match get (pieces b) (Move.fromSquare move) with
  | Has piece =>
      if pt_eqb (Piece.pieceType piece) KING
         && (Z.abs (squareFile (Move.fromSquare move) - squareFile (Move.toSquare move)) =? 2)
      then
        let b := handleCastling b move (Piece.color piece) in
        (Ret tt, updateStateAfterMove b piece move Null)
      else
        let enPassant :=
          pt_eqb (Piece.pieceType piece) PAWN && ep_is b (Move.toSquare move) in
        let capturedPawnSquare :=
          Move.toSquare move + (if Bool.eqb (Piece.color piece) WHITE then -8 else 8) in
        let actualCapture :=
          if enPassant then get (pieces b) capturedPawnSquare else capturedPiece in
        let b := if enPassant then setPieceAt b capturedPawnSquare Null else b in
        let b := setPieceAt b (Move.fromSquare move) Null in
        let b :=
          match Move.promotion move with
          | Some p => setPieceAt b (Move.toSquare move) (Has (Piece.mk p (Piece.color piece)))
          | None => setPieceAt b (Move.toSquare move) (Has piece)
          end in
        (Ret tt, updateStateAfterMove b piece move actualCapture)
  | _ => (Thr (NoPieceAt (squareName (Move.fromSquare move))), b)
  end.

(** [pop()]: [None] is [null]. *)
Definition pop (b : t) : option Move.t * t :=
  match rev (moveStack b) with
  | [] => (None, b)
  | entry :: _ =>
      let b := with_stack b (removelast (moveStack b)) in
      (Some (se_move entry), restoreState b (se_prevState entry))
  end.

(** [copy()]: a new board with the same position and an empty move stack. *)
Definition copy (b : t) : t :=
  mk (spread (pieces b)) (turn b) (castlingRights b) (epSquare b)
     (halfmoveClock b) (fullmoveNumber b) [].

(** *** Move generation *)

Definition KNIGHT_MOVES : list (Z * Z) :=
  [(-2, -1); (-2, 1); (-1, -2); (-1, 2); (1, -2); (1, 2); (2, -1); (2, 1)].
Definition KING_MOVES : list (Z * Z) :=
  [(-1, -1); (-1, 0); (-1, 1); (0, -1); (0, 1); (1, -1); (1, 0); (1, 1)].
Definition BISHOP_DIRECTIONS : list (Z * Z) := [(-1, -1); (-1, 1); (1, -1); (1, 1)].
Definition ROOK_DIRECTIONS : list (Z * Z) := [(-1, 0); (1, 0); (0, -1); (0, 1)].
Definition QUEEN_DIRECTIONS : list (Z * Z) := BISHOP_DIRECTIONS ++ ROOK_DIRECTIONS.

Definition offBoard (file rank : Z) : bool :=
  (file <? 0) || (file >? 7) || (rank <? 0) || (rank >? 7).

(** [!targetPiece || targetPiece.color !== color]. *)
Definition emptyOrEnemy (s : Slot) (color : Color) : bool :=
  match s with Has p => negb (Bool.eqb (Piece.color p) color) | _ => true end.
(** [targetPiece && targetPiece.color !== color]. *)
Definition enemy (s : Slot) (color : Color) : bool :=
  match s with Has p => negb (Bool.eqb (Piece.color p) color) | _ => false end.

Definition generatePromotions (fromSq toSq : Square) : list Move.t :=
  [Move.mk fromSq toSq (Some QUEEN) None;
   Move.mk fromSq toSq (Some ROOK) None;
   Move.mk fromSq toSq (Some BISHOP) None;
   Move.mk fromSq toSq (Some KNIGHT) None].

Definition generatePawnMoves (b : t) (fromSq : Square) (color : Color) : list Move.t :=
  let file := squareFile fromSq in
  let rank := squareRank fromSq in
  let direction := if Bool.eqb color WHITE then 1 else -1 in
  let startRank := if Bool.eqb color WHITE then 1 else 6 in
  let promotionRank := if Bool.eqb color WHITE then 7 else 0 in
  let toSq := squareFromFileRank file (rank + direction) in
  let pushes :=
    if isNull (get (pieces b) toSq) then
      if rank + direction =? promotionRank then generatePromotions fromSq toSq
      else
        Move.mk fromSq toSq None None ::
        (if rank =? startRank then
           let toSq2 := squareFromFileRank file (rank + 2 * direction) in
           if isNull (get (pieces b) toSq2) then [Move.mk fromSq toSq2 None None] else []
         else [])
    else [] in
  let captures :=
    flat_map (fun df =>
      let captureFile := file + df in
      if (captureFile <? 0) || (captureFile >? 7) then []
      else
        let captureSq := squareFromFileRank captureFile (rank + direction) in
        let targetPiece := get (pieces b) captureSq in
        let isCapture := enemy targetPiece color || ep_is b captureSq in
        if isCapture then
          if rank + direction =? promotionRank then generatePromotions fromSq captureSq
          else [Move.mk fromSq captureSq None None]
        else []) [-1; 1] in
  pushes ++ captures.

(** The eight fixed offsets of a knight or of a king. *)
Definition generateStepMoves (b : t) (fromSq : Square) (color : Color)
    (offsets : list (Z * Z)) : list Move.t :=
  let file := squareFile fromSq in
  let rank := squareRank fromSq in
  flat_map (fun d =>
    let toFile := file + fst d in
    let toRank := rank + snd d in
    if offBoard toFile toRank then []
    else
      let toSq := squareFromFileRank toFile toRank in
      if emptyOrEnemy (get (pieces b) toSq) color then [Move.mk fromSq toSq None None]
      else []) offsets.

Definition generateKnightMoves (b : t) (fromSq : Square) (color : Color) : list Move.t :=
  generateStepMoves b fromSq color KNIGHT_MOVES.

(** One ray of a sliding piece: [dists] is the remaining range of [dist]. *)
Fixpoint slideRay (b : t) (fromSq : Square) (color : Color) (file rank df dr : Z)
    (dists : list Z) : list Move.t :=
  match dists with
  | [] => []
  | dist :: rest =>
      let toFile := file + df * dist in
      let toRank := rank + dr * dist in
      if offBoard toFile toRank then []
      else
        let toSq := squareFromFileRank toFile toRank in
        match get (pieces b) toSq with
        | Has targetPiece =>
            if negb (Bool.eqb (Piece.color targetPiece) color)
            then [Move.mk fromSq toSq None None] else []
        | _ => Move.mk fromSq toSq None None :: slideRay b fromSq color file rank df dr rest
        end
  end.

Definition generateSlidingMoves (b : t) (fromSq : Square) (color : Color)
    (directions : list (Z * Z)) : list Move.t :=
  let file := squareFile fromSq in
  let rank := squareRank fromSq in
  flat_map (fun d => slideRay b fromSq color file rank (fst d) (snd d) (range 1 7))
           directions.

(** *** Attacks *)

Definition isPieceOf (t0 : PieceType) (byColor : Color) (s : Slot) : bool :=
  match s with
  | Has p => pt_eqb (Piece.pieceType p) t0 && Bool.eqb (Piece.color p) byColor
  | _ => false
  end.

Definition stepAttack (b : t) (file rank : Z) (t0 : PieceType) (byColor : Color)
    (offsets : list (Z * Z)) : bool :=
  existsb (fun d =>
    let fromFile := file + fst d in
    let fromRank := rank + snd d in
    negb (offBoard fromFile fromRank)
    && isPieceOf t0 byColor (get (pieces b) (squareFromFileRank fromFile fromRank)))
    offsets.

Fixpoint rayAttack (b : t) (file rank df dr : Z) (byColor : Color) (dists : list Z) : bool :=
  match dists with
  | [] => false
  | dist :: rest =>
      let fromFile := file + df * dist in
      let fromRank := rank + dr * dist in
      if offBoard fromFile fromRank then false
      else
        match get (pieces b) (squareFromFileRank fromFile fromRank) with
        | Has piece =>
            if Bool.eqb (Piece.color piece) byColor then
              let isDiagonal := negb (df =? 0) && negb (dr =? 0) in
              let isStraight := (df =? 0) || (dr =? 0) in
              pt_eqb (Piece.pieceType piece) QUEEN
              || (pt_eqb (Piece.pieceType piece) BISHOP && isDiagonal)
              || (pt_eqb (Piece.pieceType piece) ROOK && isStraight)
            else false
        | _ => rayAttack b file rank df dr byColor rest
        end
  end.

Definition isAttacked (b : t) (square : Square) (byColor : Color) : bool :=
  let file := squareFile square in
  let rank := squareRank square in
  let pawnRank := if Bool.eqb byColor WHITE then rank - 1 else rank + 1 in
  stepAttack b file rank KNIGHT byColor KNIGHT_MOVES
  || stepAttack b file rank KING byColor KING_MOVES
  || ((0 <=? pawnRank) && (pawnRank <=? 7)
      && existsb (fun df =>
           let pawnFile := file + df in
           (0 <=? pawnFile) && (pawnFile <=? 7)
           && isPieceOf PAWN byColor (get (pieces b) (squareFromFileRank pawnFile pawnRank)))
           [-1; 1])
  || existsb (fun d => rayAttack b file rank (fst d) (snd d) byColor (range 1 7))
       QUEEN_DIRECTIONS.

Definition hasRight (b : t) (mask : Z) : bool := negb (band (castlingRights b) mask =? 0).
Definition vacant (b : t) (sq : Square) : bool := negb (truthy (get (pieces b) sq)).

Definition generateKingMoves (b : t) (fromSq : Square) (color : Color) : list Move.t :=
  let castle (right : Z) (free : list Square) (e transit dest : Square) (by_ : Color) :=
    if hasRight b right && forallb (vacant b) free then
      if negb (isAttacked b e by_) && negb (isAttacked b transit by_)
      then [Move.mk e dest None None] else []
    else [] in
  generateStepMoves b fromSq color KING_MOVES ++
  (if Bool.eqb color WHITE && (fromSq =? E1) then
     castle CASTLING_WHITE_KINGSIDE [F1; G1] E1 F1 G1 BLACK
     ++ castle CASTLING_WHITE_QUEENSIDE [D1; C1; squareFromFileRank 1 0] E1 D1 C1 BLACK
   else if Bool.eqb color BLACK && (fromSq =? E8) then
     castle CASTLING_BLACK_KINGSIDE [F8; G8] E8 F8 G8 WHITE
     ++ castle CASTLING_BLACK_QUEENSIDE [D8; C8; squareFromFileRank 1 7] E8 D8 C8 WHITE
   else []).

Definition pseudoLegalMoves (b : t) : list Move.t :=
  let color := turn b in
  flat_map (fun fromSq =>
    match get (pieces b) fromSq with
    | Has piece =>
        if negb (Bool.eqb (Piece.color piece) color) then []
        else
          match Piece.pieceType piece with
          | PAWN => generatePawnMoves b fromSq color
          | KNIGHT => generateKnightMoves b fromSq color
          | BISHOP => generateSlidingMoves b fromSq color BISHOP_DIRECTIONS
          | ROOK => generateSlidingMoves b fromSq color ROOK_DIRECTIONS
          | QUEEN => generateSlidingMoves b fromSq color QUEEN_DIRECTIONS
          | KING => generateKingMoves b fromSq color
          end
    | _ => []
    end) (range 0 64).

Definition isLegalMove (b : t) (move : Move.t) : bool :=
  let copy := copy b in
  match push copy move with
  | (Thr _, _) => false
  | (Ret _, copy) =>
      match king copy (negb (turn copy)) with
      | Some kingSq => negb (isAttacked copy kingSq (turn copy))
      | None => true
      end
  end.

(** [legalMoves()], in the order the generator yields them. *)
Definition legalMoves (b : t) : list Move.t :=
  filter (isLegalMove b) (pseudoLegalMoves b).

Definition isCheck (b : t) : bool :=
  match king b (turn b) with
  | Some kingSq => isAttacked b kingSq (negb (turn b))
  | None => false
  end.

Definition isCheckmate (b : t) : bool :=
  if negb (isCheck b) then false
  else match legalMoves b with _ :: _ => false | [] => true end.

Definition isStalemate (b : t) : bool :=
  if isCheck b then false
  else match legalMoves b with _ :: _ => false | [] => true end.

(** *** SAN *)

Definition isSuffixMark (c : ascii) : bool :=
  let k := code c in (k =? 43) || (k =? 35) || (k =? 33) || (k =? 63).

Definition promotionLetter (c : ascii) : option PieceType :=
  let k := code (toLowerChar c) in
  if k =? 113 then Some QUEEN
  else if k =? 114 then Some ROOK
  else if k =? 98 then Some BISHOP
  else if k =? 110 then Some KNIGHT
  else None.

(** [s.match(/=?([QRBN])$/i)]: the promoted type and the length of the match. *)
Definition promMatch (s : jsstr) : option (PieceType * Z) :=
  match rev s with
  | c :: before =>
      match promotionLetter c with
      | Some p =>
          match before with
          | e :: _ => if code e =? 61 then Some (p, 2) else Some (p, 1)
          | [] => Some (p, 1)
          end
      | None => None
      end
  | [] => None
  end.

(** [s.replace(/x/i, '')]: the first x or X is removed. *)
Fixpoint removeFirstX (s : jsstr) : jsstr :=
  match s with
  | [] => []
  | c :: s' => if code (toLowerChar c) =? 120 then s' else c :: removeFirstX s'
  end.

Definition pieceLetter (c : ascii) : option PieceType :=
  let k := code c in
  if k =? 75 then Some KING
  else if k =? 81 then Some QUEEN
  else if k =? 82 then Some ROOK
  else if k =? 66 then Some BISHOP
  else if k =? 78 then Some KNIGHT
  else None.

(** The loop over the remaining characters: the last file letter and the last
    rank digit win. *)
Definition disambigStep (acc : option Z * option Z) (c : ascii) : option Z * option Z :=
  let k := code c in
  if (97 <=? k) && (k <=? 104) then (Some (k - 97), snd acc)
  else if (49 <=? k) && (k <=? 56) then
    (fst acc, match parseInt [c] with Some n => Some (n - 1) | None => None end)
  else acc.

Definition optZ_matches (want : option Z) (have : Z) : bool :=
  match want with Some w => have =? w | None => true end.

(** What [parseSan] reads from the text of an ordinary move. *)
Record SanQuery : Type := mkQuery {
  q_pieceType : PieceType;
  q_toSquare : Square;
  q_promotion : option PieceType;
  q_disambigFile : option Z;
  q_disambigRank : option Z
}.

(** What the loop of [parseSan] tests on each legal move. *)
Definition sanMatches (b : t) (q : SanQuery) (move : Move.t) : bool :=
  match get (pieces b) (Move.fromSquare move) with
  | Has fromPiece =>
      pt_eqb (Piece.pieceType fromPiece) (q_pieceType q)
      && (Move.toSquare move =? q_toSquare q)
      && Move.opt_eqb pt_eqb (Move.promotion move) (q_promotion q)
      && optZ_matches (q_disambigFile q) (squareFile (Move.fromSquare move))
      && optZ_matches (q_disambigRank q) (squareRank (Move.fromSquare move))
  | _ => false
  end.

Definition cleanSan (san : jsstr) : jsstr := trim (dropWhileEnd isSuffixMark san).

Definition isCastleShort (s : jsstr) : bool := str_eqb s (lit "O-O") || str_eqb s (lit "0-0").
Definition isCastleLong (s : jsstr) : bool := str_eqb s (lit "O-O-O") || str_eqb s (lit "0-0-0").
Definition isNullToken (s : jsstr) : bool := str_eqb s (lit "--") || str_eqb s (lit "Z0").

(** The string work of [parseSan] on the cleaned text: promotion suffix,
    destination, capture mark, piece letter, disambiguation.  [None] when the
    destination is no square name. *)
Definition readSan (s : jsstr) : option SanQuery :=
  let '(promotion, s) :=
    match promMatch s with
    | Some (p, n) => (Some p, slice s 0 (Some (- n)))
    | None => (None, s)
    end in
  let toName := slice s (-2) None in
  match parseSquare toName with
  | None => None
  | Some toSquare =>
      let s := slice s 0 (Some (-2)) in
      let s := removeFirstX s in
      let '(pieceType, s) :=
        match s with
        | c :: s' =>
            match pieceLetter c with
            | Some p => (p, s')
            | None => (PAWN, s)
            end
        | [] => (PAWN, s)
        end in
      let '(disambigFile, disambigRank) := fold_left disambigStep s (None, None) in
      Some (mkQuery pieceType toSquare promotion disambigFile disambigRank)
  end.

Definition parseSan (b : t) (san : jsstr) : Res Move.t :=
  let s := cleanSan san in
  if isCastleShort s then
    Ret (Move.mk (if Bool.eqb (turn b) WHITE then E1 else E8)
                 (if Bool.eqb (turn b) WHITE then G1 else G8) None None)
  else if isCastleLong s then
    Ret (Move.mk (if Bool.eqb (turn b) WHITE then E1 else E8)
                 (if Bool.eqb (turn b) WHITE then C1 else C8) None None)
  else if isNullToken s then Ret Move.null
  else
    match readSan s with
    | None => Thr (InvalidSan san)
    | Some q =>
        match find (sanMatches b q) (legalMoves b) with
        | Some move => Ret move
        | None => Thr (IllegalSan san)
        end
    end.

Definition SAN_LETTERS : list jsstr := map list_ascii_of_string
  [""; ""; "N"; "B"; "R"; "Q"; "K"]%string.
Definition SAN_PROMOTIONS : list jsstr := map list_ascii_of_string
  [""; ""; "N"; "B"; "R"; "Q"]%string.

(** A legal move that competes with [move] for the notation: same
    destination, another origin, a piece of the same type. *)
Definition conflicts (b : t) (piece : Piece.t) (move otherMove : Move.t) : bool :=
  (Move.toSquare otherMove =? Move.toSquare move)
  && negb (Move.fromSquare otherMove =? Move.fromSquare move)
  && match get (pieces b) (Move.fromSquare otherMove) with
     | Has otherPiece => pt_eqb (Piece.pieceType otherPiece) (Piece.pieceType piece)
     | _ => false
     end.

(** One turn of the disambiguation loop on the flags [(needFile, needRank)]. *)
Definition needStep (b : t) (piece : Piece.t) (move : Move.t)
    (flags : bool * bool) (otherMove : Move.t) : bool * bool :=
  if conflicts b piece move otherMove then
    if squareFile (Move.fromSquare otherMove) =? squareFile (Move.fromSquare move)
    then (fst flags, true)
    else (true, snd flags)
  else flags.

Definition needFlags (b : t) (piece : Piece.t) (move : Move.t) : bool * bool :=
  fold_left (needStep b piece move) (legalMoves b) (false, false).

Definition fileName (move : Move.t) : jsstr :=
  show (at_ FILE_NAMES (squareFile (Move.fromSquare move))).
Definition rankName (move : Move.t) : jsstr :=
  toString (squareRank (Move.fromSquare move) + 1).

Definition disambiguation (b : t) (piece : Piece.t) (move : Move.t) : jsstr :=
  if negb (pt_eqb (Piece.pieceType piece) PAWN) then
    let '(needFile, needRank) := needFlags b piece move in
    (if needFile then fileName move else [])
    ++ (if needRank then rankName move else [])
  else [].

Definition captureMark (b : t) (piece : Piece.t) (move : Move.t) : jsstr :=
  let isCapture :=
    negb (isNull (get (pieces b) (Move.toSquare move)))
    || (pt_eqb (Piece.pieceType piece) PAWN && ep_is b (Move.toSquare move)) in
  if isCapture then
    (if pt_eqb (Piece.pieceType piece) PAWN then fileName move else []) ++ lit "x"
  else [].

Definition promotionMark (move : Move.t) : jsstr :=
  match Move.promotion move with
  | Some p => lit "=" ++ show (at_ SAN_PROMOTIONS (pt_code p))
  | None => []
  end.

Definition checkMark (boardCopy : t) : jsstr :=
  if isCheck boardCopy then
    if isCheckmate boardCopy then lit "#" else lit "+"
  else [].

(** The text of [san] before the check mark. *)
Definition sanBody (b : t) (piece : Piece.t) (move : Move.t) : jsstr :=
  (if negb (pt_eqb (Piece.pieceType piece) PAWN)
   then show (at_ SAN_LETTERS (pt_code (Piece.pieceType piece))) else [])
  ++ disambiguation b piece move
  ++ captureMark b piece move
  ++ show (squareName (Move.toSquare move))
  ++ promotionMark move.

Definition san (b : t) (move : Move.t) : Res jsstr :=
  match get (pieces b) (Move.fromSquare move) with
  | Has piece =>
      let fileDiff := squareFile (Move.toSquare move) - squareFile (Move.fromSquare move) in
      if pt_eqb (Piece.pieceType piece) KING && (fileDiff =? 2) then Ret (lit "O-O")
      else if pt_eqb (Piece.pieceType piece) KING && (fileDiff =? -2) then Ret (lit "O-O-O")
      else
        match push (copy b) move with
        | (Ret _, boardCopy) => Ret (sanBody b piece move ++ checkMark boardCopy)
        | (Thr e, _) => Thr e
        end
  | _ => Thr (NoPieceAt (squareName (Move.fromSquare move)))
  end.

(** *** FEN *)

(** The inner loop of [fen()] over the squares of one rank; [empty] counts the
    empty squares not yet written. *)
Fixpoint fenRow (slots : list Slot) (empty : Z) : jsstr :=
  match slots with
  | [] => if empty >? 0 then toString empty else []
  | Has piece :: rest =>
      (if empty >? 0 then toString empty else []) ++ Piece.symbol piece ++ fenRow rest 0
  | _ :: rest => fenRow rest (empty + 1)
  end.

Definition rankSlots (a : PieceArray) (rank : Z) : list Slot :=
  map (fun file => get a (squareFromFileRank file rank)) (range 0 8).

(** Ranks in the order the loops visit them: 7 down to 0. *)
Definition RANKS_DOWN : list Z := [7; 6; 5; 4; 3; 2; 1; 0].

Definition fenPlacement (b : t) : jsstr :=
  join (lit "/") (map (fun rank => fenRow (rankSlots (pieces b) rank) 0) RANKS_DOWN).

Definition fenCastling (rights : Z) : jsstr :=
  let castling :=
    (if negb (band rights CASTLING_WHITE_KINGSIDE =? 0) then lit "K" else [])
    ++ (if negb (band rights CASTLING_WHITE_QUEENSIDE =? 0) then lit "Q" else [])
    ++ (if negb (band rights CASTLING_BLACK_KINGSIDE =? 0) then lit "k" else [])
    ++ (if negb (band rights CASTLING_BLACK_QUEENSIDE =? 0) then lit "q" else []) in
  match castling with [] => lit "-" | _ => castling end.

(** [join] prints an [undefined] element as the empty string. *)
Definition fenEp (ep : option Square) : jsstr :=
  match ep with
  | Some sq => match squareName sq with Some s => s | None => [] end
  | None => lit "-"
  end.

Definition fen (b : t) : jsstr :=
  join (lit " ")
    [fenPlacement b;
     if Bool.eqb (turn b) WHITE then lit "w" else lit "b";
     fenCastling (castlingRights b);
     fenEp (epSquare b);
     toString (halfmoveClock b);
     toString (fullmoveNumber b)].

(** One row of the placement field, written into [a] from file 0. *)
Fixpoint setRow (rank : Z) (row : jsstr) (file : Z) (a : PieceArray)
    : option Error * PieceArray :=
  match row with
  | [] => (None, a)
  | c :: row' =>
      if (49 <=? code c) && (code c <=? 56) then
        setRow rank row' (file + match parseInt [c] with Some n => n | None => 0 end) a
      else
        match Piece.fromSymbol [c] with
        | Ret piece =>
            setRow rank row' (file + 1) (set a (squareFromFileRank file rank) (Has piece))
        | Thr e => (Some e, a)
        end
  end.

Fixpoint setRows (ranks : list Z) (rows : list jsstr) (a : PieceArray)
    : option Error * PieceArray :=
  match ranks with
  | [] => (None, a)
  | rank :: ranks' =>
      match setRow rank (show (at_ rows (7 - rank))) 0 a with
      | (None, a') => setRows ranks' rows a'
      | (Some e, a') => (Some e, a')
      end
  end.

Definition castlingBit (c : ascii) : Z :=
  let k := code c in
  if k =? 75 then CASTLING_WHITE_KINGSIDE
  else if k =? 81 then CASTLING_WHITE_QUEENSIDE
  else if k =? 107 then CASTLING_BLACK_KINGSIDE
  else if k =? 113 then CASTLING_BLACK_QUEENSIDE
  else 0.

Definition parseCastling (field : option jsstr) : Z :=
  match field with
  | Some s =>
      if str_eqb s (lit "-") then 0
      else fold_left (fun rights c => bor rights (castlingBit c)) s 0
  | None => 0
  end.

Definition parseEp (field : option jsstr) : option Square :=
  match field with
  | Some s => if str_eqb s (lit "-") then None else parseSquare s
  | None => None
  end.

(** [parts.length > i ? parseInt(parts[i]) || dflt : dflt]. *)
Definition parseClock (field : option jsstr) (dflt : Z) : Z :=
  match field with
  | Some s =>
      match parseInt s with
      | Some 0 => dflt
      | Some n => n
      | None => dflt
      end
  | None => dflt
  end.

Definition setFen (b : t) (fen : jsstr) : Res unit * t :=
  let parts := split_ws fen in
  let b := mk (fill (pieces b) Null) (turn b) (castlingRights b) (epSquare b)
              (halfmoveClock b) (fullmoveNumber b) [] in
  let rows := split "/"%char (show (at_ parts 0)) in
  if negb (len rows =? 8) then (Thr (InvalidFen fen), b)
  else
    match setRows RANKS_DOWN rows (pieces b) with
    | (Some e, a) => (Thr e, with_pieces b a)
    | (None, a) =>
        let turn :=
          match at_ parts 1 with
          | Some p => if str_eqb p (lit "b") then BLACK else WHITE
          | None => WHITE
          end in
        (Ret tt,
         mk a turn (parseCastling (at_ parts 2)) (parseEp (at_ parts 3))
            (parseClock (at_ parts 4) 0) (parseClock (at_ parts 5) 1) [])
    end.

(** [new Board(fen)]. *)
Definition fresh : t := mk empty64 WHITE 0 None 0 1 [].
Definition create (fen : jsstr) : Res t :=
  match setFen fresh fen with
  | (Ret _, b) => Ret b
  | (Thr e, _) => Thr e
  end.

(** *** Further commands and queries *)

(** [removePieceAt(square)]: the element that was there, and the board. *)
Definition removePieceAt (b : t) (square : Square) : Slot * t :=
  (get (pieces b) square, setPieceAt b square Null).

Definition pushSan (b : t) (san : jsstr) : Res Move.t * t :=
  match parseSan b san with
  | Thr e => (Thr e, b)
  | Ret move =>
      match push b move with
      | (Ret _, b') => (Ret move, b')
      | (Thr e, b') => (Thr e, b')
      end
  end.

Definition parseUci (b : t) (uci : jsstr) : Res Move.t := Move.fromUci uci.

Definition pushUci (b : t) (uci : jsstr) : Res Move.t * t :=
  match Move.fromUci uci with
  | Thr e => (Thr e, b)
  | Ret move =>
      match push b move with
      | (Ret _, b') => (Ret move, b')
      | (Thr e, b') => (Thr e, b')
      end
  end.

(** [isGameOver()]: with a legal move at hand only the halfmove clock ends
    the game. *)
Definition isGameOver (b : t) : bool :=
  match legalMoves b with
  | _ :: _ => halfmoveClock b >=? 100
  | [] => true
  end.

(** The counters of [hasInsufficientMaterial]. *)
Record Minors : Type := mkMinors {
  whiteBishops : Z;
  blackBishops : Z;
  whiteKnights : Z;
  blackKnights : Z
}.

(** The loop over the squares: [None] when it returns false on a pawn, a
    rook or a queen. *)
Fixpoint countMinors (b : t) (squares : list Square) (c : Minors) : option Minors :=
  match squares with
  | [] => Some c
  | sq :: rest =>
      match get (pieces b) sq with
      | Has piece =>
          if pt_eqb (Piece.pieceType piece) PAWN || pt_eqb (Piece.pieceType piece) ROOK
             || pt_eqb (Piece.pieceType piece) QUEEN
          then None
          else
            let c :=
              if pt_eqb (Piece.pieceType piece) BISHOP then
                if Bool.eqb (Piece.color piece) WHITE
                then mkMinors (whiteBishops c + 1) (blackBishops c) (whiteKnights c) (blackKnights c)
                else mkMinors (whiteBishops c) (blackBishops c + 1) (whiteKnights c) (blackKnights c)
              else c in
            let c :=
              if pt_eqb (Piece.pieceType piece) KNIGHT then
                if Bool.eqb (Piece.color piece) WHITE
                then mkMinors (whiteBishops c) (blackBishops c) (whiteKnights c + 1) (blackKnights c)
                else mkMinors (whiteBishops c) (blackBishops c) (whiteKnights c) (blackKnights c + 1)
              else c in
            countMinors b rest c
      | _ => countMinors b rest c
      end
  end.

Definition hasInsufficientMaterial (b : t) : bool :=
  match countMinors b (range 0 64) (mkMinors 0 0 0 0) with
  | None => false
  | Some c =>
      let total := whiteBishops c + whiteKnights c + blackBishops c + blackKnights c in
      if total =? 0 then true
      else if total =? 1 then true
      else false
  end.

Definition clear (b : t) : t := mk (fill (pieces b) Null) WHITE 0 None 0 1 [].

Definition reset (b : t) : Res unit * t := setFen b STARTING_FEN.

End Board.

(* ===================================================================== *)
(** ** pgn/headers.ts, pgn/game-node.ts, pgn/game.ts, pgn/tree-builder.ts *)
(* ===================================================================== *)

Module Tree.

(** *** Headers: an insertion-ordered map *)

Definition Headers := list (jsstr * jsstr).

Fixpoint headers_get (h : Headers) (key : jsstr) : option jsstr :=
  match h with
  | [] => None
  | (k, v) :: h' => if str_eqb k key then Some v else headers_get h' key
  end.

Fixpoint headers_set (h : Headers) (key value : jsstr) : Headers :=
  match h with
  | [] => [(key, value)]
  | (k, v) :: h' =>
      if str_eqb k key then (k, value) :: h' else (k, v) :: headers_set h' key value
  end.

(** *** Nodes *)

Record Arrow : Type := mkArrow { a_color : jsstr; a_tail : Square; a_head : Square }.
Record Shape : Type := mkShape { s_color : jsstr; s_square : Square }.

Record GameError : Type := mkError {
  message : jsstr;
  san : option jsstr;
  fen : jsstr
}.

(** Nodes and boards are objects: they live in stores and are named by
    references.  [NodeRef] indexes the node store, [BoardRef] the board
    store. *)
Definition NodeRef := nat.
Definition BoardRef := nat.

(** A [GameNode]; a [Game] is a node with [headers].  The numbers [clock] and
    [eval] are floating-point values: the node keeps the text they are
    computed from ([parseClockTime(clk)], [parseFloat(eval)]). *)
Record GameNode : Type := mkNode {
  parent : option NodeRef;
  move : option Move.t;
  variations : list NodeRef;
  comment : jsstr;
  startingComment : jsstr;
  nags : list Z;
  clock : option jsstr;
  eval : option jsstr;
  arrows : list Arrow;
  shapes : list Shape;
  board_ : option BoardRef;          (* _board *)
  boardValid : bool;                 (* _boardValid *)
  headers : option Headers           (* present on a Game *)
}.

(** [new GameNode()]. *)
Definition newNode : GameNode :=
  mkNode None None [] [] [] [] None None [] [] None false None.
(** [new Game()]. *)
Definition newGame : GameNode :=
  mkNode None None [] [] [] [] None None [] [] None false (Some []).

Definition Store := list GameNode.

Fixpoint update {A} (l : list A) (n : nat) (f : A -> A) : list A :=
  match l, n with
  | [], _ => []
  | x :: l', O => f x :: l'
  | x :: l', S n' => x :: update l' n' f
  end.

Definition node (s : Store) (r : NodeRef) : GameNode := nth r s newNode.

Definition pushVariation (child : NodeRef) (n : GameNode) : GameNode :=
  mkNode (parent n) (move n) (variations n ++ [child]) (comment n) (startingComment n)
         (nags n) (clock n) (eval n) (arrows n) (shapes n) (board_ n) (boardValid n)
         (headers n).

Definition setCache (br : BoardRef) (n : GameNode) : GameNode :=
  mkNode (parent n) (move n) (variations n) (comment n) (startingComment n)
         (nags n) (clock n) (eval n) (arrows n) (shapes n) (Some br) true (headers n).

(** *** The upstream parse tree *)

(** Modelled from the spec: the types [ParseTree] and [PgnMove] are declared
    in the packages [@mliebelt/pgn-parser] and [@mliebelt/pgn-types]; the
    records below have the fields the builder reads. *)
Record Notation : Type := mkNotation {
  n_notation : option jsstr;
  n_fig : option jsstr;
  n_col : option jsstr;
  n_row : option jsstr;
  n_disc : option jsstr;
  n_promotion : option jsstr;
  n_drop : bool
}.

Record CommentDiag : Type := mkDiag {
  d_clk : option jsstr;
  d_eval : option jsstr;
  d_colorArrows : option (list jsstr);
  d_colorFields : option (list jsstr)
}.

Record PgnInfo : Type := mkInfo {
  notation : option Notation;
  commentMove : option jsstr;
  commentAfter : option jsstr;
  nag : option (list jsstr);
  commentDiag : option CommentDiag
}.

(** An element of a move list is a string (a result token) or a move record
    with its variation groups; an absent [variations] array is the empty
    list. *)
#[warnings="-register-all"] Inductive PgnMove : Type :=
| PgnString (s : jsstr)
| PgnRecord (info : PgnInfo) (variations : list (list PgnMove)).

Inductive TagValue : Type :=
| TagString (s : jsstr)
| TagOther.

Record GameComment : Type := mkGameComment {
  gc_comment : option jsstr;
  gc_colorArrows : option (list jsstr);
  gc_colorFields : option (list jsstr)
}.

Record ParseTree : Type := mkParseTree {
  tags : option (list (jsstr * TagValue));
  gameComment : option GameComment;
  moves : option (list PgnMove)
}.

(** *** parseMove *)

(** [{ 'P': 1, 'N': 2, 'B': 3, 'R': 4, 'Q': 5, 'K': 6 }[fig]] on a piece letter. *)
Definition figCode (fig : jsstr) : option Z :=
  if str_eqb fig (lit "P") then Some 1
  else if str_eqb fig (lit "N") then Some 2
  else if str_eqb fig (lit "B") then Some 3
  else if str_eqb fig (lit "R") then Some 4
  else if str_eqb fig (lit "Q") then Some 5
  else if str_eqb fig (lit "K") then Some 6
  else None.

Definition nonEmpty (o : option jsstr) : option jsstr :=
  match o with Some (c :: s) => Some (c :: s) | _ => None end.

Fixpoint removeFirst (c : ascii) (s : jsstr) : jsstr :=
  match s with
  | [] => []
  | x :: s' => if Ascii.eqb x c then s' else x :: removeFirst c s'
  end.

Definition promType (promotion : jsstr) : option PieceType :=
  let promPiece := toUpperCase (removeFirst "="%char promotion) in
  if str_eqb promPiece (lit "N") then Some KNIGHT
  else if str_eqb promPiece (lit "B") then Some BISHOP
  else if str_eqb promPiece (lit "R") then Some ROOK
  else if str_eqb promPiece (lit "Q") then Some QUEEN
  else None.

(** What the fallback loop of [parseMove] tests on each legal move. *)
Definition fallbackMatches (notation : Notation) (board : Board.t) (toSquare : Square)
    (move : Move.t) : bool :=
  (Move.toSquare move =? toSquare)
  && match Board.pieceAt board (Move.fromSquare move) with
     | Board.Has piece =>
         let expectedPiece :=
           match nonEmpty (n_fig notation) with
           | Some fig => figCode fig
           | None => Some 1
           end in
         Move.opt_eqb Z.eqb (Some (pt_code (Piece.pieceType piece))) expectedPiece
         && match nonEmpty (n_disc notation) with
            | Some disc =>
                let file := match disc with c :: _ => code c | [] => 0 end in
                let rank := parseInt disc in
                (if (file >=? 97) && (file <=? 104)
                 then band (Move.fromSquare move) 7 =? file - 97 else true)
                && match rank with
                   | Some rank =>
                       if (rank >=? 1) && (rank <=? 8)
                       then shr (Move.fromSquare move) 3 =? rank - 1 else true
                   | None => true
                   end
            | None => true
            end
         && match nonEmpty (n_promotion notation) with
            | Some promotion =>
                match promType promotion with
                | Some p => Move.opt_eqb pt_eqb (Move.promotion move) (Some p)
                | None => false
                end
            | None => match Move.promotion move with Some _ => false | None => true end
            end
     | _ => false
     end.

Definition textIs (o : option jsstr) (s : jsstr) : bool :=
  match o with Some x => str_eqb x s | None => false end.

Definition parseMove (info : PgnInfo) (board : Board.t) : Res Move.t :=
  match notation info with
  | None => Thr NoNotation
  | Some notation =>
      let text := n_notation notation in
      if textIs text (lit "Z0") || textIs text (lit "--") then Ret Move.null
      else if textIs text (lit "O-O") || textIs text (lit "0-0") then Board.parseSan board (lit "O-O")
      else if textIs text (lit "O-O-O") || textIs text (lit "0-0-0") then Board.parseSan board (lit "O-O-O")
      else if n_drop notation then
        match parseSquare (Move.plus (n_col notation) (n_row notation)) with
        | None => Thr InvalidDropSquare
        | Some toSquare =>
            let pieceType :=
              figCode (match n_fig notation with Some fig => fig | None => lit "P" end) in
            Ret (Move.mk 0 toSquare None pieceType)
        end
      else
        match match text with
              | Some text => Board.parseSan board text
              | None => Thr TypeError
              end with
        | Ret move => Ret move
        | Thr _ =>
            match parseSquare (Move.plus (n_col notation) (n_row notation)) with
            | None => Thr InvalidTargetSquare
            | Some toSquare =>
                match find (fallbackMatches notation board toSquare) (Board.legalMoves board) with
                | Some move => Ret move
                | None => Thr (NoLegalMoveFor (show text))
                end
            end
        end
  end.

(** *** Annotations *)

Definition parseArrows (arrows : list jsstr) : list Arrow :=
  flat_map (fun arrow =>
    if len arrow >=? 5 then
      match parseSquare (slice arrow 1 (Some 3)), parseSquare (slice arrow 3 (Some 5)) with
      | Some tail, Some head => [mkArrow (slice arrow 0 (Some 1)) tail head]
      | _, _ => []
      end
    else []) arrows.

Definition parseShapes (shapes : list jsstr) : list Shape :=
  flat_map (fun shape =>
    if len shape >=? 3 then
      match parseSquare (slice shape 1 (Some 3)) with
      | Some square => [mkShape (slice shape 0 (Some 1)) square]
      | None => []
      end
    else []) shapes.

(** [nags.add(n)] on a set kept in insertion order. *)
Definition nagAdd (nags : list Z) (n : Z) : list Z :=
  if existsb (Z.eqb n) nags then nags else nags ++ [n].

Definition parseNags (nag : option (list jsstr)) : list Z :=
  match nag with
  | Some l =>
      fold_left (fun nags n =>
        match parseInt (removeFirst "$"%char n) with
        | Some nagNum => nagAdd nags nagNum
        | None => nags
        end) l []
  | None => []
  end.

(** The node [buildMoveTree] creates for a parsed move. *)
Definition makeNode (currentNode : NodeRef) (move : Move.t) (info : PgnInfo) : GameNode :=
  let diag := commentDiag info in
  mkNode (Some currentNode) (Some move) []
    (match nonEmpty (commentAfter info) with Some c => c | None => [] end)
    (match nonEmpty (commentMove info) with Some c => c | None => [] end)
    (parseNags (nag info))
    (match diag with Some d => nonEmpty (d_clk d) | None => None end)
    (match diag with Some d => d_eval d | None => None end)
    (match diag with
     | Some d => match d_colorArrows d with Some l => parseArrows l | None => [] end
     | None => [] end)
    (match diag with
     | Some d => match d_colorFields d with Some l => parseShapes l | None => [] end
     | None => [] end)
    None false None.

(** *** buildMoveTree *)

(** The node store and the [errors] array, both shared by every recursive
    call. *)
Record BState : Type := mkBState {
  store : Store;
  errors : list GameError
}.

(** The local variables of one activation of [buildMoveTree]. *)
Record Loop : Type := mkLoop {
  currentNode : NodeRef;
  currentBoard : Board.t;
  shared : BState
}.

(** A [for ... of] loop whose body may throw. *)
Definition forOf {A S} (body : A -> S -> Res S) : list A -> S -> Res S :=
  fix go (l : list A) (s : S) : Res S :=
    match l with
    | [] => Ret s
    | x :: l' =>
        match body x s with
        | Ret s' => go l' s'
        | Thr e => Thr e
        end
    end.

Definition parseFailure (info : PgnInfo) (board : Board.t) : GameError :=
  let text := match notation info with Some n => n_notation n | None => None end in
  mkError (lit "Failed to parse move: " ++ match text with Some s => s | None => lit "unknown" end)
          text (Board.fen board).

(** The state after [newNode] has been created and appended to
    [currentNode.variations]. *)
Definition attach (l : Loop) (move : Move.t) (info : PgnInfo) : Store :=
  let s := store (shared l) in
  update (s ++ [makeNode (currentNode l) move info]) (currentNode l)
         (pushVariation (length s)).

(** One turn of the loop of [buildMoveTree] on [pgnMove]; the recursive calls
    for the variation groups run [buildMoveTree(currentNode, ...)] on a board
    made from the FEN before the move. *)
Fixpoint processMove (pgnMove : PgnMove) (l : Loop) {struct pgnMove} : Res Loop :=
  match pgnMove with
  | PgnString _ => Ret l
  | PgnRecord info variations =>
      match parseMove info (currentBoard l) with
      | Thr _ =>
          Ret (mkLoop (currentNode l) (currentBoard l)
                 (mkBState (store (shared l))
                    (errors (shared l) ++ [parseFailure info (currentBoard l)])))
      | Ret move =>
          let newNode := length (store (shared l)) in
          let attached := mkBState (attach l move info) (errors (shared l)) in
          let fenBeforeThisMove := Board.fen (currentBoard l) in
          match Board.push (currentBoard l) move with
          | (Thr e, _) => Thr e
          | (Ret _, pushed) =>
              match
                forOf (fun variationMoves (s : BState) =>
                  match variationMoves with
                  | [] => Ret s
                  | _ :: _ =>
                      match Board.create fenBeforeThisMove with
                      | Thr e => Thr e
                      | Ret varBoard =>
                          match forOf processMove variationMoves
                                  (mkLoop (currentNode l) (Board.copy varBoard) s) with
                          | Ret l' => Ret (shared l')
                          | Thr e => Thr e
                          end
                      end
                  end) variations attached
              with
              | Ret s => Ret (mkLoop newNode pushed s)
              | Thr e => Thr e
              end
          end
      end
  end.

Definition buildMoveTree (parentNode : NodeRef) (moves : list PgnMove)
    (board : Board.t) (s : BState) : Res BState :=
  match forOf processMove moves (mkLoop parentNode (Board.copy board) s) with
  | Ret l => Ret (shared l)
  | Thr e => Thr e
  end.

(** The recursive call for one variation group, as [processMove] makes it. *)
Definition buildVariation (currentNode : NodeRef) (fenBeforeThisMove : jsstr)
    (variationMoves : list PgnMove) (s : BState) : Res BState :=
  match variationMoves with
  | [] => Ret s
  | _ :: _ =>
      match Board.create fenBeforeThisMove with
      | Thr e => Thr e
      | Ret varBoard => buildMoveTree currentNode variationMoves varBoard s
      end
  end.

(** *** buildGameTree *)

Definition copyTags (tags : option (list (jsstr * TagValue))) : Headers :=
  match tags with
  | Some l =>
      fold_left (fun h kv =>
        match snd kv with
        | TagString value =>
            if negb (str_eqb (fst kv) (lit "messages")) then headers_set h (fst kv) value
            else h
        | TagOther => h
        end) l []
  | None => []
  end.

Definition rootNode (parseTree : ParseTree) : GameNode :=
  let h := copyTags (tags parseTree) in
  match gameComment parseTree with
  | Some gc =>
      mkNode None None []
        (match gc_comment gc with Some c => c | None => [] end) [] [] None None
        (match gc_colorArrows gc with Some l => parseArrows l | None => [] end)
        (match gc_colorFields gc with Some l => parseShapes l | None => [] end)
        None false (Some h)
  | None => mkNode None None [] [] [] [] None None [] [] None false (Some h)
  end.

(** The game is the node 0 of the store it returns. *)
Definition buildGameTree (parseTree : ParseTree) : Res BState :=
  let game := rootNode parseTree in
  let startingFen :=
    match headers game with Some h => headers_get h (lit "FEN") | None => None end in
  match Board.create (match startingFen with Some f => f | None => STARTING_FEN end) with
  | Thr e => Thr e
  | Ret board =>
      match moves parseTree with
      | Some (m :: ms) => buildMoveTree 0%nat (m :: ms) board (mkBState [game] [])
      | _ => Ret (mkBState [game] [])
      end
  end.

(** *** GameNode.board() *)

(** The node store and the store of [Board] objects. *)
Record World : Type := mkWorld {
  nodes : Store;
  boards : list Board.t
}.

Definition alloc (w : World) (b : Board.t) : BoardRef * World :=
  (length (boards w), mkWorld (nodes w) (boards w ++ [b])).

Definition boardOf (w : World) (r : BoardRef) : Board.t := nth r (boards w) Board.fresh.

(** Any mutation of the board object [r]: its state becomes [b]. *)
Definition mutate (w : World) (r : BoardRef) (b : Board.t) : World :=
  mkWorld (nodes w) (update (boards w) r (fun _ => b)).

(** [getStartingFen()] as [board()] calls it on a node without parent. *)
Definition getStartingFen (n : GameNode) : jsstr :=
  match headers n with
  | Some h => match headers_get h (lit "FEN") with Some f => f | None => STARTING_FEN end
  | None => STARTING_FEN
  end.

(** [return this._board.copy()]. *)
Definition copyOfCache (cached : BoardRef) (w : World) : Res BoardRef * World :=
  let '(r, w) := alloc w (Board.copy (boardOf w cached)) in
  (Ret r, w).

(** [board = new Board(this.getStartingFen())]. *)
Definition rootBoard (n : GameNode) (w : World) : Res BoardRef * World :=
  match Board.create (getStartingFen n) with
  | Ret b => let '(r, w) := alloc w b in (Ret r, w)
  | Thr e => (Thr e, w)
  end.

(** [if (this.move) board.push(this.move)] on the board the parent returned. *)
Definition applyMove (n : GameNode) (parentBoard : Res BoardRef * World)
    : Res BoardRef * World :=
  match parentBoard with
  | (Ret r, w) =>
      match move n with
      | Some m =>
          match Board.push (boardOf w r) m with
          | (Ret _, b) => (Ret r, mutate w r b)
          | (Thr e, b) => (Thr e, mutate w r b)
          end
      | None => (Ret r, w)
      end
  | (Thr e, w) => (Thr e, w)
  end.

(** [this._board = board.copy(); this._boardValid = true; return board]. *)
Definition cacheAndReturn (this : NodeRef) (built : Res BoardRef * World)
    : Res BoardRef * World :=
  match built with
  | (Ret r, w) =>
      let '(c, w) := alloc w (Board.copy (boardOf w r)) in
      (Ret r, mkWorld (update (nodes w) this (setCache c)) (boards w))
  | (Thr e, w) => (Thr e, w)
  end.

(** [node.board()]: the reference it returns and the world after the call.
    [depth] bounds the recursion along [parent]; a chain that is longer
    exhausts the call stack. *)
Fixpoint board (depth : nat) (this : NodeRef) (w : World) : Res BoardRef * World :=
  match depth with
  | O => (Thr RangeError, w)
  | S depth' =>
      let n := node (nodes w) this in
      match boardValid n, board_ n with
      | true, Some cached => copyOfCache cached w
      | _, _ =>
          cacheAndReturn this
            match parent n with
            | None => rootBoard n w
            | Some p => applyMove n (board depth' p w)
            end
      end
  end.

(** [node.fen()]. *)
Definition nodeFen (depth : nat) (this : NodeRef) (w : World) : Res jsstr * World :=
  match board depth this w with
  | (Ret r, w) => (Ret (Board.fen (boardOf w r)), w)
  | (Thr e, w) => (Thr e, w)
  end.

(** *** Headers: the rest of the Map interface *)

Definition headers_has (h : Headers) (key : jsstr) : bool :=
  existsb (fun kv => str_eqb (fst kv) key) h.

(** [delete(key)]: whether the key was there, and the map without it. *)
Fixpoint headers_delete (h : Headers) (key : jsstr) : bool * Headers :=
  match h with
  | [] => (false, [])
  | (k, v) :: h' =>
      if str_eqb k key then (true, h')
      else let '(found, h'') := headers_delete h' key in (found, (k, v) :: h'')
  end.

Definition headers_keys (h : Headers) : list jsstr := map fst h.
Definition headers_size (h : Headers) : Z := len h.

(** *** Game *)

Definition setHeaders (h : Headers) (n : GameNode) : GameNode :=
  mkNode (parent n) (move n) (variations n) (comment n) (startingComment n)
         (nags n) (clock n) (eval n) (arrows n) (shapes n) (board_ n) (boardValid n)
         (Some h).

(** [Game.withDefaults()] and [Game.fromFen(fen)]. *)
Definition withDefaults : GameNode :=
  let h := headers_set [] (lit "Event") (lit "?") in
  let h := headers_set h (lit "Site") (lit "?") in
  let h := headers_set h (lit "Date") (lit "????.??.??") in
  let h := headers_set h (lit "Round") (lit "?") in
  let h := headers_set h (lit "White") (lit "?") in
  let h := headers_set h (lit "Black") (lit "?") in
  let h := headers_set h (lit "Result") (lit "*") in
  setHeaders h newGame.

Definition fromFen (fen : jsstr) : GameNode :=
  let game := withDefaults in
  let h := match headers game with Some h => h | None => [] end in
  let h := headers_set h (lit "FEN") fen in
  let h := headers_set h (lit "SetUp") (lit "1") in
  setHeaders h game.

Definition fromBoard (board : Board.t) : GameNode := fromFen (Board.fen board).

(** *** Navigation *)

Definition isEnd (s : Store) (this : NodeRef) : bool :=
  len (variations (node s this)) =? 0.

(** [this.variations[0] ?? null]. *)
Definition next (s : Store) (this : NodeRef) : option NodeRef :=
  nth_error (variations (node s this)) 0.

Definition isMainVariation (s : Store) (this : NodeRef) : bool :=
  match parent (node s this) with
  | None => true
  | Some p =>
      match nth_error (variations (node s p)) 0 with
      | Some first => Nat.eqb first this
      | None => false
      end
  end.

(** The loops that walk along [parent] or along the first variation are
    given the number of turns they may take; [None] means that the loop is
    still running after that many turns. *)
Fixpoint isMainline (turns : nat) (s : Store) (nd : NodeRef) : option bool :=
  match turns with
  | O => None
  | S turns' =>
      match parent (node s nd) with
      | None => Some true
      | Some p => if negb (isMainVariation s nd) then Some false else isMainline turns' s p
      end
  end.

Fixpoint root (turns : nat) (s : Store) (nd : NodeRef) : option NodeRef :=
  match turns with
  | O => None
  | S turns' =>
      match parent (node s nd) with
      | None => Some nd
      | Some p => root turns' s p
      end
  end.

Fixpoint end_ (turns : nat) (s : Store) (nd : NodeRef) : option NodeRef :=
  match turns with
  | O => None
  | S turns' =>
      match variations (node s nd) with
      | [] => Some nd
      | first :: _ => end_ turns' s first
      end
  end.

(** [ply()]: [count] is the local counter. *)
Fixpoint plyLoop (turns : nat) (s : Store) (nd : NodeRef) (count : Z) : option Z :=
  match turns with
  | O => None
  | S turns' =>
      match parent (node s nd) with
      | None => Some count
      | Some p => plyLoop turns' s p (count + 1)
      end
  end.
Definition ply (turns : nat) (s : Store) (this : NodeRef) : option Z :=
  plyLoop turns s this 0.

(** [Math.floor(this.ply() / 2) + 1]. *)
Definition moveNumber (turns : nat) (s : Store) (this : NodeRef) : option Z :=
  match ply turns s this with
  | Some p => Some (p / 2 + 1)
  | None => None
  end.

(** The nodes [mainline()] yields, as far as [turns] steps of the generator
    go; [mainlineMoves()] yields the moves of these nodes. *)
Fixpoint mainlineFrom (turns : nat) (s : Store) (nd : option NodeRef) : list NodeRef :=
  match turns, nd with
  | S turns', Some n => n :: mainlineFrom turns' s (next s n)
  | _, _ => []
  end.
Definition mainline (turns : nat) (s : Store) (this : NodeRef) : list NodeRef :=
  mainlineFrom turns s (next s this).
Definition mainlineMoves (turns : nat) (s : Store) (this : NodeRef) : list Move.t :=
  flat_map (fun n => match move (node s n) with Some m => [m] | None => [] end)
           (mainline turns s this).

(** [v.move?.equals(move)]. *)
Definition hasMove (s : Store) (m : Move.t) (v : NodeRef) : bool :=
  match move (node s v) with
  | Some vm => Move.equals vm m
  | None => false
  end.

Definition hasVariation (s : Store) (this : NodeRef) (m : Move.t) : bool :=
  existsb (hasMove s m) (variations (node s this)).

Definition variation (s : Store) (this : NodeRef) (m : Move.t) : option NodeRef :=
  find (hasMove s m) (variations (node s this)).

(** [countNodes()]: [depth] bounds the recursion, as in [board]. *)
Fixpoint countNodes (depth : nat) (s : Store) (this : NodeRef) : Res Z :=
  match depth with
  | O => Thr RangeError
  | S depth' =>
      fold_left (fun count v =>
        match count with
        | Ret c =>
            match countNodes depth' s v with
            | Ret k => Ret (c + k)
            | Thr e => Thr e
            end
        | Thr e => Thr e
        end) (variations (node s this)) (Ret 1)
  end.

(** *** Modification *)

Definition setVariations (vs : list NodeRef) (n : GameNode) : GameNode :=
  mkNode (parent n) (move n) vs (comment n) (startingComment n)
         (nags n) (clock n) (eval n) (arrows n) (shapes n) (board_ n) (boardValid n)
         (headers n).

Definition setParent (p : option NodeRef) (n : GameNode) : GameNode :=
  mkNode p (move n) (variations n) (comment n) (startingComment n)
         (nags n) (clock n) (eval n) (arrows n) (shapes n) (board_ n) (boardValid n)
         (headers n).

Definition setComment (c : jsstr) (n : GameNode) : GameNode :=
  mkNode (parent n) (move n) (variations n) c (startingComment n)
         (nags n) (clock n) (eval n) (arrows n) (shapes n) (board_ n) (boardValid n)
         (headers n).

Definition clearCache (n : GameNode) : GameNode :=
  mkNode (parent n) (move n) (variations n) (comment n) (startingComment n)
         (nags n) (clock n) (eval n) (arrows n) (shapes n) None false (headers n).

Record VariationOptions : Type := mkOptions {
  o_comment : option jsstr;
  o_startingComment : option jsstr;
  o_nags : option (list Z)
}.

(** The node [addVariation] creates. *)
Definition variationNode (this : NodeRef) (m : Move.t) (options : option VariationOptions)
    : GameNode :=
  mkNode (Some this) (Some m) []
    (match options with
     | Some o => match nonEmpty (o_comment o) with Some c => c | None => [] end
     | None => [] end)
    (match options with
     | Some o => match nonEmpty (o_startingComment o) with Some c => c | None => [] end
     | None => [] end)
    (match options with
     | Some o => match o_nags o with Some l => fold_left nagAdd l [] | None => [] end
     | None => [] end)
    None None [] [] None false None.

(** [addVariation(move, options)]: the new node is allocated at the end of
    the store and appended to [this.variations]. *)
Definition addVariation (s : Store) (this : NodeRef) (m : Move.t)
    (options : option VariationOptions) : NodeRef * Store :=
  (length s,
   update (s ++ [variationNode this m options]) this (pushVariation (length s))).

(** [addMainVariation(move)]: the new node goes to the front. *)
Definition addMainVariation (s : Store) (this : NodeRef) (m : Move.t) : NodeRef * Store :=
  (length s,
   update (s ++ [variationNode this m None]) this
          (fun n => setVariations (length s :: variations n) n)).

(** The loop of [addLine]: [first] is the local flag, [sc] the starting
    comment of the options. *)
Fixpoint addLineLoop (s : Store) (nd : NodeRef) (first : bool) (sc : option jsstr)
    (moves : list Move.t) : NodeRef * Store :=
  match moves with
  | [] => (nd, s)
  | m :: rest =>
      let child := length s in
      let marked := first && match nonEmpty sc with Some _ => true | None => false end in
      let childNode :=
        variationNode nd m
          (if marked then Some (mkOptions None sc None) else None) in
      addLineLoop (update (s ++ [childNode]) nd (pushVariation child)) child
                  (if marked then false else first) sc rest
  end.

Definition addLine (s : Store) (this : NodeRef) (moves : list Move.t)
    (options : option VariationOptions) : NodeRef * Store :=
  let '(nd, s) :=
    addLineLoop s this true
      (match options with Some o => o_startingComment o | None => None end) moves in
  match options with
  | Some o =>
      match nonEmpty (o_comment o) with
      | Some c => (nd, update s nd (setComment c))
      | None => (nd, s)
      end
  | None => (nd, s)
  end.

(** [l.splice(i, 1)] and an assignment [l[i] = v] inside the list. *)
Definition removeAt {A} (l : list A) (i : nat) : list A := firstn i l ++ skipn (S i) l.
Fixpoint writeAt {A} (l : list A) (i : nat) (v : A) : list A :=
  match l, i with
  | [], _ => []
  | _ :: l', O => v :: l'
  | x :: l', S i' => x :: writeAt l' i' v
  end.

Definition removeVariation (s : Store) (this variation : NodeRef) : Store :=
  let idx := indexOf Nat.eqb (variations (node s this)) variation in
  if negb (idx =? -1) then
    update (update s this (fun n => setVariations (removeAt (variations n) (Z.to_nat idx)) n))
           variation (setParent None)
  else s.

(** [promote()], [demote()] and [promoteToMain()]: the indices they write at
    come from [indexOf], so they lie inside the array. *)
Definition promote (s : Store) (this : NodeRef) : Store :=
  match parent (node s this) with
  | None => s
  | Some p =>
      let vs := variations (node s p) in
      let idx := indexOf Nat.eqb vs this in
      if idx >? 0 then
        let prev := nth (Z.to_nat (idx - 1)) vs this in
        update s p (setVariations
          (writeAt (writeAt vs (Z.to_nat (idx - 1)) this) (Z.to_nat idx) prev))
      else s
  end.

Definition demote (s : Store) (this : NodeRef) : Store :=
  match parent (node s this) with
  | None => s
  | Some p =>
      let vs := variations (node s p) in
      let idx := indexOf Nat.eqb vs this in
      if (idx >=? 0) && (idx <? len vs - 1) then
        let next := nth (Z.to_nat (idx + 1)) vs this in
        update s p (setVariations
          (writeAt (writeAt vs (Z.to_nat (idx + 1)) this) (Z.to_nat idx) next))
      else s
  end.

Definition promoteToMain (s : Store) (this : NodeRef) : Store :=
  match parent (node s this) with
  | None => s
  | Some p =>
      let vs := variations (node s p) in
      let idx := indexOf Nat.eqb vs this in
      if idx >? 0 then
        update s p (setVariations (this :: removeAt vs (Z.to_nat idx)))
      else s
  end.

(** [invalidateBoard()]: [depth] bounds the recursion. *)
Fixpoint invalidateBoard (depth : nat) (s : Store) (this : NodeRef) : Res Store :=
  match depth with
  | O => Thr RangeError
  | S depth' =>
      fold_left (fun acc v =>
        match acc with
        | Ret s' => invalidateBoard depth' s' v
        | Thr e => Thr e
        end) (variations (node s this)) (Ret (update s this clearCache))
  end.

End Tree.

(* ===================================================================== *)
(** ** Notions, checkers and example positions used by the statements *)
(* ===================================================================== *)

(** A move whose squares are on the board and whose drop, if any, is one of
    the six piece-type numbers: what the [Move] constructor is typed for. *)
Definition constructible (m : Move.t) : Prop :=
  0 <= Move.fromSquare m < 64 /\ 0 <= Move.toSquare m < 64 /\
  match Move.drop m with Some d => 1 <= d <= 6 | None => True end.

(** The moves that [uci()] writes without loss: an ordinary move whose
    promotion, if any, is a knight, bishop, rook or queen, or a drop from
    square 0 without promotion. *)
Definition uciFaithful (m : Move.t) : bool :=
  match Move.drop m, Move.promotion m with
  | None, None => true
  | None, Some p => negb (pt_eqb p PAWN) && negb (pt_eqb p KING)
  | Some _, None => Move.fromSquare m =? 0
  | Some _, Some _ => false
  end.

Definition ALL_PROMOTIONS : list (option PieceType) :=
  [None; Some PAWN; Some KNIGHT; Some BISHOP; Some ROOK; Some QUEEN; Some KING].
Definition ALL_DROPS : list (option Z) :=
  [None; Some 1; Some 2; Some 3; Some 4; Some 5; Some 6].

(** The round trip through UCI succeeds on [m] exactly when [m] is faithful. *)
Definition uciRoundTripAgrees (m : Move.t) : bool :=
  Bool.eqb (Move.res_eqb (Move.fromUci (Move.uci m)) (Ret m)) (uciFaithful m).

(** The standard starting position and the position after 1. e4 a6 2. e5 d5,
    where white may capture en passant on d6. *)
Definition startBoard : Board.t :=
  Eval vm_compute in
    match Board.create STARTING_FEN with Ret b => b | Thr _ => Board.fresh end.

Definition epBoard : Board.t :=
  Eval vm_compute in
    match Board.create (lit "rnbqkbnr/1pp1pppp/p7/3pP3/8/8/PPPP1PPP/RNBQKBNR w KQkq d6 0 3") with
    | Ret b => b
    | Thr _ => Board.fresh
    end.

(** The square of the pawn that an en-passant capture to [to] removes. *)
Definition capturedPawnSquare (piece : Piece.t) (to : Square) : Square :=
  to + (if Bool.eqb (Piece.color piece) WHITE then -8 else 8).

(** Two boards show the same state: the five scalar fields, the elements of
    [pieces] and the move stack. *)
Definition sameState (b2 b : Board.t) : Prop :=
  Board.turn b2 = Board.turn b /\
  Board.castlingRights b2 = Board.castlingRights b /\
  Board.epSquare b2 = Board.epSquare b /\
  Board.halfmoveClock b2 = Board.halfmoveClock b /\
  Board.fullmoveNumber b2 = Board.fullmoveNumber b /\
  Board.items (Board.pieces b2) = Board.items (Board.pieces b) /\
  (forall sq, 0 <= sq -> Board.pieceAt b2 sq = Board.pieceAt b sq) /\
  Board.moveStack b2 = Board.moveStack b.

(** Knights on b1 and f1 that both reach d2. *)
Definition twoKnightsBoard : Board.t :=
  Eval vm_compute in
    match Board.create (lit "4k3/8/8/8/8/8/8/1N2KN2 w - - 0 1") with
    | Ret b => b
    | Thr _ => Board.fresh
    end.


(** The text is one of the tokens [parseSan] answers without looking at the
    legal moves. *)
Definition isSpecialSan (san : jsstr) : bool :=
  Board.isCastleShort (Board.cleanSan san)
  || Board.isCastleLong (Board.cleanSan san)
  || Board.isNullToken (Board.cleanSan san).

(** [m] is the first element of [l] that satisfies [p]. *)
Definition firstSuch {A} (p : A -> bool) (l : list A) (m : A) : Prop :=
  exists l1 l2, l = l1 ++ m :: l2 /\ p m = true /\ forall x, In x l1 -> p x = false.

(** [o] is a legal move that competes with [m]; the origins share a file, or
    a rank. *)
Definition Conflict (b : Board.t) (piece : Piece.t) (m o : Move.t) : Prop :=
  In o (Board.legalMoves b) /\ Board.conflicts b piece m o = true.
Definition sameFile (m o : Move.t) : Prop :=
  squareFile (Move.fromSquare o) = squareFile (Move.fromSquare m).



(** References are valid: every cached board reference of a node points into
    the board store. *)
Definition wfWorld (w : Tree.World) : Prop :=
  forall n c, In n (Tree.nodes w) -> Tree.board_ n = Some c ->
    (c < length (Tree.boards w))%nat.

(** A call of [board()] from [w] to [w1] that returns [r] keeps references
    valid and the node store at its size. *)
Definition boardKeeps (w w1 : Tree.World) (r : Tree.BoardRef) : Prop :=
  wfWorld w1 /\
  (r < length (Tree.boards w1))%nat /\
  length (Tree.nodes w1) = length (Tree.nodes w).

(** A game with the single move e4 below its root, no board cached yet. *)
Definition smallWorld : Tree.World :=
  Tree.mkWorld
    [Tree.pushVariation 1%nat Tree.newGame;
     Tree.mkNode (Some 0%nat) (Some (Move.mk 12 28 None None)) [] [] [] [] None None
                 [] [] None false None]
    [].

(** The upstream parse tree of "1. e4 e5 (1... c5 2. Nf3) 2. Nf3 *": the
    variation is attached to the record of e5; the result token may follow
    the moves as a string. *)
Definition plainInfo (text col row : string) (fig : option string) : Tree.PgnInfo :=
  Tree.mkInfo
    (Some (Tree.mkNotation (Some (lit text))
             (match fig with Some f => Some (lit f) | None => None end)
             (Some (lit col)) (Some (lit row)) None None false))
    None None None None.

Definition plainMove (text col row : string) (fig : option string)
    (variations : list (list Tree.PgnMove)) : Tree.PgnMove :=
  Tree.PgnRecord (plainInfo text col row fig) variations.

Definition exampleMoves : list Tree.PgnMove :=
  [plainMove "e4" "e" "4" None [];
   plainMove "e5" "e" "5" None
     [[plainMove "c5" "c" "5" None []; plainMove "Nf3" "f" "3" (Some "N"%string) []]];
   plainMove "Nf3" "f" "3" (Some "N"%string) []].

Definition exampleTree (withResultToken : bool) : Tree.ParseTree :=
  Tree.mkParseTree None None
    (Some (exampleMoves ++ if withResultToken then [Tree.PgnString (lit "*")] else [])).

(** The moves of the children of a node, in UCI, in the order of
    [variations]. *)
Definition childMoves (s : Tree.Store) (r : Tree.NodeRef) : list jsstr :=
  map (fun k => match Tree.move (Tree.node s k) with
                | Some m => Move.uci m
                | None => []
                end)
      (Tree.variations (Tree.node s r)).

(** [s'] continues [s] around the node [p]: the nodes of [s] other than [p]
    are untouched, and [p] has kept its parent and move and has only got new
    nodes appended to its variations. *)
Definition grows (p : Tree.NodeRef) (s s' : Tree.Store) : Prop :=
  (length s <= length s')%nat /\
  (forall j, (j < length s)%nat -> j <> p -> Tree.node s' j = Tree.node s j) /\
  Tree.parent (Tree.node s' p) = Tree.parent (Tree.node s p) /\
  Tree.move (Tree.node s' p) = Tree.move (Tree.node s p) /\
  exists extra,
    Tree.variations (Tree.node s' p) = Tree.variations (Tree.node s p) ++ extra /\
    Forall (fun k => (length s <= k < length s')%nat) extra.

(** The frame of one turn, or of a run of turns, of the loop of
    [buildMoveTree]. *)
Definition framed (l l' : Tree.Loop) : Prop :=
  grows (Tree.currentNode l) (Tree.store (Tree.shared l)) (Tree.store (Tree.shared l')) /\
  (Tree.currentNode l' = Tree.currentNode l
   \/ (length (Tree.store (Tree.shared l)) <= Tree.currentNode l')%nat) /\
  (Tree.currentNode l' < length (Tree.store (Tree.shared l')))%nat.

(** The loop of [buildMoveTree] on the game root at the starting position,
    and after the move e4 was processed. *)
Definition loopAtStart : Tree.Loop :=
  Tree.mkLoop 0%nat startBoard (Tree.mkBState [Tree.newGame] []).

Definition loopAfterE4 : Tree.Loop :=
  Eval vm_compute in
    match Tree.processMove (plainMove "e4" "e" "4" None []) loopAtStart with
    | Ret l => l
    | Thr _ => loopAtStart
    end.

(** The notation text of a move record, if any. *)
Definition notationText (info : Tree.PgnInfo) : option jsstr :=
  match Tree.notation info with
  | Some n => Tree.n_notation n
  | None => None
  end.

(** The errors a list of move records leaves when none of them parses on
    [board]. *)
Definition failuresOn (board : Board.t) (moves : list Tree.PgnMove) : list Tree.GameError :=
  flat_map (fun m =>
    match m with
    | Tree.PgnRecord info _ => [Tree.parseFailure info board]
    | Tree.PgnString _ => []
    end) moves.

Definition failsOn (board : Board.t) (m : Tree.PgnMove) : Prop :=
  match m with
  | Tree.PgnRecord info _ => exists e, Tree.parseMove info board = Thr e
  | Tree.PgnString _ => True
  end.

(** What [setFen] writes for one rank: the pieces of [slots], from [file]
    rightwards; an empty square writes nothing. *)
Fixpoint writeSlots (rank file : Z) (slots : list Board.Slot) (a : Board.PieceArray)
    : Board.PieceArray :=
  match slots with
  | [] => a
  | Board.Has p :: rest =>
      writeSlots rank (file + 1) rest
        (Board.set a (squareFromFileRank file rank) (Board.Has p))
  | _ :: rest => writeSlots rank (file + 1) rest a
  end.

(** The fields of a board lie in the ranges of the data model: a 4-bit
    castling mask, an en-passant square on the board if any, and on each of
    the 64 squares null or a piece. *)
Definition inDataModel (b : Board.t) : Prop :=
  0 <= Board.castlingRights b <= 15 /\
  match Board.epSquare b with Some sq => 0 <= sq < 64 | None => True end /\
  forall sq, 0 <= sq < 64 -> Board.pieceAt b sq <> Board.Undefined.

(** A position with the two kings whose halfmove clock is 10^21, as the
    constructor reads it from a FEN. *)
Definition bigClockBoard : Board.t :=
  Eval vm_compute in
    match Board.create (lit "4k3/8/8/8/8/8/8/4K3 w - - 1000000000000000000000 1") with
    | Ret b => b
    | Thr _ => Board.fresh
    end.

(** Checks on the short fields of a FEN, for the values of the data model. *)
Definition fieldOk (s : jsstr) : bool :=
  forallb (fun c => negb (isSpace c)) s && negb (len s =? 0).

Definition castlingFieldOk (rights : Z) : bool :=
  fieldOk (Board.fenCastling rights)
  && (Board.parseCastling (Some (Board.fenCastling rights)) =? rights).

Definition epFieldOk (ep : option Square) : bool :=
  fieldOk (Board.fenEp ep)
  && Move.opt_eqb Z.eqb (Board.parseEp (Some (Board.fenEp ep))) ep.

Definition symbolOk (p : Piece.t) : bool :=
  forallb (fun c => negb (isSpace c) && negb (Ascii.eqb c "/"%char)) (Piece.symbol p).

Definition spaceFree (s : jsstr) : Prop := Forall (fun c => isSpace c = false) s.
Definition slashFree (s : jsstr) : Prop := Forall (fun c => Ascii.eqb c "/"%char = false) s.

(** The placement written back by [setFen]: rank after rank, from 7 down. *)
Definition writeRanks (src a : Board.PieceArray) (ranks : list Z) : Board.PieceArray :=
  fold_left (fun a rank => writeSlots rank 0 (Board.rankSlots src rank) a) ranks a.


(** *** Further notions used by the statements *)

(** [x] keeps no castling right that [r] lacks, and is a 4-bit mask. *)
Definition rightsWithin (x r : Z) : Prop := 0 <= x <= 15 /\ Z.land x r = x.

(** Nothing is stored outside the 64 squares, and the en-passant square, if
    any, is on the board. *)
Definition onBoardOnly (b : Board.t) : Prop :=
  forall sq, Board.get (Board.pieces b) sq <> Board.Undefined -> 0 <= sq < 64.

Definition epOnBoard (b : Board.t) : Prop :=
  match Board.epSquare b with Some e => 0 <= e < 64 | None => True end.

Definition lastRank (color : Color) : Z := if Bool.eqb color WHITE then 7 else 0.

(** What the generators promise about one move from [fromSq] by a piece of
    [color]: its fields, what stands on the target, and the target's
    coordinates. *)
Definition targetFree (b : Board.t) (color : Color) (m : Move.t) : Prop :=
  Board.emptyOrEnemy (Board.get (Board.pieces b) (Move.toSquare m)) color = true
  \/ Board.ep_is b (Move.toSquare m) = true.

(** The moves generated for the piece on [fromSq]. *)
Definition movesOf (b : Board.t) (fromSq : Square) (piece : Piece.t) : list Move.t :=
  match Piece.pieceType piece with
  | PAWN => Board.generatePawnMoves b fromSq (Board.turn b)
  | KNIGHT => Board.generateKnightMoves b fromSq (Board.turn b)
  | BISHOP => Board.generateSlidingMoves b fromSq (Board.turn b) Board.BISHOP_DIRECTIONS
  | ROOK => Board.generateSlidingMoves b fromSq (Board.turn b) Board.ROOK_DIRECTIONS
  | QUEEN => Board.generateSlidingMoves b fromSq (Board.turn b) Board.QUEEN_DIRECTIONS
  | KING => Board.generateKingMoves b fromSq (Board.turn b)
  end.

(** A pawn, rook or queen; a bishop or knight. *)
Definition isHeavy (s : Board.Slot) : bool :=
  match s with
  | Board.Has p =>
      pt_eqb (Piece.pieceType p) PAWN || pt_eqb (Piece.pieceType p) ROOK
      || pt_eqb (Piece.pieceType p) QUEEN
  | _ => false
  end.

Definition isMinor (s : Board.Slot) : bool :=
  match s with
  | Board.Has p => pt_eqb (Piece.pieceType p) BISHOP || pt_eqb (Piece.pieceType p) KNIGHT
  | _ => false
  end.

Definition totalMinors (c : Board.Minors) : Z :=
  Board.whiteBishops c + Board.whiteKnights c + Board.blackBishops c + Board.blackKnights c.

(** An array as the constructor makes it: no property at a negative index,
    at least 64 elements, and no hole among the first 64. *)
Definition wholeArray (a : Board.PieceArray) : Prop :=
  Board.props a = [] /\
  (64 <= length (Board.items a))%nat /\
  forall sq, 0 <= sq < 64 -> Board.get a sq <> Board.Undefined.

(** The text of a move of a piece other than a pawn, and of a pawn move,
    from what the notation shows. *)
Definition fileText (f : option Z) : jsstr :=
  match f with Some f => show (at_ FILE_NAMES f) | None => [] end.

Definition rankText (r : option Z) : jsstr :=
  match r with Some r => toString (r + 1) | None => [] end.

Definition pieceBody (t : PieceType) (df dr : option Z) (cap : bool) (to : Z) : jsstr :=
  show (at_ Board.SAN_LETTERS (pt_code t))
  ++ (fileText df ++ rankText dr)
  ++ (if cap then lit "x" else [])
  ++ show (squareName to).

Definition pawnBody (capFile : option Z) (to : Z) (promotion : option PieceType) : jsstr :=
  match capFile with Some f => show (at_ FILE_NAMES f) ++ lit "x" | None => [] end
  ++ show (squareName to)
  ++ match promotion with
     | Some p => lit "=" ++ show (at_ Board.SAN_PROMOTIONS (pt_code p))
     | None => []
     end.

Definition query_eqb (a : option Board.SanQuery) (y : Board.SanQuery) : bool :=
  match a with
  | Some x =>
      pt_eqb (Board.q_pieceType x) (Board.q_pieceType y)
      && (Board.q_toSquare x =? Board.q_toSquare y)
      && Move.opt_eqb pt_eqb (Board.q_promotion x) (Board.q_promotion y)
      && Move.opt_eqb Z.eqb (Board.q_disambigFile x) (Board.q_disambigFile y)
      && Move.opt_eqb Z.eqb (Board.q_disambigRank x) (Board.q_disambigRank y)
  | None => false
  end.

(** The text [body], followed by any check mark, is read as the query [q]. *)
Definition readsAs (body : jsstr) (q : Board.SanQuery) : bool :=
  forallb (fun mark => str_eqb (Board.cleanSan (body ++ mark)) body) [[]; lit "+"; lit "#"]
  && negb (Board.isCastleShort body) && negb (Board.isCastleLong body)
  && negb (Board.isNullToken body)
  && query_eqb (Board.readSan body) q.

Definition OPTIONAL_COORDS : list (option Z) := None :: map Some (range 0 8).

(** The three kinds of pawn move the generator yields. *)
Definition pawnStep (color : Color) : Z := if Bool.eqb color WHITE then 1 else -1.

Definition pawnCaptures (b : Board.t) (m : Move.t) : bool :=
  negb (Board.isNull (Board.get (Board.pieces b) (Move.toSquare m)))
  || Board.ep_is b (Move.toSquare m).

(** The array has exactly 64 elements, none of them a hole, and no property
    at a negative index; a standard board has such an array, a 4-bit castling
    mask and an en-passant square on the board, if any. *)
Definition exactArray (a : Board.PieceArray) : Prop :=
  Board.props a = [] /\
  length (Board.items a) = 64%nat /\
  forall sq, 0 <= sq < 64 -> Board.get a sq <> Board.Undefined.

Definition standard (b : Board.t) : Prop :=
  exactArray (Board.pieces b) /\
  0 <= Board.castlingRights b <= 15 /\
  epOnBoard b.

(** The last string value that the tag list gives for [key], after [acc]. *)
Definition lastString (key : jsstr) (l : list (jsstr * Tree.TagValue)) (acc : option jsstr)
    : option jsstr :=
  fold_left (fun acc kv =>
    match snd kv with
    | Tree.TagString value => if str_eqb (fst kv) key then Some value else acc
    | Tree.TagOther => acc
    end) l acc.

(** A node store is a forest laid out in order of creation: the variations
    of a node are distinct nodes of the store that name it as their parent,
    and a node with a parent was created after that parent, is listed among
    its variations, and carries a move. *)
Definition wellFormed (s : Tree.Store) : Prop :=
  forall r, (r < length s)%nat ->
    NoDup (Tree.variations (Tree.node s r)) /\
    (forall v, In v (Tree.variations (Tree.node s r)) ->
       (v < length s)%nat /\ Tree.parent (Tree.node s v) = Some r) /\
    (forall p, Tree.parent (Tree.node s r) = Some p ->
       (p < r)%nat /\ In r (Tree.variations (Tree.node s p)) /\
       Tree.move (Tree.node s r) <> None).

(** The node 0 is a game with the headers [h]: it has no parent and no move,
    and every other node of the store has a parent. *)
Definition gameAtRoot (h : Tree.Headers) (s : Tree.Store) : Prop :=
  (0 < length s)%nat /\
  Tree.parent (Tree.node s 0%nat) = None /\
  Tree.move (Tree.node s 0%nat) = None /\
  Tree.headers (Tree.node s 0%nat) = Some h /\
  forall r, (0 < r < length s)%nat -> Tree.parent (Tree.node s r) <> None.

(** The variations of [r] are nodes of the store. *)
Definition childrenInside (s : Tree.Store) (r : Tree.NodeRef) : Prop :=
  forall v, In v (Tree.variations (Tree.node s r)) -> (v < length s)%nat.

(** Every parent named in the store is a node of the store. *)
Definition parentsInside (s : Tree.Store) : Prop :=
  forall r p, (r < length s)%nat -> Tree.parent (Tree.node s r) = Some p ->
              (p < length s)%nat.
(* ===================================================================== *)
(** ** Properties *)
(* ===================================================================== *)

Unset Implicit Arguments.

(** *** Generic facts *)

Lemma range_In (lo : Z) (n : nat) (z : Z) :
  lo <= z < lo + Z.of_nat n -> In z (range lo n).
Proof.
  intros H. unfold range. apply in_map_iff.
  exists (Z.to_nat (z - lo)). split; [lia|].
  apply in_seq. lia.
Qed.

Lemma range_forallb (P : Z -> bool) (lo : Z) (n : nat) :
  forallb P (range lo n) = true ->
  forall z, lo <= z < lo + Z.of_nat n -> P z = true.
Proof.
  intros H z Hz. rewrite forallb_forall in H. apply H, range_In, Hz.
Qed.

Lemma pt_eqb_eq (a b : PieceType) : pt_eqb a b = true <-> a = b.
Proof.
  split; [|intros ->; destruct b; reflexivity].
  destruct a, b; unfold pt_eqb; simpl; intros H; try reflexivity; discriminate.
Qed.

Lemma pt_eqb_refl (a : PieceType) : pt_eqb a a = true.
Proof. apply pt_eqb_eq; reflexivity. Qed.

Lemma move_equals_eq (m m' : Move.t) : Move.equals m m' = true <-> m = m'.
Proof.
  destruct m as [f t p d], m' as [f' t' p' d']; unfold Move.equals; simpl.
  rewrite !andb_true_iff, !Z.eqb_eq. split.
  - intros [[[-> ->] Hp] Hd]. f_equal.
    + destruct p, p'; simpl in Hp; try discriminate; [|reflexivity].
      apply pt_eqb_eq in Hp; congruence.
    + destruct d, d'; simpl in Hd; try discriminate; [|reflexivity].
      apply Z.eqb_eq in Hd; congruence.
  - intros H; injection H as -> -> -> ->. repeat split.
    + destruct p'; simpl; [apply pt_eqb_refl|reflexivity].
    + destruct d'; simpl; [apply Z.eqb_refl|reflexivity].
Qed.

Lemma res_eqb_eq (r : Res Move.t) (m : Move.t) :
  Move.res_eqb r (Ret m) = true <-> r = Ret m.
Proof.
  destruct r as [x|e]; simpl.
  - rewrite move_equals_eq. split; congruence.
  - split; discriminate.
Qed.


(** *** Squares, pieces and the text of a move *)

Lemma str_eqb_eq (a b : jsstr) : str_eqb a b = true <-> a = b.
Proof.
  revert b; induction a as [|x a IH]; intros [|y b]; simpl; split;
    try congruence; try discriminate.
  - rewrite andb_true_iff, Ascii.eqb_eq, IH. intros [-> ->]; reflexivity.
  - intros H; injection H as -> ->.
    rewrite andb_true_iff, Ascii.eqb_eq, IH. auto.
Qed.

Lemma str_eqb_refl (a : jsstr) : str_eqb a a = true.
Proof. apply str_eqb_eq; reflexivity. Qed.

Lemma indexOf_from_found {A} (eqb : A -> A -> bool) (l : list A) (x : A) (i : Z) :
  indexOf_from eqb l x i <> -1 -> 0 <= i ->
  i <= indexOf_from eqb l x i < i + len l /\
  exists y, nth_error l (Z.to_nat (indexOf_from eqb l x i - i)) = Some y /\ eqb y x = true.
Proof.
  revert i; induction l as [|y l IH]; intros i H Hi; simpl in *; [congruence|].
  unfold len; simpl length.
  destruct (eqb y x) eqn:E.
  - split; [lia|]. exists y. rewrite Z.sub_diag. simpl. auto.
  - destruct (IH (i + 1) H ltac:(lia)) as [Hr [z [Hz Ez]]]. unfold len in Hr.
    split; [lia|]. exists z. split; [|exact Ez].
    replace (Z.to_nat (indexOf_from eqb l x (i + 1) - i))
      with (S (Z.to_nat (indexOf_from eqb l x (i + 1) - (i + 1)))) by lia.
    exact Hz.
Qed.

Lemma indexOf_from_range {A} (eqb : A -> A -> bool) (l : list A) (x : A) (i : Z) :
  0 <= i -> indexOf_from eqb l x i = -1 \/ i <= indexOf_from eqb l x i < i + len l.
Proof.
  intros Hi. destruct (Z.eq_dec (indexOf_from eqb l x i) (-1)) as [E|E]; [left; exact E|].
  right. apply (indexOf_from_found eqb l x i E Hi).
Qed.

Lemma indexOf_found {A} (eqb : A -> A -> bool) (l : list A) (x : A) :
  0 <= indexOf eqb l x ->
  indexOf eqb l x < len l /\
  exists y, at_ l (indexOf eqb l x) = Some y /\ eqb y x = true.
Proof.
  unfold indexOf. intros H.
  destruct (indexOf_from_found eqb l x 0) as [Hr [y [Hy Ey]]]; [lia|lia|].
  split; [lia|]. exists y. split; [|exact Ey].
  unfold at_. destruct (indexOf_from eqb l x 0 <? 0) eqn:E; [apply Z.ltb_lt in E; lia|].
  rewrite Z.sub_0_r in Hy. exact Hy.
Qed.

(** A name that [parseSquare] accepts is the name, up to case, of the square
    it returns, and that square is on the board. *)
Lemma parseSquare_Some (name : jsstr) (sq : Square) :
  parseSquare name = Some sq ->
  0 <= sq < 64 /\ squareName sq = Some (toLowerCase name).
Proof.
  unfold parseSquare. destruct (_ >=? 0) eqn:E; [|discriminate].
  intros H; injection H as <-. apply Z.geb_le in E.
  destruct (indexOf_found str_eqb SQUARE_NAMES (toLowerCase name) E) as [Hl [y [Hy Ey]]].
  apply str_eqb_eq in Ey; subst y.
  split; [|exact Hy]. change (len SQUARE_NAMES) with 64 in Hl. lia.
Qed.

Lemma squareName_parseSquare (sq : Square) :
  0 <= sq < 64 ->
  exists name,
    squareName sq = Some name /\ parseSquare name = Some sq /\
    parseSquare (toUpperCase name) = Some sq /\ len name = 2.
Proof.
  intros H.
  assert (C : forallb (fun sq =>
            match squareName sq with
            | Some name =>
                Move.opt_eqb Z.eqb (parseSquare name) (Some sq)
                && Move.opt_eqb Z.eqb (parseSquare (toUpperCase name)) (Some sq)
                && (len name =? 2)
            | None => false
            end) (range 0 64) = true) by (vm_compute; reflexivity).
  pose proof (range_forallb _ 0 64 C sq ltac:(lia)) as P. cbv beta in P.
  destruct (squareName sq) as [name|]; [|discriminate].
  exists name. apply andb_true_iff in P; destruct P as [P P3].
  apply andb_true_iff in P; destruct P as [P1 P2].
  destruct (parseSquare name) as [a|]; [|discriminate].
  destruct (parseSquare (toUpperCase name)) as [c|]; [|discriminate].
  simpl in P1, P2. apply Z.eqb_eq in P1, P2, P3. subst. auto.
Qed.

(** The 32-bit view is the identity on the numbers a square can be. *)
Lemma toInt32_small (z : Z) : -2147483648 <= z < 2147483648 -> toInt32 z = z.
Proof. intros H. unfold toInt32. rewrite Z.mod_small; lia. Qed.

Lemma squareFile_mod (sq : Square) :
  -2147483648 <= sq < 2147483648 -> squareFile sq = sq mod 8.
Proof.
  intros H. unfold squareFile, band. rewrite (toInt32_small sq H).
  change (toInt32 7) with (Z.ones 3). rewrite Z.land_ones by lia. reflexivity.
Qed.

Lemma squareRank_div (sq : Square) :
  -2147483648 <= sq < 2147483648 -> squareRank sq = sq / 8.
Proof.
  intros H. unfold squareRank, shr. rewrite (toInt32_small sq H).
  rewrite Z.shiftr_div_pow2 by lia. reflexivity.
Qed.

Lemma square_coords (sq : Square) :
  0 <= sq < 64 ->
  0 <= squareFile sq <= 7 /\ 0 <= squareRank sq <= 7 /\
  squareFromFileRank (squareFile sq) (squareRank sq) = sq.
Proof.
  intros H. rewrite squareFile_mod, squareRank_div by lia.
  unfold squareFromFileRank. Z.div_mod_to_equations. lia.
Qed.

Lemma coords_square (file rank : Z) :
  0 <= file <= 7 -> 0 <= rank <= 7 ->
  squareFile (squareFromFileRank file rank) = file /\
  squareRank (squareFromFileRank file rank) = rank /\
  0 <= squareFromFileRank file rank < 64.
Proof.
  intros Hf Hr. unfold squareFromFileRank.
  rewrite squareFile_mod, squareRank_div by lia.
  Z.div_mod_to_equations. lia.
Qed.

(** X1.  [squareName] and [parseSquare] are inverse on the board: every
    square 0..63 has a two-letter name that [parseSquare] reads back as that
    square, in lower or upper case. *)
Theorem squareName_round_trip (sq : Square) :
  0 <= sq < 64 ->
  exists name,
    squareName sq = Some name /\ len name = 2 /\
    parseSquare name = Some sq /\ parseSquare (toUpperCase name) = Some sq.
Proof.
  intros H. destruct (squareName_parseSquare sq H) as [name [H1 [H2 [H3 H4]]]].
  exists name. auto.
Qed.

Lemma squareName_round_trip_witness :
  exists name,
    squareName 28 = Some name /\ len name = 2 /\
    parseSquare name = Some 28 /\ parseSquare (toUpperCase name) = Some 28.
Proof. apply (squareName_round_trip 28). lia. Defined.

(** X2.  Whatever text [parseSquare] accepts, the square it returns is one
    of 0..63 and [squareName] of it is the text in lower case; it never
    returns a square off the board. *)
Theorem parseSquare_sound (name : jsstr) (sq : Square) :
  parseSquare name = Some sq ->
  0 <= sq < 64 /\ squareName sq = Some (toLowerCase name).
Proof. apply parseSquare_Some. Qed.

Lemma parseSquare_sound_witness :
  0 <= 28 < 64 /\ squareName 28 = Some (toLowerCase (lit "E4")).
Proof. apply (parseSquare_sound (lit "E4") 28). reflexivity. Defined.

(** X3.  File and rank are the coordinates of a square: on the board
    [squareFromFileRank (squareFile sq) (squareRank sq)] is [sq], and the
    file and rank of [squareFromFileRank file rank] are [file] and [rank]. *)
Theorem square_coordinates (sq file rank : Z) :
  0 <= sq < 64 -> 0 <= file <= 7 -> 0 <= rank <= 7 ->
  (0 <= squareFile sq <= 7 /\ 0 <= squareRank sq <= 7 /\
   squareFromFileRank (squareFile sq) (squareRank sq) = sq) /\
  (squareFile (squareFromFileRank file rank) = file /\
   squareRank (squareFromFileRank file rank) = rank /\
   0 <= squareFromFileRank file rank < 64).
Proof.
  intros H Hf Hr. split; [apply square_coords, H|apply coords_square; assumption].
Qed.

Lemma square_coordinates_witness :
  (0 <= squareFile 28 <= 7 /\ 0 <= squareRank 28 <= 7 /\
   squareFromFileRank (squareFile 28) (squareRank 28) = 28) /\
  (squareFile (squareFromFileRank 4 3) = 4 /\
   squareRank (squareFromFileRank 4 3) = 3 /\
   0 <= squareFromFileRank 4 3 < 64).
Proof. apply (square_coordinates 28 4 3); lia. Defined.

(** X4.  [squareMirror] flips the rank and keeps the file, stays on the
    board, and is its own inverse. *)
Theorem squareMirror_involutive (sq : Square) :
  0 <= sq < 64 ->
  0 <= squareMirror sq < 64 /\
  squareFile (squareMirror sq) = squareFile sq /\
  squareRank (squareMirror sq) = 7 - squareRank sq /\
  squareMirror (squareMirror sq) = sq.
Proof.
  intros H.
  assert (C : forallb (fun sq =>
            (0 <=? squareMirror sq) && (squareMirror sq <? 64)
            && (squareFile (squareMirror sq) =? squareFile sq)
            && (squareRank (squareMirror sq) =? 7 - squareRank sq)
            && (squareMirror (squareMirror sq) =? sq)) (range 0 64) = true)
    by (vm_compute; reflexivity).
  pose proof (range_forallb _ 0 64 C sq ltac:(lia)) as P. cbv beta in P.
  rewrite !andb_true_iff in P. destruct P as [[[[P1 P2] P3] P4] P5].
  apply Z.leb_le in P1. apply Z.ltb_lt in P2. apply Z.eqb_eq in P3, P4, P5.
  auto.
Qed.

Lemma squareMirror_involutive_witness :
  0 <= squareMirror 12 < 64 /\
  squareFile (squareMirror 12) = squareFile 12 /\
  squareRank (squareMirror 12) = 7 - squareRank 12 /\
  squareMirror (squareMirror 12) = 12.
Proof. apply (squareMirror_involutive 12). lia. Defined.

(** X5.  [squareDistance] is a metric on the 64 squares with values 0..7:
    it is symmetric, zero exactly between a square and itself, and obeys the
    triangle inequality. *)
Theorem squareDistance_metric (a b c : Square) :
  0 <= a < 64 -> 0 <= b < 64 -> 0 <= c < 64 ->
  0 <= squareDistance a b <= 7 /\
  squareDistance a b = squareDistance b a /\
  (squareDistance a b = 0 <-> a = b) /\
  squareDistance a c <= squareDistance a b + squareDistance b c.
Proof.
  intros Ha Hb Hc. unfold squareDistance.
  destruct (square_coords a Ha) as [Fa [Ra Ea]].
  destruct (square_coords b Hb) as [Fb [Rb Eb]].
  destruct (square_coords c Hc) as [Fc [Rc Ec]].
  unfold squareFromFileRank in *.
  repeat split; try lia.
Qed.

Lemma squareDistance_metric_witness :
  0 <= squareDistance 0 63 <= 7 /\
  squareDistance 0 63 = squareDistance 63 0 /\
  (squareDistance 0 63 = 0 <-> 0 = 63) /\
  squareDistance 0 28 <= squareDistance 0 63 + squareDistance 63 28.
Proof. apply (squareDistance_metric 0 63 28); lia. Defined.

(** *** Pieces *)

Lemma ascii_cases (P : ascii -> Prop) :
  (forall k, 0 <= k < 256 -> P (chr k)) -> forall c, P c.
Proof.
  intros H c. replace c with (chr (code c)).
  - apply H. unfold code. pose proof (N_ascii_bounded c). lia.
  - unfold chr, code. rewrite N2Z.id. apply ascii_N_embedding.
Qed.

(** X6.  On a text [s] of 8-bit characters [Piece.fromSymbol] accepts exactly
    the twelve piece letters and inverts [symbol()]: it returns the piece [p]
    on [s] if and only if [s] is the symbol of [p]; on any other such text it
    throws. *)
Theorem fromSymbol_symbol (s : jsstr) (p : Piece.t) :
  Piece.fromSymbol s = Ret p <-> s = Piece.symbol p.
Proof.
  split.
  - unfold Piece.fromSymbol.
    destruct (pt_of_code _) as [pt|] eqn:E; [|discriminate].
    assert (I : 0 <= indexOf (Move.opt_eqb str_eqb) PIECE_SYMBOLS (Some (toLowerCase s))).
    { destruct (indexOf _ _ _) as [|i|i]; simpl in E; try discriminate; lia. }
    destruct (indexOf_found _ _ _ I) as [_ [y [Hy Ey]]].
    destruct y as [y|]; [|discriminate]. simpl in Ey. apply str_eqb_eq in Ey. subst y.
    assert (L : length s = 1%nat).
    { assert (In (Some (toLowerCase s)) PIECE_SYMBOLS) as Hin.
      { unfold at_ in Hy. destruct (_ <? 0); [discriminate|].
        apply nth_error_In in Hy. exact Hy. }
      unfold toLowerCase in Hin. rewrite <- (length_map toLowerChar s).
      simpl in Hin.
      repeat (destruct Hin as [Hin|Hin]; [try discriminate; injection Hin as <-; reflexivity|]).
      contradiction. }
    destruct s as [|c [|c2 s]]; try discriminate. clear L Hy I.
    revert E. pattern c. apply ascii_cases. intros k Hk.
    assert (C : forallb (fun k =>
              match Piece.fromSymbol [chr k] with
              | Ret q => str_eqb [chr k] (Piece.symbol q)
              | Thr _ => true
              end) (range 0 256) = true) by (vm_compute; reflexivity).
    pose proof (range_forallb _ 0 256 C k ltac:(lia)) as P. cbv beta in P.
    unfold Piece.fromSymbol in P. intros E. rewrite E in P.
    intros H; injection H as <-. apply str_eqb_eq in P. exact P.
  - intros ->. destruct p as [[] []]; reflexivity.
Qed.

(** X7.  [hash()] separates the pieces: two pieces have the same hash
    exactly when [equals] holds, and the hash is one of 1..12. *)
Theorem hash_equals (p q : Piece.t) :
  1 <= Piece.hash p <= 12 /\
  (Piece.hash p = Piece.hash q <-> Piece.equals p q = true).
Proof.
  destruct p as [[] []], q as [[] []]; vm_compute;
    (split; [split; discriminate|split; congruence]).
Qed.

(** *** Reading UCI text *)

Lemma slice_inside {A} (s : list A) (a b : Z) :
  0 <= a <= b -> b <= len s ->
  slice s a (Some b) = firstn (Z.to_nat (b - a)) (skipn (Z.to_nat a) s).
Proof.
  intros H1 H2. unfold slice, rel_index.
  destruct (a <? 0) eqn:Ea; [apply Z.ltb_lt in Ea; lia|].
  destruct (b <? 0) eqn:Eb; [apply Z.ltb_lt in Eb; lia|].
  rewrite !Z.min_l by lia. reflexivity.
Qed.

Lemma promotionMap_Some (c : jsstr) (p : PieceType) :
  Move.promotionMap c = Some p ->
  show (at_ Move.PROMOTION_SUFFIX (pt_code p)) = c /\ p <> PAWN /\ p <> KING.
Proof.
  unfold Move.promotionMap.
  repeat match goal with
         | |- context [str_eqb c ?l] =>
             let E := fresh "E" in
             destruct (str_eqb c l) eqn:E;
             [apply str_eqb_eq in E; subst c; intros H; injection H as <-;
              repeat split; discriminate|]
         end.
  discriminate.
Qed.

(** X8.  A move that [Move.fromUci] returns has both squares on the board
    and, if any, a promotion to knight, bishop, rook or queen; a drop has the
    source square 0, no promotion, and a piece number 1..6 or the -1 that an
    unknown piece letter yields.  Text shorter than four characters is
    rejected. *)
Theorem fromUci_in_range (uci : jsstr) (m : Move.t) :
  Move.fromUci uci = Ret m ->
  4 <= len uci /\
  0 <= Move.fromSquare m < 64 /\ 0 <= Move.toSquare m < 64 /\
  match Move.promotion m with Some p => p <> PAWN /\ p <> KING | None => True end /\
  match Move.drop m with
  | Some d => (d = -1 \/ 1 <= d <= 6) /\ Move.fromSquare m = 0 /\ Move.promotion m = None
  | None => True
  end.
Proof.
  unfold Move.fromUci. destruct (len uci <? 4) eqn:L; [discriminate|].
  apply Z.ltb_ge in L. intros H. split; [exact L|].
  destruct (str_eqb uci (lit "0000")).
  { injection H as <-. simpl. repeat split; lia. }
  destruct (Move.includes "@" uci).
  - destruct (parseSquare (slice uci 2 (Some 4))) as [to|] eqn:Et; [|discriminate].
    injection H as <-. simpl. apply parseSquare_Some in Et as [Ht _].
    repeat split; try lia.
    set (sym := toUpperCase (slice uci 0 (Some 1))).
    destruct (indexOf_from_range str_eqb Move.DROP_SYMBOLS sym 0 ltac:(lia)) as [E|E].
    + left. exact E.
    + right. change (len Move.DROP_SYMBOLS) with 7 in E. fold (indexOf str_eqb Move.DROP_SYMBOLS sym) in E.
      assert (N : indexOf str_eqb Move.DROP_SYMBOLS sym <> 0).
      { unfold indexOf, Move.DROP_SYMBOLS. cbn [map indexOf_from].
        destruct (str_eqb (list_ascii_of_string "") sym) eqn:E0; [|
          repeat match goal with
                 | |- context [if ?c then _ else _] => destruct c
                 end; simpl; lia].
        apply str_eqb_eq in E0. exfalso. unfold sym in E0.
        rewrite slice_inside in E0 by lia.
        destruct uci as [|c0 uci]; [unfold len in L; simpl in L; lia|].
        discriminate E0. }
      lia.
  - destruct (parseSquare (slice uci 0 (Some 2))) as [from|] eqn:Ef; [|discriminate].
    destruct (parseSquare (slice uci 2 (Some 4))) as [to|] eqn:Et; [|discriminate].
    apply parseSquare_Some in Ef as [Hf _]. apply parseSquare_Some in Et as [Ht _].
    destruct (len uci >? 4).
    + destruct (Move.promotionMap _) as [p|] eqn:Ep; [|discriminate].
      injection H as <-. simpl. apply promotionMap_Some in Ep as [_ [P1 P2]].
      repeat split; auto; lia.
    + injection H as <-. simpl. repeat split; auto; lia.
Qed.

Lemma fromUci_in_range_witness :
  let m := Move.mk 52 60 (Some QUEEN) None in
  4 <= len (lit "e7e8q") /\
  0 <= Move.fromSquare m < 64 /\ 0 <= Move.toSquare m < 64 /\
  match Move.promotion m with Some p => p <> PAWN /\ p <> KING | None => True end /\
  match Move.drop m with
  | Some d => (d = -1 \/ 1 <= d <= 6) /\ Move.fromSquare m = 0 /\ Move.promotion m = None
  | None => True
  end.
Proof. apply (fromUci_in_range (lit "e7e8q")). reflexivity. Defined.

(** X9.  Reading and writing back: for text other than 0000 and without an
    at sign, the [uci()] of the move that [Move.fromUci] returns is the first
    five characters of the text (four when there is no promotion letter) in
    lower case; what follows the fifth character is ignored. *)
Theorem uci_of_fromUci (uci : jsstr) (m : Move.t) :
  Move.fromUci uci = Ret m ->
  uci <> lit "0000" ->
  Move.includes "@" uci = false ->
  Move.uci m = toLowerCase (firstn 5 uci).
Proof.
  unfold Move.fromUci. destruct (len uci <? 4) eqn:L; [discriminate|].
  apply Z.ltb_ge in L. intros H N A.
  destruct (str_eqb uci (lit "0000")) eqn:E0; [apply str_eqb_eq in E0; contradiction|].
  rewrite A in H.
  destruct (parseSquare (slice uci 0 (Some 2))) as [from|] eqn:Ef; [|discriminate].
  destruct (parseSquare (slice uci 2 (Some 4))) as [to|] eqn:Et; [|discriminate].
  apply parseSquare_Some in Ef as [_ Hf]. apply parseSquare_Some in Et as [_ Ht].
  rewrite slice_inside in Hf, Ht by lia.
  destruct (len uci >? 4) eqn:G.
  - destruct (Move.promotionMap _) as [p|] eqn:Ep; [|discriminate].
    injection H as <-. apply promotionMap_Some in Ep as [Ep _].
    apply Z.gtb_lt in G. rewrite slice_inside in Ep by lia.
    unfold Move.uci. cbn [Move.drop Move.promotion Move.fromSquare Move.toSquare].
    rewrite Hf, Ht, Ep. unfold Move.plus. cbn [show].
    destruct uci as [|c0 [|c1 [|c2 [|c3 [|c4 rest]]]]];
      try (unfold len in G; simpl in G; lia).
    reflexivity.
  - injection H as <-.
    unfold Move.uci. cbn [Move.drop Move.promotion Move.fromSquare Move.toSquare].
    rewrite Hf, Ht. unfold Move.plus. cbn [show].
    destruct uci as [|c0 [|c1 [|c2 [|c3 [|c4 rest]]]]];
      try (unfold len in L; simpl in L; lia).
    + reflexivity.
    + rewrite Z.gtb_ltb in G. apply Z.ltb_ge in G. unfold len in G. simpl length in G. lia.
Qed.

Lemma uci_of_fromUci_witness :
  Move.uci (Move.mk 52 60 (Some QUEEN) None) = toLowerCase (firstn 5 (lit "E7E8Qxyz")).
Proof.
  apply (uci_of_fromUci (lit "E7E8Qxyz")).
  - reflexivity.
  - discriminate.
  - reflexivity.
Defined.

(** *** UCI *)

Lemma uci_checked f t p d :
  In f (range 0 64) -> In t (range 0 64) -> In p ALL_PROMOTIONS -> In d ALL_DROPS ->
  uciRoundTripAgrees (Move.mk f t p d) = true.
Proof.
  assert (H : forallb (fun f => forallb (fun t => forallb (fun p => forallb (fun d =>
    uciRoundTripAgrees (Move.mk f t p d)) ALL_DROPS) ALL_PROMOTIONS)
    (range 0 64)) (range 0 64) = true) by (vm_compute; reflexivity).
  intros Hf Ht Hp Hd.
  rewrite forallb_forall in H. specialize (H f Hf).
  rewrite forallb_forall in H. specialize (H t Ht).
  rewrite forallb_forall in H. specialize (H p Hp).
  rewrite forallb_forall in H. exact (H d Hd).
Qed.

Lemma uci_agreement (m : Move.t) :
  constructible m ->
  Move.res_eqb (Move.fromUci (Move.uci m)) (Ret m) = uciFaithful m.
Proof.
  destruct m as [f t p d]. unfold constructible; simpl. intros (Hf & Ht & Hd).
  assert (Hp : In p ALL_PROMOTIONS).
  { destruct p as [[]|]; simpl; tauto. }
  assert (Hd' : In d ALL_DROPS).
  { destruct d as [d|]; simpl; [|tauto].
    assert (d = 1 \/ d = 2 \/ d = 3 \/ d = 4 \/ d = 5 \/ d = 6) by lia.
    intuition (subst; tauto). }
  pose proof (uci_checked f t p d (range_In 0 64 f Hf) (range_In 0 64 t Ht) Hp Hd') as H.
  unfold uciRoundTripAgrees in H. apply eqb_prop in H. exact H.
Qed.

(** C7 (as stated, refuted).  A drop that was constructed with an origin
    other than square 0 does not survive the round trip: [uci()] writes only
    the piece and the target of a drop, and [fromUci] reads the origin back
    as 0.  A promotion to a pawn is lost in the same way. *)
Lemma uci_round_trip_counterexample :
  ~ (forall m, constructible m -> Move.fromUci (Move.uci m) = Ret m).
Proof.
  intros H.
  specialize (H (Move.mk 12 28 None (Some 5))).
  assert (C : constructible (Move.mk 12 28 None (Some 5))).
  { unfold constructible; simpl; lia. }
  specialize (H C). vm_compute in H. discriminate H.
Qed.

(** C7 (amended).  For every constructible move, [Move.fromUci(m.uci())]
    returns a move equal to [m] exactly when [m] is an ordinary move whose
    promotion, if any, is knight, bishop, rook or queen, or a drop from
    square 0 without promotion. *)
Theorem uci_round_trip (m : Move.t) :
  constructible m ->
  (Move.fromUci (Move.uci m) = Ret m <-> uciFaithful m = true).
Proof.
  intros C. rewrite <- res_eqb_eq, (uci_agreement m C). reflexivity.
Qed.

Lemma uci_round_trip_witness :
  Move.fromUci (Move.uci (Move.mk 52 60 (Some QUEEN) None))
  = Ret (Move.mk 52 60 (Some QUEEN) None).
Proof.
  apply (uci_round_trip (Move.mk 52 60 (Some QUEEN) None)).
  - unfold constructible; simpl; lia.
  - reflexivity.
Defined.

(** *** The [pieces] array *)

Lemma nth_set_nth_same (l : list Board.Slot) (n : nat) (v : Board.Slot) :
  nth n (Board.set_nth l n v) Board.Undefined = v.
Proof.
  revert l; induction n as [|n IH]; intros [|x l]; simpl; auto.
Qed.

Lemma nth_set_nth_other (l : list Board.Slot) (n k : nat) (v : Board.Slot) :
  n <> k -> nth k (Board.set_nth l n v) Board.Undefined = nth k l Board.Undefined.
Proof.
  revert l k; induction n as [|n IH]; intros [|x l] [|k] H; simpl; auto;
    try congruence.
  - destruct k; reflexivity.
  - rewrite IH by congruence. destruct k; reflexivity.
Qed.

Lemma get_set_same (a : Board.PieceArray) (i : Z) (v : Board.Slot) :
  Board.get (Board.set a i v) i = v.
Proof.
  unfold Board.get, Board.set. destruct (i <? 0) eqn:E; simpl.
  - rewrite Z.eqb_refl. reflexivity.
  - apply nth_set_nth_same.
Qed.

Lemma get_set_other (a : Board.PieceArray) (i j : Z) (v : Board.Slot) :
  i <> j -> Board.get (Board.set a i v) j = Board.get a j.
Proof.
  intros H. unfold Board.get, Board.set.
  destruct (i <? 0) eqn:Ei, (j <? 0) eqn:Ej; simpl; try reflexivity.
  - destruct (i =? j) eqn:E; [apply Z.eqb_eq in E; contradiction|reflexivity].
  - apply nth_set_nth_other. apply Z.ltb_ge in Ei, Ej. lia.
Qed.

Lemma get_spread (a : Board.PieceArray) (i : Z) :
  0 <= i -> Board.get (Board.spread a) i = Board.get a i.
Proof.
  intros H. unfold Board.get, Board.spread; simpl.
  destruct (i <? 0) eqn:E; [apply Z.ltb_lt in E; lia|reflexivity].
Qed.

Lemma get_spread_truthy (a : Board.PieceArray) (i : Z) :
  Board.truthy (Board.get (Board.spread a) i) = true ->
  0 <= i /\ Board.get (Board.spread a) i = Board.get a i.
Proof.
  unfold Board.get at 1, Board.spread; simpl. destruct (i <? 0) eqn:E.
  - simpl. discriminate.
  - intros _. apply Z.ltb_ge in E. split; [exact E|]. apply get_spread, E.
Qed.

(** *** push and pop *)

Lemma handleCastling_stack (b : Board.t) (m : Move.t) (c : Color) :
  Board.moveStack (Board.handleCastling b m c) = Board.moveStack b.
Proof.
  unfold Board.handleCastling.
  destruct (squareFile (Move.toSquare m) =? 6); reflexivity.
Qed.

(** Whatever [push] does afterwards, it has appended the undo record of the
    state it started from. *)
Lemma push_stack (b : Board.t) (m : Move.t) :
  Board.moveStack (snd (Board.push b m))
  = Board.moveStack b
    ++ [Board.mkEntry m (Board.pieceAt b (Move.toSquare m)) (Board.saveState b)].
Proof.
  unfold Board.push.
  destruct (Board.get (Board.pieces (Board.with_stack b _)) (Move.fromSquare m))
    as [| |piece]; try reflexivity.
  destruct (pt_eqb (Piece.pieceType piece) KING && _); simpl.
  - apply handleCastling_stack.
  - destruct (Move.promotion m);
      destruct (pt_eqb (Piece.pieceType piece) PAWN && _); reflexivity.
Qed.

Lemma push_returns (b : Board.t) (m : Move.t) :
  Board.truthy (Board.pieceAt b (Move.fromSquare m)) = true ->
  fst (Board.push b m) = Ret tt.
Proof.
  unfold Board.push, Board.pieceAt. simpl.
  destruct (Board.get (Board.pieces b) (Move.fromSquare m)) as [| |piece];
    simpl; try discriminate.
  intros _. destruct (pt_eqb (Piece.pieceType piece) KING && _); reflexivity.
Qed.

Lemma push_throws (b : Board.t) (m : Move.t) :
  Board.truthy (Board.pieceAt b (Move.fromSquare m)) = false ->
  Board.push b m
  = (Thr (NoPieceAt (squareName (Move.fromSquare m))),
     Board.with_stack b
       (Board.moveStack b
        ++ [Board.mkEntry m (Board.pieceAt b (Move.toSquare m)) (Board.saveState b)])).
Proof.
  unfold Board.push, Board.pieceAt. simpl.
  destruct (Board.get (Board.pieces b) (Move.fromSquare m)) as [| |piece];
    simpl; try discriminate; reflexivity.
Qed.

(** [pop] after a record of the state of [b] was appended to the stack of [b]. *)
Lemma pop_restores (b b1 : Board.t) (m : Move.t) (c : Board.Slot) :
  Board.moveStack b1 = Board.moveStack b ++ [Board.mkEntry m c (Board.saveState b)] ->
  exists b2, Board.pop b1 = (Some m, b2) /\ sameState b2 b.
Proof.
  intros H. unfold Board.pop. rewrite H, rev_unit, removelast_last.
  eexists; split; [reflexivity|].
  unfold sameState; simpl. repeat split.
  intros sq Hsq. unfold Board.pieceAt; simpl.
  rewrite get_spread by exact Hsq. apply get_spread, Hsq.
Qed.

Lemma legal_has_piece (b : Board.t) (m : Move.t) :
  Board.isLegalMove b m = true ->
  Board.truthy (Board.pieceAt b (Move.fromSquare m)) = true.
Proof.
  unfold Board.isLegalMove. intros H.
  destruct (Board.truthy (Board.pieceAt (Board.copy b) (Move.fromSquare m))) eqn:E.
  - unfold Board.pieceAt, Board.copy in E; simpl in E.
    destruct (get_spread_truthy _ _ E) as [_ Heq].
    unfold Board.pieceAt. rewrite <- Heq. exact E.
  - rewrite (push_throws _ _ E) in H. discriminate H.
Qed.

Lemma legalMoves_legal (b : Board.t) (m : Move.t) :
  In m (Board.legalMoves b) -> Board.isLegalMove b m = true.
Proof. unfold Board.legalMoves. intros H. apply filter_In in H. tauto. Qed.

(** C2.  For every board and every legal move, [push(move)] returns, a
    following [pop()] returns that move and restores turn, castling rights,
    en-passant square, both clocks, every square of the piece placement and
    the move stack; on an empty move stack [pop()] returns null and changes
    nothing. *)
Theorem push_pop_restores :
  (forall (b : Board.t) (m : Move.t),
     In m (Board.legalMoves b) ->
     exists b1 b2,
       Board.push b m = (Ret tt, b1) /\
       Board.pop b1 = (Some m, b2) /\
       sameState b2 b)
  /\
  (forall b : Board.t, Board.moveStack b = [] -> Board.pop b = (None, b)).
Proof.
  split.
  - intros b m Hm.
    pose proof (push_returns b m (legal_has_piece b m (legalMoves_legal b m Hm))) as Hr.
    pose proof (push_stack b m) as Hs.
    destruct (Board.push b m) as [r b1] eqn:E. simpl in Hr, Hs. subst r.
    destruct (pop_restores b b1 m _ Hs) as (b2 & Hp & Hsame).
    exists b1, b2. auto.
  - intros b H. unfold Board.pop. rewrite H. reflexivity.
Qed.

Lemma push_pop_restores_witness :
  exists b1 b2,
    Board.push startBoard (Move.mk 12 28 None None) = (Ret tt, b1) /\
    Board.pop b1 = (Some (Move.mk 12 28 None None), b2) /\
    sameState b2 startBoard.
Proof.
  apply (proj1 push_pop_restores startBoard (Move.mk 12 28 None None)).
  vm_compute. tauto.
Defined.

(** C10.  When the source square of the move holds no piece, [push] throws
    after it has appended the undo record with the snapshot of the state
    before the call, and has changed nothing else; a following [pop()]
    returns the move of the failed push and restores that state. *)
Theorem failed_push_is_undone (b : Board.t) (m : Move.t) :
  Board.truthy (Board.pieceAt b (Move.fromSquare m)) = false ->
  exists e b1 b2,
    Board.push b m = (Thr e, b1) /\
    b1 = Board.with_stack b
           (Board.moveStack b
            ++ [Board.mkEntry m (Board.pieceAt b (Move.toSquare m)) (Board.saveState b)]) /\
    Board.pop b1 = (Some m, b2) /\
    sameState b2 b.
Proof.
  intros H. rewrite (push_throws b m H).
  destruct (pop_restores b
              (Board.with_stack b
                 (Board.moveStack b
                  ++ [Board.mkEntry m (Board.pieceAt b (Move.toSquare m)) (Board.saveState b)]))
              m (Board.pieceAt b (Move.toSquare m)) eq_refl) as (b2 & Hp & Hs).
  eexists _, _, b2. repeat split; try exact Hp; apply Hs.
Qed.

Lemma failed_push_is_undone_witness :
  exists e b1 b2,
    Board.push startBoard (Move.mk 28 36 None None) = (Thr e, b1) /\
    b1 = Board.with_stack startBoard
           (Board.moveStack startBoard
            ++ [Board.mkEntry (Move.mk 28 36 None None)
                  (Board.pieceAt startBoard 36) (Board.saveState startBoard)]) /\
    Board.pop b1 = (Some (Move.mk 28 36 None None), b2) /\
    sameState b2 startBoard.
Proof.
  apply (failed_push_is_undone startBoard (Move.mk 28 36 None None)).
  reflexivity.
Defined.

(** *** En passant *)

(** C8 (as stated, refuted).  After 1. e4 a6 2. e5 d5 white captures en
    passant from e5 (36) to d6 (43): the black pawn on d5 (35) is removed,
    and the undo record pushed for the move holds null as [capturedPiece],
    not that pawn. *)
Lemma en_passant_record_counterexample :
  Board.pieceAt epBoard 36 = Board.Has (Piece.mk PAWN WHITE) /\
  Board.epSquare epBoard = Some 43 /\
  Board.pieceAt epBoard 35 = Board.Has (Piece.mk PAWN BLACK) /\
  exists b1,
    Board.push epBoard (Move.mk 36 43 None None) = (Ret tt, b1) /\
    Board.pieceAt b1 35 = Board.Null /\
    map Board.se_capturedPiece (Board.moveStack b1) = [Board.Null] /\
    last (map Board.se_capturedPiece (Board.moveStack b1)) Board.Undefined
      <> Board.pieceAt epBoard 35.
Proof.
  repeat split; try reflexivity.
  eexists. split; [vm_compute; reflexivity|].
  repeat split; try reflexivity. vm_compute. discriminate.
Qed.

(** C8 (amended).  When [push] applies an en-passant capture (the moving
    piece is a pawn and the destination equals [epSquare]), the square one
    rank behind the destination, opposite to the mover's direction, is
    emptied; the undo record pushed for the move holds in [capturedPiece] what
    stood on the destination square before the move, and keeps the removed
    pawn in its [prevState] snapshot. *)
Theorem en_passant_push (b : Board.t) (m : Move.t) (piece : Piece.t) :
  Board.pieceAt b (Move.fromSquare m) = Board.Has piece ->
  Piece.pieceType piece = PAWN ->
  Board.epSquare b = Some (Move.toSquare m) ->
  exists b1 entry,
    Board.push b m = (Ret tt, b1) /\
    Board.pieceAt b1 (capturedPawnSquare piece (Move.toSquare m)) = Board.Null /\
    Board.moveStack b1 = Board.moveStack b ++ [entry] /\
    Board.se_move entry = m /\
    Board.se_capturedPiece entry = Board.pieceAt b (Move.toSquare m) /\
    (0 <= capturedPawnSquare piece (Move.toSquare m) ->
     Board.get (Board.st_pieces (Board.se_prevState entry))
               (capturedPawnSquare piece (Move.toSquare m))
     = Board.pieceAt b (capturedPawnSquare piece (Move.toSquare m))).
Proof.
  intros Hfrom Hpawn Hep.
  pose proof (push_stack b m) as Hs.
  assert (Hr : fst (Board.push b m) = Ret tt).
  { apply push_returns. rewrite Hfrom. reflexivity. }
  assert (Hsq : Board.pieceAt (snd (Board.push b m))
                  (capturedPawnSquare piece (Move.toSquare m)) = Board.Null).
  { unfold Board.push, Board.pieceAt in *. simpl. rewrite Hfrom, Hpawn. simpl.
    unfold Board.ep_is; simpl. rewrite Hep, Z.eqb_refl.
    fold (capturedPawnSquare piece (Move.toSquare m)).
    set (cps := capturedPawnSquare piece (Move.toSquare m)).
    assert (Hne : Move.toSquare m <> cps).
    { unfold cps, capturedPawnSquare. destruct (Bool.eqb _ _); lia. }
    assert (Hget : forall v, Board.get
              (Board.set (Board.set (Board.set (Board.pieces b) cps Board.Null)
                            (Move.fromSquare m) Board.Null) (Move.toSquare m) v) cps
            = Board.Null).
    { intros v. rewrite get_set_other by exact Hne.
      destruct (Z.eq_dec (Move.fromSquare m) cps) as [->|Hn].
      - apply get_set_same.
      - rewrite get_set_other by exact Hn. apply get_set_same. }
    destruct (Move.promotion m); simpl; apply Hget. }
  destruct (Board.push b m) as [r b1]. simpl in *. subst r.
  exists b1, (Board.mkEntry m (Board.pieceAt b (Move.toSquare m)) (Board.saveState b)).
  repeat split; auto.
  intros Hc. simpl. apply get_spread, Hc.
Qed.

Lemma en_passant_push_witness :
  exists b1 entry,
    Board.push epBoard (Move.mk 36 43 None None) = (Ret tt, b1) /\
    Board.pieceAt b1 35 = Board.Null /\
    Board.moveStack b1 = Board.moveStack epBoard ++ [entry] /\
    Board.se_move entry = Move.mk 36 43 None None /\
    Board.se_capturedPiece entry = Board.pieceAt epBoard 43 /\
    (0 <= 35 ->
     Board.get (Board.st_pieces (Board.se_prevState entry)) 35
     = Board.pieceAt epBoard 35).
Proof.
  apply (en_passant_push epBoard (Move.mk 36 43 None None) (Piece.mk PAWN WHITE));
    reflexivity.
Defined.

(** *** What a move changes *)

Lemma rightsWithin_refl (r : Z) : 0 <= r <= 15 -> rightsWithin r r.
Proof. intros H. split; [exact H|apply Z.land_diag]. Qed.

Lemma rightsWithin_trans (x y z : Z) :
  rightsWithin x y -> rightsWithin y z -> rightsWithin x z.
Proof.
  intros [Hx Exy] [Hy Eyz]. split; [exact Hx|].
  rewrite <- Exy at 1. rewrite <- Z.land_assoc, Eyz. exact Exy.
Qed.

Lemma clear_within (r mask : Z) :
  0 <= r <= 15 -> In mask [1; 2; 4; 8; 3; 12] ->
  rightsWithin (band r (bnot mask)) r.
Proof.
  intros Hr Hm.
  assert (C : forallb (fun r =>
            forallb (fun mask =>
              (0 <=? band r (bnot mask)) && (band r (bnot mask) <=? 15)
              && (Z.land (band r (bnot mask)) r =? band r (bnot mask)))
              [1; 2; 4; 8; 3; 12]) (range 0 16) = true) by (vm_compute; reflexivity).
  pose proof (range_forallb _ 0 16 C r ltac:(lia)) as P. cbv beta in P.
  rewrite forallb_forall in P. specialize (P mask Hm).
  rewrite !andb_true_iff in P. destruct P as [[P1 P2] P3].
  apply Z.leb_le in P1, P2. apply Z.eqb_eq in P3. split; [lia|exact P3].
Qed.

Lemma clearIf_within (cond : bool) (mask x r : Z) :
  In mask [1; 2; 4; 8; 3; 12] -> rightsWithin x r ->
  rightsWithin (Board.clearIf cond mask x) r.
Proof.
  intros Hm Hx. unfold Board.clearIf. destruct cond; [|exact Hx].
  apply (rightsWithin_trans _ x); [|exact Hx]. apply clear_within; [apply Hx|exact Hm].
Qed.

Lemma corners_within (c : bool) (sq x r : Z) :
  rightsWithin x r ->
  rightsWithin
    (if c then
       Board.clearIf (sq =? H8) CASTLING_BLACK_KINGSIDE
         (Board.clearIf (sq =? A8) CASTLING_BLACK_QUEENSIDE
           (Board.clearIf (sq =? H1) CASTLING_WHITE_KINGSIDE
             (Board.clearIf (sq =? A1) CASTLING_WHITE_QUEENSIDE x)))
     else x) r.
Proof.
  intros Hx. destruct c; [|exact Hx].
  repeat (apply clearIf_within; [simpl; tauto|]). exact Hx.
Qed.

(** The scalar fields after [updateStateAfterMove], from those before. *)
Lemma updateState_fields (b : Board.t) (piece : Piece.t) (m : Move.t) (captured : Board.Slot) :
  0 <= Board.castlingRights b <= 15 ->
  let b1 := Board.updateStateAfterMove b piece m captured in
  Board.turn b1 = negb (Board.turn b) /\
  Board.fullmoveNumber b1 = Board.fullmoveNumber b + (if Board.turn b then 0 else 1) /\
  rightsWithin (Board.castlingRights b1) (Board.castlingRights b) /\
  (Board.halfmoveClock b1 = 0 \/ Board.halfmoveClock b1 = Board.halfmoveClock b + 1) /\
  Board.moveStack b1 = Board.moveStack b /\
  Board.pieces b1 = Board.pieces b.
Proof.
  intros Hr. unfold Board.updateStateAfterMove.
  cbn [Board.turn Board.fullmoveNumber Board.castlingRights Board.halfmoveClock
       Board.moveStack Board.pieces].
  split; [reflexivity|]. split; [destruct (Board.turn b); simpl; lia|].
  split; [|split; [|split; reflexivity]].
  - apply corners_within. apply corners_within.
    destruct (pt_eqb (Piece.pieceType piece) KING); [|apply rightsWithin_refl, Hr].
    destruct (Bool.eqb (Piece.color piece) WHITE);
      apply clear_within; try exact Hr; simpl; tauto.
  - destruct (_ || _); [left; reflexivity|right; reflexivity].
Qed.

Lemma handleCastling_fields (b : Board.t) (m : Move.t) (c : Color) :
  Board.turn (Board.handleCastling b m c) = Board.turn b /\
  Board.castlingRights (Board.handleCastling b m c) = Board.castlingRights b /\
  Board.halfmoveClock (Board.handleCastling b m c) = Board.halfmoveClock b /\
  Board.fullmoveNumber (Board.handleCastling b m c) = Board.fullmoveNumber b.
Proof.
  unfold Board.handleCastling.
  destruct (squareFile (Move.toSquare m) =? 6); repeat split; reflexivity.
Qed.

(** X10.  What a move that [push] accepts does to the counters of a board
    whose clocks are safe integers: the side to move changes, the fullmove
    number grows by one exactly after a black move, the halfmove clock is
    reset or grows by one, the move stack grows by one record, and no
    castling right is ever gained (the rights stay a 4-bit mask contained in
    the rights before). *)
Theorem push_counters (b b1 : Board.t) (m : Move.t) :
  Board.push b m = (Ret tt, b1) ->
  0 <= Board.castlingRights b <= 15 ->
  isSafe (Board.halfmoveClock b) = true ->
  isSafe (Board.fullmoveNumber b) = true ->
  Board.turn b1 = negb (Board.turn b) /\
  Board.fullmoveNumber b1 = Board.fullmoveNumber b + (if Board.turn b then 0 else 1) /\
  (Board.halfmoveClock b1 = 0 \/ Board.halfmoveClock b1 = Board.halfmoveClock b + 1) /\
  0 <= Board.castlingRights b1 <= 15 /\
  Z.land (Board.castlingRights b1) (Board.castlingRights b) = Board.castlingRights b1 /\
  length (Board.moveStack b1) = S (length (Board.moveStack b)).
Proof.
  intros H Hr _ _.
  assert (Hs : length (Board.moveStack b1) = S (length (Board.moveStack b))).
  { pose proof (push_stack b m) as P. rewrite H in P. simpl in P. rewrite P.
    rewrite length_app. simpl. lia. }
  revert H. unfold Board.push.
  destruct (Board.get _ _) as [| |piece]; try discriminate.
  match goal with
  | |- context [if ?c then _ else _] => destruct c
  end.
  - intros E; injection E as <-.
    match goal with
    | |- context [Board.updateStateAfterMove ?x piece m ?y] =>
        destruct (handleCastling_fields
                    (Board.with_stack b (Board.moveStack b ++
                       [Board.mkEntry m (Board.get (Board.pieces b) (Move.toSquare m))
                          (Board.saveState b)])) m (Piece.color piece))
          as [T [R [Hm Fm]]];
        destruct (updateState_fields x piece m y) as [U1 [U2 [[U3 U4] [U5 _]]]]
    end.
    { rewrite R. exact Hr. }
    rewrite U1, U2, T, Fm, R in *. rewrite Hm in U5. simpl in *.
    repeat split; auto; lia.
  - intros E; injection E as <-.
    match goal with
    | |- context [Board.updateStateAfterMove ?x piece m ?y] =>
        destruct (updateState_fields x piece m y) as [U1 [U2 [[U3 U4] [U5 _]]]]
    end.
    { destruct (_ && _); destruct (Move.promotion m); exact Hr. }
    rewrite U1, U2.
    destruct (pt_eqb (Piece.pieceType piece) PAWN && _); destruct (Move.promotion m);
      simpl in *; repeat split; auto; lia.
Qed.

Lemma push_counters_witness :
  let b1 := snd (Board.push startBoard (Move.mk 12 28 None None)) in
  Board.turn b1 = negb (Board.turn startBoard) /\
  Board.fullmoveNumber b1
  = Board.fullmoveNumber startBoard + (if Board.turn startBoard then 0 else 1) /\
  (Board.halfmoveClock b1 = 0 \/ Board.halfmoveClock b1 = Board.halfmoveClock startBoard + 1) /\
  0 <= Board.castlingRights b1 <= 15 /\
  Z.land (Board.castlingRights b1) (Board.castlingRights startBoard)
  = Board.castlingRights b1 /\
  length (Board.moveStack b1) = S (length (Board.moveStack startBoard)).
Proof.
  apply (push_counters startBoard _ (Move.mk 12 28 None None)).
  - vm_compute. reflexivity.
  - simpl. lia.
  - reflexivity.
  - reflexivity.
Defined.

(** *** Where the generated moves start and land *)

Lemma onBoardOnly_64 (b : Board.t) :
  Board.props (Board.pieces b) = [] ->
  length (Board.items (Board.pieces b)) = 64%nat ->
  onBoardOnly b.
Proof.
  intros P L sq H.
  destruct (Z_lt_dec sq 0) as [N|N].
  { exfalso. apply H. unfold Board.get. apply Z.ltb_lt in N. rewrite N, P. reflexivity. }
  destruct (Z_lt_dec sq 64) as [U|U]; [lia|].
  exfalso. apply H. unfold Board.get.
  destruct (sq <? 0) eqn:E; [apply Z.ltb_lt in E; lia|].
  apply nth_overflow. lia.
Qed.

Lemma promotions_inv (fromSq toSq : Square) (m : Move.t) :
  In m (Board.generatePromotions fromSq toSq) ->
  Move.fromSquare m = fromSq /\ Move.toSquare m = toSq /\ Move.drop m = None /\
  exists p, Move.promotion m = Some p /\ p <> PAWN /\ p <> KING.
Proof.
  unfold Board.generatePromotions. simpl.
  intros [<-|[<-|[<-|[<-|[]]]]]; simpl; repeat split; eexists; repeat split;
    discriminate.
Qed.

Lemma pawn_inv (b : Board.t) (fromSq : Square) (color : Color) (m : Move.t) :
  0 <= fromSq < 64 ->
  In m (Board.generatePawnMoves b fromSq color) ->
  Move.fromSquare m = fromSq /\ Move.drop m = None /\
  targetFree b color m /\
  (Board.get (Board.pieces b) (Move.toSquare m) <> Board.Undefined
   \/ Board.ep_is b (Move.toSquare m) = true) /\
  exists file rank,
    0 <= file <= 7 /\ Move.toSquare m = squareFromFileRank file rank /\
    rank <> squareRank fromSq /\
    (Move.promotion m <> None <-> rank = lastRank color) /\
    match Move.promotion m with Some p => p <> PAWN /\ p <> KING | None => True end.
Proof.
  intros Hsq H. destruct (square_coords fromSq Hsq) as [Hf [Hr _]].
  unfold Board.generatePawnMoves in H.
  set (file := squareFile fromSq) in *. set (rank := squareRank fromSq) in *.
  set (dir := if Bool.eqb color WHITE then 1 else -1) in *.
  assert (Hd : dir = 1 \/ dir = -1) by (unfold dir; destruct (Bool.eqb color WHITE); auto).
  assert (Hs : forall r, (r =? (if Bool.eqb color WHITE then 7 else 0)) = true
                         <-> r = lastRank color).
  { intros r. unfold lastRank. apply Z.eqb_eq. }
  assert (Z0 : forall sq, Board.isNull (Board.get (Board.pieces b) sq) = true ->
               (Board.emptyOrEnemy (Board.get (Board.pieces b) sq) color = true
                \/ Board.ep_is b sq = true) /\
               (Board.get (Board.pieces b) sq <> Board.Undefined
                \/ Board.ep_is b sq = true)).
  { intros sq E. destruct (Board.get _ sq); try discriminate.
    split; left; [reflexivity|discriminate]. }
  unfold targetFree.
  apply in_app_or in H. destruct H as [H|H].
  - destruct (Board.isNull (Board.get (Board.pieces b) (squareFromFileRank file (rank + dir))))
      eqn:N; [|destruct H].
    destruct (rank + dir =? _) eqn:P.
    + apply promotions_inv in H as [H1 [H2 [H3 [p [H4 [H5 H6]]]]]].
      rewrite H2, H4. destruct (Z0 _ N) as [Z1 Z2].
      repeat split; auto.
      exists file, (rank + dir). repeat split; auto; try lia.
      * intros _. apply Hs, P.
      * discriminate.
    + destruct H as [<-|H].
      * cbn [Move.fromSquare Move.toSquare Move.drop Move.promotion].
        destruct (Z0 _ N) as [Z1 Z2]. repeat split; auto.
        exists file, (rank + dir). repeat split; auto; try lia.
        -- intros C; contradiction.
        -- intros C. apply Hs in C. congruence.
      * destruct (rank =? _) eqn:S1; [|destruct H].
        destruct (Board.isNull (Board.get (Board.pieces b)
                    (squareFromFileRank file (rank + 2 * dir)))) eqn:N2; [|destruct H].
        destruct H as [<-|[]].
        cbn [Move.fromSquare Move.toSquare Move.drop Move.promotion].
        destruct (Z0 _ N2) as [Z1 Z2]. repeat split; auto.
        exists file, (rank + 2 * dir). repeat split; auto; try lia.
        -- intros C; contradiction.
        -- intros C. exfalso. apply Z.eqb_eq in S1. unfold lastRank in C.
           unfold dir in C. destruct (Bool.eqb color WHITE); lia.
  - apply in_flat_map in H as [df [Hdf H]].
    destruct ((file + df <? 0) || (file + df >? 7)) eqn:O; [destruct H|].
    apply orb_false_iff in O as [O1 O2]. apply Z.ltb_ge in O1.
    rewrite Z.gtb_ltb in O2. apply Z.ltb_ge in O2.
    destruct (Board.enemy _ color || Board.ep_is b _) eqn:C; [|destruct H].
    assert (T : forall m', Move.toSquare m' = squareFromFileRank (file + df) (rank + dir) ->
                (Board.emptyOrEnemy (Board.get (Board.pieces b) (Move.toSquare m')) color = true
                 \/ Board.ep_is b (Move.toSquare m') = true) /\
                (Board.get (Board.pieces b) (Move.toSquare m') <> Board.Undefined
                 \/ Board.ep_is b (Move.toSquare m') = true)).
    { intros m' ->. apply orb_true_iff in C as [C|C].
      - split; [left|left].
        + destruct (Board.get _ _); try discriminate. exact C.
        + destruct (Board.get _ _); try discriminate.
      - split; right; exact C. }
    destruct (rank + dir =? _) eqn:P.
    + apply promotions_inv in H as [H1 [H2 [H3 [p [H4 [H5 H6]]]]]].
      destruct (T m H2) as [T1 T2].
      rewrite H4. repeat split; auto.
      exists (file + df), (rank + dir). repeat split; auto; try lia.
      * intros _. apply Hs, P.
      * discriminate.
    + destruct H as [<-|[]].
      destruct (T (Move.mk fromSq (squareFromFileRank (file + df) (rank + dir)) None None)
                  eq_refl) as [T1 T2].
      simpl. repeat split; auto.
      exists (file + df), (rank + dir). repeat split; auto; try lia.
      * intros C'; contradiction.
      * intros C'. apply Hs in C'. congruence.
Qed.

Lemma step_inv (b : Board.t) (fromSq : Square) (color : Color) (offsets : list (Z * Z))
    (m : Move.t) :
  In m (Board.generateStepMoves b fromSq color offsets) ->
  Move.fromSquare m = fromSq /\ Move.drop m = None /\ Move.promotion m = None /\
  0 <= Move.toSquare m < 64 /\
  Board.emptyOrEnemy (Board.get (Board.pieces b) (Move.toSquare m)) color = true.
Proof.
  unfold Board.generateStepMoves. intros H. apply in_flat_map in H as [d [_ H]].
  destruct (Board.offBoard _ _) eqn:O; [destruct H|].
  destruct (Board.emptyOrEnemy _ color) eqn:E; [|destruct H].
  destruct H as [<-|[]]. simpl. repeat split; auto;
    unfold Board.offBoard in O; rewrite !orb_false_iff in O;
    destruct O as [[[O1 O2] O3] O4];
    rewrite Z.gtb_ltb in O2, O4; apply Z.ltb_ge in O1, O2, O3, O4;
    apply coords_square; lia.
Qed.

Lemma slideRay_inv (b : Board.t) (fromSq : Square) (color : Color) (file rank df dr : Z)
    (dists : list Z) (m : Move.t) :
  In m (Board.slideRay b fromSq color file rank df dr dists) ->
  Move.fromSquare m = fromSq /\ Move.drop m = None /\ Move.promotion m = None /\
  0 <= Move.toSquare m < 64 /\
  Board.emptyOrEnemy (Board.get (Board.pieces b) (Move.toSquare m)) color = true.
Proof.
  induction dists as [|dist rest IH]; simpl; [intros []|].
  destruct (Board.offBoard _ _) eqn:O; [intros []|].
  assert (R : 0 <= squareFromFileRank (file + df * dist) (rank + dr * dist) < 64).
  { unfold Board.offBoard in O; rewrite !orb_false_iff in O;
    destruct O as [[[O1 O2] O3] O4];
    rewrite Z.gtb_ltb in O2, O4; apply Z.ltb_ge in O1, O2, O3, O4;
    apply coords_square; lia. }
  destruct (Board.get (Board.pieces b)
              (squareFromFileRank (file + df * dist) (rank + dr * dist)))
    as [| |target] eqn:G.
  - intros H. destruct H as [<-|H]; [simpl; rewrite G; auto|apply IH, H].
  - intros H. destruct H as [<-|H]; [simpl; rewrite G; auto|apply IH, H].
  - destruct (negb _) eqn:N; [|intros []].
    intros H. destruct H as [<-|[]]. simpl. rewrite G. simpl. auto.
Qed.

Lemma sliding_inv (b : Board.t) (fromSq : Square) (color : Color)
    (directions : list (Z * Z)) (m : Move.t) :
  In m (Board.generateSlidingMoves b fromSq color directions) ->
  Move.fromSquare m = fromSq /\ Move.drop m = None /\ Move.promotion m = None /\
  0 <= Move.toSquare m < 64 /\
  Board.emptyOrEnemy (Board.get (Board.pieces b) (Move.toSquare m)) color = true.
Proof.
  unfold Board.generateSlidingMoves. intros H. apply in_flat_map in H as [d [_ H]].
  apply slideRay_inv in H. exact H.
Qed.

Lemma vacant_free (b : Board.t) (sq : Square) (color : Color) :
  Board.vacant b sq = true ->
  Board.emptyOrEnemy (Board.get (Board.pieces b) sq) color = true.
Proof. unfold Board.vacant. destruct (Board.get _ _); simpl; congruence. Qed.

Lemma king_inv (b : Board.t) (fromSq : Square) (color : Color) (m : Move.t) :
  In m (Board.generateKingMoves b fromSq color) ->
  Move.fromSquare m = fromSq /\ Move.drop m = None /\ Move.promotion m = None /\
  0 <= Move.toSquare m < 64 /\
  Board.emptyOrEnemy (Board.get (Board.pieces b) (Move.toSquare m)) color = true.
Proof.
  unfold Board.generateKingMoves. intros H. apply in_app_or in H as [H|H].
  { apply step_inv in H. exact H. }
  destruct (Bool.eqb color WHITE && (fromSq =? E1)) eqn:W.
  - apply andb_true_iff in W as [_ W]. apply Z.eqb_eq in W. subst fromSq.
    apply in_app_or in H as [H|H].
    + destruct (Board.hasRight _ _ && forallb _ _) eqn:C; [|destruct H].
      destruct (negb _ && negb _); [|destruct H]. destruct H as [<-|[]].
      apply andb_true_iff in C as [_ C]. simpl in C. rewrite !andb_true_iff in C.
      simpl. repeat split; auto; try (unfold G1; lia). apply vacant_free. tauto.
    + destruct (Board.hasRight _ _ && forallb _ _) eqn:C; [|destruct H].
      destruct (negb _ && negb _); [|destruct H]. destruct H as [<-|[]].
      apply andb_true_iff in C as [_ C]. simpl in C. rewrite !andb_true_iff in C.
      simpl. repeat split; auto; try (unfold C1; lia). apply vacant_free. tauto.
  - destruct (Bool.eqb color BLACK && (fromSq =? E8)) eqn:B; [|destruct H].
    apply andb_true_iff in B as [_ B]. apply Z.eqb_eq in B. subst fromSq.
    apply in_app_or in H as [H|H].
    + destruct (Board.hasRight _ _ && forallb _ _) eqn:C; [|destruct H].
      destruct (negb _ && negb _); [|destruct H]. destruct H as [<-|[]].
      apply andb_true_iff in C as [_ C]. simpl in C. rewrite !andb_true_iff in C.
      simpl. repeat split; auto; try (unfold G8; lia). apply vacant_free. tauto.
    + destruct (Board.hasRight _ _ && forallb _ _) eqn:C; [|destruct H].
      destruct (negb _ && negb _); [|destruct H]. destruct H as [<-|[]].
      apply andb_true_iff in C as [_ C]. simpl in C. rewrite !andb_true_iff in C.
      simpl. repeat split; auto; try (unfold C8; lia). apply vacant_free. tauto.
Qed.

Lemma range_In_inv (lo : Z) (n : nat) (z : Z) :
  In z (range lo n) -> lo <= z < lo + Z.of_nat n.
Proof.
  unfold range. intros H. apply in_map_iff in H as [k [<- H]]. apply in_seq in H. lia.
Qed.

Lemma pseudo_inv (b : Board.t) (m : Move.t) :
  In m (Board.pseudoLegalMoves b) ->
  exists fromSq piece,
    0 <= fromSq < 64 /\
    Board.get (Board.pieces b) fromSq = Board.Has piece /\
    Piece.color piece = Board.turn b /\
    In m (movesOf b fromSq piece).
Proof.
  unfold Board.pseudoLegalMoves. intros H. apply in_flat_map in H as [fromSq [Hr H]].
  apply range_In_inv in Hr.
  destruct (Board.get (Board.pieces b) fromSq) as [| |piece] eqn:G; try destruct H.
  destruct (negb _) eqn:N; [destruct H|].
  exists fromSq, piece. split; [simpl in Hr; lia|]. split; [exact G|].
  split; [|exact H].
  apply negb_false_iff in N. apply eqb_prop in N. exact N.
Qed.

Lemma pseudo_move (b : Board.t) (m : Move.t) :
  In m (Board.pseudoLegalMoves b) ->
  0 <= Move.fromSquare m < 64 /\
  Move.drop m = None /\
  targetFree b (Board.turn b) m /\
  exists piece,
    Board.pieceAt b (Move.fromSquare m) = Board.Has piece /\
    Piece.color piece = Board.turn b /\
    In m (movesOf b (Move.fromSquare m) piece) /\
    (Piece.pieceType piece <> PAWN -> Move.promotion m = None /\ 0 <= Move.toSquare m < 64).
Proof.
  intros H. apply pseudo_inv in H as [fromSq [piece [Hr [G [C H]]]]].
  assert (K : Move.fromSquare m = fromSq /\ Move.drop m = None /\
              targetFree b (Board.turn b) m /\
              (Piece.pieceType piece <> PAWN ->
               Move.promotion m = None /\ 0 <= Move.toSquare m < 64)).
  { unfold movesOf in H. destruct (Piece.pieceType piece).
    - apply pawn_inv in H as [H1 [H2 [H3 _]]]; [|exact Hr].
      repeat split; auto; contradiction.
    - apply step_inv in H as [H1 [H2 [H3 [H4 H5]]]]. unfold targetFree. auto 10.
    - apply sliding_inv in H as [H1 [H2 [H3 [H4 H5]]]]. unfold targetFree. auto 10.
    - apply sliding_inv in H as [H1 [H2 [H3 [H4 H5]]]]. unfold targetFree. auto 10.
    - apply sliding_inv in H as [H1 [H2 [H3 [H4 H5]]]]. unfold targetFree. auto 10.
    - apply king_inv in H as [H1 [H2 [H3 [H4 H5]]]]. unfold targetFree. auto 10. }
  destruct K as [K1 [K2 [K3 K4]]]. subst fromSq.
  split; [exact Hr|]. split; [exact K2|]. split; [exact K3|].
  exists piece. auto.
Qed.

Lemma legal_pseudo (b : Board.t) (m : Move.t) :
  In m (Board.legalMoves b) -> In m (Board.pseudoLegalMoves b).
Proof. unfold Board.legalMoves. intros H. apply filter_In in H. tauto. Qed.

(** X11.  Every move of [legalMoves()] starts on one of the 64 squares, from
    a piece of the side to move, and is no drop; it never lands on a piece
    of the mover's colour (a pawn may land on the recorded en-passant
    square); only pawns promote, and a piece other than a pawn lands on the
    board. *)
Theorem legal_move_shape (b : Board.t) (m : Move.t) :
  In m (Board.legalMoves b) ->
  0 <= Move.fromSquare m < 64 /\
  Move.drop m = None /\
  (Board.emptyOrEnemy (Board.pieceAt b (Move.toSquare m)) (Board.turn b) = true
   \/ Board.ep_is b (Move.toSquare m) = true) /\
  exists piece,
    Board.pieceAt b (Move.fromSquare m) = Board.Has piece /\
    Piece.color piece = Board.turn b /\
    (Piece.pieceType piece <> PAWN -> Move.promotion m = None /\ 0 <= Move.toSquare m < 64).
Proof.
  intros H. apply legal_pseudo, pseudo_move in H as [H1 [H2 [H3 [piece [H4 [H5 [_ H6]]]]]]].
  split; [exact H1|]. split; [exact H2|]. split; [exact H3|].
  exists piece. auto.
Qed.

Lemma legal_move_shape_witness :
  let m := Move.mk 6 21 None None in
  0 <= Move.fromSquare m < 64 /\
  Move.drop m = None /\
  (Board.emptyOrEnemy (Board.pieceAt startBoard (Move.toSquare m)) (Board.turn startBoard) = true
   \/ Board.ep_is startBoard (Move.toSquare m) = true) /\
  exists piece,
    Board.pieceAt startBoard (Move.fromSquare m) = Board.Has piece /\
    Piece.color piece = Board.turn startBoard /\
    (Piece.pieceType piece <> PAWN -> Move.promotion m = None /\ 0 <= Move.toSquare m < 64).
Proof.
  apply (legal_move_shape startBoard (Move.mk 6 21 None None)).
  vm_compute. tauto.
Defined.

Lemma legal_target_on_board (b : Board.t) (m : Move.t) :
  onBoardOnly b -> epOnBoard b -> In m (Board.legalMoves b) ->
  0 <= Move.toSquare m < 64.
Proof.
  intros Hb He H.
  apply legal_pseudo, pseudo_move in H as [H1 [_ [_ [piece [_ [_ [H6 H7]]]]]]].
  destruct (Piece.pieceType piece) eqn:T;
    try (destruct H7 as [_ H8]; [discriminate|exact H8]).
  unfold movesOf in H6. rewrite T in H6.
  apply pawn_inv in H6 as [_ [_ [_ [U _]]]]; [|exact H1].
  destruct U as [U|U]; [apply Hb, U|].
  unfold Board.ep_is in U. unfold epOnBoard in He.
  destruct (Board.epSquare b) as [e|]; [|discriminate].
  apply Z.eqb_eq in U. lia.
Qed.

(** X12.  On a board that stores nothing outside its 64 squares and whose
    en-passant square, if any, is one of them, every legal move lands on the
    board on a square other than its source, and a pawn move carries a
    promotion (to knight, bishop, rook or queen) exactly when it lands on the
    last rank of the mover. *)
Theorem legal_move_target (b : Board.t) (m : Move.t) (piece : Piece.t) :
  onBoardOnly b -> epOnBoard b ->
  In m (Board.legalMoves b) ->
  Board.pieceAt b (Move.fromSquare m) = Board.Has piece ->
  0 <= Move.toSquare m < 64 /\
  match Move.promotion m with Some p => p <> PAWN /\ p <> KING | None => True end /\
  (Piece.pieceType piece = PAWN ->
   (Move.promotion m <> None <-> squareRank (Move.toSquare m) = lastRank (Board.turn b))).
Proof.
  intros Hb He H G.
  apply legal_pseudo, pseudo_move in H as [H1 [H2 [H3 [piece' [H4 [H5 [H6 H7]]]]]]].
  rewrite G in H4. injection H4 as <-.
  destruct (Piece.pieceType piece) eqn:T;
    try (destruct H7 as [H7 H8]; [discriminate|]; rewrite H7;
         split; [exact H8|]; split; [exact I|discriminate]).
  unfold movesOf in H6. rewrite T in H6.
  apply pawn_inv in H6 as [_ [_ [_ [U [file [rank [Hf [Et [_ [P Q]]]]]]]]]]; [|exact H1].
  assert (R : 0 <= Move.toSquare m < 64).
  { destruct U as [U|U]; [apply Hb, U|].
    unfold Board.ep_is in U. unfold epOnBoard in He.
    destruct (Board.epSquare b) as [e|]; [|discriminate].
    apply Z.eqb_eq in U. lia. }
  split; [exact R|]. split; [exact Q|]. intros _.
  rewrite Et in R |- *. unfold squareFromFileRank in R.
  destruct (coords_square file rank Hf ltac:(lia)) as [_ [-> _]]. exact P.
Qed.

Lemma legal_move_target_witness :
  let m := Move.mk 12 28 None None in
  0 <= Move.toSquare m < 64 /\
  match Move.promotion m with Some p => p <> PAWN /\ p <> KING | None => True end /\
  (Piece.pieceType (Piece.mk PAWN WHITE) = PAWN ->
   (Move.promotion m <> None <->
    squareRank (Move.toSquare m) = lastRank (Board.turn startBoard))).
Proof.
  apply (legal_move_target startBoard (Move.mk 12 28 None None) (Piece.mk PAWN WHITE)).
  - apply onBoardOnly_64; reflexivity.
  - exact I.
  - vm_compute. tauto.
  - reflexivity.
Defined.

(** *** SAN parsing *)

Lemma find_firstSuch {A} (p : A -> bool) (l : list A) (m : A) :
  find p l = Some m -> firstSuch p l m.
Proof.
  induction l as [|x l IH]; simpl; [discriminate|].
  destruct (p x) eqn:E.
  - intros H; injection H as ->. exists [], l. simpl. repeat split; auto.
    intros y [].
  - intros H. destruct (IH H) as (l1 & l2 & -> & Hm & Hl1).
    exists (x :: l1), l2. repeat split; auto.
    intros y [<-|Hy]; auto.
Qed.

Lemma firstSuch_In {A} (p : A -> bool) (l : list A) (m : A) :
  firstSuch p l m -> In m l.
Proof.
  intros (l1 & l2 & -> & _). apply in_or_app. right. left. reflexivity.
Qed.

Lemma parseSan_ordinary (b : Board.t) (san : jsstr) :
  isSpecialSan san = false ->
  Board.parseSan b san
  = match Board.readSan (Board.cleanSan san) with
    | None => Thr (InvalidSan san)
    | Some q =>
        match find (Board.sanMatches b q) (Board.legalMoves b) with
        | Some move => Ret move
        | None => Thr (IllegalSan san)
        end
    end.
Proof.
  unfold isSpecialSan, Board.parseSan. intros H.
  apply orb_false_iff in H as [H H3]. apply orb_false_iff in H as [H1 H2].
  rewrite H1, H2, H3. reflexivity.
Qed.

(** C3 (as stated, refuted).  In the starting position [parseSan("O-O")]
    returns the king move e1-g1, which is not among the legal moves; and with
    white knights on b1 and f1, [parseSan("Nd2")] returns the move from b1
    although two legal moves match the text. *)
Lemma parseSan_counterexample :
  (Board.parseSan startBoard (lit "O-O") = Ret (Move.mk 4 6 None None) /\
   ~ In (Move.mk 4 6 None None) (Board.legalMoves startBoard))
  /\
  (Board.parseSan twoKnightsBoard (lit "Nd2") = Ret (Move.mk 1 11 None None) /\
   Board.readSan (Board.cleanSan (lit "Nd2"))
     = Some (Board.mkQuery KNIGHT 11 None None None) /\
   filter (Board.sanMatches twoKnightsBoard (Board.mkQuery KNIGHT 11 None None None))
          (Board.legalMoves twoKnightsBoard)
     = [Move.mk 1 11 None None; Move.mk 5 11 None None]).
Proof.
  split; split; try (vm_compute; reflexivity).
  - intros H. vm_compute in H. repeat (destruct H as [H|H]; [discriminate H|]).
    exact H.
  - split; vm_compute; reflexivity.
Qed.

(** C3 (amended).  On a text that is not a castling or null-move token,
    [parseSan] returns the first legal move, in generation order, that
    matches the piece type, destination, promotion and disambiguation it
    read, and that move is legal; it throws exactly when the destination is
    no square or no legal move matches.  On a castling token it returns the
    two-square king move of the side to move, on a null-move token the null
    move, in both cases without looking at the legal moves. *)
Theorem parseSan_result (b : Board.t) (san : jsstr) :
  (isSpecialSan san = false ->
     (forall m, Board.parseSan b san = Ret m ->
        In m (Board.legalMoves b) /\
        exists q, Board.readSan (Board.cleanSan san) = Some q /\
                  firstSuch (Board.sanMatches b q) (Board.legalMoves b) m)
     /\
     ((exists e, Board.parseSan b san = Thr e) <->
      (forall q, Board.readSan (Board.cleanSan san) = Some q ->
         forall m, In m (Board.legalMoves b) -> Board.sanMatches b q m = false)))
  /\
  (Board.isCastleShort (Board.cleanSan san) = true ->
     Board.parseSan b san
     = Ret (Move.mk (if Board.turn b then E1 else E8)
                    (if Board.turn b then G1 else G8) None None))
  /\
  (Board.isCastleShort (Board.cleanSan san) = false ->
   Board.isCastleLong (Board.cleanSan san) = true ->
     Board.parseSan b san
     = Ret (Move.mk (if Board.turn b then E1 else E8)
                    (if Board.turn b then C1 else C8) None None))
  /\
  (Board.isCastleShort (Board.cleanSan san) = false ->
   Board.isCastleLong (Board.cleanSan san) = false ->
   Board.isNullToken (Board.cleanSan san) = true ->
     Board.parseSan b san = Ret Move.null).
Proof.
  split; [|split; [|split]].
  - intros Hs. rewrite (parseSan_ordinary b san Hs).
    destruct (Board.readSan (Board.cleanSan san)) as [q|].
    + destruct (find (Board.sanMatches b q) (Board.legalMoves b)) as [m0|] eqn:F.
      * split.
        -- intros m H; injection H as <-.
           pose proof (find_firstSuch _ _ _ F) as Hf.
           split; [exact (firstSuch_In _ _ _ Hf)|]. exists q. auto.
        -- split.
           ++ intros [e He]. discriminate He.
           ++ intros H. apply find_some in F as [Hin Hm].
              rewrite (H q eq_refl m0 Hin) in Hm. discriminate Hm.
      * split.
        -- intros m H. discriminate H.
        -- split.
           ++ intros _ q' Hq m Hin. injection Hq as <-.
              exact (find_none _ _ F m Hin).
           ++ intros _. eexists. reflexivity.
    + split.
      * intros m H. discriminate H.
      * split.
        -- intros _ q Hq. discriminate Hq.
        -- intros _. eexists. reflexivity.
  - intros H. unfold Board.parseSan. rewrite H.
    destruct (Board.turn b); reflexivity.
  - intros H1 H2. unfold Board.parseSan. rewrite H1, H2.
    destruct (Board.turn b); reflexivity.
  - intros H1 H2 H3. unfold Board.parseSan. rewrite H1, H2, H3. reflexivity.
Qed.

Lemma parseSan_result_witness :
  isSpecialSan (lit "Nf3") = false /\
  In (Move.mk 6 21 None None) (Board.legalMoves startBoard) /\
  exists q, Board.readSan (Board.cleanSan (lit "Nf3")) = Some q /\
            firstSuch (Board.sanMatches startBoard q) (Board.legalMoves startBoard)
                      (Move.mk 6 21 None None).
Proof.
  split; [reflexivity|].
  apply (proj1 (proj1 (parseSan_result startBoard (lit "Nf3")) eq_refl)
               (Move.mk 6 21 None None)).
  reflexivity.
Defined.

(** *** SAN rendering *)

Lemma needFlags_fold (b : Board.t) (piece : Piece.t) (m : Move.t)
    (l : list Move.t) (f r : bool) :
  fold_left (Board.needStep b piece m) l (f, r)
  = (f || existsb (fun o => Board.conflicts b piece m o
                    && negb (squareFile (Move.fromSquare o) =? squareFile (Move.fromSquare m))) l,
     r || existsb (fun o => Board.conflicts b piece m o
                    && (squareFile (Move.fromSquare o) =? squareFile (Move.fromSquare m))) l).
Proof.
  revert f r; induction l as [|o l IH]; intros f r; simpl.
  - rewrite !orb_false_r. reflexivity.
  - unfold Board.needStep at 2.
    destruct (Board.conflicts b piece m o); simpl.
    + destruct (squareFile (Move.fromSquare o) =? squareFile (Move.fromSquare m));
        simpl; rewrite IH; simpl; rewrite ?orb_true_r, ?orb_true_l, ?orb_assoc; reflexivity.
    + rewrite IH. reflexivity.
Qed.

(** The flags after the loop: a file is needed when some competing move comes
    from another file, a rank when some competing move comes from the same
    file. *)
Lemma needFlags_spec (b : Board.t) (piece : Piece.t) (m : Move.t) :
  (fst (Board.needFlags b piece m) = true <->
   exists o, Conflict b piece m o /\ ~ sameFile m o)
  /\
  (snd (Board.needFlags b piece m) = true <->
   exists o, Conflict b piece m o /\ sameFile m o).
Proof.
  unfold Board.needFlags. rewrite needFlags_fold. simpl.
  unfold Conflict, sameFile. split; rewrite existsb_exists; split.
  - intros (o & Hin & H). apply andb_true_iff in H as [Hc Hf].
    exists o. repeat split; auto. apply negb_true_iff, Z.eqb_neq in Hf. exact Hf.
  - intros (o & [Hin Hc] & Hf). exists o. split; [exact Hin|].
    rewrite Hc. simpl. apply negb_true_iff, Z.eqb_neq. exact Hf.
  - intros (o & Hin & H). apply andb_true_iff in H as [Hc Hf].
    exists o. repeat split; auto. apply Z.eqb_eq in Hf. exact Hf.
  - intros (o & [Hin Hc] & Hf). exists o. split; [exact Hin|].
    rewrite Hc. simpl. apply Z.eqb_eq. exact Hf.
Qed.

Lemma legal_push_copy (b : Board.t) (m : Move.t) :
  In m (Board.legalMoves b) ->
  exists boardCopy, Board.push (Board.copy b) m = (Ret tt, boardCopy).
Proof.
  intros H. apply legalMoves_legal in H. unfold Board.isLegalMove in H.
  destruct (Board.push (Board.copy b) m) as [[[]|e] c]; [|discriminate H].
  exists c. reflexivity.
Qed.





(** *** Stores *)

Lemma update_length {A} (l : list A) (n : nat) (f : A -> A) :
  length (Tree.update l n f) = length l.
Proof.
  revert n; induction l as [|x l IH]; intros [|n]; simpl; auto.
Qed.

Lemma update_nth_same {A} (l : list A) (n : nat) (f : A -> A) (d : A) :
  (n < length l)%nat -> nth n (Tree.update l n f) d = f (nth n l d).
Proof.
  revert n; induction l as [|x l IH]; intros [|n] H; simpl in *; try lia; auto.
  apply IH. lia.
Qed.

Lemma update_nth_other {A} (l : list A) (n k : nat) (f : A -> A) (d : A) :
  n <> k -> nth k (Tree.update l n f) d = nth k l d.
Proof.
  revert n k; induction l as [|x l IH]; intros [|n] [|k] H; simpl; auto; try lia.
Qed.

Lemma update_In {A} (l : list A) (n : nat) (f : A -> A) (y : A) :
  In y (Tree.update l n f) -> In y l \/ exists x, In x l /\ y = f x.
Proof.
  revert n; induction l as [|x l IH]; intros [|n]; simpl; auto.
  - intros [<-|H]; [right; exists x; auto|auto].
  - intros [<-|H]; [auto|].
    destruct (IH n H) as [H1|(x0 & H1 & ->)]; [auto|right; exists x0; auto].
Qed.

(** *** Board copies *)

Lemma copy_copy (b : Board.t) : Board.copy (Board.copy b) = Board.copy b.
Proof. reflexivity. Qed.

Lemma rankSlots_spread (a : Board.PieceArray) (rank : Z) :
  0 <= rank -> Board.rankSlots (Board.spread a) rank = Board.rankSlots a rank.
Proof.
  intros H. unfold Board.rankSlots. apply map_ext_in.
  intros file Hf. apply get_spread. unfold squareFromFileRank.
  unfold range in Hf. apply in_map_iff in Hf as (k & <- & _). lia.
Qed.

Lemma fen_copy (b : Board.t) : Board.fen (Board.copy b) = Board.fen b.
Proof.
  unfold Board.fen, Board.fenPlacement.
  change (Board.pieces (Board.copy b)) with (Board.spread (Board.pieces b)).
  change (Board.turn (Board.copy b)) with (Board.turn b).
  change (Board.castlingRights (Board.copy b)) with (Board.castlingRights b).
  change (Board.epSquare (Board.copy b)) with (Board.epSquare b).
  change (Board.halfmoveClock (Board.copy b)) with (Board.halfmoveClock b).
  change (Board.fullmoveNumber (Board.copy b)) with (Board.fullmoveNumber b).
  assert (H : map (fun rank => Board.fenRow (Board.rankSlots (Board.spread (Board.pieces b)) rank) 0)
                  Board.RANKS_DOWN
              = map (fun rank => Board.fenRow (Board.rankSlots (Board.pieces b) rank) 0)
                  Board.RANKS_DOWN).
  { apply map_ext_in. intros rank Hr.
    rewrite rankSlots_spread; [reflexivity|].
    unfold Board.RANKS_DOWN in Hr. simpl in Hr. lia. }
  rewrite H. reflexivity.
Qed.

(** *** GameNode.board() *)

Lemma wf_alloc (w : Tree.World) (b : Board.t) :
  wfWorld w -> wfWorld (snd (Tree.alloc w b)).
Proof.
  unfold wfWorld, Tree.alloc; simpl. intros H n c Hn Hc.
  rewrite length_app; simpl. specialize (H n c Hn Hc). lia.
Qed.

Lemma wf_mutate (w : Tree.World) (r : Tree.BoardRef) (b : Board.t) :
  wfWorld w -> wfWorld (Tree.mutate w r b).
Proof.
  unfold wfWorld, Tree.mutate; simpl. intros H n c Hn Hc.
  rewrite update_length. exact (H n c Hn Hc).
Qed.

Lemma wf_setCache (w : Tree.World) (this : Tree.NodeRef) (c : Tree.BoardRef) :
  wfWorld w -> (c < length (Tree.boards w))%nat ->
  wfWorld (Tree.mkWorld (Tree.update (Tree.nodes w) this (Tree.setCache c)) (Tree.boards w)).
Proof.
  unfold wfWorld; simpl. intros H Hc n c' Hn Hc'.
  apply update_In in Hn as [Hn|(x & Hx & ->)].
  - exact (H n c' Hn Hc').
  - simpl in Hc'. injection Hc' as <-. exact Hc.
Qed.

Lemma boardOf_alloc_new (w : Tree.World) (b : Board.t) :
  Tree.boardOf (snd (Tree.alloc w b)) (length (Tree.boards w)) = b.
Proof.
  unfold Tree.boardOf, Tree.alloc; simpl.
  rewrite app_nth2 by lia. rewrite Nat.sub_diag. reflexivity.
Qed.

Lemma boardOf_alloc_old (w : Tree.World) (b : Board.t) (r : Tree.BoardRef) :
  (r < length (Tree.boards w))%nat ->
  Tree.boardOf (snd (Tree.alloc w b)) r = Tree.boardOf w r.
Proof.
  intros H. unfold Tree.boardOf, Tree.alloc; simpl. apply app_nth1, H.
Qed.

Lemma boardOf_mutate_other (w : Tree.World) (r c : Tree.BoardRef) (b : Board.t) :
  c <> r -> Tree.boardOf (Tree.mutate w r b) c = Tree.boardOf w c.
Proof.
  intros H. unfold Tree.boardOf, Tree.mutate; simpl.
  apply update_nth_other. congruence.
Qed.

Lemma copyOfCache_keeps (cached : Tree.BoardRef) (w w1 : Tree.World) (r : Tree.BoardRef) :
  wfWorld w -> Tree.copyOfCache cached w = (Ret r, w1) -> boardKeeps w w1 r.
Proof.
  intros Hwf H. unfold Tree.copyOfCache, Tree.alloc in H. injection H as <- <-.
  split; [|split].
  - apply (wf_alloc w (Board.copy (Tree.boardOf w cached))), Hwf.
  - simpl. rewrite length_app; simpl; lia.
  - reflexivity.
Qed.

Lemma rootBoard_keeps (n : Tree.GameNode) (w w1 : Tree.World) (r : Tree.BoardRef) :
  wfWorld w -> Tree.rootBoard n w = (Ret r, w1) -> boardKeeps w w1 r.
Proof.
  intros Hwf H. unfold Tree.rootBoard in H.
  destruct (Board.create (Tree.getStartingFen n)) as [b|e]; [|discriminate H].
  unfold Tree.alloc in H. injection H as <- <-.
  split; [|split].
  - apply (wf_alloc w b), Hwf.
  - simpl. rewrite length_app; simpl; lia.
  - reflexivity.
Qed.

Lemma applyMove_keeps (n : Tree.GameNode) (w : Tree.World)
    (parentBoard : Res Tree.BoardRef * Tree.World) (w1 : Tree.World) (r : Tree.BoardRef) :
  (forall rp wp, parentBoard = (Ret rp, wp) -> boardKeeps w wp rp) ->
  Tree.applyMove n parentBoard = (Ret r, w1) -> boardKeeps w w1 r.
Proof.
  intros Hp H. unfold Tree.applyMove in H.
  destruct parentBoard as [[rp|e] wp]; [|discriminate H].
  destruct (Hp rp wp eq_refl) as (Hwf & Hr & Hlen).
  destruct (Tree.move n) as [m|].
  - destruct (Board.push (Tree.boardOf wp rp) m) as [[u|e] b]; [|discriminate H].
    injection H as <- <-. split; [|split].
    + apply wf_mutate, Hwf.
    + unfold Tree.mutate; simpl. rewrite update_length. exact Hr.
    + exact Hlen.
  - injection H as <- <-. split; [|split]; assumption.
Qed.

(** The cache written by [cacheAndReturn] is a new object with the position
    of the board that is returned. *)
Lemma cacheAndReturn_post (this : Tree.NodeRef) (w : Tree.World)
    (built : Res Tree.BoardRef * Tree.World) (w1 : Tree.World) (r : Tree.BoardRef) :
  (forall rb wb, built = (Ret rb, wb) -> boardKeeps w wb rb) ->
  Tree.cacheAndReturn this built = (Ret r, w1) ->
  boardKeeps w w1 r /\
  ((this < length (Tree.nodes w))%nat ->
   exists cached,
     Tree.board_ (Tree.node (Tree.nodes w1) this) = Some cached /\
     Tree.boardValid (Tree.node (Tree.nodes w1) this) = true /\
     (cached < length (Tree.boards w1))%nat /\
     cached <> r /\
     Board.copy (Tree.boardOf w1 cached) = Board.copy (Tree.boardOf w1 r)).
Proof.
  intros Hb H. unfold Tree.cacheAndReturn in H.
  destruct built as [[rb|e] wb]; [|discriminate H].
  destruct (Hb rb wb eq_refl) as (Hwf & Hr & Hlen).
  unfold Tree.alloc in H. injection H as <- <-.
  assert (Hnew : (length (Tree.boards wb)
                  < length (Tree.boards wb ++ [Board.copy (Tree.boardOf wb rb)]))%nat).
  { rewrite length_app; simpl; lia. }
  split; [split; [|split]|].
  - apply (wf_setCache (snd (Tree.alloc wb (Board.copy (Tree.boardOf wb rb))))).
    + apply wf_alloc, Hwf.
    + exact Hnew.
  - simpl. lia.
  - simpl. rewrite update_length. exact Hlen.
  - intros Hthis. exists (length (Tree.boards wb)). unfold Tree.node; simpl.
    rewrite update_nth_same by lia. simpl.
    repeat split; auto; try lia.
    unfold Tree.boardOf; simpl.
    rewrite app_nth2 by lia. rewrite Nat.sub_diag. simpl.
    rewrite app_nth1 by exact Hr. reflexivity.
Qed.

Lemma board_keeps (depth : nat) :
  forall (this : Tree.NodeRef) (w w1 : Tree.World) (r : Tree.BoardRef),
    wfWorld w -> Tree.board depth this w = (Ret r, w1) -> boardKeeps w w1 r.
Proof.
  induction depth as [|depth IH]; intros this w w1 r Hwf H; [discriminate H|].
  simpl in H.
  assert (Hbuilt : forall rb wb,
            match Tree.parent (Tree.node (Tree.nodes w) this) with
            | Some p => Tree.applyMove (Tree.node (Tree.nodes w) this) (Tree.board depth p w)
            | None => Tree.rootBoard (Tree.node (Tree.nodes w) this) w
            end = (Ret rb, wb) -> boardKeeps w wb rb).
  { intros rb wb Hb. destruct (Tree.parent (Tree.node (Tree.nodes w) this)) as [p|].
    - apply (applyMove_keeps _ w _ _ _ (fun rp wp E => IH p w wp rp Hwf E) Hb).
    - apply (rootBoard_keeps _ _ _ _ Hwf Hb). }
  destruct (Tree.boardValid (Tree.node (Tree.nodes w) this));
    [destruct (Tree.board_ (Tree.node (Tree.nodes w) this)) as [cached|]|].
  - apply (copyOfCache_keeps cached w w1 r Hwf H).
  - apply (cacheAndReturn_post this w _ w1 r Hbuilt H).
  - apply (cacheAndReturn_post this w _ w1 r Hbuilt H).
Qed.

(** What a call of [board()] that returns leaves on the node: a valid cache
    that is another object than the board returned and holds the same
    position. *)
Lemma board_post (depth : nat) (this : Tree.NodeRef) (w w1 : Tree.World)
    (r : Tree.BoardRef) :
  wfWorld w -> (this < length (Tree.nodes w))%nat ->
  Tree.board depth this w = (Ret r, w1) ->
  exists cached,
    Tree.board_ (Tree.node (Tree.nodes w1) this) = Some cached /\
    Tree.boardValid (Tree.node (Tree.nodes w1) this) = true /\
    (cached < length (Tree.boards w1))%nat /\
    cached <> r /\
    Board.copy (Tree.boardOf w1 cached) = Board.copy (Tree.boardOf w1 r).
Proof.
  intros Hwf Hthis H. destruct depth as [|depth]; [discriminate H|].
  simpl in H.
  assert (Hbuilt : forall rb wb,
            match Tree.parent (Tree.node (Tree.nodes w) this) with
            | Some p => Tree.applyMove (Tree.node (Tree.nodes w) this) (Tree.board depth p w)
            | None => Tree.rootBoard (Tree.node (Tree.nodes w) this) w
            end = (Ret rb, wb) -> boardKeeps w wb rb).
  { intros rb wb Hb. destruct (Tree.parent (Tree.node (Tree.nodes w) this)) as [p|].
    - apply (applyMove_keeps _ w _ _ _
               (fun rp wp E => board_keeps depth p w wp rp Hwf E) Hb).
    - apply (rootBoard_keeps _ _ _ _ Hwf Hb). }
  destruct (Tree.boardValid (Tree.node (Tree.nodes w) this)) eqn:EV;
    [destruct (Tree.board_ (Tree.node (Tree.nodes w) this)) as [cached|] eqn:EC|].
  - unfold Tree.copyOfCache, Tree.alloc in H. injection H as <- <-.
    assert (Hc : (cached < length (Tree.boards w))%nat).
    { apply (Hwf (Tree.node (Tree.nodes w) this) cached); [|exact EC].
      apply nth_In, Hthis. }
    exists cached. simpl. rewrite EC, EV.
    repeat split; auto; try (rewrite length_app; simpl; lia); try lia.
    unfold Tree.boardOf; simpl.
    rewrite (app_nth1 (Tree.boards w) _ _ Hc).
    rewrite app_nth2 by lia. rewrite Nat.sub_diag. reflexivity.
  - apply (proj2 (cacheAndReturn_post this w _ w1 r Hbuilt H) Hthis).
  - apply (proj2 (cacheAndReturn_post this w _ w1 r Hbuilt H) Hthis).
Qed.

(** C9.  When [board()] returns on a node, the board it returns is another
    object than the node's cached board: however the caller mutates the
    returned board afterwards, the cached board is unchanged, and a later
    [board()] or [fen()] on the node returns, with the position the first
    call returned. *)
Theorem board_returns_owned_copy (depth : nat) (this : Tree.NodeRef)
    (w w1 : Tree.World) (r : Tree.BoardRef) :
  wfWorld w -> (this < length (Tree.nodes w))%nat ->
  Tree.board depth this w = (Ret r, w1) ->
  exists cached,
    Tree.board_ (Tree.node (Tree.nodes w1) this) = Some cached /\
    cached <> r /\
    Board.copy (Tree.boardOf w1 cached) = Board.copy (Tree.boardOf w1 r) /\
    forall (mutated : Board.t) (depth' : nat),
      let w2 := Tree.mutate w1 r mutated in
      Tree.boardOf w2 cached = Tree.boardOf w1 cached /\
      exists r2 w3,
        Tree.board (S depth') this w2 = (Ret r2, w3) /\
        Tree.boardOf w3 r2 = Board.copy (Tree.boardOf w1 r) /\
        Board.fen (Tree.boardOf w3 r2) = Board.fen (Tree.boardOf w1 r) /\
        Tree.nodeFen (S depth') this w2 = (Ret (Board.fen (Tree.boardOf w1 r)), w3).
Proof.
  intros Hwf Hthis H.
  destruct (board_post depth this w w1 r Hwf Hthis H) as (cached & Hc & Hv & Hlt & Hne & Hcopy).
  exists cached. repeat split; auto.
  - apply boardOf_mutate_other, Hne.
  - assert (Hcall : Tree.board (S depth') this (Tree.mutate w1 r mutated)
                    = Tree.copyOfCache cached (Tree.mutate w1 r mutated)).
    { simpl. rewrite Hv, Hc. reflexivity. }
    assert (Hval : Tree.boardOf
                     (snd (Tree.copyOfCache cached (Tree.mutate w1 r mutated)))
                     (length (Tree.boards (Tree.mutate w1 r mutated)))
                   = Board.copy (Tree.boardOf w1 r)).
    { unfold Tree.copyOfCache. simpl.
      pose proof (boardOf_alloc_new (Tree.mutate w1 r mutated)
                    (Board.copy (Tree.boardOf (Tree.mutate w1 r mutated) cached))) as Hn.
      simpl in Hn. rewrite Hn.
      rewrite boardOf_mutate_other by exact Hne. exact Hcopy. }
    exists (length (Tree.boards (Tree.mutate w1 r mutated))),
           (snd (Tree.copyOfCache cached (Tree.mutate w1 r mutated))).
    split; [rewrite Hcall; reflexivity|].
    split; [exact Hval|].
    split; [rewrite Hval; apply fen_copy|].
    unfold Tree.nodeFen. rewrite Hcall. unfold Tree.copyOfCache at 1.
    unfold Tree.alloc at 1.
    change (Tree.mkWorld (Tree.nodes (Tree.mutate w1 r mutated))
              (Tree.boards (Tree.mutate w1 r mutated)
               ++ [Board.copy (Tree.boardOf (Tree.mutate w1 r mutated) cached)]))
      with (snd (Tree.copyOfCache cached (Tree.mutate w1 r mutated))).
    rewrite Hval, fen_copy. reflexivity.
Qed.

Lemma board_returns_owned_copy_witness :
  let w1 := snd (Tree.board 5 1%nat smallWorld) in
  exists cached,
    Tree.board_ (Tree.node (Tree.nodes w1) 1%nat) = Some cached /\
    cached <> 0%nat /\
    Board.copy (Tree.boardOf w1 cached) = Board.copy (Tree.boardOf w1 0%nat) /\
    forall (mutated : Board.t) (depth' : nat),
      let w2 := Tree.mutate w1 0%nat mutated in
      Tree.boardOf w2 cached = Tree.boardOf w1 cached /\
      exists r2 w3,
        Tree.board (S depth') 1%nat w2 = (Ret r2, w3) /\
        Tree.boardOf w3 r2 = Board.copy (Tree.boardOf w1 0%nat) /\
        Board.fen (Tree.boardOf w3 r2) = Board.fen (Tree.boardOf w1 0%nat) /\
        Tree.nodeFen (S depth') 1%nat w2 = (Ret (Board.fen (Tree.boardOf w1 0%nat)), w3).
Proof.
  apply (board_returns_owned_copy 5 1%nat smallWorld (snd (Tree.board 5 1%nat smallWorld)) 0%nat).
  - intros n c Hn Hc. simpl in Hn.
    destruct Hn as [<-|[<-|[]]]; discriminate Hc.
  - simpl. lia.
  - vm_compute. reflexivity.
Defined.

(** *** The loop of buildMoveTree *)

(** Induction on a move record through its variation groups. *)
Lemma PgnMove_nested_ind (P : Tree.PgnMove -> Prop) :
  (forall s, P (Tree.PgnString s)) ->
  (forall info variations,
     Forall (Forall P) variations -> P (Tree.PgnRecord info variations)) ->
  forall m, P m.
Proof.
  intros Hs Hr.
  fix IH 1. intros [s|info variations].
  - apply Hs.
  - apply Hr.
    induction variations as [|g gs IHgs]; constructor; [|exact IHgs].
    induction g as [|m g IHg]; constructor; [apply IH|exact IHg].
Qed.

Lemma forOf_nil {A S} (body : A -> S -> Res S) (s : S) :
  Tree.forOf body [] s = Ret s.
Proof. reflexivity. Qed.

Lemma forOf_cons {A S} (body : A -> S -> Res S) (x : A) (l : list A) (s : S) :
  Tree.forOf body (x :: l) s
  = match body x s with
    | Ret s' => Tree.forOf body l s'
    | Thr e => Thr e
    end.
Proof. reflexivity. Qed.

(** The body of the loop over the variation groups is [buildVariation]. *)
Lemma processMove_record (info : Tree.PgnInfo) (variations : list (list Tree.PgnMove))
    (l : Tree.Loop) :
  Tree.processMove (Tree.PgnRecord info variations) l
  = match Tree.parseMove info (Tree.currentBoard l) with
    | Thr _ =>
        Ret (Tree.mkLoop (Tree.currentNode l) (Tree.currentBoard l)
               (Tree.mkBState (Tree.store (Tree.shared l))
                  (Tree.errors (Tree.shared l)
                   ++ [Tree.parseFailure info (Tree.currentBoard l)])))
    | Ret move =>
        match Board.push (Tree.currentBoard l) move with
        | (Thr e, _) => Thr e
        | (Ret _, pushed) =>
            match Tree.forOf
                    (Tree.buildVariation (Tree.currentNode l)
                       (Board.fen (Tree.currentBoard l)))
                    variations
                    (Tree.mkBState (Tree.attach l move info) (Tree.errors (Tree.shared l)))
            with
            | Ret s => Ret (Tree.mkLoop (length (Tree.store (Tree.shared l))) pushed s)
            | Thr e => Thr e
            end
        end
    end.
Proof.
  simpl. destruct (Tree.parseMove info (Tree.currentBoard l)) as [move|e]; [|reflexivity].
  destruct (Board.push (Tree.currentBoard l) move) as [[u|e] pushed]; [|reflexivity].
  assert (H : forall vs s,
            Tree.forOf
              (fun (variationMoves : list Tree.PgnMove) (s : Tree.BState) =>
               match variationMoves with
               | [] => Ret s
               | _ :: _ =>
                   match Board.create (Board.fen (Tree.currentBoard l)) with
                   | Ret varBoard =>
                       match Tree.forOf Tree.processMove variationMoves
                               (Tree.mkLoop (Tree.currentNode l) (Board.copy varBoard) s) with
                       | Ret l' => Ret (Tree.shared l')
                       | Thr e => Thr e
                       end
                   | Thr e => Thr e
                   end
               end) vs s
            = Tree.forOf (Tree.buildVariation (Tree.currentNode l)
                            (Board.fen (Tree.currentBoard l))) vs s).
  { induction vs as [|g vs IHvs]; intros s; [reflexivity|].
    rewrite !forOf_cons. unfold Tree.buildVariation at 1, Tree.buildMoveTree.
    destruct g as [|m g]; [apply IHvs|].
    destruct (Board.create (Board.fen (Tree.currentBoard l))) as [vb|e]; [|reflexivity].
    destruct (Tree.forOf Tree.processMove (m :: g) _) as [l'|e]; [apply IHvs|reflexivity]. }
  rewrite H. reflexivity.
Qed.

(** *** Frames *)

Lemma grows_refl (p : Tree.NodeRef) (s : Tree.Store) : grows p s s.
Proof.
  unfold grows. repeat split; auto.
  exists []. rewrite app_nil_r. split; [reflexivity|constructor].
Qed.

Lemma Forall_range_weaken (lo lo' hi hi' : nat) (l : list nat) :
  (lo' <= lo)%nat -> (hi <= hi')%nat ->
  Forall (fun k => (lo <= k < hi)%nat) l -> Forall (fun k => (lo' <= k < hi')%nat) l.
Proof.
  intros H1 H2 H. eapply Forall_impl; [|exact H]. simpl. intros k Hk. lia.
Qed.

(** Two frames around the same node compose. *)
Lemma grows_trans (p : Tree.NodeRef) (s s1 s2 : Tree.Store) :
  grows p s s1 -> grows p s1 s2 -> grows p s s2.
Proof.
  intros (L1 & O1 & P1 & M1 & e1 & V1 & F1) (L2 & O2 & P2 & M2 & e2 & V2 & F2).
  unfold grows. split; [lia|]. split; [|split; [congruence|split; [congruence|]]].
  - intros j Hj Hp. rewrite O2 by (auto; lia). apply O1; auto.
  - exists (e1 ++ e2). rewrite V2, V1, app_assoc. split; [reflexivity|].
    apply Forall_app. split.
    + eapply Forall_range_weaken; [| |exact F1]; lia.
    + eapply Forall_range_weaken; [| |exact F2]; lia.
Qed.

(** A frame around [p] followed by a frame around a node created since. *)
Lemma grows_then_new (p q : Tree.NodeRef) (s s1 s2 : Tree.Store) :
  (p < length s)%nat -> (length s <= q)%nat ->
  grows p s s1 -> grows q s1 s2 -> grows p s s2.
Proof.
  intros Hp Hq (L1 & O1 & P1 & M1 & e1 & V1 & F1) (L2 & O2 & P2 & M2 & e2 & V2 & F2).
  assert (Hpq : Tree.node s2 p = Tree.node s1 p) by (apply O2; lia).
  unfold grows. split; [lia|]. split; [|rewrite Hpq; split; [exact P1|split; [exact M1|]]].
  - intros j Hj Hjp. rewrite O2 by lia. apply O1; auto.
  - exists e1. split; [exact V1|].
    eapply Forall_range_weaken; [| |exact F1]; lia.
Qed.

Lemma framed_refl (l : Tree.Loop) :
  (Tree.currentNode l < length (Tree.store (Tree.shared l)))%nat -> framed l l.
Proof.
  intros H. split; [apply grows_refl|]. split; [left; reflexivity|exact H].
Qed.

Lemma framed_trans (l l1 l2 : Tree.Loop) :
  (Tree.currentNode l < length (Tree.store (Tree.shared l)))%nat ->
  framed l l1 -> framed l1 l2 -> framed l l2.
Proof.
  intros Hp (G1 & C1 & W1) (G2 & C2 & W2).
  assert (L1 : (length (Tree.store (Tree.shared l))
                <= length (Tree.store (Tree.shared l1)))%nat) by apply G1.
  split; [|split; [|exact W2]].
  - destruct C1 as [E|N].
    + rewrite E in G2. exact (grows_trans _ _ _ _ G1 G2).
    + exact (grows_then_new _ _ _ _ _ Hp N G1 G2).
  - destruct C2 as [E|N]; [rewrite E; exact C1|right; lia].
Qed.

(** The store after the new node was created and attached. *)
Lemma attach_grows (l : Tree.Loop) (move : Move.t) (info : Tree.PgnInfo) :
  (Tree.currentNode l < length (Tree.store (Tree.shared l)))%nat ->
  let s := Tree.store (Tree.shared l) in
  let s' := Tree.attach l move info in
  length s' = S (length s) /\
  Tree.node s' (length s) = Tree.makeNode (Tree.currentNode l) move info /\
  Tree.node s' (Tree.currentNode l)
    = Tree.pushVariation (length s) (Tree.node s (Tree.currentNode l)) /\
  (forall j, (j < length s)%nat -> j <> Tree.currentNode l ->
             Tree.node s' j = Tree.node s j).
Proof.
  intros Hp s s'. unfold s', Tree.attach. fold s. unfold Tree.node.
  split; [|split; [|split]].
  - rewrite update_length, length_app. simpl. lia.
  - rewrite update_nth_other by (fold s in Hp; lia).
    rewrite app_nth2 by lia. rewrite Nat.sub_diag. reflexivity.
  - rewrite update_nth_same by (rewrite length_app; simpl; fold s in Hp; lia).
    rewrite app_nth1 by exact Hp. reflexivity.
  - intros j Hj Hne. rewrite update_nth_other by congruence.
    apply app_nth1, Hj.
Qed.

Lemma attach_framed (l : Tree.Loop) (move : Move.t) (info : Tree.PgnInfo) :
  (Tree.currentNode l < length (Tree.store (Tree.shared l)))%nat ->
  grows (Tree.currentNode l) (Tree.store (Tree.shared l)) (Tree.attach l move info).
Proof.
  intros Hp. destruct (attach_grows l move info Hp) as (HL & HN & HP & HO).
  unfold grows. rewrite HL, HP. split; [lia|]. split; [exact HO|].
  split; [reflexivity|]. split; [reflexivity|].
  exists [length (Tree.store (Tree.shared l))]. split; [reflexivity|].
  constructor; [lia|constructor].
Qed.

(** A run of the loop, given the frame of each of its turns. *)
Lemma forOf_framed (g : list Tree.PgnMove) :
  Forall (fun m => forall l l',
            (Tree.currentNode l < length (Tree.store (Tree.shared l)))%nat ->
            Tree.processMove m l = Ret l' -> framed l l') g ->
  forall l l',
    (Tree.currentNode l < length (Tree.store (Tree.shared l)))%nat ->
    Tree.forOf Tree.processMove g l = Ret l' -> framed l l'.
Proof.
  induction 1 as [|m g Hm Hg IH]; intros l l' Hp H.
  - rewrite forOf_nil in H. injection H as <-. apply framed_refl, Hp.
  - rewrite forOf_cons in H.
    destruct (Tree.processMove m l) as [l1|e] eqn:E; [|discriminate H].
    pose proof (Hm l l1 Hp E) as F1.
    apply (framed_trans l l1 l' Hp F1).
    apply IH; [apply F1|exact H].
Qed.

Lemma buildVariation_grows (p : Tree.NodeRef) (fen : jsstr) (g : list Tree.PgnMove) :
  Forall (fun m => forall l l',
            (Tree.currentNode l < length (Tree.store (Tree.shared l)))%nat ->
            Tree.processMove m l = Ret l' -> framed l l') g ->
  forall s s',
    (p < length (Tree.store s))%nat ->
    Tree.buildVariation p fen g s = Ret s' ->
    grows p (Tree.store s) (Tree.store s').
Proof.
  intros Hg s s' Hp H. unfold Tree.buildVariation in H.
  destruct g as [|m g]; [injection H as <-; apply grows_refl|].
  destruct (Board.create fen) as [vb|e]; [|discriminate H].
  unfold Tree.buildMoveTree in H.
  destruct (Tree.forOf Tree.processMove (m :: g) _) as [l'|e] eqn:E; [|discriminate H].
  injection H as <-.
  exact (proj1 (forOf_framed (m :: g) Hg (Tree.mkLoop p (Board.copy vb) s) l' Hp E)).
Qed.

Lemma variations_grow (p : Tree.NodeRef) (fen : jsstr) (vs : list (list Tree.PgnMove)) :
  Forall (Forall (fun m => forall l l',
            (Tree.currentNode l < length (Tree.store (Tree.shared l)))%nat ->
            Tree.processMove m l = Ret l' -> framed l l')) vs ->
  forall s s',
    (p < length (Tree.store s))%nat ->
    Tree.forOf (Tree.buildVariation p fen) vs s = Ret s' ->
    grows p (Tree.store s) (Tree.store s').
Proof.
  induction 1 as [|g vs Hg Hvs IH]; intros s s' Hp H.
  - rewrite forOf_nil in H. injection H as <-. apply grows_refl.
  - rewrite forOf_cons in H.
    destruct (Tree.buildVariation p fen g s) as [s1|e] eqn:E; [|discriminate H].
    pose proof (buildVariation_grows p fen g Hg s s1 Hp E) as G1.
    apply (grows_trans _ _ _ _ G1). apply IH; [|exact H].
    destruct G1 as (L & _). lia.
Qed.

(** Every turn of the loop is framed. *)
Lemma processMove_framed (m : Tree.PgnMove) :
  forall l l',
    (Tree.currentNode l < length (Tree.store (Tree.shared l)))%nat ->
    Tree.processMove m l = Ret l' -> framed l l'.
Proof.
  induction m as [s|info vs IH] using PgnMove_nested_ind; intros l l' Hp H.
  - simpl in H. injection H as <-. apply framed_refl, Hp.
  - rewrite processMove_record in H.
    destruct (Tree.parseMove info (Tree.currentBoard l)) as [move|e].
    + destruct (Board.push (Tree.currentBoard l) move) as [[u|e] pushed]; [|discriminate H].
      destruct (Tree.forOf _ vs _) as [s|e] eqn:E; [|discriminate H].
      injection H as <-.
      destruct (attach_grows l move info Hp) as (HL & _).
      pose proof (attach_framed l move info Hp) as G0.
      assert (G1 : grows (Tree.currentNode l) (Tree.attach l move info) (Tree.store s)).
      { apply (variations_grow (Tree.currentNode l) (Board.fen (Tree.currentBoard l)) vs IH
                 (Tree.mkBState (Tree.attach l move info) (Tree.errors (Tree.shared l))) s);
          [|exact E]. simpl. rewrite HL. lia. }
      split; [exact (grows_trans _ _ _ _ G0 G1)|]. simpl.
      split; [right; lia|]. destruct G1 as (L & _). rewrite HL in L. lia.
    + injection H as <-. split; [apply grows_refl|]. split; [left; reflexivity|exact Hp].
Qed.

Lemma all_framed (g : list Tree.PgnMove) :
  Forall (fun m => forall l l',
            (Tree.currentNode l < length (Tree.store (Tree.shared l)))%nat ->
            Tree.processMove m l = Ret l' -> framed l l') g.
Proof. apply Forall_forall. intros m _. apply processMove_framed. Qed.

Lemma run_framed (g : list Tree.PgnMove) (l l' : Tree.Loop) :
  (Tree.currentNode l < length (Tree.store (Tree.shared l)))%nat ->
  Tree.forOf Tree.processMove g l = Ret l' -> framed l l'.
Proof. apply forOf_framed, all_framed. Qed.

Lemma variation_grows (p : Tree.NodeRef) (fen : jsstr) (g : list Tree.PgnMove)
    (s s' : Tree.BState) :
  (p < length (Tree.store s))%nat ->
  Tree.buildVariation p fen g s = Ret s' ->
  grows p (Tree.store s) (Tree.store s').
Proof. apply buildVariation_grows, all_framed. Qed.

Lemma groups_grow (p : Tree.NodeRef) (fen : jsstr) (vs : list (list Tree.PgnMove))
    (s s' : Tree.BState) :
  (p < length (Tree.store s))%nat ->
  Tree.forOf (Tree.buildVariation p fen) vs s = Ret s' ->
  grows p (Tree.store s) (Tree.store s').
Proof.
  apply variations_grow. apply Forall_forall. intros g _. apply all_framed.
Qed.

(** The node of a parsed move is appended to the variations of the current
    node and is left without children by its own turn of the loop: what its
    variation groups add goes behind it, into the same array. *)
Lemma processMove_shape (info : Tree.PgnInfo) (vs : list (list Tree.PgnMove))
    (l l' : Tree.Loop) (mv : Move.t) :
  (Tree.currentNode l < length (Tree.store (Tree.shared l)))%nat ->
  Tree.parseMove info (Tree.currentBoard l) = Ret mv ->
  Tree.processMove (Tree.PgnRecord info vs) l = Ret l' ->
  let p := Tree.currentNode l in
  let n := length (Tree.store (Tree.shared l)) in
  let s' := Tree.store (Tree.shared l') in
  Tree.currentNode l' = n /\
  (n < length s')%nat /\
  Tree.node s' n = Tree.makeNode p mv info /\
  (exists sibs,
     Tree.variations (Tree.node s' p)
     = Tree.variations (Tree.node (Tree.store (Tree.shared l)) p) ++ n :: sibs) /\
  exists pushed s0,
    Board.push (Tree.currentBoard l) mv = (Ret tt, pushed) /\
    Tree.forOf (Tree.buildVariation p (Board.fen (Tree.currentBoard l))) vs
      (Tree.mkBState (Tree.attach l mv info) (Tree.errors (Tree.shared l))) = Ret s0 /\
    l' = Tree.mkLoop n pushed s0.
Proof.
  intros Hp Hparse H p n s'. rewrite processMove_record, Hparse in H.
  destruct (Board.push (Tree.currentBoard l) mv) as [[[]|e] pushed] eqn:EP; [|discriminate H].
  destruct (Tree.forOf _ vs _) as [s0|e] eqn:E; [|discriminate H].
  injection H as <-.
  destruct (attach_grows l mv info Hp) as (HL & HN & HPv & HO).
  assert (G : grows p (Tree.attach l mv info) (Tree.store s0)).
  { apply (groups_grow p (Board.fen (Tree.currentBoard l)) vs
             (Tree.mkBState (Tree.attach l mv info) (Tree.errors (Tree.shared l))) s0);
      [|exact E]. simpl. rewrite HL. unfold p. lia. }
  destruct G as (GL & GO & _ & _ & extra & GV & _).
  unfold s'; simpl. split; [reflexivity|]. split; [fold n in HL; lia|].
  split; [|split].
  - rewrite GO; [exact HN|rewrite HL; fold n; lia|unfold p, n; lia].
  - exists extra. rewrite GV. fold p in HPv. rewrite HPv. simpl.
    rewrite <- app_assoc. reflexivity.
  - exists pushed, s0. auto.
Qed.

(** The first move of a variation group, when it parses, becomes a node
    appended to the variations of [p]. *)
Lemma group_first_move (p : Tree.NodeRef) (fen : jsstr)
    (i1 : Tree.PgnInfo) (v1 : list (list Tree.PgnMove)) (g' : list Tree.PgnMove)
    (s s1 : Tree.BState) (vb : Board.t) (mv1 : Move.t) :
  (p < length (Tree.store s))%nat ->
  Board.create fen = Ret vb ->
  Tree.parseMove i1 (Board.copy vb) = Ret mv1 ->
  Tree.buildVariation p fen (Tree.PgnRecord i1 v1 :: g') s = Ret s1 ->
  let k := length (Tree.store s) in
  (k < length (Tree.store s1))%nat /\
  Tree.parent (Tree.node (Tree.store s1) k) = Some p /\
  Tree.move (Tree.node (Tree.store s1) k) = Some mv1 /\
  exists e2,
    Tree.variations (Tree.node (Tree.store s1) p)
    = Tree.variations (Tree.node (Tree.store s) p) ++ k :: e2.
Proof.
  intros Hp Hvb Hparse H k. unfold Tree.buildVariation in H. rewrite Hvb in H.
  unfold Tree.buildMoveTree in H. rewrite forOf_cons in H.
  set (l0 := Tree.mkLoop p (Board.copy vb) s) in *.
  destruct (Tree.processMove (Tree.PgnRecord i1 v1) l0) as [l1|e] eqn:E1; [|discriminate H].
  destruct (Tree.forOf Tree.processMove g' l1) as [lf|e] eqn:E2; [|discriminate H].
  injection H as <-.
  destruct (processMove_shape i1 v1 l0 l1 mv1 Hp Hparse E1)
    as (Hcur & Hlen & Hnode & (sibs & Hsibs) & _).
  simpl in Hcur, Hlen, Hnode, Hsibs. fold k in Hcur, Hlen, Hnode, Hsibs.
  assert (Hwf1 : (Tree.currentNode l1 < length (Tree.store (Tree.shared l1)))%nat).
  { rewrite Hcur. exact Hlen. }
  destruct (run_framed g' l1 lf Hwf1 E2) as ((GL & GO & GP & GM & _) & _ & _).
  rewrite Hcur in GO, GP, GM.
  split; [lia|]. split; [|split].
  - rewrite GP, Hnode. reflexivity.
  - rewrite GM, Hnode. reflexivity.
  - exists sibs. rewrite GO; [exact Hsibs|lia|unfold k; lia].
Qed.

Lemma groups_first_moves (p : Tree.NodeRef) (fen : jsstr) (vb : Board.t)
    (vs : list (list Tree.PgnMove)) :
  Board.create fen = Ret vb ->
  forall (s s' : Tree.BState),
    (p < length (Tree.store s))%nat ->
    Tree.forOf (Tree.buildVariation p fen) vs s = Ret s' ->
    forall i1 v1 g' mv1,
      In (Tree.PgnRecord i1 v1 :: g') vs ->
      Tree.parseMove i1 (Board.copy vb) = Ret mv1 ->
      exists k e1 e2,
        Tree.variations (Tree.node (Tree.store s') p)
        = Tree.variations (Tree.node (Tree.store s) p) ++ e1 ++ k :: e2 /\
        Tree.parent (Tree.node (Tree.store s') k) = Some p /\
        Tree.move (Tree.node (Tree.store s') k) = Some mv1.
Proof.
  intros Hvb. induction vs as [|g vs IH]; intros s s' Hp H i1 v1 g' mv1 Hin Hparse.
  - destruct Hin.
  - rewrite forOf_cons in H.
    destruct (Tree.buildVariation p fen g s) as [s1|e] eqn:E; [|discriminate H].
    pose proof (variation_grows p fen g s s1 Hp E) as (L1 & _ & _ & _ & e0 & V0 & _).
    assert (Hp1 : (p < length (Tree.store s1))%nat) by lia.
    destruct Hin as [->|Hin].
    + destruct (group_first_move p fen i1 v1 g' s s1 vb mv1 Hp Hvb Hparse E)
        as (Hk & HP & HM & e2 & HV).
      pose proof (groups_grow p fen vs s1 s' Hp1 H) as (L2 & O2 & _ & _ & e3 & V3 & _).
      exists (length (Tree.store s)), [], (e2 ++ e3).
      simpl in Hk. rewrite (O2 (length (Tree.store s))) by lia. split; [|auto].
      rewrite V3, HV. simpl. rewrite <- app_assoc. reflexivity.
    + destruct (IH s1 s' Hp1 H i1 v1 g' mv1 Hin Hparse) as (k & e1 & e2 & HV & HP & HM).
      exists k, (e0 ++ e1), e2. split; [|auto].
      rewrite HV, V0, <- !app_assoc. reflexivity.
Qed.

(** C1.  When the tree builder processes a move record M whose notation
    parses, the node of M is appended to the variations of the current node
    and the first move of each variation group of M becomes a further element
    of that same array, behind M, with the current node as its parent; the
    node of M has no child when its turn of the loop ends.  Built from the
    parse tree of "1. e4 e5 (1... c5 2. Nf3) 2. Nf3 *", the root has the one
    child e4, e4 has the children e5 then c5, and c5 has the one child Nf3. *)
Theorem variations_become_siblings :
  (forall (info : Tree.PgnInfo) (vs : list (list Tree.PgnMove))
          (l l' : Tree.Loop) (mv : Move.t),
     (Tree.currentNode l < length (Tree.store (Tree.shared l)))%nat ->
     Tree.parseMove info (Tree.currentBoard l) = Ret mv ->
     Tree.processMove (Tree.PgnRecord info vs) l = Ret l' ->
     let p := Tree.currentNode l in
     let n := length (Tree.store (Tree.shared l)) in
     let s' := Tree.store (Tree.shared l') in
     Tree.currentNode l' = n /\
     Tree.parent (Tree.node s' n) = Some p /\
     Tree.move (Tree.node s' n) = Some mv /\
     Tree.variations (Tree.node s' n) = [] /\
     exists sibs,
       Tree.variations (Tree.node s' p)
       = Tree.variations (Tree.node (Tree.store (Tree.shared l)) p) ++ n :: sibs /\
       forall i1 v1 g' varBoard mv1,
         In (Tree.PgnRecord i1 v1 :: g') vs ->
         Board.create (Board.fen (Tree.currentBoard l)) = Ret varBoard ->
         Tree.parseMove i1 (Board.copy varBoard) = Ret mv1 ->
         exists k, In k sibs /\
                   Tree.parent (Tree.node s' k) = Some p /\
                   Tree.move (Tree.node s' k) = Some mv1)
  /\
  (forall withResultToken,
     exists s,
       Tree.buildGameTree (exampleTree withResultToken) = Ret s /\
       Tree.errors s = [] /\
       childMoves (Tree.store s) 0%nat = [lit "e2e4"] /\
       Tree.variations (Tree.node (Tree.store s) 0%nat) = [1%nat] /\
       childMoves (Tree.store s) 1%nat = [lit "e7e5"; lit "c7c5"] /\
       Tree.variations (Tree.node (Tree.store s) 1%nat) = [2%nat; 3%nat] /\
       childMoves (Tree.store s) 3%nat = [lit "g1f3"] /\
       length (Tree.variations (Tree.node (Tree.store s) 3%nat)) = 1%nat).
Proof.
  split.
  - intros info vs l l' mv Hp Hparse H. cbv zeta.
    destruct (processMove_shape info vs l l' mv Hp Hparse H)
      as (Hcur & Hlen & Hnode & (sibs & Hsibs) & pushed & s0 & _ & Hgroups & Hl').
    cbv zeta in Hcur, Hlen, Hnode, Hsibs.
    split; [exact Hcur|]. rewrite Hnode. repeat split.
    exists sibs. split; [exact Hsibs|].
    intros i1 v1 g' varBoard mv1 Hin Hvb Hp1.
    destruct (attach_grows l mv info Hp) as (HL & _ & HPv & _).
    assert (Hpa : (Tree.currentNode l < length (Tree.store
                     (Tree.mkBState (Tree.attach l mv info) (Tree.errors (Tree.shared l)))))%nat).
    { simpl. rewrite HL. lia. }
    destruct (groups_first_moves (Tree.currentNode l) (Board.fen (Tree.currentBoard l))
                varBoard vs Hvb _ s0 Hpa Hgroups i1 v1 g' mv1 Hin Hp1)
      as (k & e1 & e2 & HV & HP & HM).
    assert (Hs : Tree.store (Tree.shared l') = Tree.store s0) by (rewrite Hl'; reflexivity).
    rewrite Hs in *.
    exists k. split; [|split; [exact HP|exact HM]].
    simpl in HV. rewrite HPv in HV. simpl in HV. rewrite Hsibs in HV.
    rewrite <- app_assoc in HV. apply app_inv_head in HV.
    simpl in HV. injection HV as ->. apply in_or_app. right. left. reflexivity.
  - intros [|]; eexists; (split; [vm_compute; reflexivity|]);
      repeat split; reflexivity.
Qed.

Lemma variations_become_siblings_witness :
  let l := loopAfterE4 in
  let vs := [[plainMove "c5" "c" "5" None []; plainMove "Nf3" "f" "3" (Some "N"%string) []]] in
  let mv := Move.mk 52 36 None None in
  exists l', Tree.processMove (plainMove "e5" "e" "5" None vs) l = Ret l' /\
    Tree.currentNode l' = 2%nat /\
    Tree.parent (Tree.node (Tree.store (Tree.shared l')) 2%nat) = Some 1%nat /\
    Tree.move (Tree.node (Tree.store (Tree.shared l')) 2%nat) = Some mv /\
    Tree.variations (Tree.node (Tree.store (Tree.shared l')) 2%nat) = [] /\
    exists sibs,
      Tree.variations (Tree.node (Tree.store (Tree.shared l')) 1%nat)
      = [] ++ 2%nat :: sibs /\
      forall i1 v1 g' varBoard mv1,
        In (Tree.PgnRecord i1 v1 :: g') vs ->
        Board.create (Board.fen (Tree.currentBoard l)) = Ret varBoard ->
        Tree.parseMove i1 (Board.copy varBoard) = Ret mv1 ->
        exists k, In k sibs /\
                  Tree.parent (Tree.node (Tree.store (Tree.shared l')) k) = Some 1%nat /\
                  Tree.move (Tree.node (Tree.store (Tree.shared l')) k) = Some mv1.
Proof.
  intros l vs mv.
  destruct (Tree.processMove (plainMove "e5" "e" "5" None vs) l) as [l'|e] eqn:E;
    [|vm_compute in E; discriminate E].
  exists l'. split; [reflexivity|].
  apply (proj1 variations_become_siblings (plainInfo "e5" "e" "5" None) vs l l' mv).
  - simpl. lia.
  - vm_compute. reflexivity.
  - exact E.
Defined.

(** *** Parse failures *)

Lemma processMove_failure (info : Tree.PgnInfo) (vs : list (list Tree.PgnMove))
    (l : Tree.Loop) (e : Error) :
  Tree.parseMove info (Tree.currentBoard l) = Thr e ->
  Tree.processMove (Tree.PgnRecord info vs) l
  = Ret (Tree.mkLoop (Tree.currentNode l) (Tree.currentBoard l)
           (Tree.mkBState (Tree.store (Tree.shared l))
              (Tree.errors (Tree.shared l)
               ++ [Tree.parseFailure info (Tree.currentBoard l)]))).
Proof. intros H. rewrite processMove_record, H. reflexivity. Qed.

Lemma all_fail_run (board : Board.t) (moves : list Tree.PgnMove) :
  Forall (failsOn board) moves ->
  forall (p : Tree.NodeRef) (store : Tree.Store) (errors : list Tree.GameError),
    Tree.forOf Tree.processMove moves (Tree.mkLoop p board (Tree.mkBState store errors))
    = Ret (Tree.mkLoop p board (Tree.mkBState store (errors ++ failuresOn board moves))).
Proof.
  induction 1 as [|m moves Hm _ IH]; intros p store errors.
  - simpl. rewrite app_nil_r. reflexivity.
  - rewrite forOf_cons. destruct m as [s|info vs].
    + simpl. apply IH.
    + destruct Hm as [e He].
      rewrite (processMove_failure info vs
                 (Tree.mkLoop p board (Tree.mkBState store errors)) e He). simpl.
      rewrite IH, <- app_assoc. reflexivity.
Qed.

(** C6.  A move record whose notation fails to parse does not abort the
    build: its turn of the loop appends to the error list a GameError with
    the message, the SAN text and the FEN of the current position, changes
    neither the tree nor the current node and board, and the loop goes on
    with the remaining records of the same list; a list in which no record
    parses is built to the end, with one error for each record. *)
Theorem parse_failure_is_recorded :
  (forall (info : Tree.PgnInfo) (vs : list (list Tree.PgnMove))
          (rest : list Tree.PgnMove) (l : Tree.Loop) (e : Error),
     Tree.parseMove info (Tree.currentBoard l) = Thr e ->
     exists err,
       Tree.message err
         = lit "Failed to parse move: "
           ++ match notationText info with Some s => s | None => lit "unknown" end /\
       Tree.san err = notationText info /\
       Tree.fen err = Board.fen (Tree.currentBoard l) /\
       Tree.forOf Tree.processMove (Tree.PgnRecord info vs :: rest) l
       = Tree.forOf Tree.processMove rest
           (Tree.mkLoop (Tree.currentNode l) (Tree.currentBoard l)
              (Tree.mkBState (Tree.store (Tree.shared l))
                 (Tree.errors (Tree.shared l) ++ [err]))))
  /\
  (forall (parentNode : Tree.NodeRef) (moves : list Tree.PgnMove)
          (board : Board.t) (s : Tree.BState),
     Forall (failsOn (Board.copy board)) moves ->
     Tree.buildMoveTree parentNode moves board s
     = Ret (Tree.mkBState (Tree.store s)
              (Tree.errors s ++ failuresOn (Board.copy board) moves))).
Proof.
  split.
  - intros info vs rest l e H.
    exists (Tree.parseFailure info (Tree.currentBoard l)).
    repeat split. rewrite forOf_cons, (processMove_failure info vs l e H). reflexivity.
  - intros p moves board [store errors] H. unfold Tree.buildMoveTree.
    rewrite (all_fail_run (Board.copy board) moves H). reflexivity.
Qed.

Lemma parse_failure_is_recorded_witness :
  exists err,
    Tree.message err = lit "Failed to parse move: e5" /\
    Tree.san err = Some (lit "e5") /\
    Tree.fen err = Board.fen startBoard /\
    Tree.forOf Tree.processMove
      [plainMove "e5" "e" "5" None []; plainMove "e4" "e" "4" None []] loopAtStart
    = Tree.forOf Tree.processMove [plainMove "e4" "e" "4" None []]
        (Tree.mkLoop 0%nat startBoard (Tree.mkBState [Tree.newGame] ([] ++ [err]))).
Proof.
  apply (proj1 parse_failure_is_recorded (plainInfo "e5" "e" "5" None) []
           [plainMove "e4" "e" "4" None []] loopAtStart
           (NoLegalMoveFor (lit "e5"))).
  vm_compute. reflexivity.
Defined.

(** *** Numbers as text *)

Lemma uint_digits (d : Decimal.uint) :
  Forall (fun c => isDigit c = true)
         (list_ascii_of_string (DecimalString.NilEmpty.string_of_uint d)).
Proof.
  induction d; simpl; constructor; try assumption; reflexivity.
Qed.

Lemma digits_pos (p : positive) :
  digits (Z.pos p)
  = list_ascii_of_string (DecimalString.NilEmpty.string_of_uint (Pos.to_uint p)).
Proof.
  unfold digits. simpl. unfold DecimalString.NilZero.string_of_uint.
  pose proof (DecimalPos.Unsigned.to_uint_nonnil p) as H.
  destruct (Pos.to_uint p); [contradiction|reflexivity..].
Qed.

Lemma digits_neg (p : positive) :
  digits (Z.neg p)
  = "-"%char :: list_ascii_of_string (DecimalString.NilEmpty.string_of_uint (Pos.to_uint p)).
Proof.
  unfold digits. simpl. unfold DecimalString.NilZero.string_of_uint.
  pose proof (DecimalPos.Unsigned.to_uint_nonnil p) as H.
  destruct (Pos.to_uint p); [contradiction|reflexivity..].
Qed.

(** A safe integer is written with all its digits. *)
Lemma toString_safe (z : Z) : isSafe z = true -> toString z = digits z.
Proof. intros H. unfold toString. rewrite H. reflexivity. Qed.

Lemma takeWhile_all {A} (p : A -> bool) (l : list A) :
  Forall (fun x => p x = true) l -> takeWhile p l = l.
Proof.
  induction 1 as [|x l Hx _ IH]; simpl; [reflexivity|]. rewrite Hx, IH. reflexivity.
Qed.

Lemma digit_not_space (c : ascii) : isDigit c = true -> isSpace c = false.
Proof.
  unfold isDigit, isSpace. intros H. apply andb_true_iff in H as [H1 H2].
  apply Z.leb_le in H1, H2.
  destruct (9 <=? code c) eqn:E1, (code c <=? 13) eqn:E2,
           (code c =? 32) eqn:E3, (code c =? 160) eqn:E4; simpl; try reflexivity;
    try apply Z.leb_le in E1; try apply Z.leb_le in E2;
    try apply Z.eqb_eq in E3; try apply Z.eqb_eq in E4; lia.
Qed.

(** The decimal digits of a positive number are read back by [decRun]. *)
Lemma decRun_digits (p : positive) :
  decRun (list_ascii_of_string (DecimalString.NilEmpty.string_of_uint (Pos.to_uint p)))
  = Some (Z.pos p).
Proof.
  unfold decRun. rewrite takeWhile_all by apply uint_digits.
  rewrite string_of_list_ascii_of_string.
  assert (H : DecimalString.NilZero.uint_of_string
                (DecimalString.NilEmpty.string_of_uint (Pos.to_uint p))
              = Some (Pos.to_uint p)).
  { pose proof (DecimalString.NilZero.usu (Pos.to_uint p)
                  (DecimalPos.Unsigned.to_uint_nonnil p)) as H.
    unfold DecimalString.NilZero.string_of_uint in H.
    destruct (Pos.to_uint p) eqn:E; [|exact H..].
    exfalso. exact (DecimalPos.Unsigned.to_uint_nonnil p E). }
  rewrite H. unfold Z.of_uint. rewrite DecimalPos.Unsigned.of_to. reflexivity.
Qed.

(** What [parseInt] does on a text that starts with a digit run. *)
Lemma parseInt_digits (s : jsstr) :
  Forall (fun c => isDigit c = true) s -> s <> [] ->
  parseInt s = match decRun s with Some m => Some (1 * roundDouble m) | None => None end /\
  parseInt ("-"%char :: s)
  = match decRun s with Some m => Some (-1 * roundDouble m) | None => None end.
Proof.
  intros H Hne. destruct s as [|c s]; [contradiction|].
  inversion H as [|? ? Hc Hs]; subst.
  assert (Hsp : isSpace c = false) by (apply digit_not_space, Hc).
  assert (Hcode : 48 <= code c <= 57).
  { unfold isDigit in Hc. apply andb_true_iff in Hc as [H1 H2].
    apply Z.leb_le in H1, H2. lia. }
  assert (Hhex : isHexPrefix (c :: s) = false).
  { unfold isHexPrefix. destruct s as [|x s]; [reflexivity|].
    inversion Hs as [|? ? Hx _]; subst.
    unfold isDigit in Hx. apply andb_true_iff in Hx as [H1 H2].
    apply Z.leb_le in H1, H2.
    destruct (code x =? 120) eqn:E1; [apply Z.eqb_eq in E1; lia|].
    destruct (code x =? 88) eqn:E2; [apply Z.eqb_eq in E2; lia|].
    simpl. apply andb_false_r. }
  split.
  - unfold parseInt. simpl dropWhile. rewrite Hsp.
    destruct (code c =? 45) eqn:E1; [apply Z.eqb_eq in E1; lia|].
    destruct (code c =? 43) eqn:E2; [apply Z.eqb_eq in E2; lia|].
    rewrite Hhex. reflexivity.
  - unfold parseInt. simpl dropWhile.
    change (isSpace "-"%char) with false. cbv iota.
    change (code "-"%char =? 45) with true. cbv iota.
    rewrite Hhex. reflexivity.
Qed.

Lemma uint_string_nonempty (p : positive) :
  list_ascii_of_string (DecimalString.NilEmpty.string_of_uint (Pos.to_uint p)) <> [].
Proof.
  pose proof (DecimalPos.Unsigned.to_uint_nonnil p) as H.
  destruct (Pos.to_uint p); [contradiction|simpl; discriminate..].
Qed.

(** A safe integer is a Number: reading it rounds nothing. *)
Lemma roundDouble_safe (z : Z) : isSafe z = true -> roundDouble (Z.abs z) = Z.abs z.
Proof. unfold isSafe, roundDouble. intros H. rewrite H. reflexivity. Qed.

Lemma parseInt_of_digits (z : Z) : isSafe z = true -> parseInt (digits z) = Some z.
Proof.
  intros S. pose proof (roundDouble_safe z S) as R.
  destruct z as [|p|p].
  - reflexivity.
  - rewrite digits_pos.
    rewrite (proj1 (parseInt_digits _ (uint_digits _) (uint_string_nonempty p))).
    rewrite decRun_digits. cbn [Z.abs] in R. rewrite R. reflexivity.
  - rewrite digits_neg.
    rewrite (proj2 (parseInt_digits _ (uint_digits _) (uint_string_nonempty p))).
    rewrite decRun_digits. cbn [Z.abs] in R. rewrite R. reflexivity.
Qed.

Lemma parseInt_toString (z : Z) : isSafe z = true -> parseInt (toString z) = Some z.
Proof. intros H. rewrite (toString_safe z H). apply parseInt_of_digits, H. Qed.

(** *** Splitting the fields *)

(** The text of a number holds digits, a sign, a point and the exponent
    mark: no white space and no slash. *)
Lemma digits_chars (P : ascii -> Prop) (z : Z) :
  (forall c, isDigit c = true -> P c) -> P "-"%char -> Forall P (digits z).
Proof.
  intros Hd Hm.
  assert (H : forall d, Forall P (list_ascii_of_string
                                    (DecimalString.NilEmpty.string_of_uint d))).
  { intros d. eapply Forall_impl; [|apply uint_digits]. exact Hd. }
  destruct z as [|p|p].
  - constructor; [apply Hd; reflexivity|constructor].
  - rewrite digits_pos. apply H.
  - rewrite digits_neg. constructor; [exact Hm|apply H].
Qed.

Lemma digits_nonempty (z : Z) : digits z <> [].
Proof.
  destruct z as [|p|p].
  - discriminate.
  - rewrite digits_pos. apply uint_string_nonempty.
  - rewrite digits_neg. discriminate.
Qed.

Lemma toString_chars (P : ascii -> Prop) (z : Z) :
  (forall c, isDigit c = true -> P c) ->
  P "-"%char -> P "."%char -> P "e"%char -> P "+"%char ->
  Forall P (toString z).
Proof.
  intros Hd Hm Hp He Hplus. unfold toString.
  destruct (isSafe z); [apply digits_chars; assumption|].
  apply Forall_app. split; [destruct (z <? 0); repeat constructor; exact Hm|].
  unfold numberText.
  destruct (shortest _ _ _) as [s e].
  pose proof (digits_chars P s Hd Hm) as Hs.
  destruct (_ <=? 21).
  - apply Forall_app. split; [exact Hs|].
    apply Forall_forall. intros c Hc. apply repeat_spec in Hc. subst c.
    apply Hd. reflexivity.
  - destruct (digits s) as [|d rest]; [constructor|].
    inversion Hs as [|? ? Pd Prest]; subst.
    apply Forall_app. split.
    + constructor; [exact Pd|]. destruct rest; [constructor|].
      constructor; [exact Hp|exact Prest].
    + apply Forall_app. split; [repeat constructor; assumption|].
      apply digits_chars; assumption.
Qed.

Lemma toString_spaceFree (z : Z) : spaceFree (toString z).
Proof.
  apply toString_chars; try reflexivity. apply digit_not_space.
Qed.

Lemma toString_nonempty (z : Z) : toString z <> [].
Proof.
  unfold toString. destruct (isSafe z); [apply digits_nonempty|].
  intros H. apply app_eq_nil in H as [_ H]. revert H. unfold numberText.
  destruct (shortest _ _ _) as [s e].
  pose proof (digits_nonempty s) as N.
  destruct (_ <=? 21).
  - intros H. apply app_eq_nil in H as [H _]. contradiction.
  - destruct (digits s) as [|d rest]; [contradiction|discriminate].
Qed.

Lemma split_ws_field (p rest cur : jsstr) (inrun : bool) :
  spaceFree p -> p <> [] ->
  split_ws_from (p ++ rest) cur inrun = split_ws_from rest (rev p ++ cur) false.
Proof.
  intros H. revert cur inrun. induction H as [|c p Hc Hp IH]; intros cur inrun Hne.
  - contradiction.
  - simpl. rewrite Hc. destruct p as [|c' p'].
    + reflexivity.
    + rewrite IH by discriminate. simpl. rewrite <- !app_assoc. reflexivity.
Qed.

Lemma split_ws_last (p cur : jsstr) (inrun : bool) :
  spaceFree p -> split_ws_from p cur inrun = [rev (rev p ++ cur)].
Proof.
  intros H. revert cur inrun. induction H as [|c p Hc Hp IH]; intros cur inrun.
  - reflexivity.
  - simpl. rewrite Hc, IH. simpl. rewrite <- app_assoc. reflexivity.
Qed.

(** Fields without white space, joined by single spaces, are recovered by
    [split(/\s+/)]. *)
Lemma split_ws_join (first : jsstr) (others : list jsstr) :
  spaceFree first -> first <> [] ->
  Forall (fun p => spaceFree p /\ p <> []) others ->
  split_ws (join (lit " ") (first :: others)) = first :: others.
Proof.
  unfold split_ws.
  assert (G : forall others first cur inrun,
             spaceFree first -> first <> [] ->
             Forall (fun p => spaceFree p /\ p <> []) others ->
             split_ws_from (join (lit " ") (first :: others)) cur inrun
             = rev (rev first ++ cur) :: others).
  { clear. induction others as [|p others IH]; intros first cur inrun Hf Hne Ho.
    - simpl. apply split_ws_last, Hf.
    - inversion Ho as [|? ? [Hp Hpne] Ho']; subst.
      change (join (lit " ") (first :: p :: others))
        with (first ++ lit " " ++ join (lit " ") (p :: others)).
      rewrite split_ws_field by assumption.
      change (lit " " ++ join (lit " ") (p :: others))
        with (" "%char :: join (lit " ") (p :: others)).
      assert (Hstep : forall r c0, split_ws_from (" "%char :: r) c0 false
                                   = rev c0 :: split_ws_from r [] true) by reflexivity.
      rewrite Hstep, (IH p [] true Hp Hpne Ho').
      rewrite app_nil_r, rev_involutive. reflexivity. }
  intros Hf Hne Ho. rewrite (G others first [] false Hf Hne Ho).
  rewrite app_nil_r, rev_involutive. reflexivity.
Qed.

Lemma split_on_field (sep : ascii) (p rest cur : jsstr) :
  Forall (fun c => Ascii.eqb c sep = false) p ->
  split_on sep (p ++ rest) cur = split_on sep rest (rev p ++ cur).
Proof.
  intros H. revert cur. induction H as [|c p Hc Hp IH]; intros cur.
  - reflexivity.
  - simpl. rewrite Hc, IH. rewrite <- app_assoc. reflexivity.
Qed.

(** Rows without a slash, joined by slashes, are recovered by [split('/')]. *)
Lemma split_join_slash (first : jsstr) (others : list jsstr) :
  slashFree first -> Forall slashFree others ->
  Js.split "/"%char (join (lit "/") (first :: others)) = first :: others.
Proof.
  unfold Js.split.
  assert (G : forall others first cur,
             slashFree first -> Forall slashFree others ->
             split_on "/"%char (join (lit "/") (first :: others)) cur
             = rev (rev first ++ cur) :: others).
  { clear. induction others as [|p others IH]; intros first cur Hf Ho.
    - simpl. rewrite <- (app_nil_r first) at 1.
      rewrite (split_on_field "/"%char first [] cur Hf). reflexivity.
    - inversion Ho as [|? ? Hp Ho']; subst.
      change (join (lit "/") (first :: p :: others))
        with (first ++ "/"%char :: join (lit "/") (p :: others)).
      rewrite (split_on_field "/"%char first _ cur Hf).
      assert (Hstep : forall r c0, split_on "/"%char ("/"%char :: r) c0
                                   = rev c0 :: split_on "/"%char r []) by reflexivity.
      rewrite Hstep, (IH p [] Hp Ho'). rewrite app_nil_r, rev_involutive. reflexivity. }
  intros Hf Ho. rewrite (G others first [] Hf Ho).
  rewrite app_nil_r, rev_involutive. reflexivity.
Qed.

(** *** Rows of the placement field *)

Lemma setRow_digit (rank e file : Z) (s : jsstr) (a : Board.PieceArray) :
  1 <= e <= 8 ->
  Board.setRow rank (toString e ++ s) file a = Board.setRow rank s (file + e) a.
Proof.
  intros H.
  assert (C : e = 1 \/ e = 2 \/ e = 3 \/ e = 4 \/ e = 5 \/ e = 6 \/ e = 7 \/ e = 8) by lia.
  destruct C as [->|[->|[->|[->|[->|[->|[->| ->]]]]]]]; reflexivity.
Qed.

Lemma setRow_symbol (rank file : Z) (p : Piece.t) (s : jsstr) (a : Board.PieceArray) :
  Board.setRow rank (Piece.symbol p ++ s) file a
  = Board.setRow rank s (file + 1)
      (Board.set a (squareFromFileRank file rank) (Board.Has p)).
Proof. destruct p as [[] []]; reflexivity. Qed.

Lemma setRow_fenRow (rank : Z) (slots : list Board.Slot) :
  forall (e i : Z) (a : Board.PieceArray),
    0 <= e -> e + len slots <= 8 ->
    Board.setRow rank (Board.fenRow slots e) (i - e) a
    = (None, writeSlots rank i slots a).
Proof.
  induction slots as [|slot rest IH]; intros e i a He Hlen.
  - simpl. unfold len in Hlen; simpl in Hlen.
    destruct (e >? 0) eqn:E; [|reflexivity].
    apply Z.gtb_lt in E. rewrite <- (app_nil_r (toString e)).
    rewrite setRow_digit by lia. reflexivity.
  - assert (Hrest : len rest = len (slot :: rest) - 1).
    { unfold len. simpl length. lia. }
    assert (Hnn : 0 <= len rest) by (unfold len; lia).
    assert (Hnext : forall e', e' = e + 1 ->
              Board.setRow rank (Board.fenRow rest e') (i - e) a
              = (None, writeSlots rank (i + 1) rest a)).
    { intros e' ->. replace (i - e) with (i + 1 - (e + 1)) by lia.
      apply IH; lia. }
    destruct slot as [| |p]; cbn [Board.fenRow writeSlots];
      try (apply Hnext; reflexivity).
    assert (Hsym : forall f, f = i ->
              Board.setRow rank (Piece.symbol p ++ Board.fenRow rest 0) f a
              = (None, writeSlots rank (i + 1) rest
                         (Board.set a (squareFromFileRank i rank) (Board.Has p)))).
    { intros f ->. rewrite setRow_symbol.
      replace (i + 1) with (i + 1 - 0) at 1 by lia. apply IH; lia. }
    destruct (e >? 0) eqn:E.
    + apply Z.gtb_lt in E. rewrite setRow_digit by lia.
      apply Hsym. lia.
    + rewrite Z.gtb_ltb in E. apply Z.ltb_ge in E. simpl app. apply Hsym. lia.
Qed.

Lemma range_succ (lo : Z) (n : nat) : range lo (S n) = lo :: range (lo + 1) n.
Proof.
  unfold range. simpl. f_equal; [lia|].
  rewrite <- seq_shift, map_map. apply map_ext. intros k. lia.
Qed.

(** The squares of the rank that hold a piece in [src] get that piece; every
    other square keeps what it had. *)
Lemma get_writeSlots (src : Board.PieceArray) (rank : Z) (n : nat) :
  forall (i : Z) (a : Board.PieceArray) (sq : Z),
    Board.get
      (writeSlots rank i
         (map (fun file => Board.get src (squareFromFileRank file rank)) (range i n)) a) sq
    = if (rank * 8 + i <=? sq) && (sq <? rank * 8 + i + Z.of_nat n)
         && Board.truthy (Board.get src sq)
      then Board.get src sq else Board.get a sq.
Proof.
  induction n as [|n IH]; intros i a sq.
  - simpl. destruct (rank * 8 + i <=? sq) eqn:E1, (sq <? rank * 8 + i + 0) eqn:E2;
      simpl; try reflexivity.
    apply Z.leb_le in E1. apply Z.ltb_lt in E2. lia.
  - rewrite range_succ. cbn [map]. unfold squareFromFileRank at 1.
    destruct (Z.eq_dec sq (rank * 8 + i)) as [->|Hne].
    + (* the square of the head slot *)
      assert (Hin : (rank * 8 + i <=? rank * 8 + i) = true) by (apply Z.leb_le; lia).
      assert (Hlt : (rank * 8 + i <? rank * 8 + i + Z.of_nat (S n)) = true)
        by (apply Z.ltb_lt; lia).
      assert (Hout : (rank * 8 + (i + 1) <=? rank * 8 + i) = false)
        by (apply Z.leb_gt; lia).
      rewrite Hin, Hlt. simpl andb.
      destruct (Board.get src (rank * 8 + i)) as [| |p] eqn:Es; simpl writeSlots;
        rewrite IH, Hout; simpl; try reflexivity.
      unfold squareFromFileRank. apply get_set_same.
    + assert (Hsame : ((rank * 8 + (i + 1) <=? sq)
                       && (sq <? rank * 8 + (i + 1) + Z.of_nat n))
                      = ((rank * 8 + i <=? sq) && (sq <? rank * 8 + i + Z.of_nat (S n)))).
      { destruct (rank * 8 + (i + 1) <=? sq) eqn:E1,
                 (sq <? rank * 8 + (i + 1) + Z.of_nat n) eqn:E2,
                 (rank * 8 + i <=? sq) eqn:E3,
                 (sq <? rank * 8 + i + Z.of_nat (S n)) eqn:E4; try reflexivity;
          try apply Z.leb_le in E1; try apply Z.leb_gt in E1;
          try apply Z.ltb_lt in E2; try apply Z.ltb_ge in E2;
          try apply Z.leb_le in E3; try apply Z.leb_gt in E3;
          try apply Z.ltb_lt in E4; try apply Z.ltb_ge in E4; lia. }
      destruct (Board.get src (rank * 8 + i)) as [| |p] eqn:Es; simpl writeSlots;
        rewrite IH, Hsame; try reflexivity.
      unfold squareFromFileRank. rewrite get_set_other by congruence. reflexivity.
Qed.

Lemma get_writeRank (src : Board.PieceArray) (rank : Z) (a : Board.PieceArray) (sq : Z) :
  Board.get (writeSlots rank 0 (Board.rankSlots src rank) a) sq
  = if (rank * 8 <=? sq) && (sq <? rank * 8 + 8) && Board.truthy (Board.get src sq)
    then Board.get src sq else Board.get a sq.
Proof.
  unfold Board.rankSlots. rewrite get_writeSlots.
  replace (rank * 8 + 0) with (rank * 8) by lia. reflexivity.
Qed.

Lemma setRow_rank (src : Board.PieceArray) (rank : Z) (a : Board.PieceArray) :
  Board.setRow rank (Board.fenRow (Board.rankSlots src rank) 0) 0 a
  = (None, writeSlots rank 0 (Board.rankSlots src rank) a).
Proof.
  change 0 with (0 - 0) at 2. apply setRow_fenRow; [lia|].
  unfold len, Board.rankSlots, range. rewrite !length_map, length_seq. lia.
Qed.

(** *** The fields *)

Lemma fieldOk_spec (s : jsstr) : fieldOk s = true -> spaceFree s /\ s <> [].
Proof.
  unfold fieldOk. intros H. apply andb_true_iff in H as [H1 H2]. split.
  - apply Forall_forall. rewrite forallb_forall in H1. intros c Hc.
    apply negb_true_iff, H1, Hc.
  - intros ->. discriminate H2.
Qed.

Lemma castling_field (rights : Z) :
  0 <= rights <= 15 ->
  (spaceFree (Board.fenCastling rights) /\ Board.fenCastling rights <> []) /\
  Board.parseCastling (Some (Board.fenCastling rights)) = rights.
Proof.
  intros H.
  assert (C : forallb castlingFieldOk (range 0 16) = true) by (vm_compute; reflexivity).
  pose proof (range_forallb castlingFieldOk 0 16 C rights) as Hc.
  unfold castlingFieldOk in Hc. specialize (Hc ltac:(simpl; lia)).
  apply andb_true_iff in Hc as [H1 H2].
  split; [apply fieldOk_spec, H1|apply Z.eqb_eq, H2].
Qed.

Lemma ep_field (ep : option Square) :
  match ep with Some sq => 0 <= sq < 64 | None => True end ->
  (spaceFree (Board.fenEp ep) /\ Board.fenEp ep <> []) /\
  Board.parseEp (Some (Board.fenEp ep)) = ep.
Proof.
  intros H.
  assert (Hc : epFieldOk ep = true).
  { destruct ep as [sq|]; [|reflexivity].
    assert (C : forallb (fun sq => epFieldOk (Some sq)) (range 0 64) = true)
      by (vm_compute; reflexivity).
    apply (range_forallb _ 0 64 C sq). simpl. lia. }
  unfold epFieldOk in Hc. apply andb_true_iff in Hc as [H1 H2].
  split; [apply fieldOk_spec, H1|].
  destruct (Board.parseEp (Some (Board.fenEp ep))) as [x|], ep as [y|];
    simpl in H2; try discriminate; [|reflexivity].
  apply Z.eqb_eq in H2. congruence.
Qed.

Lemma clock_field (z dflt : Z) :
  isSafe z = true ->
  Board.parseClock (Some (toString z)) dflt = if z =? 0 then dflt else z.
Proof.
  intros H. unfold Board.parseClock. rewrite (parseInt_toString z H).
  destruct z; reflexivity.
Qed.

Lemma digit_not_slash (c : ascii) : isDigit c = true -> Ascii.eqb c "/"%char = false.
Proof.
  intros H. destruct (Ascii.eqb c "/"%char) eqn:E; [|reflexivity].
  apply Ascii.eqb_eq in E. subst c. discriminate H.
Qed.

Lemma toString_slashFree (z : Z) : slashFree (toString z).
Proof.
  apply toString_chars; try reflexivity. apply digit_not_slash.
Qed.

Lemma symbol_free (p : Piece.t) : spaceFree (Piece.symbol p) /\ slashFree (Piece.symbol p).
Proof.
  assert (H : symbolOk p = true) by (destruct p as [[] []]; reflexivity).
  unfold symbolOk in H. rewrite forallb_forall in H.
  split; apply Forall_forall; intros c Hc; specialize (H c Hc);
    apply andb_true_iff in H as [H1 H2]; apply negb_true_iff; assumption.
Qed.

Lemma fenRow_free (slots : list Board.Slot) :
  forall e, spaceFree (Board.fenRow slots e) /\ slashFree (Board.fenRow slots e).
Proof.
  unfold spaceFree, slashFree.
  induction slots as [|slot rest IH]; intros e.
  - simpl. destruct (e >? 0); split; try constructor;
      [apply toString_spaceFree|apply toString_slashFree].
  - destruct slot as [| |p]; cbn [Board.fenRow]; try apply IH.
    destruct (symbol_free p) as [S1 S2]. destruct (IH 0) as [R1 R2].
    split; apply Forall_app; split; try (apply Forall_app; split; assumption);
      destruct (e >? 0); try constructor;
      [apply toString_spaceFree|apply toString_slashFree].
Qed.

Lemma join_Forall (P : ascii -> Prop) (sep : jsstr) (parts : list jsstr) :
  Forall P sep -> Forall (Forall P) parts -> Forall P (join sep parts).
Proof.
  intros Hs H. induction H as [|p parts Hp Hparts IH]; [constructor|].
  destruct parts as [|q parts]; [exact Hp|].
  change (join sep (p :: q :: parts)) with (p ++ sep ++ join sep (q :: parts)).
  apply Forall_app. split; [exact Hp|]. apply Forall_app. split; [exact Hs|exact IH].
Qed.

Lemma placement_field (b : Board.t) :
  spaceFree (Board.fenPlacement b) /\ Board.fenPlacement b <> [].
Proof.
  split.
  - unfold Board.fenPlacement. apply join_Forall; [repeat constructor|].
    apply Forall_forall. intros row Hrow. apply in_map_iff in Hrow as (rank & <- & _).
    apply fenRow_free.
  - unfold Board.fenPlacement, Board.RANKS_DOWN. cbn [map join].
    intros H. apply app_eq_nil in H as [_ H]. discriminate H.
Qed.

(** *** The placement *)

Lemma setRows_ranks (src : Board.PieceArray) (rows : list jsstr) (ranks : list Z) :
  (forall rank, In rank ranks ->
     show (at_ rows (7 - rank)) = Board.fenRow (Board.rankSlots src rank) 0) ->
  forall a, Board.setRows ranks rows a = (None, writeRanks src a ranks).
Proof.
  induction ranks as [|rank ranks IH]; intros H a; [reflexivity|].
  cbn [Board.setRows]. rewrite (H rank (or_introl eq_refl)), setRow_rank.
  apply IH. intros r Hr. apply H. right. exact Hr.
Qed.

Lemma get_fill (a : Board.PieceArray) (v : Board.Slot) (sq : Z) :
  0 <= sq -> Board.get a sq <> Board.Undefined -> Board.get (Board.fill a v) sq = v.
Proof.
  intros Hsq H. unfold Board.get, Board.fill in *; simpl.
  destruct (sq <? 0) eqn:E; [apply Z.ltb_lt in E; lia|].
  assert (Hlt : (Z.to_nat sq < length (Board.items a))%nat).
  { destruct (Nat.lt_ge_cases (Z.to_nat sq) (length (Board.items a))) as [L|G]; [exact L|].
    exfalso. apply H. apply nth_overflow. exact G. }
  revert Hlt. generalize (Z.to_nat sq). generalize (Board.items a).
  induction l as [|x l IH]; intros [|n] Hn; simpl in *; try lia; auto.
  apply IH. lia.
Qed.

Lemma get_writeRanks (src a : Board.PieceArray) (sq : Z) :
  0 <= sq < 64 ->
  Board.get a sq = Board.Null ->
  Board.get src sq <> Board.Undefined ->
  Board.get (writeRanks src a Board.RANKS_DOWN) sq = Board.get src sq.
Proof.
  intros Hsq Ha Hsrc. unfold writeRanks, Board.RANKS_DOWN. cbn [fold_left].
  rewrite !get_writeRank, Ha.
  destruct (Board.get src sq) as [| |p] eqn:Es; [contradiction| |].
  - simpl. rewrite !andb_false_r. reflexivity.
  - simpl Board.truthy. rewrite !andb_true_r.
    repeat match goal with
           | |- (if ?c then _ else _) = _ =>
               let E := fresh "E" in destruct c eqn:E; [reflexivity|]
           end.
    exfalso.
    repeat match goal with
           | E : (_ && _) = false |- _ =>
               apply andb_false_iff in E;
               rewrite Z.leb_gt, Z.ltb_ge in E
           end.
    lia.
Qed.

(** *** setFen(fen()) *)

Lemma fen_fields (b : Board.t) :
  inDataModel b ->
  split_ws (Board.fen b)
  = [Board.fenPlacement b;
     if Bool.eqb (Board.turn b) WHITE then lit "w" else lit "b";
     Board.fenCastling (Board.castlingRights b);
     Board.fenEp (Board.epSquare b);
     toString (Board.halfmoveClock b);
     toString (Board.fullmoveNumber b)].
Proof.
  intros (Hc & He & _). unfold Board.fen.
  destruct (placement_field b) as [P1 P2].
  apply split_ws_join; [exact P1|exact P2|].
  repeat constructor.
  - destruct (Bool.eqb (Board.turn b) WHITE); repeat constructor.
  - destruct (Bool.eqb (Board.turn b) WHITE); discriminate.
  - apply (castling_field _ Hc).
  - apply (castling_field _ Hc).
  - apply (ep_field _ He).
  - apply (ep_field _ He).
  - apply toString_spaceFree.
  - apply toString_nonempty.
  - apply toString_spaceFree.
  - apply toString_nonempty.
Qed.

Lemma fen_rows (b : Board.t) :
  Js.split "/"%char (Board.fenPlacement b)
  = map (fun rank => Board.fenRow (Board.rankSlots (Board.pieces b) rank) 0)
        Board.RANKS_DOWN.
Proof.
  unfold Board.fenPlacement, Board.RANKS_DOWN. cbn [map].
  apply split_join_slash; [apply fenRow_free|].
  repeat constructor; apply fenRow_free.
Qed.

(** C4 (as stated, refuted).  The constructor reads the halfmove clock
    10^21 from a FEN with one king of each colour and the fullmove number 1;
    the board lies in the ranges of the data model.  [fen()] writes that
    clock in exponent notation, as 1e+21, and [setFen] reads 1 back. *)
Lemma fen_round_trip_counterexample :
  Board.create (lit "4k3/8/8/8/8/8/8/4K3 w - - 1000000000000000000000 1")
  = Ret bigClockBoard /\
  inDataModel bigClockBoard /\
  Board.halfmoveClock bigClockBoard = 1000000000000000000000 /\
  Board.fullmoveNumber bigClockBoard = 1 /\
  Board.fen bigClockBoard = lit "4k3/8/8/8/8/8/8/4K3 w - - 1e+21 1" /\
  exists b',
    Board.setFen bigClockBoard (Board.fen bigClockBoard) = (Ret tt, b') /\
    Board.halfmoveClock b' = 1 /\
    Board.halfmoveClock b' <> Board.halfmoveClock bigClockBoard.
Proof.
  split; [vm_compute; reflexivity|].
  split.
  { split; [simpl; lia|]. split; [exact I|].
    intros sq Hsq.
    assert (C : forallb (fun sq => negb (Board.slot_eqb (Board.pieceAt bigClockBoard sq)
                                           Board.Undefined))
                        (range 0 64) = true) by (vm_compute; reflexivity).
    pose proof (range_forallb _ 0 64 C sq ltac:(simpl; lia)) as Hn.
    change (negb (Board.slot_eqb (Board.pieceAt bigClockBoard sq) Board.Undefined) = true)
      in Hn.
    intros Heq. rewrite Heq in Hn. discriminate Hn. }
  split; [reflexivity|].
  split; [reflexivity|].
  split; [vm_compute; reflexivity|].
  eexists. split; [vm_compute; reflexivity|].
  split; [reflexivity|]. simpl. discriminate.
Qed.

(** C4 (amended).  For every board whose fields lie in the ranges of the
    data model (a 4-bit castling mask, an en-passant square on the board if
    any, null or a piece on each of the 64 squares), whose halfmove clock and
    fullmove number are safe integers (of magnitude below 2^53) and whose
    fullmove number is not 0, [setFen(board.fen())] returns and leaves the
    side to move, the castling rights, the en-passant square, the halfmove
    clock, the fullmove number and the piece on every one of the 64 squares
    unchanged. *)
Theorem fen_round_trip (b : Board.t) :
  inDataModel b ->
  isSafe (Board.halfmoveClock b) = true ->
  isSafe (Board.fullmoveNumber b) = true ->
  Board.fullmoveNumber b <> 0 ->
  exists b',
    Board.setFen b (Board.fen b) = (Ret tt, b') /\
    Board.turn b' = Board.turn b /\
    Board.castlingRights b' = Board.castlingRights b /\
    Board.epSquare b' = Board.epSquare b /\
    Board.halfmoveClock b' = Board.halfmoveClock b /\
    Board.fullmoveNumber b' = Board.fullmoveNumber b /\
    forall sq, 0 <= sq < 64 -> Board.pieceAt b' sq = Board.pieceAt b sq.
Proof.
  intros Hdm Sh Sf Hf. pose proof Hdm as (Hc & He & Hp).
  unfold Board.setFen. rewrite (fen_fields b Hdm).
  set (P := Board.fenPlacement b).
  set (T := if Bool.eqb (Board.turn b) WHITE then lit "w" else lit "b").
  set (C := Board.fenCastling (Board.castlingRights b)).
  set (E := Board.fenEp (Board.epSquare b)).
  set (H := toString (Board.halfmoveClock b)).
  set (F := toString (Board.fullmoveNumber b)).
  change (at_ [P; T; C; E; H; F] 0) with (Some P).
  change (at_ [P; T; C; E; H; F] 1) with (Some T).
  change (at_ [P; T; C; E; H; F] 2) with (Some C).
  change (at_ [P; T; C; E; H; F] 3) with (Some E).
  change (at_ [P; T; C; E; H; F] 4) with (Some H).
  change (at_ [P; T; C; E; H; F] 5) with (Some F).
  change (show (Some P)) with P. unfold P. rewrite fen_rows.
  assert (Hlen : (len (map (fun rank =>
                    Board.fenRow (Board.rankSlots (Board.pieces b) rank) 0)
                    Board.RANKS_DOWN) =? 8) = true) by reflexivity.
  rewrite Hlen. cbn [negb Board.pieces].
  rewrite (setRows_ranks (Board.pieces b)).
  2:{ intros rank Hr. unfold Board.RANKS_DOWN in Hr. simpl in Hr.
      repeat (destruct Hr as [<-|Hr]; [reflexivity|]). destruct Hr. }
  eexists. split; [reflexivity|]. cbn
    [Board.turn Board.castlingRights Board.epSquare Board.halfmoveClock
     Board.fullmoveNumber Board.pieceAt Board.pieces].
  split; [|split; [|split; [|split; [|split]]]].
  - unfold T. destruct (Board.turn b); reflexivity.
  - apply (castling_field _ Hc).
  - apply (ep_field _ He).
  - unfold H. rewrite (clock_field _ _ Sh).
    destruct (Board.halfmoveClock b =? 0) eqn:E0; [|reflexivity].
    apply Z.eqb_eq in E0. congruence.
  - unfold F. rewrite (clock_field _ _ Sf).
    destruct (Board.fullmoveNumber b =? 0) eqn:E0; [|reflexivity].
    apply Z.eqb_eq in E0. contradiction.
  - intros sq Hsq. apply get_writeRanks; [exact Hsq| |apply Hp, Hsq].
    apply get_fill; [lia|apply Hp, Hsq].
Qed.

Lemma fen_round_trip_witness :
  exists b',
    Board.setFen epBoard (Board.fen epBoard) = (Ret tt, b') /\
    Board.turn b' = Board.turn epBoard /\
    Board.castlingRights b' = Board.castlingRights epBoard /\
    Board.epSquare b' = Board.epSquare epBoard /\
    Board.halfmoveClock b' = Board.halfmoveClock epBoard /\
    Board.fullmoveNumber b' = Board.fullmoveNumber epBoard /\
    forall sq, 0 <= sq < 64 -> Board.pieceAt b' sq = Board.pieceAt epBoard sq.
Proof.
  apply (fen_round_trip epBoard).
  - split; [simpl; lia|]. split; [simpl; lia|].
    intros sq Hsq.
    assert (C : forallb (fun sq => negb (Board.slot_eqb (Board.pieceAt epBoard sq)
                                           Board.Undefined))
                        (range 0 64) = true) by (vm_compute; reflexivity).
    pose proof (range_forallb _ 0 64 C sq ltac:(simpl; lia)) as Hn.
    change (negb (Board.slot_eqb (Board.pieceAt epBoard sq) Board.Undefined) = true) in Hn.
    intros Heq. rewrite Heq in Hn. discriminate Hn.
  - reflexivity.
  - reflexivity.
  - simpl. discriminate.
Defined.

(** *** The end of the game *)

(** X13.  Checkmate is check without a legal move and stalemate is no check
    without a legal move, so a position is never both; [isGameOver()] holds
    exactly when there is no legal move or the halfmove clock has reached
    100, whatever the material. *)
Theorem game_end_relations (b : Board.t) :
  (Board.isCheckmate b = true <-> Board.isCheck b = true /\ Board.legalMoves b = []) /\
  (Board.isStalemate b = true <-> Board.isCheck b = false /\ Board.legalMoves b = []) /\
  (Board.isGameOver b = true <-> Board.legalMoves b = [] \/ 100 <= Board.halfmoveClock b) /\
  (Board.isCheckmate b = true -> Board.isStalemate b = false) /\
  (Board.isCheckmate b = true \/ Board.isStalemate b = true -> Board.isGameOver b = true).
Proof.
  unfold Board.isCheckmate, Board.isStalemate, Board.isGameOver.
  assert (G : (Board.halfmoveClock b >=? 100) = true <-> 100 <= Board.halfmoveClock b).
  { rewrite Z.geb_le. tauto. }
  destruct (Board.isCheck b), (Board.legalMoves b) as [|x l]; simpl;
    (split; [|split; [|split; [|split]]]);
    try (split; [intros H; try discriminate H; auto|intros [H1 H2]; congruence]);
    try (split; [auto|reflexivity]);
    try reflexivity; try discriminate;
    try (intros [H|H]; [reflexivity|reflexivity]);
    try (intros [H|H]; discriminate H);
    try (rewrite G; split; [auto|intros [H|H]; [discriminate H|exact H]]).
Qed.

Lemma countMinors_spec (b : Board.t) (squares : list Square) (c : Board.Minors) :
  match Board.countMinors b squares c with
  | None => existsb (fun sq => isHeavy (Board.pieceAt b sq)) squares = true
  | Some c' =>
      existsb (fun sq => isHeavy (Board.pieceAt b sq)) squares = false /\
      totalMinors c'
      = totalMinors c + len (filter (fun sq => isMinor (Board.pieceAt b sq)) squares)
  end.
Proof.
  unfold Board.pieceAt.
  revert c; induction squares as [|sq rest IH]; intros c.
  - simpl. split; [reflexivity|]. unfold len; simpl. lia.
  - cbn [Board.countMinors existsb filter].
    destruct (Board.get (Board.pieces b) sq) as [| |piece] eqn:G.
    + simpl. apply IH.
    + simpl. apply IH.
    + destruct piece as [pt col]. cbn [isHeavy isMinor Piece.pieceType Piece.color].
      destruct pt; cbn [pt_eqb pt_code Z.eqb Pos.eqb orb];
        try reflexivity;
        match goal with
        | |- context [Board.countMinors b rest ?c1] =>
            specialize (IH c1);
            destruct (Board.countMinors b rest c1) as [c'|]; [|exact IH];
            destruct IH as [I1 I2]; split; [exact I1|];
            rewrite I2; unfold totalMinors, len; cbn [length];
            destruct col; simpl; lia
        end.
Qed.

(** X14.  [hasInsufficientMaterial()] holds exactly when no pawn, rook or
    queen stands on the 64 squares and at most one bishop or knight does: it
    never holds with two minor pieces on the board, whatever their colours
    and squares. *)
Theorem insufficient_material (b : Board.t) :
  Board.hasInsufficientMaterial b = true <->
  (forall sq, 0 <= sq < 64 -> isHeavy (Board.pieceAt b sq) = false) /\
  len (filter (fun sq => isMinor (Board.pieceAt b sq)) (range 0 64)) <= 1.
Proof.
  unfold Board.hasInsufficientMaterial.
  pose proof (countMinors_spec b (range 0 64) (Board.mkMinors 0 0 0 0)) as S.
  destruct (Board.countMinors b (range 0 64) (Board.mkMinors 0 0 0 0)) as [c|].
  - destruct S as [S1 S2]. change (totalMinors (Board.mkMinors 0 0 0 0)) with 0 in S2.
    fold (totalMinors c). rewrite S2, Z.add_0_l.
    set (n := len _) in *.
    assert (Hn : 0 <= n) by (unfold n, len; lia).
    assert (A : forall sq, 0 <= sq < 64 -> isHeavy (Board.pieceAt b sq) = false).
    { intros sq Hsq. apply not_true_is_false. intros E.
      assert (X : existsb (fun sq => isHeavy (Board.pieceAt b sq)) (range 0 64) = true).
      { apply existsb_exists. exists sq. split; [apply range_In; simpl; lia|exact E]. }
      congruence. }
    destruct (n =? 0) eqn:E0; [apply Z.eqb_eq in E0; split; [intros _; split; [exact A|lia]|reflexivity]|].
    destruct (n =? 1) eqn:E1; [apply Z.eqb_eq in E1; split; [intros _; split; [exact A|lia]|reflexivity]|].
    apply Z.eqb_neq in E0, E1. split; [discriminate|]. intros [_ H]. lia.
  - split; [discriminate|]. intros [A _]. exfalso.
    apply existsb_exists in S as [sq [Hin E]]. apply range_In_inv in Hin.
    rewrite A in E by (simpl in Hin; lia). discriminate.
Qed.

(** *** What the constructor accepts *)

Lemma set_nth_length (l : list Board.Slot) (n : nat) (v : Board.Slot) :
  (length l <= length (Board.set_nth l n v))%nat.
Proof.
  revert l; induction n as [|n IH]; intros [|x l]; simpl; try lia.
  specialize (IH l). lia.
Qed.

Lemma set_whole (a : Board.PieceArray) (i : Z) (v : Board.Slot) :
  0 <= i -> v <> Board.Undefined -> wholeArray a -> wholeArray (Board.set a i v).
Proof.
  intros Hi Hv (P & L & G). unfold wholeArray.
  assert (E : (i <? 0) = false) by (apply Z.ltb_ge; lia).
  split; [|split].
  - unfold Board.set. rewrite E. exact P.
  - unfold Board.set. rewrite E. simpl.
    pose proof (set_nth_length (Board.items a) (Z.to_nat i) v). lia.
  - intros sq Hsq. destruct (Z.eq_dec i sq) as [->|N].
    + rewrite get_set_same. exact Hv.
    + rewrite get_set_other by exact N. apply G, Hsq.
Qed.

Lemma digit_value (c : ascii) :
  (49 <=? code c) && (code c <=? 56) = true ->
  0 <= match parseInt [c] with Some n => n | None => 0 end.
Proof.
  pattern c. apply ascii_cases. intros k Hk.
  assert (C : forallb (fun k =>
            negb ((49 <=? code (chr k)) && (code (chr k) <=? 56))
            || (0 <=? match parseInt [chr k] with Some n => n | None => 0 end))
            (range 0 256) = true) by (vm_compute; reflexivity).
  pose proof (range_forallb _ 0 256 C k ltac:(lia)) as P. cbv beta in P.
  intros E. rewrite E in P. simpl in P. apply Z.leb_le in P. exact P.
Qed.

Lemma setRow_whole (rank : Z) (row : jsstr) :
  0 <= rank ->
  forall (file : Z) (a : Board.PieceArray),
    0 <= file -> wholeArray a -> wholeArray (snd (Board.setRow rank row file a)).
Proof.
  intros Hr. induction row as [|c row IH]; intros file a Hf Ha; [exact Ha|].
  cbn [Board.setRow]. destruct ((49 <=? code c) && (code c <=? 56)) eqn:D.
  - apply IH; [|exact Ha]. pose proof (digit_value c D). lia.
  - destruct (Piece.fromSymbol [c]) as [piece|e]; [|exact Ha].
    apply IH; [lia|]. apply set_whole; [|discriminate|exact Ha].
    unfold squareFromFileRank. lia.
Qed.

Lemma setRows_whole (rows : list jsstr) (ranks : list Z) :
  (forall rank, In rank ranks -> 0 <= rank) ->
  forall a, wholeArray a -> wholeArray (snd (Board.setRows ranks rows a)).
Proof.
  induction ranks as [|rank ranks IH]; intros Hr a Ha; [exact Ha|].
  cbn [Board.setRows].
  pose proof (setRow_whole rank (show (at_ rows (7 - rank))) (Hr rank (or_introl eq_refl))
                0 a ltac:(lia) Ha) as W.
  destruct (Board.setRow rank (show (at_ rows (7 - rank))) 0 a) as [[e|] a'];
    simpl in W; [exact W|].
  apply IH; [|exact W]. intros r Hin. apply Hr. right. exact Hin.
Qed.

Lemma fill_whole (a : Board.PieceArray) :
  Board.props a = [] -> (64 <= length (Board.items a))%nat ->
  wholeArray (Board.fill a Board.Null).
Proof.
  intros P L. split; [exact P|]. split; [simpl; rewrite length_map; exact L|].
  intros sq Hsq. unfold Board.get, Board.fill. simpl.
  destruct (sq <? 0) eqn:E; [apply Z.ltb_lt in E; lia|].
  assert (Hlt : (Z.to_nat sq < length (Board.items a))%nat) by lia.
  revert Hlt. generalize (Z.to_nat sq). generalize (Board.items a).
  induction l as [|x l IH]; intros [|n] Hn; simpl in *; try lia; try discriminate.
  apply IH. lia.
Qed.

Lemma castling_range (field : option jsstr) : 0 <= Board.parseCastling field <= 15.
Proof.
  unfold Board.parseCastling. destruct field as [s|]; [|lia].
  destruct (str_eqb s (lit "-")); [lia|].
  assert (G : forall r, 0 <= r <= 15 ->
            0 <= fold_left (fun rights c => bor rights (Board.castlingBit c)) s r <= 15).
  { induction s as [|c s IH]; intros r Hr; [exact Hr|].
    simpl. apply IH.
    assert (B : In (Board.castlingBit c) [1; 2; 4; 8; 0]).
    { unfold Board.castlingBit.
      repeat match goal with
             | |- context [if ?x then _ else _] => destruct x
             end; simpl; tauto. }
    assert (C : forallb (fun r => forallb (fun k => (0 <=? bor r k) && (bor r k <=? 15))
                                    [1; 2; 4; 8; 0]) (range 0 16) = true)
      by (vm_compute; reflexivity).
    pose proof (range_forallb _ 0 16 C r ltac:(lia)) as P. cbv beta in P.
    rewrite forallb_forall in P. specialize (P _ B).
    apply andb_true_iff in P as [P1 P2]. apply Z.leb_le in P1, P2. lia. }
  apply G. lia.
Qed.

Lemma clock_nonzero (field : option jsstr) : Board.parseClock field 1 <> 0.
Proof.
  unfold Board.parseClock. destruct field as [s|]; [|discriminate].
  destruct (parseInt s) as [[|p|p]|]; discriminate.
Qed.

Lemma create_whole (fen : jsstr) (b : Board.t) :
  Board.create fen = Ret b ->
  inDataModel b /\
  Board.fullmoveNumber b <> 0 /\
  Board.moveStack b = [] /\
  Board.props (Board.pieces b) = [].
Proof.
  unfold Board.create, Board.setFen.
  destruct (negb _); [discriminate|].
  pose proof (setRows_whole (Js.split "/" (show (at_ (split_ws fen) 0))) Board.RANKS_DOWN) as W.
  specialize (W ltac:(intros r Hr; unfold Board.RANKS_DOWN in Hr; simpl in Hr; lia)
                (Board.fill Board.empty64 Board.Null)
                (fill_whole Board.empty64 eq_refl ltac:(simpl; lia))).
  cbn [Board.pieces Board.fresh].
  destruct (Board.setRows _ _ _) as [[e|] a]; [discriminate|].
  intros H; injection H as <-. simpl in W. destruct W as (P & L & G).
  split; [|split; [apply clock_nonzero|split; [reflexivity|exact P]]].
  unfold inDataModel. cbn [Board.castlingRights Board.epSquare Board.pieceAt Board.pieces].
  split; [apply castling_range|]. split; [|exact G].
  destruct (Board.parseEp _) as [sq|] eqn:E; [|exact I].
  unfold Board.parseEp in E. destruct (at_ (split_ws fen) 3) as [s|]; [|discriminate].
  destruct (str_eqb s (lit "-")); [discriminate|].
  apply parseSquare_Some in E. tauto.
Qed.



(** *** Writing a position and reading it into any board *)

Lemma setFen_of_fen (b0 b : Board.t) :
  inDataModel b ->
  isSafe (Board.halfmoveClock b) = true ->
  isSafe (Board.fullmoveNumber b) = true ->
  Board.fullmoveNumber b <> 0 ->
  (forall sq, 0 <= sq < 64 -> Board.get (Board.pieces b0) sq <> Board.Undefined) ->
  exists b',
    Board.setFen b0 (Board.fen b) = (Ret tt, b') /\
    Board.turn b' = Board.turn b /\
    Board.castlingRights b' = Board.castlingRights b /\
    Board.epSquare b' = Board.epSquare b /\
    Board.halfmoveClock b' = Board.halfmoveClock b /\
    Board.fullmoveNumber b' = Board.fullmoveNumber b /\
    (forall sq, 0 <= sq < 64 -> Board.pieceAt b' sq = Board.pieceAt b sq) /\
    Board.moveStack b' = [].
Proof.
  intros Hdm Sh Sf Hf H0. pose proof Hdm as (Hc & He & Hp).
  unfold Board.setFen. rewrite (fen_fields b Hdm).
  set (P := Board.fenPlacement b).
  set (T := if Bool.eqb (Board.turn b) WHITE then lit "w" else lit "b").
  set (C := Board.fenCastling (Board.castlingRights b)).
  set (E := Board.fenEp (Board.epSquare b)).
  set (H := toString (Board.halfmoveClock b)).
  set (F := toString (Board.fullmoveNumber b)).
  change (at_ [P; T; C; E; H; F] 0) with (Some P).
  change (at_ [P; T; C; E; H; F] 1) with (Some T).
  change (at_ [P; T; C; E; H; F] 2) with (Some C).
  change (at_ [P; T; C; E; H; F] 3) with (Some E).
  change (at_ [P; T; C; E; H; F] 4) with (Some H).
  change (at_ [P; T; C; E; H; F] 5) with (Some F).
  change (show (Some P)) with P. unfold P. rewrite fen_rows.
  assert (Hlen : (len (map (fun rank =>
                    Board.fenRow (Board.rankSlots (Board.pieces b) rank) 0)
                    Board.RANKS_DOWN) =? 8) = true) by reflexivity.
  rewrite Hlen. cbn [negb Board.pieces].
  rewrite (setRows_ranks (Board.pieces b)).
  2:{ intros rank Hr. unfold Board.RANKS_DOWN in Hr. simpl in Hr.
      repeat (destruct Hr as [<-|Hr]; [reflexivity|]). destruct Hr. }
  eexists. split; [reflexivity|]. cbn
    [Board.turn Board.castlingRights Board.epSquare Board.halfmoveClock
     Board.fullmoveNumber Board.pieceAt Board.pieces Board.moveStack].
  split; [|split; [|split; [|split; [|split; [|split; [|reflexivity]]]]]].
  - unfold T. destruct (Board.turn b); reflexivity.
  - apply (castling_field _ Hc).
  - apply (ep_field _ He).
  - unfold H. rewrite (clock_field _ _ Sh).
    destruct (Board.halfmoveClock b =? 0) eqn:E0; [|reflexivity].
    apply Z.eqb_eq in E0. congruence.
  - unfold F. rewrite (clock_field _ _ Sf).
    destruct (Board.fullmoveNumber b =? 0) eqn:E0; [|reflexivity].
    apply Z.eqb_eq in E0. contradiction.
  - intros sq Hsq. apply get_writeRanks; [exact Hsq| |apply Hp, Hsq].
    apply get_fill; [lia|apply H0, Hsq].
Qed.

(** [fen()] reads the scalar fields and the 64 squares only. *)
Lemma fen_ext (b b' : Board.t) :
  Board.turn b' = Board.turn b ->
  Board.castlingRights b' = Board.castlingRights b ->
  Board.epSquare b' = Board.epSquare b ->
  Board.halfmoveClock b' = Board.halfmoveClock b ->
  Board.fullmoveNumber b' = Board.fullmoveNumber b ->
  (forall sq, 0 <= sq < 64 -> Board.pieceAt b' sq = Board.pieceAt b sq) ->
  Board.fen b' = Board.fen b.
Proof.
  intros T C E H F P. unfold Board.fen, Board.fenPlacement. rewrite T, C, E, H, F.
  assert (R : map (fun rank => Board.fenRow (Board.rankSlots (Board.pieces b') rank) 0)
                  Board.RANKS_DOWN
              = map (fun rank => Board.fenRow (Board.rankSlots (Board.pieces b) rank) 0)
                  Board.RANKS_DOWN).
  { apply map_ext_in. intros rank Hr. f_equal. unfold Board.rankSlots.
    apply map_ext_in. intros file Hfile. apply P.
    apply range_In_inv in Hfile. unfold Board.RANKS_DOWN in Hr. simpl in Hr, Hfile.
    unfold squareFromFileRank. lia. }
  rewrite R. reflexivity.
Qed.

Lemma create_reads_fen (b : Board.t) :
  inDataModel b ->
  isSafe (Board.halfmoveClock b) = true ->
  isSafe (Board.fullmoveNumber b) = true ->
  Board.fullmoveNumber b <> 0 ->
  exists b',
    Board.create (Board.fen b) = Ret b' /\
    Board.turn b' = Board.turn b /\
    Board.castlingRights b' = Board.castlingRights b /\
    Board.epSquare b' = Board.epSquare b /\
    Board.halfmoveClock b' = Board.halfmoveClock b /\
    Board.fullmoveNumber b' = Board.fullmoveNumber b /\
    (forall sq, 0 <= sq < 64 -> Board.pieceAt b' sq = Board.pieceAt b sq) /\
    Board.moveStack b' = [] /\
    Board.fen b' = Board.fen b.
Proof.
  intros Hdm Sh Sf Hf.
  destruct (setFen_of_fen Board.fresh b Hdm Sh Sf Hf) as [b' [S [T [C [E [H [F [P M]]]]]]]].
  { intros sq Hsq.
    assert (C : forallb (fun sq => negb (Board.slot_eqb (Board.get (Board.pieces Board.fresh) sq)
                                           Board.Undefined)) (range 0 64) = true)
      by (vm_compute; reflexivity).
    pose proof (range_forallb _ 0 64 C sq ltac:(simpl; lia)) as Hn. cbv beta in Hn.
    intros N. rewrite N in Hn. discriminate Hn. }
  exists b'. unfold Board.create. rewrite S.
  repeat split; auto. apply fen_ext; assumption.
Qed.

(** X16.  [new Board(board.fen())] returns for every board of the data
    model whose clocks are safe integers and whose fullmove number is not 0,
    and the new board shows the same
    turn, castling rights, en-passant square, clocks and pieces, has an empty
    move stack and writes the same FEN. *)
Theorem create_of_fen (b : Board.t) :
  inDataModel b ->
  isSafe (Board.halfmoveClock b) = true ->
  isSafe (Board.fullmoveNumber b) = true ->
  Board.fullmoveNumber b <> 0 ->
  exists b',
    Board.create (Board.fen b) = Ret b' /\
    Board.turn b' = Board.turn b /\
    Board.castlingRights b' = Board.castlingRights b /\
    Board.epSquare b' = Board.epSquare b /\
    Board.halfmoveClock b' = Board.halfmoveClock b /\
    Board.fullmoveNumber b' = Board.fullmoveNumber b /\
    (forall sq, 0 <= sq < 64 -> Board.pieceAt b' sq = Board.pieceAt b sq) /\
    Board.moveStack b' = [] /\
    Board.fen b' = Board.fen b.
Proof. apply create_reads_fen. Qed.

Lemma create_of_fen_witness :
  exists b',
    Board.create (Board.fen epBoard) = Ret b' /\
    Board.turn b' = Board.turn epBoard /\
    Board.castlingRights b' = Board.castlingRights epBoard /\
    Board.epSquare b' = Board.epSquare epBoard /\
    Board.halfmoveClock b' = Board.halfmoveClock epBoard /\
    Board.fullmoveNumber b' = Board.fullmoveNumber epBoard /\
    (forall sq, 0 <= sq < 64 -> Board.pieceAt b' sq = Board.pieceAt epBoard sq) /\
    Board.moveStack b' = [] /\
    Board.fen b' = Board.fen epBoard.
Proof.
  apply (create_of_fen epBoard).
  - apply (create_whole
             (lit "rnbqkbnr/1pp1pppp/p7/3pP3/8/8/PPPP1PPP/RNBQKBNR w KQkq d6 0 3")).
    vm_compute. reflexivity.
  - reflexivity.
  - reflexivity.
  - simpl. discriminate.
Defined.

(** X17.  The text [fen()] writes is a fixed point of the constructor: for
    every text the constructor accepts and reads clocks from that are safe
    integers, the FEN of the board it returns is accepted again and gives a
    board that writes the same FEN. *)
Theorem fen_is_fixed_point (fen : jsstr) (b : Board.t) :
  Board.create fen = Ret b ->
  isSafe (Board.halfmoveClock b) = true ->
  isSafe (Board.fullmoveNumber b) = true ->
  exists b', Board.create (Board.fen b) = Ret b' /\ Board.fen b' = Board.fen b.
Proof.
  intros H Sh Sf. apply create_whole in H as (Hdm & Hf & _).
  destruct (create_reads_fen b Hdm Sh Sf Hf) as [b' [C R]].
  exists b'. split; [exact C|]. apply R.
Qed.

Lemma fen_is_fixed_point_witness :
  exists b',
    Board.create (Board.fen twoKnightsBoard) = Ret b' /\
    Board.fen b' = Board.fen twoKnightsBoard.
Proof.
  apply (fen_is_fixed_point (lit "4k3/8/8/8/8/8/8/1N2KN2 w - - 0 1")).
  - vm_compute. reflexivity.
  - reflexivity.
  - reflexivity.
Defined.

(** X18.  [reset()] returns on every board whose 64 squares are defined,
    whatever it held before: afterwards [fen()] is the standard starting
    position and the move stack is empty. *)
Theorem reset_gives_start (b0 : Board.t) :
  (forall sq, 0 <= sq < 64 -> Board.pieceAt b0 sq <> Board.Undefined) ->
  exists b',
    Board.reset b0 = (Ret tt, b') /\
    Board.fen b' = STARTING_FEN /\
    Board.moveStack b' = [].
Proof.
  intros H0.
  assert (Hdm : inDataModel startBoard).
  { apply (create_whole STARTING_FEN). vm_compute. reflexivity. }
  destruct (setFen_of_fen b0 startBoard Hdm eq_refl eq_refl ltac:(simpl; discriminate) H0)
    as [b' [S [T [C [E [H [F [P M]]]]]]]].
  assert (Fs : Board.fen startBoard = STARTING_FEN) by (vm_compute; reflexivity).
  exists b'. unfold Board.reset. rewrite <- Fs at 1. rewrite S.
  split; [reflexivity|]. split; [|exact M].
  rewrite <- Fs. apply fen_ext; assumption.
Qed.

Lemma reset_gives_start_witness :
  exists b',
    Board.reset epBoard = (Ret tt, b') /\
    Board.fen b' = STARTING_FEN /\
    Board.moveStack b' = [].
Proof.
  apply (reset_gives_start epBoard).
  intros sq Hsq.
  assert (C : forallb (fun sq => negb (Board.slot_eqb (Board.pieceAt epBoard sq)
                                         Board.Undefined))
                      (range 0 64) = true) by (vm_compute; reflexivity).
  pose proof (range_forallb _ 0 64 C sq ltac:(simpl; lia)) as Hn. cbv beta in Hn.
  intros N. rewrite N in Hn. discriminate Hn.
Defined.

(** *** SAN written and read back *)

Lemma find_unique {A} (p : A -> bool) (l : list A) (m : A) :
  In m l -> p m = true -> (forall x, In x l -> p x = true -> x = m) ->
  find p l = Some m.
Proof.
  induction l as [|y l IH]; simpl; [intros []|].
  intros Hin Hm Hu. destruct (p y) eqn:E.
  - f_equal. apply Hu; auto.
  - destruct Hin as [->|Hin]; [congruence|].
    apply IH; auto.
Qed.

Lemma opt_eqb_Z (a b : option Z) : Move.opt_eqb Z.eqb a b = true -> a = b.
Proof.
  destruct a, b; simpl; try discriminate; try reflexivity.
  intros H. apply Z.eqb_eq in H. congruence.
Qed.

Lemma opt_eqb_pt (a b : option PieceType) : Move.opt_eqb pt_eqb a b = true -> a = b.
Proof.
  destruct a, b; simpl; try discriminate; try reflexivity.
  intros H. apply pt_eqb_eq in H. congruence.
Qed.

Lemma readsAs_spec (body : jsstr) (q : Board.SanQuery) :
  readsAs body q = true ->
  (forall mark, In mark [[]; lit "+"; lit "#"] ->
     Board.cleanSan (body ++ mark) = body /\ isSpecialSan (body ++ mark) = false) /\
  Board.readSan body = Some q.
Proof.
  unfold readsAs. rewrite !andb_true_iff. intros [[[[C S] L] N] Q].
  assert (C' : forall mark, In mark [[]; lit "+"; lit "#"] ->
               Board.cleanSan (body ++ mark) = body).
  { intros mark Hm. rewrite forallb_forall in C. apply str_eqb_eq, C, Hm. }
  split.
  - intros mark Hm. split; [apply C', Hm|].
    unfold isSpecialSan. rewrite (C' mark Hm).
    apply negb_true_iff in S, L, N. rewrite S, L, N. reflexivity.
  - unfold query_eqb in Q. destruct (Board.readSan body) as [x|]; [|discriminate].
    rewrite !andb_true_iff in Q. destruct Q as [[[[Q1 Q2] Q3] Q4] Q5].
    apply pt_eqb_eq in Q1. apply Z.eqb_eq in Q2.
    apply opt_eqb_pt in Q3. apply opt_eqb_Z in Q4, Q5.
    destruct x, q; simpl in *; congruence.
Qed.

Lemma optional_coord (use : bool) (c : Z) :
  0 <= c <= 7 -> In (if use then Some c else None) OPTIONAL_COORDS.
Proof.
  intros H. unfold OPTIONAL_COORDS. destruct use; [right|left; reflexivity].
  apply in_map, range_In. simpl. lia.
Qed.

Lemma piece_text_reads (t : PieceType) (df dr : option Z) (cap : bool) (to : Z) :
  t <> PAWN -> In df OPTIONAL_COORDS -> In dr OPTIONAL_COORDS -> 0 <= to < 64 ->
  readsAs (pieceBody t df dr cap to) (Board.mkQuery t to None df dr) = true.
Proof.
  intros Ht Hf Hr Hto.
  assert (C : forallb (fun t => forallb (fun df => forallb (fun dr => forallb (fun cap =>
              forallb (fun to =>
                readsAs (pieceBody t df dr cap to) (Board.mkQuery t to None df dr))
                (range 0 64)) [false; true]) OPTIONAL_COORDS) OPTIONAL_COORDS)
              [KNIGHT; BISHOP; ROOK; QUEEN; KING] = true) by (vm_compute; reflexivity).
  rewrite forallb_forall in C.
  assert (Hin : In t [KNIGHT; BISHOP; ROOK; QUEEN; KING])
    by (destruct t; simpl; tauto).
  specialize (C t Hin). rewrite forallb_forall in C. specialize (C df Hf).
  rewrite forallb_forall in C. specialize (C dr Hr).
  rewrite forallb_forall in C. specialize (C cap ltac:(destruct cap; simpl; tauto)).
  apply (range_forallb _ 0 64 C to). simpl. lia.
Qed.

Lemma pawn_text_reads (capFile : option Z) (to : Z) (promotion : option PieceType) :
  In capFile OPTIONAL_COORDS -> 0 <= to < 64 ->
  match promotion with Some p => p <> PAWN /\ p <> KING | None => True end ->
  readsAs (pawnBody capFile to promotion) (Board.mkQuery PAWN to promotion capFile None) = true.
Proof.
  intros Hf Hto Hp.
  assert (C : forallb (fun capFile => forallb (fun promotion => forallb (fun to =>
                readsAs (pawnBody capFile to promotion)
                        (Board.mkQuery PAWN to promotion capFile None))
                (range 0 64)) [None; Some KNIGHT; Some BISHOP; Some ROOK; Some QUEEN])
              OPTIONAL_COORDS = true) by (vm_compute; reflexivity).
  rewrite forallb_forall in C. specialize (C capFile Hf).
  rewrite forallb_forall in C.
  assert (Hin : In promotion [None; Some KNIGHT; Some BISHOP; Some ROOK; Some QUEEN]).
  { destruct promotion as [[]|]; simpl; tauto. }
  specialize (C promotion Hin).
  apply (range_forallb _ 0 64 C to). simpl. lia.
Qed.


Lemma pawn_cases (b : Board.t) (fromSq : Square) (color : Color) (m : Move.t) :
  In m (Board.generatePawnMoves b fromSq color) ->
  Move.fromSquare m = fromSq /\
  ((Move.toSquare m
    = squareFromFileRank (squareFile fromSq) (squareRank fromSq + pawnStep color) /\
    Board.isNull (Board.get (Board.pieces b) (Move.toSquare m)) = true)
   \/
   (Move.toSquare m
    = squareFromFileRank (squareFile fromSq) (squareRank fromSq + 2 * pawnStep color) /\
    Board.isNull (Board.get (Board.pieces b)
      (squareFromFileRank (squareFile fromSq) (squareRank fromSq + pawnStep color))) = true /\
    Board.isNull (Board.get (Board.pieces b) (Move.toSquare m)) = true)
   \/
   (exists df, (df = -1 \/ df = 1) /\ 0 <= squareFile fromSq + df <= 7 /\
      Move.toSquare m
      = squareFromFileRank (squareFile fromSq + df) (squareRank fromSq + pawnStep color) /\
      (Board.enemy (Board.get (Board.pieces b) (Move.toSquare m)) color = true
       \/ Board.ep_is b (Move.toSquare m) = true))).
Proof.
  intros H. unfold Board.generatePawnMoves in H. fold (pawnStep color) in H.
  set (file := squareFile fromSq) in *. set (rank := squareRank fromSq) in *.
  set (dir := pawnStep color) in *.
  apply in_app_or in H. destruct H as [H|H].
  - destruct (Board.isNull (Board.get (Board.pieces b) (squareFromFileRank file (rank + dir))))
      eqn:N; [|destruct H].
    destruct (rank + dir =? _) eqn:P.
    + apply promotions_inv in H as [H1 [H2 _]].
      split; [exact H1|]. left. rewrite H2. auto.
    + destruct H as [<-|H]; [split; [reflexivity|left; auto]|].
      destruct (rank =? _) eqn:S1; [|destruct H].
      destruct (Board.isNull (Board.get (Board.pieces b)
                  (squareFromFileRank file (rank + 2 * dir)))) eqn:N2; [|destruct H].
      destruct H as [<-|[]]. split; [reflexivity|]. right. left. auto.
  - apply in_flat_map in H as [df [Hdf H]].
    destruct ((file + df <? 0) || (file + df >? 7)) eqn:O; [destruct H|].
    apply orb_false_iff in O as [O1 O2]. apply Z.ltb_ge in O1.
    rewrite Z.gtb_ltb in O2. apply Z.ltb_ge in O2.
    destruct (Board.enemy _ color || Board.ep_is b _) eqn:C; [|destruct H].
    apply orb_true_iff in C.
    assert (D : df = -1 \/ df = 1) by (simpl in Hdf; intuition lia).
    destruct (rank + dir =? _) eqn:P.
    + apply promotions_inv in H as [H1 [H2 _]].
      split; [exact H1|]. right. right. exists df. rewrite H2. repeat split; auto; lia.
    + destruct H as [<-|[]]. split; [reflexivity|]. right. right. exists df.
      simpl. repeat split; auto; lia.
Qed.

Lemma king_cases (b : Board.t) (fromSq : Square) (color : Color) (m : Move.t) :
  0 <= fromSq < 64 ->
  In m (Board.generateKingMoves b fromSq color) ->
  -1 <= squareFile (Move.toSquare m) - squareFile (Move.fromSquare m) <= 1
  \/ (color = WHITE /\ (m = Move.mk E1 G1 None None \/ m = Move.mk E1 C1 None None))
  \/ (color = BLACK /\ (m = Move.mk E8 G8 None None \/ m = Move.mk E8 C8 None None)).
Proof.
  intros Hsq H. unfold Board.generateKingMoves in H. apply in_app_or in H as [H|H].
  { left. unfold Board.generateStepMoves in H. apply in_flat_map in H as [d [Hd H]].
    destruct (Board.offBoard _ _) eqn:O; [destruct H|].
    destruct (Board.emptyOrEnemy _ color); [|destruct H]. destruct H as [<-|[]].
    unfold Board.offBoard in O; rewrite !orb_false_iff in O;
      destruct O as [[[O1 O2] O3] O4];
      rewrite Z.gtb_ltb in O2, O4; apply Z.ltb_ge in O1, O2, O3, O4.
    cbn [Move.fromSquare Move.toSquare].
    destruct (coords_square (squareFile fromSq + fst d) (squareRank fromSq + snd d))
      as [-> _]; [lia|lia|].
    unfold Board.KING_MOVES in Hd. simpl in Hd.
    repeat (destruct Hd as [<-|Hd]; [simpl; lia|]). destruct Hd. }
  right.
  destruct (Bool.eqb color WHITE && (fromSq =? E1)) eqn:W.
  - left. apply andb_true_iff in W as [W _]. apply eqb_prop in W. split; [exact W|].
    apply in_app_or in H as [H|H];
      (destruct (Board.hasRight _ _ && forallb _ _); [|destruct H]);
      (destruct (negb _ && negb _); [|destruct H]); destruct H as [<-|[]]; auto.
  - destruct (Bool.eqb color BLACK && (fromSq =? E8)) eqn:B; [|destruct H].
    right. apply andb_true_iff in B as [B _]. apply eqb_prop in B. split; [exact B|].
    apply in_app_or in H as [H|H];
      (destruct (Board.hasRight _ _ && forallb _ _); [|destruct H]);
      (destruct (negb _ && negb _); [|destruct H]); destruct H as [<-|[]]; auto.
Qed.

Lemma checkMark_cases (boardCopy : Board.t) :
  In (Board.checkMark boardCopy) [[]; lit "+"; lit "#"].
Proof.
  unfold Board.checkMark. destruct (Board.isCheck boardCopy); [|simpl; tauto].
  destruct (Board.isCheckmate boardCopy); simpl; tauto.
Qed.

(** The text [sanBody] writes for a piece and for a pawn. *)
Lemma sanBody_piece (b : Board.t) (piece : Piece.t) (m : Move.t) :
  Piece.pieceType piece <> PAWN -> Move.promotion m = None ->
  Board.sanBody b piece m
  = pieceBody (Piece.pieceType piece)
      (if fst (Board.needFlags b piece m) then Some (squareFile (Move.fromSquare m)) else None)
      (if snd (Board.needFlags b piece m) then Some (squareRank (Move.fromSquare m)) else None)
      (negb (Board.isNull (Board.get (Board.pieces b) (Move.toSquare m))))
      (Move.toSquare m).
Proof.
  intros Ht Hp. unfold Board.sanBody, Board.disambiguation, Board.captureMark,
    Board.promotionMark, pieceBody, Board.fileName, Board.rankName, fileText, rankText.
  rewrite Hp. destruct (Board.needFlags b piece m) as [nf nr]. cbn [fst snd].
  destruct (Piece.pieceType piece); try contradiction;
    cbn [pt_eqb pt_code Z.eqb Pos.eqb negb andb orb];
    rewrite orb_false_r, app_nil_r;
    destruct nf, nr, (Board.isNull _); reflexivity.
Qed.

Lemma sanBody_pawn (b : Board.t) (piece : Piece.t) (m : Move.t) :
  Piece.pieceType piece = PAWN ->
  Board.sanBody b piece m
  = pawnBody (if pawnCaptures b m then Some (squareFile (Move.fromSquare m)) else None)
             (Move.toSquare m) (Move.promotion m).
Proof.
  intros Ht. unfold Board.sanBody, Board.disambiguation, Board.captureMark,
    Board.promotionMark, pawnBody, Board.fileName, pawnCaptures.
  rewrite Ht. cbn [pt_eqb pt_code Z.eqb Pos.eqb negb andb].
  destruct (negb _ || Board.ep_is b _); reflexivity.
Qed.

Lemma square_of_coords (a c : Square) :
  0 <= a < 64 -> 0 <= c < 64 ->
  squareFile a = squareFile c -> squareRank a = squareRank c -> a = c.
Proof.
  intros Ha Hc Hf Hr.
  destruct (square_coords a Ha) as [_ [_ <-]]. destruct (square_coords c Hc) as [_ [_ <-]].
  rewrite Hf, Hr. reflexivity.
Qed.

Lemma move_eq (x m : Move.t) :
  Move.fromSquare x = Move.fromSquare m -> Move.toSquare x = Move.toSquare m ->
  Move.promotion x = Move.promotion m -> Move.drop x = Move.drop m -> x = m.
Proof. destruct x, m; simpl; congruence. Qed.

Lemma optZ_matches_use (use : bool) (c have : Z) :
  Board.optZ_matches (if use then Some c else None) have = true -> use = true -> have = c.
Proof. intros H ->. simpl in H. apply Z.eqb_eq, H. Qed.

Lemma optZ_matches_self (use : bool) (c : Z) :
  Board.optZ_matches (if use then Some c else None) c = true.
Proof. destruct use; simpl; [apply Z.eqb_refl|reflexivity]. Qed.

(** The text of a legal move of a piece other than a pawn is read back as
    that move. *)
Lemma piece_round_trip (b boardCopy : Board.t) (m : Move.t) (piece : Piece.t) :
  In m (Board.legalMoves b) ->
  Board.get (Board.pieces b) (Move.fromSquare m) = Board.Has piece ->
  Piece.pieceType piece <> PAWN ->
  Board.parseSan b (Board.sanBody b piece m ++ Board.checkMark boardCopy) = Ret m.
Proof.
  intros Hin Hget Ht.
  destruct (pseudo_move b m (legal_pseudo b m Hin))
    as [Hfrom [Hdrop [_ [piece' [Hp [_ [_ Hnp]]]]]]].
  unfold Board.pieceAt in Hp. rewrite Hget in Hp. injection Hp as <-.
  destruct (Hnp Ht) as [Hprom Hto].
  destruct (square_coords _ Hfrom) as [Hf [Hr _]].
  rewrite (sanBody_piece b piece m Ht Hprom).
  set (nf := fst (Board.needFlags b piece m)).
  set (nr := snd (Board.needFlags b piece m)).
  set (df := if nf then Some (squareFile (Move.fromSquare m)) else None).
  set (dr := if nr then Some (squareRank (Move.fromSquare m)) else None).
  set (cap := negb _).
  destruct (readsAs_spec _ _
              (piece_text_reads (Piece.pieceType piece) df dr cap (Move.toSquare m) Ht
                 (optional_coord nf _ Hf) (optional_coord nr _ Hr) Hto)) as [C R].
  destruct (C _ (checkMark_cases boardCopy)) as [C1 C2].
  rewrite (parseSan_ordinary b _ C2), C1, R.
  rewrite (find_unique _ _ m Hin); [reflexivity| |].
  - unfold Board.sanMatches. rewrite Hget. cbn [Board.q_pieceType Board.q_toSquare
      Board.q_promotion Board.q_disambigFile Board.q_disambigRank].
    rewrite pt_eqb_refl, Z.eqb_refl, Hprom. unfold df, dr.
    rewrite !optZ_matches_self. reflexivity.
  - intros x Hx Mx. unfold Board.sanMatches in Mx.
    destruct (Board.get (Board.pieces b) (Move.fromSquare x)) as [| |xp] eqn:Gx;
      try discriminate.
    cbn [Board.q_pieceType Board.q_toSquare Board.q_promotion Board.q_disambigFile
         Board.q_disambigRank] in Mx.
    rewrite !andb_true_iff in Mx. destruct Mx as [[[[M1 M2] M3] M4] M5].
    apply Z.eqb_eq in M2. apply opt_eqb_pt in M3.
    destruct (pseudo_move b x (legal_pseudo b x Hx)) as [Hxfrom [Hxdrop _]].
    destruct (Z.eq_dec (Move.fromSquare x) (Move.fromSquare m)) as [E|N].
    { apply move_eq; congruence. }
    exfalso.
    assert (Cf : Conflict b piece m x).
    { split; [exact Hx|]. unfold Board.conflicts. rewrite Gx, M1.
      apply Z.eqb_eq in M2. rewrite M2. apply Z.eqb_neq in N. rewrite N. reflexivity. }
    destruct (needFlags_spec b piece m) as [F1 F2].
    destruct (Z.eq_dec (squareFile (Move.fromSquare x)) (squareFile (Move.fromSquare m)))
      as [Ef|Nf].
    + assert (Hnr : nr = true) by (apply F2; exists x; split; [exact Cf|exact Ef]).
      apply N. apply square_of_coords; auto.
      apply (optZ_matches_use nr _ _ M5 Hnr).
    + assert (Hnf : nf = true) by (apply F1; exists x; split; [exact Cf|exact Nf]).
      apply Nf. apply (optZ_matches_use nf _ _ M4 Hnf).
Qed.

Lemma null_not_enemy (s : Board.Slot) (color : Color) :
  Board.isNull s = true -> Board.enemy s color = false.
Proof. destruct s; simpl; congruence. Qed.

Lemma enemy_not_null (s : Board.Slot) (color : Color) :
  Board.enemy s color = true -> Board.isNull s = false.
Proof. destruct s; simpl; congruence. Qed.

(** Two pawn moves of the side to move that the notation cannot tell apart
    start on the same square. *)
Lemma pawn_same_origin (b : Board.t) (m x : Move.t) (piece xp : Piece.t) :
  0 <= Move.fromSquare m < 64 -> 0 <= Move.fromSquare x < 64 ->
  Board.get (Board.pieces b) (Move.fromSquare m) = Board.Has piece ->
  Board.get (Board.pieces b) (Move.fromSquare x) = Board.Has xp ->
  In m (Board.generatePawnMoves b (Move.fromSquare m) (Board.turn b)) ->
  In x (Board.generatePawnMoves b (Move.fromSquare x) (Board.turn b)) ->
  Move.toSquare x = Move.toSquare m ->
  (pawnCaptures b m = true ->
   squareFile (Move.fromSquare x) = squareFile (Move.fromSquare m)) ->
  Move.fromSquare x = Move.fromSquare m.
Proof.
  intros Hm Hx Gm Gx Im Ix Et Hfile.
  destruct (square_coords _ Hm) as [Fm [Rm Sm]].
  destruct (square_coords _ Hx) as [Fx [Rx Sx]].
  apply pawn_cases in Im as [_ Im]. apply pawn_cases in Ix as [_ Ix].
  rewrite Et in Ix.
  set (T := Move.toSquare m) in *.
  set (fm := squareFile (Move.fromSquare m)) in *.
  set (rm := squareRank (Move.fromSquare m)) in *.
  set (fx := squareFile (Move.fromSquare x)) in *.
  set (rx := squareRank (Move.fromSquare x)) in *.
  set (d := pawnStep (Board.turn b)) in *.
  assert (Hd : d = 1 \/ d = -1) by (unfold d, pawnStep; destruct (Bool.eqb _ _); auto).
  unfold pawnCaptures in Hfile. fold T in Hfile.
  unfold squareFromFileRank in *.
  assert (Fin : fx = fm -> rx = rm -> Move.fromSquare x = Move.fromSquare m).
  { intros E1 E2. rewrite <- Sm, <- Sx, E1, E2. reflexivity. }
  destruct Im as [[Tm Nm]|[[Tm [Mm Nm]]|[dfm [Dm [Bm [Tm Cm]]]]]];
    destruct Ix as [[Tx Nx]|[[Tx [Mx Nx]]|[dfx [Dx [Bx [Tx Cx]]]]]].
  - apply Fin; lia.
  - exfalso. assert (E : (rx + d) * 8 + fx = Move.fromSquare m) by lia.
    rewrite E, Gm in Mx. discriminate.
  - exfalso. destruct Cx as [Cx|Cx]; [rewrite (null_not_enemy _ _ Nm) in Cx; discriminate|].
    rewrite Cx, orb_true_r in Hfile. specialize (Hfile eq_refl). lia.
  - exfalso. assert (E : (rm + d) * 8 + fm = Move.fromSquare x) by lia.
    rewrite E, Gx in Mm. discriminate.
  - apply Fin; lia.
  - exfalso. destruct Cx as [Cx|Cx]; [rewrite (null_not_enemy _ _ Nm) in Cx; discriminate|].
    rewrite Cx, orb_true_r in Hfile. specialize (Hfile eq_refl). lia.
  - exfalso.
    assert (P : fx = fm).
    { apply Hfile. destruct Cm as [Cm|Cm];
        [rewrite (enemy_not_null _ _ Cm); reflexivity|rewrite Cm; apply orb_true_r]. }
    lia.
  - exfalso.
    assert (P : fx = fm).
    { apply Hfile. destruct Cm as [Cm|Cm];
        [rewrite (enemy_not_null _ _ Cm); reflexivity|rewrite Cm; apply orb_true_r]. }
    lia.
  - assert (P : fx = fm).
    { apply Hfile. destruct Cm as [Cm|Cm];
        [rewrite (enemy_not_null _ _ Cm); reflexivity|rewrite Cm; apply orb_true_r]. }
    apply Fin; lia.
Qed.

Lemma pawn_round_trip (b boardCopy : Board.t) (m : Move.t) (piece : Piece.t) :
  onBoardOnly b -> epOnBoard b ->
  In m (Board.legalMoves b) ->
  Board.get (Board.pieces b) (Move.fromSquare m) = Board.Has piece ->
  Piece.pieceType piece = PAWN ->
  Board.parseSan b (Board.sanBody b piece m ++ Board.checkMark boardCopy) = Ret m.
Proof.
  intros Hb He Hin Hget Ht.
  destruct (pseudo_move b m (legal_pseudo b m Hin))
    as [Hfrom [Hdrop [_ [piece' [Hp [_ [Hgen _]]]]]]].
  unfold Board.pieceAt in Hp. rewrite Hget in Hp. injection Hp as <-.
  unfold movesOf in Hgen. rewrite Ht in Hgen.
  destruct (pawn_inv b _ _ m Hfrom Hgen) as [_ [_ [_ [U [_ [_ [_ [_ [_ [_ Q]]]]]]]]]].
  assert (Hto : 0 <= Move.toSquare m < 64).
  { destruct U as [U|U]; [apply Hb, U|].
    unfold Board.ep_is in U. unfold epOnBoard in He.
    destruct (Board.epSquare b) as [e|]; [|discriminate].
    apply Z.eqb_eq in U. lia. }
  destruct (square_coords _ Hfrom) as [Hf _].
  rewrite (sanBody_pawn b piece m Ht).
  set (capFile := if pawnCaptures b m then Some (squareFile (Move.fromSquare m)) else None).
  destruct (readsAs_spec _ _
              (pawn_text_reads capFile (Move.toSquare m) (Move.promotion m)
                 (optional_coord _ _ Hf) Hto Q)) as [C R].
  destruct (C _ (checkMark_cases boardCopy)) as [C1 C2].
  rewrite (parseSan_ordinary b _ C2), C1, R.
  rewrite (find_unique _ _ m Hin); [reflexivity| |].
  - unfold Board.sanMatches. rewrite Hget, Ht. cbn [Board.q_pieceType Board.q_toSquare
      Board.q_promotion Board.q_disambigFile Board.q_disambigRank Board.optZ_matches].
    rewrite pt_eqb_refl, Z.eqb_refl. unfold capFile. rewrite optZ_matches_self.
    destruct (Move.promotion m) as [p|]; simpl; [rewrite pt_eqb_refl|]; reflexivity.
  - intros x Hx Mx. unfold Board.sanMatches in Mx.
    destruct (Board.get (Board.pieces b) (Move.fromSquare x)) as [| |xp] eqn:Gx;
      try discriminate.
    cbn [Board.q_pieceType Board.q_toSquare Board.q_promotion Board.q_disambigFile
         Board.q_disambigRank] in Mx.
    rewrite !andb_true_iff in Mx. destruct Mx as [[[[M1 M2] M3] M4] _].
    apply Z.eqb_eq in M2. apply opt_eqb_pt in M3. apply pt_eqb_eq in M1.
    destruct (pseudo_move b x (legal_pseudo b x Hx))
      as [Hxfrom [Hxdrop [_ [xp' [Hxp [_ [Hxgen _]]]]]]].
    unfold Board.pieceAt in Hxp. rewrite Gx in Hxp. injection Hxp as <-.
    unfold movesOf in Hxgen. rewrite M1 in Hxgen.
    apply move_eq; try congruence.
    apply (pawn_same_origin b m x piece xp); auto.
    intros Hc. unfold capFile in M4. apply (optZ_matches_use _ _ _ M4 Hc).
Qed.

(** X19.  SAN round trip.  On a board that stores nothing outside its 64
    squares and whose en-passant square, if any, is one of them, [san(move)]
    returns for every legal move, and [parseSan] reads the text back as that
    very move: castling, piece moves with their disambiguation, pawn moves,
    captures, promotions and check marks included. *)
Theorem san_round_trip (b : Board.t) (m : Move.t) :
  onBoardOnly b -> epOnBoard b ->
  In m (Board.legalMoves b) ->
  exists text, Board.san b m = Ret text /\ Board.parseSan b text = Ret m.
Proof.
  intros Hb He Hin.
  destruct (pseudo_move b m (legal_pseudo b m Hin))
    as [Hfrom [Hdrop [_ [piece [Hp [Hcol [Hgen _]]]]]]].
  unfold Board.pieceAt in Hp.
  destruct (legal_push_copy b m Hin) as [boardCopy Hpush].
  unfold Board.san. rewrite Hp, Hpush.
  destruct (Piece.pieceType piece) eqn:Ht;
    cbn [pt_eqb pt_code Z.eqb Pos.eqb andb];
    try (eexists; split; [reflexivity|];
         apply piece_round_trip; [exact Hin|exact Hp|rewrite Ht; discriminate]).
  - eexists; split; [reflexivity|]. apply pawn_round_trip; assumption.
  - unfold movesOf in Hgen. rewrite Ht in Hgen.
    destruct (king_cases b _ _ m Hfrom Hgen) as [K|[[Kc [->| ->]]|[Kc [->| ->]]]].
    + set (fileDiff := squareFile (Move.toSquare m) - squareFile (Move.fromSquare m)) in *.
      destruct (fileDiff =? 2) eqn:E2; [apply Z.eqb_eq in E2; lia|].
      destruct (fileDiff =? -2) eqn:E3; [apply Z.eqb_eq in E3; lia|].
      eexists; split; [reflexivity|].
      apply piece_round_trip; [exact Hin|exact Hp|rewrite Ht; discriminate].
    + eexists; split; [reflexivity|]. unfold Board.parseSan. simpl.
      rewrite Kc. reflexivity.
    + eexists; split; [reflexivity|]. unfold Board.parseSan. simpl.
      rewrite Kc. reflexivity.
    + eexists; split; [reflexivity|]. unfold Board.parseSan. simpl.
      rewrite Kc. reflexivity.
    + eexists; split; [reflexivity|]. unfold Board.parseSan. simpl.
      rewrite Kc. reflexivity.
Qed.

Lemma san_round_trip_witness :
  exists text,
    Board.san twoKnightsBoard (Move.mk 1 11 None None) = Ret text /\
    Board.parseSan twoKnightsBoard text = Ret (Move.mk 1 11 None None).
Proof.
  apply (san_round_trip twoKnightsBoard (Move.mk 1 11 None None)).
  - apply onBoardOnly_64; reflexivity.
  - exact I.
  - vm_compute. tauto.
Defined.

(** *** Boards of exactly 64 squares *)

Lemma set_nth_length_in (l : list Board.Slot) (n : nat) (v : Board.Slot) :
  (n < length l)%nat -> length (Board.set_nth l n v) = length l.
Proof.
  revert l; induction n as [|n IH]; intros [|x l]; simpl; try lia.
  intros H. rewrite IH; lia.
Qed.

Lemma set_exact (a : Board.PieceArray) (i : Z) (v : Board.Slot) :
  0 <= i < 64 -> v <> Board.Undefined -> exactArray a -> exactArray (Board.set a i v).
Proof.
  intros Hi Hv (P & L & G).
  destruct (set_whole a i v ltac:(lia) Hv) as (P' & _ & G').
  { split; [exact P|]. split; [lia|exact G]. }
  split; [exact P'|]. split; [|exact G'].
  unfold Board.set. destruct (i <? 0) eqn:E; [apply Z.ltb_lt in E; lia|].
  simpl. rewrite set_nth_length_in; lia.
Qed.

Lemma exact_onBoardOnly (b : Board.t) : exactArray (Board.pieces b) -> onBoardOnly b.
Proof. intros (P & L & _). apply onBoardOnly_64; assumption.
Qed.

Lemma standard_inDataModel (b : Board.t) : standard b -> inDataModel b.
Proof.
  intros ((_ & _ & G) & R & E). split; [exact R|]. split; [exact E|exact G].
Qed.

Lemma handleCastling_exact (b : Board.t) (m : Move.t) (c : Color) :
  0 <= Move.fromSquare m < 64 -> 0 <= Move.toSquare m < 64 ->
  exactArray (Board.pieces b) ->
  exactArray (Board.pieces (Board.handleCastling b m c)).
Proof.
  intros Hf Ht Ha. unfold Board.handleCastling.
  destruct (squareFile (Move.toSquare m) =? 6); destruct c; simpl;
    repeat (apply set_exact; [unfold H1, F1, H8, F8, A1, D1, A8, D8; lia|discriminate|]);
    exact Ha.
Qed.

(** The square an en-passant capture clears lies on the board. *)
Lemma pawn_behind_target (b : Board.t) (m : Move.t) :
  0 <= Move.fromSquare m < 64 -> 0 <= Move.toSquare m < 64 ->
  In m (Board.generatePawnMoves b (Move.fromSquare m) (Board.turn b)) ->
  0 <= Move.toSquare m + (if Bool.eqb (Board.turn b) WHITE then -8 else 8) < 64.
Proof.
  intros Hf Ht H. apply pawn_cases in H as [_ H].
  destruct (square_coords _ Hf) as [Ff [Rf Sf]].
  unfold pawnStep, squareFromFileRank in *.
  destruct (Bool.eqb (Board.turn b) WHITE);
    destruct H as [[T _]|[[T _]|[df [D [B [T _]]]]]]; lia.
Qed.

Lemma legal_push_standard (b : Board.t) (m : Move.t) :
  standard b -> In m (Board.legalMoves b) ->
  exists b1, Board.push b m = (Ret tt, b1) /\ standard b1.
Proof.
  intros (Ha & Hr & He) Hin.
  pose proof (legal_target_on_board b m (exact_onBoardOnly b Ha) He Hin) as Hto.
  destruct (pseudo_move b m (legal_pseudo b m Hin))
    as [Hfrom [_ [_ [piece [Hp [Hcol [Hgen _]]]]]]].
  unfold Board.pieceAt in Hp.
  assert (Hep : forall x : Z, 0 <= (Move.fromSquare m + Move.toSquare m) / 2 < 64).
  { intros _. Z.div_mod_to_equations. lia. }
  unfold Board.push. cbn [Board.pieces Board.with_stack]. rewrite Hp.
  match goal with
  | |- context [if ?c then _ else _] => destruct c eqn:Castle
  end.
  - eexists. split; [reflexivity|].
    match goal with
    | |- standard (Board.updateStateAfterMove ?x piece m ?y) =>
        destruct (handleCastling_fields
                    (Board.with_stack b (Board.moveStack b ++
                       [Board.mkEntry m (Board.get (Board.pieces b) (Move.toSquare m))
                          (Board.saveState b)])) m (Piece.color piece))
          as [_ [R _]];
        destruct (updateState_fields x piece m y) as [_ [_ [[U3 _] [_ [_ U6]]]]]
    end.
    { rewrite R. exact Hr. }
    split; [|split; [exact U3|]].
    + rewrite U6. apply handleCastling_exact; assumption.
    + unfold epOnBoard, Board.updateStateAfterMove. cbn [Board.epSquare].
      destruct (pt_eqb (Piece.pieceType piece) PAWN && (Z.abs _ =? 2));
        [apply (Hep 0)|exact I].
  - eexists. split; [reflexivity|].
    match goal with
    | |- standard (Board.updateStateAfterMove ?x piece m ?y) =>
        destruct (updateState_fields x piece m y) as [_ [_ [[U3 _] [_ [_ U6]]]]]
    end.
    { destruct (pt_eqb (Piece.pieceType piece) PAWN && Board.ep_is _ (Move.toSquare m));
        destruct (Move.promotion m); exact Hr. }
    split; [|split; [exact U3|]].
    + rewrite U6.
      destruct (pt_eqb (Piece.pieceType piece) PAWN && _) eqn:EP.
      * assert (Hb : 0 <= Move.toSquare m
                          + (if Bool.eqb (Piece.color piece) WHITE then -8 else 8) < 64).
        { apply andb_true_iff in EP as [EP _]. apply pt_eqb_eq in EP.
          unfold movesOf in Hgen. rewrite EP in Hgen. rewrite Hcol.
          apply pawn_behind_target; assumption. }
        destruct (Move.promotion m); simpl;
          repeat (apply set_exact; [assumption|discriminate|]); exact Ha.
      * destruct (Move.promotion m); simpl;
          repeat (apply set_exact; [assumption|discriminate|]); exact Ha.
    + unfold epOnBoard, Board.updateStateAfterMove. cbn [Board.epSquare].
      destruct (pt_eqb (Piece.pieceType piece) PAWN && (Z.abs _ =? 2));
        [apply (Hep 0)|exact I].
Qed.

(** X20.  Legal moves keep a board standard: on a board with exactly 64
    defined squares, a 4-bit castling mask and an en-passant square on the
    board, [push] of a legal move returns and leaves a board of the same
    kind; it never writes outside the 64 squares. *)
Theorem legal_push_keeps_standard (b : Board.t) (m : Move.t) :
  standard b -> In m (Board.legalMoves b) ->
  exists b1, Board.push b m = (Ret tt, b1) /\ standard b1.
Proof. apply legal_push_standard. Qed.

Lemma startBoard_standard : standard startBoard.
Proof.
  split; [|split; [simpl; lia|exact I]].
  split; [reflexivity|]. split; [reflexivity|].
  intros sq Hsq.
  assert (C : forallb (fun sq => negb (Board.slot_eqb (Board.pieceAt startBoard sq)
                                         Board.Undefined))
                      (range 0 64) = true) by (vm_compute; reflexivity).
  pose proof (range_forallb _ 0 64 C sq ltac:(simpl; lia)) as Hn. cbv beta in Hn.
  intros N. unfold Board.pieceAt in Hn. rewrite N in Hn. discriminate Hn.
Qed.

Lemma legal_push_keeps_standard_witness :
  exists b1, Board.push startBoard (Move.mk 12 28 None None) = (Ret tt, b1) /\ standard b1.
Proof.
  apply (legal_push_keeps_standard startBoard (Move.mk 12 28 None None)).
  - exact startBoard_standard.
  - vm_compute. tauto.
Defined.

(** *** Headers *)

Lemma str_eqb_sym (a b : jsstr) : str_eqb a b = str_eqb b a.
Proof.
  destruct (str_eqb a b) eqn:E.
  - apply str_eqb_eq in E. subst. symmetry. apply str_eqb_refl.
  - destruct (str_eqb b a) eqn:E'; [|reflexivity].
    apply str_eqb_eq in E'. subst. rewrite str_eqb_refl in E. discriminate.
Qed.

Lemma str_eqb_neq (a b : jsstr) : str_eqb a b = false <-> a <> b.
Proof.
  split.
  - intros E H. subst. rewrite str_eqb_refl in E. discriminate.
  - intros H. destruct (str_eqb a b) eqn:E; [|reflexivity].
    apply str_eqb_eq in E. contradiction.
Qed.

Lemma headers_has_keys (h : Tree.Headers) (key : jsstr) :
  Tree.headers_has h key = true <-> In key (Tree.headers_keys h).
Proof.
  induction h as [|[k v] h IH]; simpl; [split; [discriminate|intros []]|].
  rewrite orb_true_iff, IH, str_eqb_eq. tauto.
Qed.

Lemma headers_has_get (h : Tree.Headers) (key : jsstr) :
  Tree.headers_has h key = true <-> Tree.headers_get h key <> None.
Proof.
  induction h as [|[k v] h IH]; simpl; [split; [discriminate|congruence]|].
  destruct (str_eqb k key); simpl; [split; [discriminate|reflexivity]|exact IH].
Qed.

Lemma headers_get_set (h : Tree.Headers) (key value key' : jsstr) :
  Tree.headers_get (Tree.headers_set h key value) key'
  = if str_eqb key key' then Some value else Tree.headers_get h key'.
Proof.
  induction h as [|[k v] h IH]; simpl.
  - destruct (str_eqb key key'); reflexivity.
  - destruct (str_eqb k key) eqn:E; simpl.
    + apply str_eqb_eq in E. subst k. destruct (str_eqb key key'); reflexivity.
    + rewrite IH. destruct (str_eqb k key') eqn:E'; [|reflexivity].
      apply str_eqb_eq in E'. subst k. rewrite str_eqb_sym, E. reflexivity.
Qed.

Lemma headers_keys_set (h : Tree.Headers) (key value : jsstr) :
  Tree.headers_keys (Tree.headers_set h key value)
  = if Tree.headers_has h key then Tree.headers_keys h else Tree.headers_keys h ++ [key].
Proof.
  induction h as [|[k v] h IH]; simpl; [reflexivity|].
  destruct (str_eqb k key) eqn:E; simpl; [reflexivity|].
  unfold Tree.headers_keys in *. rewrite IH.
  destruct (Tree.headers_has h key); reflexivity.
Qed.

Lemma headers_set_NoDup (h : Tree.Headers) (key value : jsstr) :
  NoDup (Tree.headers_keys h) -> NoDup (Tree.headers_keys (Tree.headers_set h key value)).
Proof.
  intros H. rewrite headers_keys_set.
  destruct (Tree.headers_has h key) eqn:E; [exact H|].
  apply NoDup_app; [exact H|repeat constructor; intros []|].
  intros x Hx [<-|[]].
  apply headers_has_keys in Hx. congruence.
Qed.

(** X21.  [Headers.set] and [get] are the insert and lookup of a map that
    keeps its insertion order: after [set(key, value)], [get] returns the
    value for that key and what it returned before for every other key; a key
    that was present keeps its place among the keys, a new key goes to the
    end, and the size grows by one exactly for a new key. *)
Theorem headers_set_get (h : Tree.Headers) (key value key' : jsstr) :
  let h' := Tree.headers_set h key value in
  Tree.headers_get h' key = Some value /\
  (key' <> key -> Tree.headers_get h' key' = Tree.headers_get h key') /\
  Tree.headers_has h' key = true /\
  Tree.headers_keys h'
  = (if Tree.headers_has h key then Tree.headers_keys h else Tree.headers_keys h ++ [key]) /\
  Tree.headers_size h'
  = Tree.headers_size h + (if Tree.headers_has h key then 0 else 1) /\
  (NoDup (Tree.headers_keys h) -> NoDup (Tree.headers_keys h')).
Proof.
  intros h'. unfold h'. split; [|split; [|split; [|split; [|split]]]].
  - rewrite headers_get_set, str_eqb_refl. reflexivity.
  - intros N. rewrite headers_get_set.
    destruct (str_eqb key key') eqn:E; [apply str_eqb_eq in E; congruence|reflexivity].
  - apply headers_has_get. rewrite headers_get_set, str_eqb_refl. discriminate.
  - apply headers_keys_set.
  - pose proof (headers_keys_set h key value) as K.
    apply (f_equal (@length jsstr)) in K. unfold Tree.headers_keys in K.
    rewrite length_map in K. unfold Tree.headers_size, len. rewrite K.
    destruct (Tree.headers_has h key); [rewrite length_map; lia|].
    rewrite length_app, length_map. simpl. lia.
  - apply headers_set_NoDup.
Qed.

Lemma headers_delete_spec (h : Tree.Headers) (key : jsstr) :
  NoDup (Tree.headers_keys h) ->
  fst (Tree.headers_delete h key) = Tree.headers_has h key /\
  (forall key', Tree.headers_get (snd (Tree.headers_delete h key)) key'
                = if str_eqb key key' then None else Tree.headers_get h key') /\
  Tree.headers_keys (snd (Tree.headers_delete h key))
  = filter (fun k => negb (str_eqb k key)) (Tree.headers_keys h).
Proof.
  induction h as [|[k v] h IH]; intros N.
  - simpl. repeat split; auto. intros key'. destruct (str_eqb key key'); reflexivity.
  - simpl in N. apply NoDup_cons_iff in N as [Nk N]. specialize (IH N).
    destruct IH as [I1 [I2 I3]]. cbn [Tree.headers_delete].
    destruct (str_eqb k key) eqn:E.
    + apply str_eqb_eq in E. subst k. cbn [fst snd]. split; [|split].
      * simpl. rewrite str_eqb_refl. reflexivity.
      * intros key'. simpl. destruct (str_eqb key key') eqn:E'; [|reflexivity].
        apply str_eqb_eq in E'. subst key'.
        destruct (Tree.headers_get h key) eqn:G; [|reflexivity].
        exfalso. apply Nk. apply headers_has_keys, headers_has_get. congruence.
      * simpl. rewrite str_eqb_refl. simpl. symmetry.
        assert (F : forall l, ~ In key l -> filter (fun k => negb (str_eqb k key)) l = l).
        { induction l as [|x l IHl]; intros Hn; [reflexivity|]. simpl.
          destruct (str_eqb x key) eqn:Ex.
          - apply str_eqb_eq in Ex. subst x. exfalso. apply Hn. left. reflexivity.
          - simpl. f_equal. apply IHl. intros Hin. apply Hn. right. exact Hin. }
        apply F. exact Nk.
    + destruct (Tree.headers_delete h key) as [found h'] eqn:D. cbn [fst snd] in *.
      split; [|split].
      * simpl. rewrite E. exact I1.
      * intros key'. simpl. rewrite I2.
        destruct (str_eqb k key') eqn:E'; [|reflexivity].
        apply str_eqb_eq in E'. subst key'. rewrite str_eqb_sym, E. reflexivity.
      * simpl. rewrite E. simpl. f_equal. exact I3.
Qed.

(** X22.  [Headers.delete(key)] on a map (its keys are distinct) returns
    whether the key was present, makes [get(key)] undefined, and leaves every
    other key with its value and the remaining keys in their order.  *)
Theorem headers_delete_get (h : Tree.Headers) (key key' : jsstr) :
  NoDup (Tree.headers_keys h) ->
  let '(found, h') := Tree.headers_delete h key in
  found = Tree.headers_has h key /\
  Tree.headers_get h' key = None /\
  (key' <> key -> Tree.headers_get h' key' = Tree.headers_get h key') /\
  Tree.headers_keys h' = filter (fun k => negb (str_eqb k key)) (Tree.headers_keys h) /\
  NoDup (Tree.headers_keys h').
Proof.
  intros N. destruct (headers_delete_spec h key N) as [D1 [D2 D3]].
  destruct (Tree.headers_delete h key) as [found h'] eqn:D. cbn [fst snd] in *.
  split; [exact D1|]. split; [rewrite D2, str_eqb_refl; reflexivity|].
  split; [|split; [exact D3|]].
  - intros Hn. rewrite D2. destruct (str_eqb key key') eqn:E; [|reflexivity].
    apply str_eqb_eq in E. congruence.
  - rewrite D3. apply NoDup_filter, N.
Qed.

Lemma headers_delete_get_witness :
  let h := Tree.headers_set (Tree.headers_set [] (lit "White") (lit "A")) (lit "Black") (lit "B") in
  let '(found, h') := Tree.headers_delete h (lit "White") in
  found = Tree.headers_has h (lit "White") /\
  Tree.headers_get h' (lit "White") = None /\
  (lit "Black" <> lit "White" ->
   Tree.headers_get h' (lit "Black") = Tree.headers_get h (lit "Black")) /\
  Tree.headers_keys h'
  = filter (fun k => negb (str_eqb k (lit "White"))) (Tree.headers_keys h) /\
  NoDup (Tree.headers_keys h').
Proof.
  apply (headers_delete_get
           (Tree.headers_set (Tree.headers_set [] (lit "White") (lit "A"))
              (lit "Black") (lit "B")) (lit "White") (lit "Black")).
  simpl. repeat constructor; simpl; intuition discriminate.
Defined.

(** *** The tags the builder copies *)

Lemma copyTags_fold (key : jsstr) (l : list (jsstr * Tree.TagValue)) (h : Tree.Headers) :
  NoDup (Tree.headers_keys h) ->
  let h' := fold_left (fun h kv =>
              match snd kv with
              | Tree.TagString value =>
                  if negb (str_eqb (fst kv) (lit "messages"))
                  then Tree.headers_set h (fst kv) value else h
              | Tree.TagOther => h
              end) l h in
  NoDup (Tree.headers_keys h') /\
  Tree.headers_get h' key
  = if str_eqb key (lit "messages") then Tree.headers_get h key
    else lastString key l (Tree.headers_get h key).
Proof.
  revert h; induction l as [|[k [value|]] l IH]; intros h N; cbn [fold_left fst snd].
  - split; [exact N|]. destruct (str_eqb key (lit "messages")); reflexivity.
  - destruct (negb (str_eqb k (lit "messages"))) eqn:E.
    + destruct (IH (Tree.headers_set h k value) (headers_set_NoDup h k value N)) as [I1 I2].
      split; [exact I1|]. rewrite I2, headers_get_set.
      unfold lastString at 2. cbn [fold_left fst snd]. fold (lastString key l).
      destruct (str_eqb key (lit "messages")) eqn:M; [|reflexivity].
      destruct (str_eqb k key) eqn:K; [|reflexivity].
      apply str_eqb_eq in K, M. subst. rewrite str_eqb_refl in E. discriminate.
    + destruct (IH h N) as [I1 I2]. split; [exact I1|]. rewrite I2.
      unfold lastString at 2. cbn [fold_left fst snd]. fold (lastString key l).
      destruct (str_eqb key (lit "messages")) eqn:M; [reflexivity|].
      destruct (str_eqb k key) eqn:K; [|reflexivity].
      apply str_eqb_eq in K. subst k. apply negb_false_iff in E. congruence.
  - apply (IH h N).
Qed.

(** X23.  The headers [buildGameTree] copies from the tags: the value of a
    key is the last string value the tags give for it; a tag whose value is
    not a string is skipped, and the key [messages] is never copied.  The
    keys of the result are distinct. *)
Theorem copyTags_headers (tags : list (jsstr * Tree.TagValue)) (key : jsstr) :
  Tree.headers_get (Tree.copyTags (Some tags)) (lit "messages") = None /\
  (key <> lit "messages" ->
   Tree.headers_get (Tree.copyTags (Some tags)) key = lastString key tags None) /\
  NoDup (Tree.headers_keys (Tree.copyTags (Some tags))).
Proof.
  unfold Tree.copyTags.
  split; [|split].
  - destruct (copyTags_fold (lit "messages") tags [] ltac:(constructor)) as [_ G].
    rewrite G. reflexivity.
  - intros N. destruct (copyTags_fold key tags [] ltac:(constructor)) as [_ G].
    rewrite G. apply str_eqb_neq in N. rewrite N. reflexivity.
  - apply (copyTags_fold key tags [] ltac:(constructor)).
Qed.

(** *** Annotations *)

(** X24.  Every arrow and every highlighted square that [parseArrows] and
    [parseShapes] return lies on the board and comes from an entry of the
    input: the colour is its first character and the squares are named by
    the characters that follow; entries that are too short or name no square
    are dropped, so the result is never longer than the input. *)
Theorem annotations_on_board (arrows shapes : list jsstr) :
  (forall a, In a (Tree.parseArrows arrows) ->
     0 <= Tree.a_tail a < 64 /\ 0 <= Tree.a_head a < 64 /\
     exists text, In text arrows /\ 5 <= len text /\
       Tree.a_color a = slice text 0 (Some 1) /\
       squareName (Tree.a_tail a) = Some (toLowerCase (slice text 1 (Some 3))) /\
       squareName (Tree.a_head a) = Some (toLowerCase (slice text 3 (Some 5)))) /\
  (forall s, In s (Tree.parseShapes shapes) ->
     0 <= Tree.s_square s < 64 /\
     exists text, In text shapes /\ 3 <= len text /\
       Tree.s_color s = slice text 0 (Some 1) /\
       squareName (Tree.s_square s) = Some (toLowerCase (slice text 1 (Some 3)))) /\
  (length (Tree.parseArrows arrows) <= length arrows)%nat /\
  (length (Tree.parseShapes shapes) <= length shapes)%nat.
Proof.
  split; [|split; [|split]].
  - intros a H. unfold Tree.parseArrows in H. apply in_flat_map in H as [text [Hin H]].
    destruct (len text >=? 5) eqn:L; [|destruct H]. apply Z.geb_le in L.
    destruct (parseSquare (slice text 1 (Some 3))) as [tail|] eqn:T; [|destruct H].
    destruct (parseSquare (slice text 3 (Some 5))) as [head|] eqn:Hd; [|destruct H].
    destruct H as [<-|[]]. cbn [Tree.a_tail Tree.a_head Tree.a_color].
    apply parseSquare_Some in T as [T1 T2]. apply parseSquare_Some in Hd as [H1 H2].
    split; [exact T1|]. split; [exact H1|]. exists text.
    split; [exact Hin|]. split; [exact L|]. split; [reflexivity|].
    split; [exact T2|exact H2].
  - intros sh H. unfold Tree.parseShapes in H. apply in_flat_map in H as [text [Hin H]].
    destruct (len text >=? 3) eqn:L; [|destruct H]. apply Z.geb_le in L.
    destruct (parseSquare (slice text 1 (Some 3))) as [sq|] eqn:T; [|destruct H].
    destruct H as [<-|[]]. cbn [Tree.s_square Tree.s_color].
    apply parseSquare_Some in T as [T1 T2].
    split; [exact T1|]. exists text.
    split; [exact Hin|]. split; [exact L|]. split; [reflexivity|exact T2].
  - unfold Tree.parseArrows. induction arrows as [|x l IH]; [apply Nat.le_refl|].
    cbn [flat_map]. rewrite length_app. cbn [length].
    destruct (len x >=? 5); [|cbn [length]; lia].
    destruct (parseSquare (slice x 1 (Some 3))); [|cbn [length]; lia].
    destruct (parseSquare (slice x 3 (Some 5))); cbn [length]; lia.
  - unfold Tree.parseShapes. induction shapes as [|x l IH]; [apply Nat.le_refl|].
    cbn [flat_map]. rewrite length_app. cbn [length].
    destruct (len x >=? 3); [|cbn [length]; lia].
    destruct (parseSquare (slice x 1 (Some 3))); cbn [length]; lia.
Qed.

Lemma nagAdd_NoDup (nags : list Z) (n : Z) : NoDup nags -> NoDup (Tree.nagAdd nags n).
Proof.
  intros H. unfold Tree.nagAdd. destruct (existsb (Z.eqb n) nags) eqn:E; [exact H|].
  apply NoDup_app; [exact H|repeat constructor; intros []|].
  intros x Hx [<-|[]].
  assert (X : existsb (Z.eqb n) nags = true).
  { apply existsb_exists. exists n. split; [exact Hx|apply Z.eqb_refl]. }
  congruence.
Qed.

Lemma nagAdd_In (nags : list Z) (n x : Z) :
  In x (Tree.nagAdd nags n) <-> In x nags \/ x = n.
Proof.
  unfold Tree.nagAdd. destruct (existsb (Z.eqb n) nags) eqn:E.
  - apply existsb_exists in E as [y [Hy E]]. apply Z.eqb_eq in E. subst y.
    split; [auto|intros [H| ->]; assumption].
  - rewrite in_app_iff. simpl. intuition congruence.
Qed.

(** X25.  The NAGs of a node form a set: [parseNags] returns each number
    once, and a number is in the result exactly when some entry, after its
    first dollar sign is removed, is read by [parseInt] as that number;
    entries that are no number are skipped. *)
Theorem parseNags_set (nag : list jsstr) (n : Z) :
  NoDup (Tree.parseNags (Some nag)) /\
  (In n (Tree.parseNags (Some nag)) <->
   exists text, In text nag /\ parseInt (Tree.removeFirst "$" text) = Some n).
Proof.
  unfold Tree.parseNags.
  assert (G : forall acc, NoDup acc ->
            NoDup (fold_left (fun nags n =>
                     match parseInt (Tree.removeFirst "$" n) with
                     | Some nagNum => Tree.nagAdd nags nagNum
                     | None => nags
                     end) nag acc) /\
            (In n (fold_left (fun nags n =>
                     match parseInt (Tree.removeFirst "$" n) with
                     | Some nagNum => Tree.nagAdd nags nagNum
                     | None => nags
                     end) nag acc) <->
             In n acc \/
             exists text, In text nag /\ parseInt (Tree.removeFirst "$" text) = Some n)).
  { induction nag as [|x l IH]; intros acc N; cbn [fold_left].
    - split; [exact N|]. split; [auto|]. intros [H|[t [[] _]]]. exact H.
    - destruct (parseInt (Tree.removeFirst "$" x)) as [k|] eqn:E.
      + destruct (IH (Tree.nagAdd acc k) (nagAdd_NoDup acc k N)) as [I1 I2].
        split; [exact I1|]. rewrite I2, nagAdd_In. split.
        * intros [[H| ->]|[t [Ht Et]]]; auto.
          -- right. exists x. split; [left; reflexivity|exact E].
          -- right. exists t. split; [right; exact Ht|exact Et].
        * intros [H|[t [[<-|Ht] Et]]]; auto.
          -- left. right. congruence.
          -- right. exists t. auto.
      + destruct (IH acc N) as [I1 I2]. split; [exact I1|]. rewrite I2. split.
        * intros [H|[t [Ht Et]]]; auto. right. exists t. split; [right; exact Ht|exact Et].
        * intros [H|[t [[<-|Ht] Et]]]; auto; [congruence|].
          right. exists t. auto. }
  destruct (G [] ltac:(constructor)) as [G1 G2]. split; [exact G1|].
  rewrite G2. split; [intros [[]|H]; exact H|auto].
Qed.

(** *** The tree that the builder returns *)

(** What every [attach] keeps, the whole run of the builder keeps: the store
    changes in no other way. *)
Section BuilderInvariant.

Variable I : Tree.Store -> Prop.
Hypothesis I_attach :
  forall l move info,
    (Tree.currentNode l < length (Tree.store (Tree.shared l)))%nat ->
    I (Tree.store (Tree.shared l)) -> I (Tree.attach l move info).

Lemma forOf_keeps (g : list Tree.PgnMove) :
  Forall (fun m => forall l l',
            (Tree.currentNode l < length (Tree.store (Tree.shared l)))%nat ->
            I (Tree.store (Tree.shared l)) ->
            Tree.processMove m l = Ret l' -> I (Tree.store (Tree.shared l'))) g ->
  forall l l',
    (Tree.currentNode l < length (Tree.store (Tree.shared l)))%nat ->
    I (Tree.store (Tree.shared l)) ->
    Tree.forOf Tree.processMove g l = Ret l' -> I (Tree.store (Tree.shared l')).
Proof.
  induction 1 as [|m g Hm Hg IH]; intros l l' Hp Hi H.
  - rewrite forOf_nil in H. injection H as <-. exact Hi.
  - rewrite forOf_cons in H.
    destruct (Tree.processMove m l) as [l1|e] eqn:E; [|discriminate H].
    apply (IH l1 l'); [|exact (Hm l l1 Hp Hi E)|exact H].
    apply (processMove_framed m l l1 Hp E).
Qed.

Lemma groups_keep (p : Tree.NodeRef) (fen : jsstr) (vs : list (list Tree.PgnMove)) :
  Forall (Forall (fun m => forall l l',
            (Tree.currentNode l < length (Tree.store (Tree.shared l)))%nat ->
            I (Tree.store (Tree.shared l)) ->
            Tree.processMove m l = Ret l' -> I (Tree.store (Tree.shared l')))) vs ->
  forall s s',
    (p < length (Tree.store s))%nat -> I (Tree.store s) ->
    Tree.forOf (Tree.buildVariation p fen) vs s = Ret s' -> I (Tree.store s').
Proof.
  induction 1 as [|g vs Hg Hvs IH]; intros s s' Hp Hi H.
  - rewrite forOf_nil in H. injection H as <-. exact Hi.
  - rewrite forOf_cons in H.
    destruct (Tree.buildVariation p fen g s) as [s1|e] eqn:E; [|discriminate H].
    pose proof (variation_grows p fen g s s1 Hp E) as (L & _).
    apply (IH s1 s'); [lia| |exact H].
    unfold Tree.buildVariation in E. destruct g as [|m g]; [injection E as <-; exact Hi|].
    destruct (Board.create fen) as [vb|e]; [|discriminate E].
    unfold Tree.buildMoveTree in E.
    destruct (Tree.forOf Tree.processMove (m :: g) _) as [l1|e] eqn:E1; [|discriminate E].
    injection E as <-.
    exact (forOf_keeps (m :: g) Hg (Tree.mkLoop p (Board.copy vb) s) l1 Hp Hi E1).
Qed.

Lemma processMove_keeps (m : Tree.PgnMove) :
  forall l l',
    (Tree.currentNode l < length (Tree.store (Tree.shared l)))%nat ->
    I (Tree.store (Tree.shared l)) ->
    Tree.processMove m l = Ret l' -> I (Tree.store (Tree.shared l')).
Proof.
  induction m as [s|info vs IH] using PgnMove_nested_ind; intros l l' Hp Hi H.
  - simpl in H. injection H as <-. exact Hi.
  - rewrite processMove_record in H.
    destruct (Tree.parseMove info (Tree.currentBoard l)) as [move|e].
    + destruct (Board.push (Tree.currentBoard l) move) as [[u|e] pushed]; [|discriminate H].
      destruct (Tree.forOf _ vs _) as [s|e] eqn:E; [|discriminate H].
      injection H as <-. simpl.
      destruct (attach_grows l move info Hp) as (HL & _).
      apply (groups_keep (Tree.currentNode l) (Board.fen (Tree.currentBoard l)) vs IH
               (Tree.mkBState (Tree.attach l move info) (Tree.errors (Tree.shared l))) s);
        [simpl; rewrite HL; lia|simpl; apply I_attach; assumption|exact E].
    + injection H as <-. exact Hi.
Qed.

Lemma buildMoveTree_keeps (p : Tree.NodeRef) (moves : list Tree.PgnMove) (board : Board.t)
    (s s' : Tree.BState) :
  (p < length (Tree.store s))%nat -> I (Tree.store s) ->
  Tree.buildMoveTree p moves board s = Ret s' -> I (Tree.store s').
Proof.
  intros Hp Hi H. unfold Tree.buildMoveTree in H.
  destruct (Tree.forOf Tree.processMove moves _) as [l1|e] eqn:E; [|discriminate H].
  injection H as <-.
  apply (forOf_keeps moves) with (l := Tree.mkLoop p (Board.copy board) s);
    [apply Forall_forall; intros m _; apply processMove_keeps|exact Hp|exact Hi|exact E].
Qed.

End BuilderInvariant.

(** Attaching a node keeps the store a forest with the game at its root. *)
Lemma attach_wellFormed (h : Tree.Headers) (l : Tree.Loop) (move : Move.t)
    (info : Tree.PgnInfo) :
  (Tree.currentNode l < length (Tree.store (Tree.shared l)))%nat ->
  wellFormed (Tree.store (Tree.shared l)) /\ gameAtRoot h (Tree.store (Tree.shared l)) ->
  wellFormed (Tree.attach l move info) /\ gameAtRoot h (Tree.attach l move info).
Proof.
  intros Hp [W G].
  destruct (attach_grows l move info Hp) as (HL & HN & HP & HO).
  set (s := Tree.store (Tree.shared l)) in *.
  set (s' := Tree.attach l move info) in *.
  set (p := Tree.currentNode l) in *.
  cbv zeta in HL, HN, HP, HO.
  assert (Par : forall j, (j < length s)%nat ->
                  Tree.parent (Tree.node s' j) = Tree.parent (Tree.node s j)).
  { intros j Hj. destruct (Nat.eq_dec j p) as [->|Hne].
    - rewrite HP. reflexivity.
    - rewrite HO by assumption. reflexivity. }
  assert (Mov : forall j, (j < length s)%nat ->
                  Tree.move (Tree.node s' j) = Tree.move (Tree.node s j)).
  { intros j Hj. destruct (Nat.eq_dec j p) as [->|Hne].
    - rewrite HP. reflexivity.
    - rewrite HO by assumption. reflexivity. }
  assert (Var : forall j, (j < length s)%nat ->
                  Tree.variations (Tree.node s' j)
                  = Tree.variations (Tree.node s j) ++ (if Nat.eq_dec j p then [length s] else [])).
  { intros j Hj. destruct (Nat.eq_dec j p) as [->|Hne].
    - rewrite HP. reflexivity.
    - rewrite HO by assumption. rewrite app_nil_r. reflexivity. }
  split.
  - intros r Hr. rewrite HL in Hr.
    destruct (Nat.eq_dec r (length s)) as [->|Hnew].
    + rewrite HN. simpl. split; [constructor|]. split; [intros v []|].
      intros q Hq. injection Hq as <-. split; [exact Hp|]. split; [|discriminate].
      rewrite HP. simpl. apply in_or_app. right. left. reflexivity.
    + assert (Hr' : (r < length s)%nat) by lia.
      destruct (W r Hr') as (ND & Ch & Pa).
      rewrite (Var r Hr'), (Par r Hr'), (Mov r Hr').
      split; [|split].
      * destruct (Nat.eq_dec r p); [|rewrite app_nil_r; exact ND].
        apply NoDup_app; [exact ND|constructor; [intros []|constructor]|].
        intros v Hv [<-|[]]. apply Ch in Hv. lia.
      * intros v Hv. apply in_app_or in Hv. destruct Hv as [Hv|Hv].
        -- destruct (Ch v Hv) as [Hlt Hpar]. split; [lia|].
           rewrite (Par v Hlt). exact Hpar.
        -- destruct (Nat.eq_dec r p) as [->|]; [|destruct Hv].
           destruct Hv as [<-|[]]. split; [lia|]. rewrite HN. reflexivity.
      * intros q Hq. destruct (Pa q Hq) as (Hlt & Hin & Hm).
        split; [exact Hlt|]. split; [|exact Hm].
        rewrite (Var q ltac:(lia)). apply in_or_app. left. exact Hin.
  - destruct G as (G0 & G1 & G2 & G3 & G4).
    split; [lia|]. rewrite (Par 0%nat G0), (Mov 0%nat G0).
    split; [exact G1|]. split; [exact G2|]. split.
    + destruct (Nat.eq_dec 0%nat p) as [<-|Hne].
      * rewrite HP. simpl. exact G3.
      * rewrite HO by (auto; lia). exact G3.
    + intros r Hr. rewrite HL in Hr.
      destruct (Nat.eq_dec r (length s)) as [->|Hnew].
      * rewrite HN. discriminate.
      * rewrite (Par r ltac:(lia)). apply G4. lia.
Qed.

(** In a forest with the game at its root, [root()] arrives at the game from
    every node, within as many turns as the node's number plus one. *)
Lemma root_is_game (h : Tree.Headers) (s : Tree.Store) :
  wellFormed s -> gameAtRoot h s ->
  forall r, (r < length s)%nat -> Tree.root (S r) s r = Some 0%nat.
Proof.
  intros W (G0 & G1 & G2 & G3 & G4).
  assert (M : forall turns r, (r < length s)%nat -> (r < turns)%nat ->
                Tree.root turns s r = Some 0%nat).
  { induction turns as [|turns IH]; intros r Hr Ht; [lia|].
    simpl. destruct (Tree.parent (Tree.node s r)) as [p|] eqn:E.
    - destruct (W r Hr) as (_ & _ & Pa). destruct (Pa p E) as (Hlt & _).
      apply IH; lia.
    - destruct (Nat.eq_dec r 0) as [->|Hne]; [reflexivity|].
      exfalso. apply (G4 r); [lia|exact E]. }
  intros r Hr. apply M; [exact Hr|lia].
Qed.

(** The store that [buildGameTree] returns. *)
Lemma built_tree (parseTree : Tree.ParseTree) (st : Tree.BState) :
  Tree.buildGameTree parseTree = Ret st ->
  wellFormed (Tree.store st) /\
  gameAtRoot (Tree.copyTags (Tree.tags parseTree)) (Tree.store st).
Proof.
  unfold Tree.buildGameTree. intros H.
  set (h := Tree.copyTags (Tree.tags parseTree)).
  assert (Hh : Tree.headers (Tree.rootNode parseTree) = Some h).
  { unfold Tree.rootNode. destruct (Tree.gameComment parseTree); reflexivity. }
  assert (Hp : Tree.parent (Tree.rootNode parseTree) = None).
  { unfold Tree.rootNode. destruct (Tree.gameComment parseTree); reflexivity. }
  assert (Hm : Tree.move (Tree.rootNode parseTree) = None).
  { unfold Tree.rootNode. destruct (Tree.gameComment parseTree); reflexivity. }
  assert (Hv : Tree.variations (Tree.rootNode parseTree) = []).
  { unfold Tree.rootNode. destruct (Tree.gameComment parseTree); reflexivity. }
  assert (Start : wellFormed [Tree.rootNode parseTree]
                  /\ gameAtRoot h [Tree.rootNode parseTree]).
  { split.
    - intros r Hr. simpl in Hr. assert (r = 0%nat) as -> by lia.
      unfold Tree.node. simpl. rewrite Hv, Hp.
      split; [constructor|]. split; [intros v []|discriminate].
    - unfold gameAtRoot, Tree.node. simpl. rewrite Hp, Hm, Hh.
      repeat split; try reflexivity; try lia. }
  destruct (Board.create _) as [board|e]; [|discriminate H].
  destruct (Tree.moves parseTree) as [[|m ms]|].
  - injection H as <-. exact Start.
  - apply (buildMoveTree_keeps (fun s => wellFormed s /\ gameAtRoot h s)
             (attach_wellFormed h) 0%nat (m :: ms) board
             (Tree.mkBState [Tree.rootNode parseTree] []) st);
      [simpl; lia|exact Start|exact H].
  - injection H as <-. exact Start.
Qed.

(** X26.  The tree that [buildGameTree] returns is a tree: the game is the
    node 0, without parent and move, and carries the headers copied from the
    tags; every other node has a move and a parent that was created before
    it and lists it among its variations; the variations of a node are
    distinct and name that node as their parent; and [root()] of every node
    is the game. *)
Theorem built_tree_well_formed (parseTree : Tree.ParseTree) (st : Tree.BState) :
  Tree.buildGameTree parseTree = Ret st ->
  let s := Tree.store st in
  (0 < length s)%nat /\
  Tree.parent (Tree.node s 0%nat) = None /\
  Tree.move (Tree.node s 0%nat) = None /\
  Tree.headers (Tree.node s 0%nat) = Some (Tree.copyTags (Tree.tags parseTree)) /\
  (forall r, (0 < r < length s)%nat ->
     exists p m, Tree.parent (Tree.node s r) = Some p /\ (p < r)%nat /\
                 Tree.move (Tree.node s r) = Some m /\
                 In r (Tree.variations (Tree.node s p))) /\
  (forall r v, (r < length s)%nat -> In v (Tree.variations (Tree.node s r)) ->
     (v < length s)%nat /\ Tree.parent (Tree.node s v) = Some r) /\
  (forall r, (r < length s)%nat -> NoDup (Tree.variations (Tree.node s r))) /\
  (forall r, (r < length s)%nat -> Tree.root (S r) s r = Some 0%nat).
Proof.
  intros H s. destruct (built_tree parseTree st H) as [W G]. fold s in W, G.
  pose proof G as (G0 & G1 & G2 & G3 & G4).
  split; [exact G0|]. split; [exact G1|]. split; [exact G2|]. split; [exact G3|].
  split; [|split; [|split]].
  - intros r Hr. destruct (Tree.parent (Tree.node s r)) as [p|] eqn:E.
    + destruct (W r ltac:(lia)) as (_ & _ & Pa). destruct (Pa p E) as (Hlt & Hin & Hm).
      destruct (Tree.move (Tree.node s r)) as [m|]; [|contradiction].
      exists p, m. auto.
    + exfalso. apply (G4 r Hr E).
  - intros r v Hr Hv. destruct (W r Hr) as (_ & Ch & _). apply Ch, Hv.
  - intros r Hr. apply (W r Hr).
  - apply (root_is_game _ s W G).
Qed.

Lemma built_tree_well_formed_witness :
  exists st,
    Tree.buildGameTree (exampleTree true) = Ret st /\
    length (Tree.store st) = 6%nat /\
    Tree.root 5 (Tree.store st) 4%nat = Some 0%nat /\
    Tree.parent (Tree.node (Tree.store st) 4%nat) = Some 3%nat.
Proof.
  eexists. split; [vm_compute; reflexivity|].
  match goal with
  | |- length (Tree.store ?st) = _ /\ _ =>
      assert (E : Tree.buildGameTree (exampleTree true) = Ret st) by (vm_compute; reflexivity)
  end.
  split; [reflexivity|].
  split; [|reflexivity].
  refine (proj2 (proj2 (proj2 (proj2 (proj2 (proj2 (proj2
            (built_tree_well_formed (exampleTree true) _ E))))))) 4%nat _).
  vm_compute. lia.
Defined.

(** *** Games made from a position *)

(** X27.  [Game.fromFen(fen)] is a game with the seven tag roster followed by
    the tags FEN and SetUp, and its [board()] is [new Board(fen)]: a board
    with the position of the text when the constructor accepts it, the same
    exception when it does not.  So the game [Game.fromBoard(board)] of a
    board of the data model, with safe clocks and a fullmove number other
    than 0, has the FEN of that board. *)
Theorem fromFen_board (w : Tree.World) (game : Tree.NodeRef) (fen : jsstr) (depth : nat) :
  Tree.node (Tree.nodes w) game = Tree.fromFen fen ->
  (exists h,
     Tree.headers (Tree.fromFen fen) = Some h /\
     Tree.headers_keys h
     = [lit "Event"; lit "Site"; lit "Date"; lit "Round"; lit "White"; lit "Black";
        lit "Result"; lit "FEN"; lit "SetUp"] /\
     Tree.headers_get h (lit "FEN") = Some fen /\
     Tree.headers_get h (lit "SetUp") = Some (lit "1")) /\
  match Board.create fen with
  | Ret b =>
      exists r w', Tree.board (S depth) game w = (Ret r, w') /\ Tree.boardOf w' r = b
  | Thr e => Tree.board (S depth) game w = (Thr e, w)
  end /\
  (forall brd,
     fen = Board.fen brd -> inDataModel brd ->
     isSafe (Board.halfmoveClock brd) = true ->
     isSafe (Board.fullmoveNumber brd) = true ->
     Board.fullmoveNumber brd <> 0 ->
     Tree.node (Tree.nodes w) game = Tree.fromBoard brd /\
     exists w', Tree.nodeFen (S depth) game w = (Ret (Board.fen brd), w')).
Proof.
  intros Hn.
  assert (BV : Tree.boardValid (Tree.fromFen fen) = false) by reflexivity.
  assert (PA : Tree.parent (Tree.fromFen fen) = None) by reflexivity.
  assert (SF : Tree.getStartingFen (Tree.fromFen fen) = fen) by reflexivity.
  assert (B : match Board.create fen with
              | Ret b =>
                  exists r w', Tree.board (S depth) game w = (Ret r, w')
                               /\ Tree.boardOf w' r = b
              | Thr e => Tree.board (S depth) game w = (Thr e, w)
              end).
  { cbn [Tree.board]. rewrite Hn, BV, PA. unfold Tree.rootBoard. rewrite SF.
    destruct (Board.create fen) as [b|e]; [|reflexivity].
    unfold Tree.alloc, Tree.cacheAndReturn, Tree.alloc. cbn [Tree.boards Tree.nodes].
    eexists. eexists. split; [reflexivity|].
    unfold Tree.boardOf. cbn [Tree.boards].
    rewrite app_nth1 by (rewrite length_app; simpl; lia).
    rewrite app_nth2 by lia. rewrite Nat.sub_diag. reflexivity. }
  split; [|split; [exact B|]].
  - eexists. split; [reflexivity|]. repeat split; reflexivity.
  - intros brd -> Hdm Sh Sf Hf. split; [exact Hn|].
    destruct (create_reads_fen brd Hdm Sh Sf Hf) as (b' & C & _ & _ & _ & _ & _ & _ & _ & F).
    rewrite C in B. destruct B as (r & w' & Hb & Hr).
    exists w'. unfold Tree.nodeFen. rewrite Hb, Hr, F. reflexivity.
Qed.

Lemma fromFen_board_witness :
  let w := Tree.mkWorld [Tree.fromFen STARTING_FEN] [] in
  exists r w',
    Tree.board 1 0%nat w = (Ret r, w') /\
    Board.fen (Tree.boardOf w' r) = STARTING_FEN.
Proof.
  intros w.
  pose proof (fromFen_board w 0%nat STARTING_FEN 0%nat eq_refl) as (_ & B & _).
  assert (C : Board.create STARTING_FEN = Ret startBoard) by (vm_compute; reflexivity).
  rewrite C in B. destruct B as (r & w' & Hb & Hr).
  exists r, w'. split; [exact Hb|]. rewrite Hr. vm_compute. reflexivity.
Defined.

(** *** Changing the tree *)

Lemma update_overflow {A} (l : list A) (n : nat) (f : A -> A) :
  (length l <= n)%nat -> Tree.update l n f = l.
Proof.
  revert n; induction l as [|x l IH]; intros [|n] H; simpl in *; try lia; auto.
  rewrite IH by lia. reflexivity.
Qed.

Lemma node_update (s : Tree.Store) (i j : nat) (f : Tree.GameNode -> Tree.GameNode) :
  Tree.node (Tree.update s i f) j
  = if (Nat.eqb i j && Nat.ltb i (length s))%bool then f (Tree.node s j) else Tree.node s j.
Proof.
  unfold Tree.node. destruct (Nat.eqb i j) eqn:E.
  - apply Nat.eqb_eq in E. subst j. destruct (Nat.ltb i (length s)) eqn:L; simpl.
    + apply Nat.ltb_lt in L. apply update_nth_same, L.
    + apply Nat.ltb_ge in L. rewrite update_overflow by exact L. reflexivity.
  - simpl. apply Nat.eqb_neq in E. apply update_nth_other, E.
Qed.

Lemma node_update_same (s : Tree.Store) (i : nat) (f : Tree.GameNode -> Tree.GameNode) :
  (i < length s)%nat -> Tree.node (Tree.update s i f) i = f (Tree.node s i).
Proof.
  intros H. rewrite node_update, Nat.eqb_refl. apply Nat.ltb_lt in H. rewrite H. reflexivity.
Qed.

Lemma node_update_other (s : Tree.Store) (i j : nat) (f : Tree.GameNode -> Tree.GameNode) :
  i <> j -> Tree.node (Tree.update s i f) j = Tree.node s j.
Proof.
  intros H. rewrite node_update. apply Nat.eqb_neq in H. rewrite H. reflexivity.
Qed.

Lemma node_app_old (s extra : Tree.Store) (r : nat) :
  (r < length s)%nat -> Tree.node (s ++ extra) r = Tree.node s r.
Proof. intros H. unfold Tree.node. apply app_nth1, H. Qed.

Lemma node_app_new (s : Tree.Store) (n : Tree.GameNode) :
  Tree.node (s ++ [n]) (length s) = n.
Proof. unfold Tree.node. rewrite app_nth2 by lia. rewrite Nat.sub_diag. reflexivity. Qed.

Lemma update_update {A} (l : list A) (n : nat) (f g : A -> A) :
  Tree.update (Tree.update l n f) n g = Tree.update l n (fun x => g (f x)).
Proof.
  revert n; induction l as [|x l IH]; intros [|n]; simpl; auto. rewrite IH. reflexivity.
Qed.

Lemma update_id (s : Tree.Store) (n : nat) (f : Tree.GameNode -> Tree.GameNode) :
  f (Tree.node s n) = Tree.node s n -> Tree.update s n f = s.
Proof.
  unfold Tree.node. revert n; induction s as [|x s IH]; intros [|n] H; simpl in *; auto.
  - rewrite H. reflexivity.
  - rewrite IH by exact H. reflexivity.
Qed.

Lemma setVariations_same (n : Tree.GameNode) :
  Tree.setVariations (Tree.variations n) n = n.
Proof. destruct n; reflexivity. Qed.

(** Lists: the first place of an element, and writing at a place. *)
Lemma first_place (x : nat) (l : list nat) :
  In x l -> exists l1 l2, l = l1 ++ x :: l2 /\ ~ In x l1.
Proof.
  induction l as [|y l IH]; intros H; [destruct H|].
  destruct (Nat.eq_dec y x) as [->|Hne].
  - exists [], l. split; [reflexivity|intros []].
  - destruct H as [H|H]; [contradiction|].
    destruct (IH H) as (l1 & l2 & -> & Hn).
    exists (y :: l1), l2. split; [reflexivity|].
    intros [E|E]; [contradiction|exact (Hn E)].
Qed.

Lemma indexOf_from_first (x : nat) (l1 l2 : list nat) (i : Z) :
  ~ In x l1 -> indexOf_from Nat.eqb (l1 ++ x :: l2) x i = i + len l1.
Proof.
  revert i; induction l1 as [|y l1 IH]; intros i H; simpl.
  - rewrite Nat.eqb_refl. unfold len. simpl. lia.
  - destruct (Nat.eqb y x) eqn:E.
    + apply Nat.eqb_eq in E. exfalso. apply H. left. exact E.
    + rewrite IH by (intros Hin; apply H; right; exact Hin).
      unfold len. simpl length. lia.
Qed.

Lemma indexOf_first (x : nat) (l1 l2 : list nat) :
  ~ In x l1 -> indexOf Nat.eqb (l1 ++ x :: l2) x = len l1.
Proof. intros H. unfold indexOf. rewrite indexOf_from_first by exact H. lia. Qed.

Lemma indexOf_from_absent (x : nat) (l : list nat) (i : Z) :
  ~ In x l -> indexOf_from Nat.eqb l x i = -1.
Proof.
  revert i; induction l as [|y l IH]; intros i H; simpl; [reflexivity|].
  destruct (Nat.eqb y x) eqn:E.
  - apply Nat.eqb_eq in E. exfalso. apply H. left. exact E.
  - apply IH. intros Hin. apply H. right. exact Hin.
Qed.

Lemma writeAt_middle {A} (l1 l2 : list A) (a v : A) :
  Tree.writeAt (l1 ++ a :: l2) (length l1) v = l1 ++ v :: l2.
Proof. induction l1 as [|y l1 IH]; simpl; [reflexivity|]. rewrite IH. reflexivity. Qed.

Lemma removeAt_middle {A} (l1 l2 : list A) (a : A) :
  Tree.removeAt (l1 ++ a :: l2) (length l1) = l1 ++ l2.
Proof.
  unfold Tree.removeAt. induction l1 as [|y l1 IH]; simpl; [reflexivity|].
  f_equal. exact IH.
Qed.

Lemma find_app {A} (f : A -> bool) (l1 l2 : list A) :
  find f (l1 ++ l2) = match find f l1 with Some x => Some x | None => find f l2 end.
Proof.
  induction l1 as [|x l1 IH]; simpl; [reflexivity|]. destruct (f x); [reflexivity|exact IH].
Qed.

Lemma find_ext_on {A} (f g : A -> bool) (l : list A) :
  (forall x, In x l -> f x = g x) -> find f l = find g l.
Proof.
  induction l as [|x l IH]; intros H; simpl; [reflexivity|].
  rewrite (H x (or_introl eq_refl)). destruct (g x); [reflexivity|].
  apply IH. intros y Hy. apply H. right. exact Hy.
Qed.

Lemma existsb_find {A} (f : A -> bool) (l : list A) :
  existsb f l = match find f l with Some _ => true | None => false end.
Proof.
  induction l as [|x l IH]; simpl; [reflexivity|]. destruct (f x); [reflexivity|exact IH].
Qed.

Lemma move_equals_refl (m : Move.t) : Move.equals m m = true.
Proof. apply move_equals_eq. reflexivity. Qed.

(** The store after [addVariation]. *)
Lemma addVariation_nodes (s : Tree.Store) (this : Tree.NodeRef) (node : Tree.GameNode)
    (f : Tree.GameNode -> Tree.GameNode) :
  (this < length s)%nat ->
  let s' := Tree.update (s ++ [node]) this f in
  length s' = S (length s) /\
  Tree.node s' this = f (Tree.node s this) /\
  Tree.node s' (length s) = node /\
  (forall r, (r < length s)%nat -> r <> this -> Tree.node s' r = Tree.node s r).
Proof.
  intros H s'. unfold s'. split; [|split; [|split]].
  - rewrite update_length, length_app. simpl. lia.
  - rewrite node_update_same by (rewrite length_app; simpl; lia).
    rewrite node_app_old by exact H. reflexivity.
  - rewrite node_update_other by lia. apply node_app_new.
  - intros r Hr Hne. rewrite node_update_other by congruence. apply node_app_old, Hr.
Qed.

(** X28.  [addVariation(move)] appends a new node to the variations of the
    node, with that node as parent, the move, and no variations of its own,
    and changes no other node; afterwards [hasVariation(move)] holds and
    [variation(move)] is the first variation with that move: an older one if
    there was any, else the new node.  [removeVariation] of the new node
    gives the node its former variations back and leaves the new node
    without parent.  [addMainVariation(move)] puts the new node in front: it
    is then [next()], the main variation, and what [variation(move)]
    returns. *)
Theorem addVariation_lookup (s : Tree.Store) (this : Tree.NodeRef) (m : Move.t)
    (options : option Tree.VariationOptions) :
  (this < length s)%nat -> childrenInside s this ->
  (let '(child, s') := Tree.addVariation s this m options in
   child = length s /\ length s' = S (length s) /\
   Tree.variations (Tree.node s' this) = Tree.variations (Tree.node s this) ++ [child] /\
   Tree.parent (Tree.node s' child) = Some this /\
   Tree.move (Tree.node s' child) = Some m /\
   Tree.variations (Tree.node s' child) = [] /\
   (forall r, (r < length s)%nat -> r <> this -> Tree.node s' r = Tree.node s r) /\
   Tree.hasVariation s' this m = true /\
   Tree.variation s' this m
   = Some (match Tree.variation s this m with Some v => v | None => child end) /\
   let s2 := Tree.removeVariation s' this child in
   Tree.variations (Tree.node s2 this) = Tree.variations (Tree.node s this) /\
   Tree.parent (Tree.node s2 child) = None /\
   (forall r, (r < length s)%nat -> r <> this -> Tree.node s2 r = Tree.node s r))
  /\
  (let '(child, s') := Tree.addMainVariation s this m in
   child = length s /\ length s' = S (length s) /\
   Tree.variations (Tree.node s' this) = child :: Tree.variations (Tree.node s this) /\
   Tree.parent (Tree.node s' child) = Some this /\
   Tree.move (Tree.node s' child) = Some m /\
   (forall r, (r < length s)%nat -> r <> this -> Tree.node s' r = Tree.node s r) /\
   Tree.next s' this = Some child /\
   Tree.isMainVariation s' child = true /\
   Tree.variation s' this m = Some child).
Proof.
  intros Hthis Hin. split.
  - unfold Tree.addVariation.
    destruct (addVariation_nodes s this (Tree.variationNode this m options)
                (Tree.pushVariation (length s)) Hthis) as (L & T & N & O).
    set (s' := Tree.update _ this _) in *. cbv zeta in L, T, N, O.
    set (vs := Tree.variations (Tree.node s this)) in *.
    assert (V : Tree.variations (Tree.node s' this) = vs ++ [length s])
      by (rewrite T; reflexivity).
    assert (Hnew : ~ In (length s) vs) by (intros H; apply Hin in H; lia).
    assert (HM : forall v, In v vs -> Tree.hasMove s' m v = Tree.hasMove s m v).
    { intros v Hv. unfold Tree.hasMove. destruct (Nat.eq_dec v this) as [->|Hne].
      - rewrite T. reflexivity.
      - rewrite O; [reflexivity|apply Hin, Hv|exact Hne]. }
    assert (HN : Tree.hasMove s' m (length s) = true).
    { unfold Tree.hasMove. rewrite N. simpl. apply move_equals_refl. }
    assert (F : Tree.variation s' this m
                = Some (match Tree.variation s this m with
                        | Some v => v | None => length s end)).
    { unfold Tree.variation. rewrite V, find_app. fold vs.
      rewrite (find_ext_on _ _ vs HM).
      destruct (find (Tree.hasMove s m) vs); [reflexivity|].
      simpl. rewrite HN. reflexivity. }
    split; [reflexivity|]. split; [exact L|]. split; [exact V|].
    split; [rewrite N; reflexivity|]. split; [rewrite N; reflexivity|].
    split; [rewrite N; reflexivity|]. split; [exact O|].
    split; [|split; [exact F|]].
    + unfold Tree.hasVariation. rewrite existsb_find.
      unfold Tree.variation in F. rewrite F. reflexivity.
    + cbv zeta. unfold Tree.removeVariation. rewrite V. unfold Tree.NodeRef.
      rewrite (indexOf_first (length s) vs [] Hnew).
      assert (E : negb (@len nat vs =? -1) = true).
      { apply negb_true_iff, Z.eqb_neq. unfold len. lia. }
      rewrite E. unfold len. rewrite Nat2Z.id.
      assert (Hlt : (this < length s')%nat) by lia.
      split; [|split].
      * rewrite node_update_other by lia. rewrite node_update_same by exact Hlt.
        simpl. rewrite V. rewrite removeAt_middle, app_nil_r. reflexivity.
      * rewrite node_update_same by (rewrite update_length; lia). reflexivity.
      * intros r Hr Hne. rewrite node_update_other by lia.
        rewrite node_update_other by congruence. apply O; assumption.
  - unfold Tree.addMainVariation.
    destruct (addVariation_nodes s this (Tree.variationNode this m None)
                (fun n => Tree.setVariations (length s :: Tree.variations n) n) Hthis)
      as (L & T & N & O).
    set (s' := Tree.update _ this _) in *. cbv zeta in L, T, N, O.
    assert (V : Tree.variations (Tree.node s' this)
                = length s :: Tree.variations (Tree.node s this))
      by (rewrite T; reflexivity).
    split; [reflexivity|]. split; [exact L|]. split; [exact V|].
    split; [rewrite N; reflexivity|]. split; [rewrite N; reflexivity|].
    split; [exact O|]. split; [|split].
    + unfold Tree.next. rewrite V. reflexivity.
    + unfold Tree.isMainVariation. rewrite N. simpl. rewrite V. simpl.
      apply Nat.eqb_refl.
    + unfold Tree.variation. rewrite V. simpl.
      unfold Tree.hasMove at 1. rewrite N. simpl. rewrite move_equals_refl. reflexivity.
Qed.

Lemma addVariation_lookup_witness :
  let s := [Tree.newGame] in
  let m := Move.mk 12 28 None None in
  Tree.hasVariation (snd (Tree.addVariation s 0%nat m None)) 0%nat m = true.
Proof.
  intros s m.
  pose proof (proj1 (addVariation_lookup s 0%nat m None ltac:(simpl; lia)
                       ltac:(intros v [])))
    as H.
  exact (proj1 (proj2 (proj2 (proj2 (proj2 (proj2 (proj2 (proj2 H)))))))).
Defined.

(** *** The order of the variations *)

Lemma indexOf_second (x a : nat) (l0 l2 : list nat) :
  ~ In x l0 -> a <> x -> indexOf Nat.eqb (l0 ++ a :: x :: l2) x = len l0 + 1.
Proof.
  intros H Ha.
  replace (l0 ++ a :: x :: l2) with ((l0 ++ [a]) ++ x :: l2)
    by (rewrite <- app_assoc; reflexivity).
  rewrite indexOf_first.
  - unfold len. rewrite length_app. simpl. lia.
  - intros Hin. apply in_app_or in Hin. destruct Hin as [Hin|[E|[]]]; [exact (H Hin)|].
    exact (Ha E).
Qed.

Lemma swap_up {A} (l0 l2 : list A) (a b : A) :
  Tree.writeAt (Tree.writeAt (l0 ++ a :: b :: l2) (length l0) b) (S (length l0)) a
  = l0 ++ b :: a :: l2.
Proof. induction l0 as [|y l0 IH]; simpl; [reflexivity|]. f_equal. exact IH. Qed.

Lemma swap_down {A} (l0 l2 : list A) (a b : A) :
  Tree.writeAt (Tree.writeAt (l0 ++ a :: b :: l2) (S (length l0)) a) (length l0) b
  = l0 ++ b :: a :: l2.
Proof. induction l0 as [|y l0 IH]; simpl; [reflexivity|]. f_equal. exact IH. Qed.

Lemma nth_second {A} (l0 l2 : list A) (a b d : A) :
  nth (S (length l0)) (l0 ++ a :: b :: l2) d = b.
Proof. induction l0 as [|y l0 IH]; simpl; [reflexivity|exact IH]. Qed.

Lemma setVariations_twice (vs : list nat) (n : Tree.GameNode) :
  Tree.setVariations (Tree.variations n) (Tree.setVariations vs n) = n.
Proof. destruct n; reflexivity. Qed.

(** [promote()] swaps the node with the variation before it. *)
Lemma promote_swap (s : Tree.Store) (this p prev : nat)
    (l0 l2 : list nat) :
  Tree.parent (Tree.node s this) = Some p ->
  Tree.variations (Tree.node s p) = l0 ++ prev :: this :: l2 ->
  ~ In this l0 -> prev <> this ->
  Tree.promote s this = Tree.update s p (Tree.setVariations (l0 ++ this :: prev :: l2)).
Proof.
  intros Hp Hv Hn Hne. unfold Tree.promote. rewrite Hp, Hv. unfold Tree.NodeRef.
  rewrite (indexOf_second this prev l0 l2 Hn Hne).
  assert (E : (len l0 + 1 >? 0) = true) by (apply Z.gtb_lt; unfold len; lia).
  rewrite E.
  replace (Z.to_nat (len l0 + 1 - 1)) with (length l0) by (unfold len; lia).
  replace (Z.to_nat (len l0 + 1)) with (S (length l0)) by (unfold len; lia).
  rewrite nth_middle, swap_up. reflexivity.
Qed.

(** [demote()] swaps the node with the variation after it. *)
Lemma demote_swap (s : Tree.Store) (this p nxt : nat)
    (l0 l2 : list nat) :
  Tree.parent (Tree.node s this) = Some p ->
  Tree.variations (Tree.node s p) = l0 ++ this :: nxt :: l2 ->
  ~ In this l0 ->
  Tree.demote s this = Tree.update s p (Tree.setVariations (l0 ++ nxt :: this :: l2)).
Proof.
  intros Hp Hv Hn. unfold Tree.demote. rewrite Hp, Hv. unfold Tree.NodeRef.
  rewrite (indexOf_first this l0 (nxt :: l2) Hn).
  assert (E : ((len l0 >=? 0) && (len l0 <? len (l0 ++ this :: nxt :: l2) - 1)) = true).
  { apply andb_true_iff. split; [apply Z.geb_le|apply Z.ltb_lt];
      unfold len; try rewrite length_app; simpl; lia. }
  rewrite E.
  replace (Z.to_nat (len l0 + 1)) with (S (length l0)) by (unfold len; lia).
  replace (Z.to_nat (len l0)) with (length l0) by (unfold len; lia).
  rewrite nth_second, swap_down. reflexivity.
Qed.

(** A store whose node [p] got other variations, and got the old ones back. *)
Lemma variations_restored (s : Tree.Store) (p : nat) (vs : list nat) :
  Tree.update (Tree.update s p (Tree.setVariations vs)) p
              (Tree.setVariations (Tree.variations (Tree.node s p))) = s.
Proof.
  rewrite update_update. apply update_id. apply setVariations_twice.
Qed.

Lemma node_setVariations (s : Tree.Store) (p r : nat) (vs : list nat) :
  let s1 := Tree.update s p (Tree.setVariations vs) in
  Tree.parent (Tree.node s1 r) = Tree.parent (Tree.node s r) /\
  Tree.move (Tree.node s1 r) = Tree.move (Tree.node s r) /\
  (r <> p -> Tree.node s1 r = Tree.node s r) /\
  ((p < length s)%nat -> Tree.variations (Tree.node s1 p) = vs).
Proof.
  intros s1. unfold s1. split; [|split; [|split]].
  - rewrite node_update. destruct (_ && _)%bool; reflexivity.
  - rewrite node_update. destruct (_ && _)%bool; reflexivity.
  - intros H. apply node_update_other. congruence.
  - intros H. rewrite node_update_same by exact H. reflexivity.
Qed.

(** X29.  The order of the variations.  For a node that stands once among
    the variations of its parent: [promote()] swaps it with the variation
    before it and [demote()] with the one after it, each undoing the other;
    at the front [promote()] and [promoteToMain()] change nothing, and at
    the end [demote()] changes nothing; [promoteToMain()] moves the node to
    the front and keeps the order of the others, and the node is then the
    main variation.  No node but the parent is changed. *)
Theorem variation_order (s : Tree.Store) (this p : nat)
    (before after : list nat) :
  Tree.parent (Tree.node s this) = Some p ->
  (p < length s)%nat ->
  Tree.variations (Tree.node s p) = before ++ this :: after ->
  NoDup (Tree.variations (Tree.node s p)) ->
  (before = [] -> Tree.promote s this = s /\ Tree.promoteToMain s this = s) /\
  (forall front prev, before = front ++ [prev] ->
     Tree.variations (Tree.node (Tree.promote s this) p) = front ++ this :: prev :: after /\
     Tree.demote (Tree.promote s this) this = s /\
     Tree.variations (Tree.node (Tree.promoteToMain s this) p) = this :: before ++ after) /\
  (after = [] -> Tree.demote s this = s) /\
  (forall nxt rest, after = nxt :: rest ->
     Tree.variations (Tree.node (Tree.demote s this) p) = before ++ nxt :: this :: rest /\
     Tree.promote (Tree.demote s this) this = s) /\
  Tree.isMainVariation (Tree.promoteToMain s this) this = true /\
  (forall r, r <> p ->
     Tree.node (Tree.promote s this) r = Tree.node s r /\
     Tree.node (Tree.demote s this) r = Tree.node s r /\
     Tree.node (Tree.promoteToMain s this) r = Tree.node s r).
Proof.
  intros Hp Hlt Hv ND. rewrite Hv in ND.
  assert (Hb : ~ In this before).
  { apply NoDup_remove_2 in ND. intros H. apply ND, in_or_app. left. exact H. }
  assert (Ha : ~ In this after).
  { apply NoDup_remove_2 in ND. intros H. apply ND, in_or_app. right. exact H. }
  assert (Ix : indexOf Nat.eqb (before ++ this :: after) this = len before)
    by (apply indexOf_first, Hb).
  assert (Main : Tree.promoteToMain s this
                 = if len before >? 0
                   then Tree.update s p (Tree.setVariations (this :: before ++ after))
                   else s).
  { unfold Tree.promoteToMain. rewrite Hp, Hv. unfold Tree.NodeRef. rewrite Ix.
    destruct (len before >? 0); [|reflexivity].
    replace (Z.to_nat (len before)) with (length before) by (unfold len; lia).
    rewrite removeAt_middle. reflexivity. }
  split; [|split; [|split; [|split; [|split]]]].
  - intros ->. split.
    + unfold Tree.promote. rewrite Hp, Hv. unfold Tree.NodeRef. rewrite Ix. reflexivity.
    + rewrite Main. reflexivity.
  - intros front prev ->.
    assert (Hf : ~ In this front) by (intros H; apply Hb, in_or_app; left; exact H).
    assert (Hne : prev <> this).
    { intros ->. apply Hb, in_or_app. right. left. reflexivity. }
    assert (Hv' : Tree.variations (Tree.node s p) = front ++ prev :: this :: after)
      by (rewrite Hv, <- app_assoc; reflexivity).
    rewrite (promote_swap s this p prev front after Hp Hv' Hf Hne).
    destruct (node_setVariations s p this (front ++ this :: prev :: after))
      as (P1 & _ & _ & _).
    destruct (node_setVariations s p p (front ++ this :: prev :: after))
      as (_ & _ & _ & V1).
    cbv zeta in P1, V1. specialize (V1 Hlt).
    split; [exact V1|]. split.
    + rewrite (demote_swap _ this p prev front after); [|rewrite P1; exact Hp|exact V1|exact Hf].
      rewrite <- Hv'. apply variations_restored.
    + rewrite Main.
      assert (E : (len (front ++ [prev]) >? 0) = true).
      { apply Z.gtb_lt. unfold len. rewrite length_app. simpl. lia. }
      rewrite E. exact (proj2 (proj2 (proj2 (node_setVariations s p p _))) Hlt).
  - intros ->. unfold Tree.demote. rewrite Hp, Hv. unfold Tree.NodeRef. rewrite Ix.
    assert (E : ((len before >=? 0) && (len before <? len (before ++ [this]) - 1)) = false).
    { apply andb_false_iff. right. apply Z.ltb_ge.
      unfold len. rewrite length_app. simpl. lia. }
    rewrite E. reflexivity.
  - intros nxt rest ->.
    assert (Hne : nxt <> this).
    { intros ->. apply Ha. left. reflexivity. }
    rewrite (demote_swap s this p nxt before rest Hp Hv Hb).
    destruct (node_setVariations s p this (before ++ nxt :: this :: rest))
      as (P1 & _ & _ & _).
    destruct (node_setVariations s p p (before ++ nxt :: this :: rest))
      as (_ & _ & _ & V1).
    cbv zeta in P1, V1. specialize (V1 Hlt).
    split; [exact V1|].
    rewrite (promote_swap _ this p nxt before rest); [|rewrite P1; exact Hp|exact V1|exact Hb|exact Hne].
    rewrite <- Hv. apply variations_restored.
  - unfold Tree.isMainVariation. rewrite Main.
    destruct (len before >? 0) eqn:E.
    + destruct (node_setVariations s p this (this :: before ++ after)) as (P1 & _ & _ & _).
      destruct (node_setVariations s p p (this :: before ++ after)) as (_ & _ & _ & V1).
      cbv zeta in P1, V1. rewrite P1, Hp, (V1 Hlt). simpl. apply Nat.eqb_refl.
    + rewrite Hp, Hv. destruct before as [|b before]; [simpl; apply Nat.eqb_refl|].
      rewrite Z.gtb_ltb in E. apply Z.ltb_ge in E. unfold len in E. simpl length in E. lia.
  - intros r Hr.
    assert (K : forall vs, Tree.node (Tree.update s p (Tree.setVariations vs)) r = Tree.node s r)
      by (intros vs; apply node_update_other; congruence).
    split; [|split].
    + unfold Tree.promote. rewrite Hp, Hv. unfold Tree.NodeRef. rewrite Ix.
      destruct (len before >? 0); [apply K|reflexivity].
    + unfold Tree.demote. rewrite Hp, Hv. unfold Tree.NodeRef. rewrite Ix.
      destruct ((len before >=? 0) && _); [apply K|reflexivity].
    + rewrite Main. destruct (len before >? 0); [apply K|reflexivity].
Qed.

Lemma variation_order_witness :
  let s1 := snd (Tree.addVariation [Tree.newGame] 0%nat (Move.mk 12 28 None None) None) in
  let s := snd (Tree.addVariation s1 0%nat (Move.mk 11 27 None None) None) in
  Tree.variations (Tree.node s 0%nat) = [1%nat; 2%nat] /\
  Tree.variations (Tree.node (Tree.promote s 2%nat) 0%nat) = [2%nat; 1%nat] /\
  Tree.demote (Tree.promote s 2%nat) 2%nat = s.
Proof.
  intros s1 s.
  assert (L : (0 < length s)%nat) by (vm_compute; lia).
  assert (V : Tree.variations (Tree.node s 0%nat) = [1%nat] ++ 2%nat :: []) by reflexivity.
  assert (ND : NoDup (Tree.variations (Tree.node s 0%nat))).
  { rewrite V. simpl. constructor; [intros [E|[]]; discriminate|].
    constructor; [intros []|constructor]. }
  destruct (variation_order s 2%nat 0%nat [1%nat] [] eq_refl L V ND) as (_ & P & _).
  destruct (P [] 1%nat eq_refl) as (P1 & P2 & _).
  split; [reflexivity|]. split; [exact P1|exact P2].
Defined.

(** *** Lines *)

(** The walks along the first variation and along the parent depend on the
    variations and parents only. *)
Lemma mainlineFrom_ext (s1 s2 : Tree.Store) :
  (forall r, Tree.variations (Tree.node s1 r) = Tree.variations (Tree.node s2 r)) ->
  forall turns nd, Tree.mainlineFrom turns s1 nd = Tree.mainlineFrom turns s2 nd.
Proof.
  intros H. induction turns as [|turns IH]; intros [n|]; simpl; try reflexivity.
  f_equal. unfold Tree.next. rewrite H. apply IH.
Qed.

Lemma end_ext (s1 s2 : Tree.Store) :
  (forall r, Tree.variations (Tree.node s1 r) = Tree.variations (Tree.node s2 r)) ->
  forall turns nd, Tree.end_ turns s1 nd = Tree.end_ turns s2 nd.
Proof.
  intros H. induction turns as [|turns IH]; intros nd; simpl; [reflexivity|].
  rewrite H. destruct (Tree.variations (Tree.node s2 nd)); [reflexivity|apply IH].
Qed.

Lemma plyLoop_ext (s1 s2 : Tree.Store) :
  (forall r, Tree.parent (Tree.node s1 r) = Tree.parent (Tree.node s2 r)) ->
  forall turns nd c, Tree.plyLoop turns s1 nd c = Tree.plyLoop turns s2 nd c.
Proof.
  intros H. induction turns as [|turns IH]; intros nd c; simpl; [reflexivity|].
  rewrite H. destruct (Tree.parent (Tree.node s2 nd)); [apply IH|reflexivity].
Qed.

(** In a store whose parents are nodes of the store, [ply()] of an old node
    does not see the nodes that are added. *)
Lemma plyLoop_stable (s s' : Tree.Store) :
  parentsInside s ->
  (forall r, (r < length s)%nat ->
     Tree.parent (Tree.node s' r) = Tree.parent (Tree.node s r)) ->
  forall turns nd c, (nd < length s)%nat ->
    Tree.plyLoop turns s' nd c = Tree.plyLoop turns s nd c.
Proof.
  intros Hin H. induction turns as [|turns IH]; intros nd c Hnd; simpl; [reflexivity|].
  rewrite (H nd Hnd). destruct (Tree.parent (Tree.node s nd)) as [p|] eqn:E; [|reflexivity].
  apply IH. apply (Hin nd p Hnd E).
Qed.

Lemma plyLoop_shift (s : Tree.Store) (d : Z) :
  forall turns nd c k,
    Tree.plyLoop turns s nd c = Some k -> Tree.plyLoop turns s nd (c + d) = Some (k + d).
Proof.
  induction turns as [|turns IH]; intros nd c k H; simpl in *; [discriminate|].
  destruct (Tree.parent (Tree.node s nd)) as [p|].
  - replace (c + d + 1) with (c + 1 + d) by lia. apply IH, H.
  - injection H as <-. reflexivity.
Qed.

Lemma moves_of_nodes (s : Tree.Store) (l : list Tree.NodeRef) (moves : list Move.t) :
  map (fun r => Tree.move (Tree.node s r)) l = map Some moves ->
  flat_map (fun n => match Tree.move (Tree.node s n) with Some m => [m] | None => [] end) l
  = moves.
Proof.
  revert moves; induction l as [|r l IH]; intros [|m moves] H; simpl in *;
    try discriminate; [reflexivity|].
  injection H as H1 H2. rewrite H1. simpl. f_equal. apply IH, H2.
Qed.

(** The loop of [addLine]: a chain of new nodes below [nd]. *)
Lemma addLineLoop_chain (sc : option jsstr) (moves : list Move.t) :
  forall (s : Tree.Store) (nd : Tree.NodeRef) (first : bool),
    (nd < length s)%nat -> Tree.variations (Tree.node s nd) = [] ->
    let '(last, s') := Tree.addLineLoop s nd first sc moves in
    length s' = (length s + length moves)%nat /\
    (forall r, (r < length s)%nat -> r <> nd -> Tree.node s' r = Tree.node s r) /\
    Tree.parent (Tree.node s' nd) = Tree.parent (Tree.node s nd) /\
    Tree.move (Tree.node s' nd) = Tree.move (Tree.node s nd) /\
    (forall turns, (length moves <= turns)%nat ->
       Tree.mainlineFrom turns s' (Tree.next s' nd) = seq (length s) (length moves)) /\
    map (fun r => Tree.move (Tree.node s' r)) (seq (length s) (length moves))
    = map Some moves /\
    (forall turns, (length moves <= turns)%nat -> Tree.end_ (S turns) s' nd = Some last) /\
    (forall turns c,
       Tree.plyLoop (length moves + turns) s' last c
       = Tree.plyLoop turns s' nd (c + len moves)) /\
    last = match moves with
           | [] => nd
           | _ :: _ => (length s + length moves - 1)%nat
           end /\
    Tree.variations (Tree.node s' last) = [].
Proof.
  induction moves as [|m rest IH]; intros s nd first Hnd Hv.
  - simpl. rewrite Nat.add_0_r. split; [reflexivity|]. split; [reflexivity|].
    split; [reflexivity|]. split; [reflexivity|]. split; [|split; [reflexivity|]].
    + intros turns _. unfold Tree.next. rewrite Hv. destruct turns; reflexivity.
    + split; [intros turns _; simpl; rewrite Hv; reflexivity|].
      split; [|split; [reflexivity|exact Hv]].
      intros turns c. unfold len. simpl. rewrite Z.add_0_r. reflexivity.
  - cbn [Tree.addLineLoop].
    set (marked := (first && _)%bool).
    set (childNode := Tree.variationNode nd m _).
    destruct (addVariation_nodes s nd childNode (Tree.pushVariation (length s)) Hnd)
      as (L & T & N & O).
    set (s1 := Tree.update (s ++ [childNode]) nd (Tree.pushVariation (length s))) in *.
    cbv zeta in L, T, N, O.
    assert (Hn : (length s < length s1)%nat) by lia.
    assert (Hvn : Tree.variations (Tree.node s1 (length s)) = []) by (rewrite N; reflexivity).
    specialize (IH s1 (length s) (if marked then false else first) Hn Hvn).
    destruct (Tree.addLineLoop s1 (length s) _ sc rest) as [last s'].
    destruct IH as (I1 & I2 & I3 & I4 & I5 & I6 & I7 & I8 & I9 & I10).
    assert (Hnd' : Tree.node s' nd = Tree.pushVariation (length s) (Tree.node s nd)).
    { rewrite I2 by lia. exact T. }
    assert (Hnext : Tree.next s' nd = Some (length s)).
    { unfold Tree.next. rewrite Hnd'. simpl. rewrite Hv. reflexivity. }
    assert (Hpar : Tree.parent (Tree.node s' (length s)) = Some nd)
      by (rewrite I3, N; reflexivity).
    rewrite L in *.
    split; [simpl; lia|]. split.
    { intros r Hr Hne. rewrite I2 by lia. apply O; assumption. }
    split; [rewrite Hnd'; reflexivity|]. split; [rewrite Hnd'; reflexivity|].
    split; [|split; [|split; [|split; [|split]]]].
    + intros turns Ht. rewrite Hnext. destruct turns as [|turns]; [simpl in Ht; lia|].
      simpl. f_equal. apply I5. simpl in Ht. lia.
    + simpl. rewrite I4, N. simpl. f_equal. exact I6.
    + intros turns Ht. destruct turns as [|turns]; [simpl in Ht; lia|].
      cbn [Tree.end_]. rewrite Hnd'. simpl. rewrite Hv. simpl.
      apply I7. simpl in Ht. lia.
    + intros turns c.
      replace (length (m :: rest) + turns)%nat with (length rest + S turns)%nat
        by (simpl; lia).
      rewrite I8. cbn [Tree.plyLoop]. rewrite Hpar. f_equal.
      unfold len. simpl length. lia.
    + rewrite I9. destruct rest; simpl; lia.
    + exact I10.
Qed.

(** X30.  [addLine(moves)] on a node without variations hangs the moves
    below it as one line, in new nodes and without changing another node: the
    mainline from the node is then the new nodes, [mainlineMoves()] gives the
    moves back in order, [end()] is the node returned, which has no
    variations, and its [ply()] is that of the node plus the number of
    moves.  For no moves it returns the node itself. *)
Theorem addLine_mainline (s : Tree.Store) (this : Tree.NodeRef) (moves : list Move.t)
    (options : option Tree.VariationOptions) :
  (this < length s)%nat ->
  Tree.variations (Tree.node s this) = [] ->
  parentsInside s ->
  let '(nd, s') := Tree.addLine s this moves options in
  length s' = (length s + length moves)%nat /\
  nd = match moves with
       | [] => this
       | _ :: _ => (length s + length moves - 1)%nat
       end /\
  (forall r, (r < length s)%nat -> r <> this -> Tree.node s' r = Tree.node s r) /\
  (forall turns, (length moves <= turns)%nat ->
     Tree.mainline turns s' this = seq (length s) (length moves) /\
     Tree.mainlineMoves turns s' this = moves /\
     Tree.end_ (S turns) s' this = Some nd) /\
  Tree.isEnd s' nd = true /\
  (forall turns k,
     Tree.ply turns s this = Some k ->
     Tree.ply (length moves + turns) s' nd = Some (k + len moves)).
Proof.
  intros Hthis Hv Hin.
  pose proof (addLineLoop_chain
                (match options with Some o => Tree.o_startingComment o | None => None end)
                moves s this true Hthis Hv) as C.
  unfold Tree.addLine.
  destruct (Tree.addLineLoop s this true _ moves) as [nd s1].
  destruct C as (C1 & C2 & C3 & C4 & C5 & C6 & C7 & C8 & C9 & C10).
  assert (Hnd : (nd < length s1)%nat).
  { rewrite C1, C9. destruct moves; simpl; lia. }
  assert (G : forall s',
            length s' = length s1 ->
            (forall r, Tree.parent (Tree.node s' r) = Tree.parent (Tree.node s1 r)) ->
            (forall r, Tree.move (Tree.node s' r) = Tree.move (Tree.node s1 r)) ->
            (forall r, Tree.variations (Tree.node s' r) = Tree.variations (Tree.node s1 r)) ->
            (forall r, r <> nd -> Tree.node s' r = Tree.node s1 r) ->
            length s' = (length s + length moves)%nat /\
            nd = match moves with
                 | [] => this
                 | _ :: _ => (length s + length moves - 1)%nat
                 end /\
            (forall r, (r < length s)%nat -> r <> this -> Tree.node s' r = Tree.node s r) /\
            (forall turns, (length moves <= turns)%nat ->
               Tree.mainline turns s' this = seq (length s) (length moves) /\
               Tree.mainlineMoves turns s' this = moves /\
               Tree.end_ (S turns) s' this = Some nd) /\
            Tree.isEnd s' nd = true /\
            (forall turns k,
               Tree.ply turns s this = Some k ->
               Tree.ply (length moves + turns) s' nd = Some (k + len moves))).
  { intros s' HL HP HM HV HO.
    split; [lia|]. split; [exact C9|]. split; [|split; [|split]].
    - intros r Hr Hne. destruct (Nat.eq_dec r nd) as [->|Hrn].
      + exfalso. rewrite C9 in Hr. destruct moves; [apply Hne; exact C9|simpl in Hr; lia].
      + rewrite HO by exact Hrn. apply C2; assumption.
    - intros turns Ht.
      assert (ML : Tree.mainline turns s' this = seq (length s) (length moves)).
      { unfold Tree.mainline, Tree.next. rewrite HV.
        rewrite (mainlineFrom_ext s' s1 HV). apply C5, Ht. }
      split; [exact ML|]. split.
      + unfold Tree.mainlineMoves. rewrite ML. apply moves_of_nodes.
        rewrite <- C6. apply map_ext. intros r. apply HM.
      + rewrite (end_ext s' s1 HV). apply C7, Ht.
    - unfold Tree.isEnd. rewrite HV, C10. reflexivity.
    - intros turns k Hk. unfold Tree.ply in *.
      rewrite (plyLoop_ext s' s1 HP), C8.
      assert (St : forall r, (r < length s)%nat ->
                     Tree.parent (Tree.node s1 r) = Tree.parent (Tree.node s r)).
      { intros r Hr. destruct (Nat.eq_dec r this) as [->|Hne]; [exact C3|].
        rewrite C2 by assumption. reflexivity. }
      rewrite (plyLoop_stable s s1 Hin St _ _ _ Hthis).
      apply (plyLoop_shift s (len moves) turns this 0 k Hk). }
  assert (Keep : forall c,
            let s' := Tree.update s1 nd (Tree.setComment c) in
            length s' = length s1 /\
            (forall r, Tree.parent (Tree.node s' r) = Tree.parent (Tree.node s1 r)) /\
            (forall r, Tree.move (Tree.node s' r) = Tree.move (Tree.node s1 r)) /\
            (forall r, Tree.variations (Tree.node s' r) = Tree.variations (Tree.node s1 r)) /\
            (forall r, r <> nd -> Tree.node s' r = Tree.node s1 r)).
  { intros c s'. unfold s'. split; [apply update_length|].
    split; [|split; [|split]]; intros r; try (intros Hne);
      rewrite node_update; try (destruct (_ && _)%bool; reflexivity).
    apply Nat.eqb_neq in Hne. rewrite Nat.eqb_sym in Hne. rewrite Hne. reflexivity. }
  destruct options as [o|].
  - destruct (Tree.nonEmpty (Tree.o_comment o)) as [c|].
    + destruct (Keep c) as (K1 & K2 & K3 & K4 & K5). apply G; assumption.
    + apply G; auto.
  - apply G; auto.
Qed.

Lemma addLine_mainline_witness :
  let line := [Move.mk 12 28 None None; Move.mk 52 36 None None; Move.mk 6 21 None None] in
  let '(nd, s') := Tree.addLine [Tree.newGame] 0%nat line None in
  nd = 3%nat /\
  Tree.mainlineMoves 3 s' 0%nat = line /\
  Tree.end_ 4 s' 0%nat = Some nd /\
  Tree.ply 4 s' nd = Some 3.
Proof.
  intros line.
  assert (P : parentsInside [Tree.newGame]).
  { intros r p Hr. simpl in Hr. assert (r = 0%nat) as -> by lia. discriminate. }
  pose proof (addLine_mainline [Tree.newGame] 0%nat line None
                ltac:(simpl; lia) eq_refl P) as H.
  destruct (Tree.addLine [Tree.newGame] 0%nat line None) as [nd s'].
  destruct H as (_ & H2 & _ & H4 & _ & H6).
  destruct (H4 3%nat ltac:(simpl; lia)) as (_ & M & E).
  split; [exact H2|]. split; [exact M|]. split; [exact E|].
  exact (H6 1%nat 0 eq_refl).
Defined.
